(** * Maze.js: grid mazes, three randomized generators and a path solver

    A shallow embedding of [Maze.js] and a verification of its documented
    behaviour.  JavaScript objects live in an explicit store ([World]): cells,
    doors and maze objects are referred to by their index in the store, so
    that the sharing of one [Door] object between the maze's [doors] array and
    the [doors] maps of its two cells is kept, and so is object identity
    ([===]).  [Math.random] reads an arbitrary, fixed sequence of numbers of
    [[0,1)]; every theorem quantifies over that sequence.  [while] loops take
    a bound on their number of iterations ([fuel]). *)

From stdpp Require Import base option list strings relations.
From Stdlib Require Import Lia.

Local Open Scope string_scope.
Local Open Scope list_scope.
Local Open Scope nat_scope.

(** ** Outcomes and the state monad *)

(** JavaScript exceptions: a [TypeError] of the runtime (a property read on
    [undefined]) or an [Error] made by [new Error(msg)]. *)
Inductive exn : Type :=
| TypeError
| Error (msg : string).

(** [Stuck] marks the border of the model: an index outside an array or a
    missing [Map] key where the source would go on with [undefined], or a
    reference to an object that is not in the store.  [OutOfFuel] is a loop
    cut short by the bound on its iterations. *)
Inductive result (St A : Type) : Type :=
| Ok (a : A) (s : St)
| Throw (e : exn) (s : St)
| OutOfFuel
| Stuck.
Arguments Ok {St A} a s.
Arguments Throw {St A} e s.
Arguments OutOfFuel {St A}.
Arguments Stuck {St A}.

Definition M (St A : Type) : Type := St → result St A.

Global Instance M_ret {St} : MRet (M St) := λ A a s, Ok a s.
Global Instance M_bind {St} : MBind (M St) := λ A B f m s,
  match m s with
  | Ok a s' => f a s'
  | Throw e s' => Throw e s'
  | OutOfFuel => OutOfFuel
  | Stuck => Stuck
  end.

Definition throw {St A} (e : exn) : M St A := λ s, Throw e s.
Definition out_of_fuel {St A} : M St A := λ _, OutOfFuel.
Definition stuck {St A} : M St A := λ _, Stuck.
Definition get {St} : M St St := λ s, Ok s s.
Definition put {St} (s : St) : M St unit := λ _, Ok () s.

(** Reading the state with a partial function; [None] is outside the model. *)
Definition reads {St A} (f : St → option A) : M St A := λ s,
  match f s with Some a => Ok a s | None => Stuck end.

(** [arr[i]] for an index the source keeps inside the array. *)
Definition index {St A} (arr : list A) (i : nat) : M St A :=
  reads (λ _, arr !! i).

Fixpoint foldM {St A B} (f : B → A → M St B) (b : B) (l : list A) : M St B :=
  match l with
  | [] => mret b
  | a :: l => b' ← f b a; foldM f b' l
  end.

(** ** JavaScript containers *)

(** An object used as a map, or a [Map]: keys in insertion order; writing an
    existing key keeps its place. *)
Section Objects.
Context {K V : Type} `{EqDecision K}.

Fixpoint obj_get (k : K) (o : list (K * V)) : option V :=
  match o with
  | [] => None
  | (k', v) :: o => if decide (k' = k) then Some v else obj_get k o
  end.

Fixpoint obj_set (k : K) (v : V) (o : list (K * V)) : list (K * V) :=
  match o with
  | [] => [(k, v)]
  | (k', v') :: o => if decide (k' = k) then (k, v) :: o else (k', v') :: obj_set k v o
  end.

Definition obj_has (k : K) (o : list (K * V)) : bool := bool_decide (is_Some (obj_get k o)).

Definition Object_values (o : list (K * V)) : list V := o.*2.
Definition Object_keys (o : list (K * V)) : list K := o.*1.
End Objects.

(** A [Set]: elements in insertion order, each once. *)
Section Sets.
Context {A : Type} `{EqDecision A}.
Definition set_has (v : list A) (x : A) : bool := bool_decide (x ∈ v).
Definition set_add (v : list A) (x : A) : list A := if set_has v x then v else v ++ [x].
End Sets.

(** Arrays: [push] appends, [pop] removes the last element. [arr[i] = x] on an
    array with holes fills the slot, or extends the array when [i] is past its
    end. *)
Definition push {A} (arr : list A) (x : A) : list A := arr ++ [x].
Definition pop {A} (arr : list A) : list A := removelast arr.
Definition array_set {A} (arr : list (option A)) (i : nat) (x : A) : list (option A) :=
  if decide (i < length arr) then <[i := Some x]> arr
  else arr ++ replicate (i - length arr) None ++ [Some x].

(** ** The store *)

Abbreviation cell_ref := nat (only parsing).
Abbreviation door_ref := nat (only parsing).
Abbreviation maze_ref := nat (only parsing).

(** Keys of [cell.doors]. *)
Inductive Dir : Type := Up | Down | Left | Right.
Global Instance Dir_eq_dec : EqDecision Dir.
Proof. solve_decision. Defined.

Module Cell.
Record t : Type := mk { row : nat; col : nat; doors : list (Dir * door_ref) }.
End Cell.

Module Door.
Record t : Type := mk { cell1 : cell_ref; cell2 : cell_ref; closed : bool }.
End Door.

Module MazeGenerator.
Record t : Type := mk {
  rows : nat;
  cols : nat;
  algo : string;
  cells : list (list cell_ref);
  doors : list (option door_ref)   (* [None] is a hole of [new Array(n)] *)
}.
End MazeGenerator.

(** One draw of [Math.random()]: the number [numer / (numer + slack + 1)] of
    [[0,1)]. *)
Record Draw : Type := mkDraw { numer : nat; slack : nat }.

(** [Math.floor(r * n)], computed exactly. *)
Definition floor_times (r : Draw) (n : nat) : nat :=
  (numer r * n) `div` (numer r + slack r + 1).

Record World : Type := mkWorld {
  cellHeap : list Cell.t;
  doorHeap : list Door.t;
  mazeHeap : list MazeGenerator.t;
  draws : nat                         (* calls of Math.random so far *)
}.

Definition empty_world : World := mkWorld [] [] [] 0.

Section Program.
(** The numbers [Math.random] returns, in order. *)
Variable entropy : nat → Draw.

Definition Math_random : M World Draw := λ w,
  Ok (entropy (draws w))
     (mkWorld (cellHeap w) (doorHeap w) (mazeHeap w) (S (draws w))).

(** [Math.floor(Math.random() * n)] *)
Definition random_below (n : nat) : M World nat :=
  r ← Math_random; mret (floor_times r n).

(** *** Store primitives *)

Definition getCell (c : cell_ref) : M World Cell.t := reads (λ w, cellHeap w !! c).
Definition getDoor (d : door_ref) : M World Door.t := reads (λ w, doorHeap w !! d).
Definition getMaze (m : maze_ref) : M World MazeGenerator.t := reads (λ w, mazeHeap w !! m).

Definition allocCell (c : Cell.t) : M World cell_ref := λ w,
  Ok (length (cellHeap w))
     (mkWorld (cellHeap w ++ [c]) (doorHeap w) (mazeHeap w) (draws w)).
Definition allocDoor (d : Door.t) : M World door_ref := λ w,
  Ok (length (doorHeap w))
     (mkWorld (cellHeap w) (doorHeap w ++ [d]) (mazeHeap w) (draws w)).
Definition allocMaze (m : MazeGenerator.t) : M World maze_ref := λ w,
  Ok (length (mazeHeap w))
     (mkWorld (cellHeap w) (doorHeap w) (mazeHeap w ++ [m]) (draws w)).

Definition putCell (c : cell_ref) (x : Cell.t) : M World unit := λ w,
  Ok () (mkWorld (<[c := x]> (cellHeap w)) (doorHeap w) (mazeHeap w) (draws w)).
Definition putDoor (d : door_ref) (x : Door.t) : M World unit := λ w,
  Ok () (mkWorld (cellHeap w) (<[d := x]> (doorHeap w)) (mazeHeap w) (draws w)).
Definition putMaze (m : maze_ref) (x : MazeGenerator.t) : M World unit := λ w,
  Ok () (mkWorld (cellHeap w) (doorHeap w) (<[m := x]> (mazeHeap w)) (draws w)).

(** [cell.doors[dir] = door] *)
Definition set_cell_door (c : cell_ref) (dir : Dir) (door : door_ref) : M World unit :=
  x ← getCell c;
  putCell c (Cell.mk (Cell.row x) (Cell.col x) (obj_set dir door (Cell.doors x))).

(** [d.closed = false]: the one assignment to [closed] outside [Door]'s
    constructor. *)
Definition open_door (d : door_ref) : M World unit :=
  x ← getDoor d;
  putDoor d (Door.mk (Door.cell1 x) (Door.cell2 x) false).

(** [maze.doors = arr] and [maze.cells = arr] *)
Definition set_maze_doors (m : maze_ref) (arr : list (option door_ref)) : M World unit :=
  x ← getMaze m;
  putMaze m (MazeGenerator.mk (MazeGenerator.rows x) (MazeGenerator.cols x)
               (MazeGenerator.algo x) (MazeGenerator.cells x) arr).
Definition set_maze_cells (m : maze_ref) (arr : list (list cell_ref)) : M World unit :=
  x ← getMaze m;
  putMaze m (MazeGenerator.mk (MazeGenerator.rows x) (MazeGenerator.cols x)
               (MazeGenerator.algo x) arr (MazeGenerator.doors x)).

(** [maze.cells[i][j]] *)
Definition cell_at (m : maze_ref) (i j : nat) : M World cell_ref :=
  x ← getMaze m;
  r ← index (MazeGenerator.cells x) i;
  index r j.

(** *** class Cell *)

(** The cell on the other side of [door]: [door.cell1 === this ? door.cell2
    : door.cell1]. *)
Definition across (this : cell_ref) (door : Door.t) : cell_ref :=
  if decide (Door.cell1 door = this) then Door.cell2 door else Door.cell1 door.

(** [Cell.neighbors()]: an object from direction to the cell behind each
    open door. *)
Definition neighbors (this : cell_ref) : M World (list (Dir * cell_ref)) :=
  x ← getCell this;
  foldM (λ neighbors '(dir, d),
           door ← getDoor d;
           if Door.closed door then mret neighbors
           else mret (obj_set dir (across this door) neighbors))
        [] (Cell.doors x).

(** [Cell.canVisit()] *)
Definition canVisit (this : cell_ref) : M World (list cell_ref) :=
  o ← neighbors this; mret (Object_values o).

(** [_neighbors(cell)]: the adjacent cells, open door or not. *)
Definition _neighbors (cell : cell_ref) : M World (list cell_ref) :=
  x ← getCell cell;
  foldM (λ neighbors d,
           door ← getDoor d;
           mret (push neighbors (across cell door)))
        [] (Object_values (Cell.doors x)).

(** *** class Door *)

(** [new Door(c1, c2)] *)
Definition new_Door (c1 c2 : cell_ref) : M World door_ref :=
  a ← getCell c1;
  b ← getCell c2;
  let k := bool_decide (Cell.row a < Cell.row b)
           || (bool_decide (Cell.row a = Cell.row b) && bool_decide (Cell.col a < Cell.col b)) in
  allocDoor (Door.mk (if k then c1 else c2) (if k then c2 else c1) true).

(** [get direction()] *)
Definition direction (d : door_ref) : M World string :=
  door ← getDoor d;
  a ← getCell (Door.cell1 door);
  b ← getCell (Door.cell2 door);
  mret (if decide (Cell.row a = Cell.row b) then "|" else "-").

(** *** Utility functions *)

(** [random_shuffle(arr)], the Fisher-Yates shuffle; [n] counts down from
    [arr.length] while [n > 1]. The source swaps the elements of [arr] in
    place and returns [arr]. Here the array is a value: the list that goes in
    is the content of the array before the call, the list that comes out its
    content after the call, and the caller that holds the array in an object
    stores it back (see [createRandomMazeKruskal]). *)
Fixpoint random_shuffle_from {A} (n : nat) (arr : list A) : M World (list A) :=
  match n with
  | 0 => mret arr
  | S n' =>
      if decide (1 < n) then
        k ← random_below n;
        tmp ← index arr n';
        ak ← index arr k;
        random_shuffle_from n' (<[k := tmp]> (<[n' := ak]> arr))
      else mret arr
  end.
Definition random_shuffle {A} (arr : list A) : M World (list A) :=
  random_shuffle_from (length arr) arr.
End Program.

(** *** class UF: the union-find structure

    [this.m] is a [Map] from a node to its parent. *)
Module UF.
Section UF.
Context {node : Type} `{EqDecision node}.

(** [new UF] *)
Definition new : list (node * node) := [].

(** The [while] loop of [root], with path halving. *)
Fixpoint root_loop (fuel : nat) (p : node) : M (list (node * node)) node :=
  match fuel with
  | 0 => out_of_fuel
  | S fuel =>
      par ← reads (obj_get p);
      if decide (p = par) then mret p
      else
        ppar ← reads (obj_get par);
        m ← get;
        put (obj_set p ppar m);;
        root_loop fuel ppar
  end.

Definition root (fuel : nat) (p : node) : M (list (node * node)) node :=
  m ← get;
  (if obj_has p m then mret () else put (obj_set p p m));;
  root_loop fuel p.

Definition join (fuel : nat) (p q : node) : M (list (node * node)) unit :=
  rp ← root fuel p;
  rq ← root fuel q;
  if decide (rp = rq) then mret ()
  else m ← get; put (obj_set rp rq m).

Definition joined (fuel : nat) (p q : node) : M (list (node * node)) bool :=
  rp ← root fuel p;
  rq ← root fuel q;
  mret (bool_decide (rp = rq)).

(** [this.m.forEach(p => s.add(this.root(p)))]: the entries are visited by
    position in the live map, [p] being the value of the entry. *)
Fixpoint forEach_root (fuel : nat) (i : nat) (s : list node) : M (list (node * node)) (list node) :=
  match fuel with
  | 0 => out_of_fuel
  | S fuel' =>
      m ← get;
      match m !! i with
      | None => mret s
      | Some (_, p) =>
          r ← root fuel p;
          forEach_root fuel' (S i) (set_add s r)
      end
  end.

Definition rootsNbr (fuel : nat) : M (list (node * node)) nat :=
  s ← forEach_root fuel 0 [];
  mret (length s).
End UF.
End UF.

Section Maze.
Variable entropy : nat → Draw.

(** Running a method of the local [uf] object inside a generator. *)
Definition with_uf {A} (c : M (list (cell_ref * cell_ref)) A) (uf : list (cell_ref * cell_ref))
  : M World (A * list (cell_ref * cell_ref)) := λ w,
  match c uf with
  | Ok a uf' => Ok (a, uf') w
  | Throw e _ => Throw e w
  | OutOfFuel => OutOfFuel
  | Stuck => Stuck
  end.

(** *** The generators *)

Fixpoint findM {A} (p : A → M World bool) (l : list A) : M World (option A) :=
  match l with
  | [] => mret None
  | a :: l => b ← p a; if (b : bool) then mret (Some a) else findM p l
  end.

(** One round of the [while(true)] loop of [createRandomMazeRec]: [None] when
    the function returns, otherwise the next values of [cell], [v] and
    [stack]. *)
Definition rec_step (cell : cell_ref) (v : list cell_ref) (stack : list cell_ref)
  : M World (option (cell_ref * list cell_ref * list cell_ref)) :=
  ns ← _neighbors cell;
  let u := filter (λ n, n ∉ v) ns in
  if decide (length u ≠ 0) then
    i ← random_below entropy (length u);
    n ← index u i;
    x ← getCell n;
    d ← findM (λ d, door ← getDoor d;
                    mret (bool_decide (Door.cell1 door = cell)
                          || bool_decide (Door.cell2 door = cell)))
              (Object_values (Cell.doors x));
    match d with
    | None => throw TypeError
    | Some d =>
        open_door d;;
        mret (Some (n, set_add v n, push stack cell))
    end
  else
    if decide (length stack = 0) then mret None
    else
      top ← index stack (length stack - 1);
      mret (Some (top, v, pop stack)).

Fixpoint rec_loop (fuel : nat) (cell : cell_ref) (v : list cell_ref) (stack : list cell_ref)
  : M World unit :=
  match fuel with
  | 0 => out_of_fuel
  | S fuel =>
      st ← rec_step cell v stack;
      match st with
      | None => mret ()
      | Some (cell, v, stack) => rec_loop fuel cell v stack
      end
  end.

(** The first lines of [createRandomMazeRec] and of [createRandomMazePrim]:
    a random cell of the maze. *)
Definition random_cell (maze : maze_ref) : M World cell_ref :=
  m ← getMaze maze;
  i ← random_below entropy (MazeGenerator.rows m);
  j ← random_below entropy (MazeGenerator.cols m);
  cell_at maze i j.

Definition createRandomMazeRec (fuel : nat) (maze : maze_ref) : M World unit :=
  cell ← random_cell maze;
  rec_loop fuel cell [] [].

(** [pickWall]: swap a random wall with the last one and pop it. *)
Definition pickWall (walls : list door_ref) : M World (door_ref * list door_ref) :=
  let last := length walls - 1 in
  k ← random_below entropy (last + 1);
  tmp ← index walls k;
  wl ← index walls last;
  let walls := <[last := tmp]> (<[k := wl]> walls) in
  w ← index walls (length walls - 1);
  mret (w, pop walls).

Fixpoint prim_loop (fuel : nat) (walls : list door_ref) (v : list cell_ref) : M World unit :=
  match fuel with
  | 0 => out_of_fuel
  | S fuel =>
      if decide (length walls = 0) then mret ()
      else
        '(w, walls) ← pickWall walls;
        door ← getDoor w;
        if set_has v (Door.cell1 door) && set_has v (Door.cell2 door) then
          prim_loop fuel walls v
        else
          open_door w;;
          let unvisited := if set_has v (Door.cell1 door)
                           then Door.cell2 door else Door.cell1 door in
          let v := set_add v unvisited in
          x ← getCell unvisited;
          prim_loop fuel (foldl push walls (Object_values (Cell.doors x))) v
  end.

Definition createRandomMazePrim (fuel : nat) (maze : maze_ref) : M World unit :=
  cell ← random_cell maze;
  x ← getCell cell;
  prim_loop fuel (Object_values (Cell.doors x)) (set_add [] cell).

(** The body of [for (let d of maze.doors)] in [createRandomMazeKruskal]. *)
Definition kruskal_step (fuel : nat) (uf : list (cell_ref * cell_ref)) (d : option door_ref)
  : M World (list (cell_ref * cell_ref)) :=
  match d with
  | None => throw TypeError
  | Some d =>
      door ← getDoor d;
      '(j, uf) ← with_uf (UF.joined fuel (Door.cell1 door) (Door.cell2 door)) uf;
      if negb j then
        open_door d;;
        '(_, uf) ← with_uf (UF.join fuel (Door.cell1 door) (Door.cell2 door)) uf;
        mret uf
      else mret uf
  end.

(** [random_shuffle(maze.doors)] works on the array the maze object holds. *)
Definition createRandomMazeKruskal (fuel : nat) (maze : maze_ref) : M World unit :=
  m ← getMaze maze;
  arr ← random_shuffle entropy (MazeGenerator.doors m);
  set_maze_doors maze arr;;
  _ ← foldM (kruskal_step fuel) UF.new arr;
  mret ().

Definition randomizeMaze (fuel : nat) (maze : maze_ref) : M World unit :=
  m ← getMaze maze;
  if decide (MazeGenerator.algo m = "prim") then createRandomMazePrim fuel maze
  else if decide (MazeGenerator.algo m = "kruskal") then createRandomMazeKruskal fuel maze
  else createRandomMazeRec fuel maze.

(** *** class MazeGenerator *)

(** The argument of the constructor: nothing, a number, or an object whose
    fields may be missing. *)
Inductive Config : Type :=
| NoConfig
| Number (n : nat)
| Options (rows cols : option nat) (algo : option string).

(** [x || d] for a number and for a string. *)
Definition num_or (x : option nat) (d : nat) : nat :=
  match x with Some (S n) => S n | _ => d end.
Definition str_or (x : option string) (d : string) : string :=
  match x with Some "" | None => d | Some s => s end.

(** [this.doors[k++] = door] *)
Definition set_door_at (this : maze_ref) (k : nat) (door : door_ref) : M World unit :=
  m ← getMaze this;
  set_maze_doors this (array_set (MazeGenerator.doors m) k door).

(** The body of the two loops that create the doors; [k] goes in and out. *)
Definition add_doors (this : maze_ref) (x y : nat) (k : nat) : M World nat :=
  cell1 ← cell_at this x y;
  k ← (if decide (1 ≤ x) then
         cell2 ← cell_at this (x - 1) y;
         door ← new_Door cell1 cell2;
         set_door_at this k door;;
         set_cell_door cell1 Up door;;
         set_cell_door cell2 Down door;;
         mret (S k)
       else mret k);
  if decide (1 ≤ y) then
    cell2 ← cell_at this x (y - 1);
    door ← new_Door cell1 cell2;
    set_door_at this k door;;
    set_cell_door cell1 Left door;;
    set_cell_door cell2 Right door;;
    mret (S k)
  else mret k.

(** The head of the constructor: a number stands for [{rows: config}],
    nothing for [{}]; then [this.rows = config.rows || 20], [this.cols =
    config.cols || this.rows] and [this.algo = config.algo || 'recursive']. *)
Definition config_fields (config : Config) : option nat * option nat * option string :=
  match config with
  | NoConfig => (None, None, None)
  | Number n => (Some n, None, None)
  | Options r c a => (r, c, a)
  end.
Definition config_rows (config : Config) : nat := num_or (config_fields config).1.1 20.
Definition config_cols (config : Config) : nat :=
  num_or (config_fields config).1.2 (config_rows config).
Definition config_algo (config : Config) : string :=
  str_or (config_fields config).2 "recursive".

(** The constructor up to the call of [randomizeMaze]: the grid with every
    door closed. *)
Definition new_grid (rows cols : nat) (algo : string) : M World maze_ref :=
  this ← allocMaze (MazeGenerator.mk rows cols algo [] []);
  cells ← mapM (λ x, mapM (λ y, allocCell (Cell.mk x y [])) (seq 0 cols)) (seq 0 rows);
  set_maze_cells this cells;;
  set_maze_doors this (replicate (rows * (cols - 1) + cols * (rows - 1)) None);;
  _ ← foldM (λ k x, foldM (λ k y, add_doors this x y k) k (seq 0 cols)) 0 (seq 0 rows);
  mret this.

Definition build_grid (config : Config) : M World maze_ref :=
  new_grid (config_rows config) (config_cols config) (config_algo config).

(** [new Maze(config)] *)
Definition constructor (fuel : nat) (config : Config) : M World maze_ref :=
  this ← build_grid config;
  randomizeMaze fuel this;;
  mret this.

(** [groupDoors()]; [reduce] skips the holes of an array. *)
Definition groupDoors (this : maze_ref) : M World (list (string * list door_ref)) :=
  m ← getMaze this;
  foldM (λ acc d,
           match d with
           | None => mret acc
           | Some door =>
               dir ← direction door;
               arr ← reads (λ _, obj_get dir acc);
               mret (obj_set dir (push arr door) acc)
           end)
        [("|", []); ("-", [])] (MazeGenerator.doors m).

(** The iterator: every cell, row by row. *)
Definition iterator (this : maze_ref) : M World (list cell_ref) :=
  m ← getMaze this;
  mret (concat (MazeGenerator.cells m)).

Definition PathNotFound : exn :=
  Error "Cannot find a way from [object Object] to [object Object]!!".

(** The [while (current !== endCell)] loop of [solve]; [current] is
    [undefined] ([None]) once [path] has been emptied. *)
Fixpoint solve_loop (fuel : nat) (endCell : cell_ref)
    (current : option cell_ref) (path : list cell_ref) (v : list cell_ref)
  : M World (list cell_ref) :=
  match fuel with
  | 0 => out_of_fuel
  | S fuel =>
      if decide (current = Some endCell) then mret path
      else
        match current with
        | None => throw TypeError
        | Some cur =>
            ns ← canVisit cur;
            let u := filter (λ n, n ∉ v) ns in
            if decide (length u ≠ 0) then
              i ← random_below entropy (length u);
              n ← index u i;
              solve_loop fuel endCell (Some n) (push path n) (set_add v n)
            else
              if decide (length path = 0) then throw PathNotFound
              else
                let path := pop path in
                solve_loop fuel endCell (path !! (length path - 1)) path v
        end
  end.

Definition solve (fuel : nat) (this : maze_ref) (startCell endCell : cell_ref)
  : M World (list cell_ref) :=
  solve_loop fuel endCell (Some startCell) (push [] startCell) (set_add [] startCell).
End Maze.

(** * Verification *)

(** ** Running monadic code *)

Lemma bind_run {St A B} (m : M St A) (f : A → M St B) (s : St) :
  (m ≫= f) s = match m s with
               | Ok a s' => f a s'
               | Throw e s' => Throw e s'
               | OutOfFuel => OutOfFuel
               | Stuck => Stuck
               end.
Proof. reflexivity. Qed.

Lemma bind_ok {St A B} (m : M St A) (f : A → M St B) (s s' : St) (a : A) :
  m s = Ok a s' → (m ≫= f) s = f a s'.
Proof. intros H. rewrite bind_run, H. reflexivity. Qed.

Lemma bind_inv_ok {St A B} (m : M St A) (f : A → M St B) (s s2 : St) (b : B) :
  (m ≫= f) s = Ok b s2 → ∃ a s1, m s = Ok a s1 ∧ f a s1 = Ok b s2.
Proof. rewrite bind_run. destruct (m s) eqn:E; try discriminate. eauto. Qed.

Lemma reads_ok {St A} (f : St → option A) (s : St) (a : A) :
  f s = Some a → reads f s = Ok a s.
Proof. unfold reads. intros ->. reflexivity. Qed.

Lemma index_ok {St A} (arr : list A) (i : nat) (a : A) (s : St) :
  arr !! i = Some a → index arr i s = Ok a s.
Proof. intros H. unfold index. by apply reads_ok. Qed.

Lemma mret_run {St A} (a : A) (s : St) : (mret a : M St A) s = Ok a s.
Proof. reflexivity. Qed.

(** ** Postconditions that relate the state before and after *)

Section Posts.
Context {St : Type} (R : relation St) `{!PreOrder R}.

(** Whatever [m] does, if it ends (normally or by an exception) the final
    state is [R]-related to the initial one. *)
Definition posts {A} (m : M St A) : Prop :=
  ∀ s, match m s with
       | Ok _ s' | Throw _ s' => R s s'
       | OutOfFuel | Stuck => True
       end.

Lemma posts_ret {A} (a : A) : posts (mret a).
Proof. intros s. simpl. reflexivity. Qed.

Lemma posts_bind {A B} (m : M St A) (f : A → M St B) :
  posts m → (∀ a, posts (f a)) → posts (m ≫= f).
Proof.
  intros Hm Hf s. rewrite bind_run. specialize (Hm s).
  destruct (m s) as [a s1|e s1| |]; try done.
  specialize (Hf a s1). destruct (f a s1); try done; by etrans.
Qed.

Lemma posts_throw {A} (e : exn) : posts (throw e : M St A).
Proof. intros s. simpl. reflexivity. Qed.

Lemma posts_out_of_fuel {A} : posts (out_of_fuel : M St A).
Proof. intros s. exact I. Qed.

Lemma posts_stuck {A} : posts (stuck : M St A).
Proof. intros s. exact I. Qed.

Lemma posts_get : posts get.
Proof. intros s. simpl. reflexivity. Qed.

Lemma posts_reads {A} (f : St → option A) : posts (reads f).
Proof. intros s. unfold reads. destruct (f s); [reflexivity | exact I]. Qed.

Lemma posts_index {A} (arr : list A) (i : nat) : posts (index arr i).
Proof. apply posts_reads. Qed.

Lemma posts_foldM {A B} (f : B → A → M St B) (l : list A) (b : B) :
  (∀ b a, posts (f b a)) → posts (foldM f b l).
Proof.
  intros Hf. revert b. induction l as [|a l IH]; intros b; simpl.
  - apply posts_ret.
  - apply posts_bind; [apply Hf | intros b'; apply IH].
Qed.

Lemma posts_mapM {A B} (f : A → M St B) (l : list A) :
  (∀ a, posts (f a)) → posts (mapM f l).
Proof.
  intros Hf. induction l as [|a l IH]; simpl.
  - apply posts_ret.
  - apply posts_bind; [apply Hf | intros b].
    apply posts_bind; [apply IH | intros k; apply posts_ret].
Qed.
End Posts.

(** ** Random indices stay inside the array *)

Lemma floor_times_lt (r : Draw) (n : nat) : 0 < n → floor_times r n < n.
Proof.
  intros Hn. unfold floor_times.
  apply Nat.Div0.div_lt_upper_bound. nia.
Qed.

Lemma random_below_run entropy (n : nat) (w : World) :
  random_below entropy n w
  = Ok (floor_times (entropy (draws w)) n)
       (mkWorld (cellHeap w) (doorHeap w) (mazeHeap w) (S (draws w))).
Proof. reflexivity. Qed.

(** ** Relations between stores *)

(** Nothing but the count of random draws differs. *)
Definition same_store (w w' : World) : Prop :=
  cellHeap w' = cellHeap w ∧ doorHeap w' = doorHeap w ∧ mazeHeap w' = mazeHeap w.

Global Instance same_store_preorder : PreOrder same_store.
Proof.
  split.
  - by intros w.
  - intros w1 w2 w3 (?&?&?) (?&?&?). repeat split; congruence.
Qed.

(** What a door may become: the same two cells, and open if it was open. *)
Definition door_opens (x x' : Door.t) : Prop :=
  Door.cell1 x' = Door.cell1 x ∧ Door.cell2 x' = Door.cell2 x
  ∧ (Door.closed x = false → Door.closed x' = false).

(** What a maze object may become: its doors array in another order. *)
Definition maze_shuffles (m m' : MazeGenerator.t) : Prop :=
  MazeGenerator.rows m' = MazeGenerator.rows m
  ∧ MazeGenerator.cols m' = MazeGenerator.cols m
  ∧ MazeGenerator.algo m' = MazeGenerator.algo m
  ∧ MazeGenerator.cells m' = MazeGenerator.cells m
  ∧ MazeGenerator.doors m' ≡ₚ MazeGenerator.doors m.

(** What generation may do to a store. *)
Definition generates (w w' : World) : Prop :=
  cellHeap w' = cellHeap w
  ∧ Forall2 door_opens (doorHeap w) (doorHeap w')
  ∧ Forall2 maze_shuffles (mazeHeap w) (mazeHeap w').

Global Instance door_opens_preorder : PreOrder door_opens.
Proof.
  split.
  - by intros x.
  - intros x y z (?&?&?) (?&?&?). repeat split; try congruence. auto.
Qed.

Global Instance maze_shuffles_preorder : PreOrder maze_shuffles.
Proof.
  split.
  - by intros x.
  - intros x y z (?&?&?&?&?) (?&?&?&?&?). repeat split; try congruence. by etrans.
Qed.

Global Instance generates_preorder : PreOrder generates.
Proof.
  split.
  - intros w. repeat split; reflexivity.
  - intros w1 w2 w3 (?&?&?) (?&?&?). repeat split; [congruence | by etrans | by etrans].
Qed.

Lemma same_store_generates (w w' : World) : same_store w w' → generates w w'.
Proof. intros (Hc&Hd&Hm). repeat split; [done | by rewrite Hd | by rewrite Hm]. Qed.

(** An open door stays open. *)
Definition monotone (w w' : World) : Prop :=
  ∀ d x, doorHeap w !! d = Some x → Door.closed x = false →
         ∃ x', doorHeap w' !! d = Some x' ∧ Door.closed x' = false.

Lemma generates_monotone (w w' : World) : generates w w' → monotone w w'.
Proof.
  intros (_&Hd&_) d x Hx Hopen.
  destruct (Forall2_lookup_l _ _ _ _ _ Hd Hx) as (x'&Hx'&(_&_&H)).
  eauto.
Qed.

(** ** Code that reads the store only *)

Ltac pbind := apply posts_bind; [apply _ | | intros ?].
Ltac pleaf :=
  first [ assumption
        | apply posts_ret; apply _ | apply posts_throw; apply _
        | apply posts_out_of_fuel | apply posts_stuck
        | apply posts_reads; apply _ | apply posts_index; apply _
        | apply posts_get; apply _ ].
Ltac posts_step :=
  first [ pleaf
        | pbind
        | apply posts_foldM; [apply _ | intros ? ?]
        | apply posts_mapM; [apply _ | intros ?]
        | case_match | case_decide ].
Ltac posts_auto := repeat posts_step.

Section ReadOnly.
Variable entropy : nat → Draw.

Lemma Math_random_same : posts same_store (Math_random entropy).
Proof. intros w. by repeat split. Qed.

Lemma random_below_same n : posts same_store (random_below entropy n).
Proof. unfold random_below. pbind; [apply Math_random_same | pleaf]. Qed.

Lemma neighbors_same c : posts same_store (neighbors c).
Proof. unfold neighbors, getCell, getDoor. posts_auto. Qed.

Lemma canVisit_same c : posts same_store (canVisit c).
Proof. unfold canVisit. pbind; [apply neighbors_same | pleaf]. Qed.

Lemma _neighbors_same c : posts same_store (_neighbors c).
Proof. unfold _neighbors, getCell, getDoor. posts_auto. Qed.

Lemma direction_same d : posts same_store (direction d).
Proof. unfold direction, getCell, getDoor. posts_auto. Qed.

Lemma cell_at_same m i j : posts same_store (cell_at m i j).
Proof. unfold cell_at, getMaze. posts_auto. Qed.

Lemma groupDoors_same this : posts same_store (groupDoors this).
Proof.
  unfold groupDoors, getMaze. pbind; [pleaf|].
  apply posts_foldM; [apply _|]. intros acc [d|]; [|pleaf].
  pbind; [apply direction_same|]. posts_auto.
Qed.

Lemma iterator_same this : posts same_store (iterator this).
Proof. unfold iterator, getMaze. posts_auto. Qed.

Lemma solve_loop_same fuel endCell current path v :
  posts same_store (solve_loop entropy fuel endCell current path v).
Proof.
  revert current path v. induction fuel as [|fuel IH]; intros current path v; simpl.
  - pleaf.
  - case_decide; [pleaf|].
    destruct current as [cur|]; [|pleaf].
    pbind; [apply canVisit_same|].
    case_decide.
    + pbind; [apply random_below_same|].
      pbind; [pleaf|]. apply IH.
    + case_decide; [pleaf | apply IH].
Qed.

Lemma solve_same fuel this startCell endCell :
  posts same_store (solve entropy fuel this startCell endCell).
Proof. apply solve_loop_same. Qed.
End ReadOnly.

(** ** What the generators may change *)

Lemma posts_weaken {St A} (R R' : relation St) (m : M St A) :
  (∀ s s', R s s' → R' s s') → posts R m → posts R' m.
Proof. intros HR Hm s. specialize (Hm s). destruct (m s); auto. Qed.

Lemma posts_same_generates {A} (m : M World A) : posts same_store m → posts generates m.
Proof. apply posts_weaken, same_store_generates. Qed.

Lemma open_door_generates d : posts generates (open_door d).
Proof.
  intros w. unfold open_door, getDoor. rewrite bind_run. unfold reads.
  destruct (doorHeap w !! d) as [x|] eqn:Hx; [|done]. simpl.
  repeat split; [|reflexivity]. simpl.
  rewrite <-(list_insert_id _ _ _ Hx) at 1.
  apply Forall2_insert; [reflexivity | by repeat split].
Qed.

Lemma with_uf_same {A} (c : M (list (cell_ref * cell_ref)) A) uf :
  posts same_store (with_uf c uf).
Proof. intros w. unfold with_uf. destruct (c uf); done. Qed.

Section Generators.
Variable entropy : nat → Draw.

Lemma findM_same {A} (p : A → M World bool) l :
  (∀ a, posts same_store (p a)) → posts same_store (findM p l).
Proof.
  intros Hp. induction l as [|a l IH]; simpl; [pleaf|].
  pbind; [apply Hp|]. by destruct a0; [pleaf|].
Qed.

(** The shuffle never fails and returns a permutation of its argument. *)
Lemma random_shuffle_from_ok {A} (n : nat) (arr : list A) (w : World) :
  n ≤ length arr →
  ∃ arr', random_shuffle_from entropy n arr w
          = Ok arr' (mkWorld (cellHeap w) (doorHeap w) (mazeHeap w) (draws w + (n - 1)))
          ∧ arr' ≡ₚ arr.
Proof.
  revert arr w. induction n as [|n IH]; intros arr w Hn; simpl.
  - exists arr. split; [|done]. destruct w; simpl. by rewrite Nat.add_0_r.
  - case_decide as Hgt.
    + rewrite bind_run, random_below_run.
      pose proof (floor_times_lt (entropy (draws w)) (S n)) as Hk.
      set (k := floor_times (entropy (draws w)) (S n)) in *.
      destruct (lookup_lt_is_Some_2 arr n) as [tmp Htmp]; [lia|].
      destruct (lookup_lt_is_Some_2 arr k) as [ak Hak]; [lia|].
      rewrite (bind_ok _ _ _ _ _ (index_ok _ _ _ _ Htmp)).
      rewrite (bind_ok _ _ _ _ _ (index_ok _ _ _ _ Hak)).
      destruct (IH (<[k:=tmp]> (<[n:=ak]> arr))
                  (mkWorld (cellHeap w) (doorHeap w) (mazeHeap w) (S (draws w))))
        as (arr'&Hrun&Hperm).
      { rewrite !length_insert. lia. }
      exists arr'. simpl in Hrun. rewrite Hrun. split.
      * f_equal. f_equal. lia.
      * rewrite Hperm. by apply Permutation_insert_swap.
    + exists arr. split; [|done]. destruct w; simpl.
      replace (n - 0) with 0 by lia. by rewrite Nat.add_0_r.
Qed.

Lemma random_shuffle_ok {A} (arr : list A) (w : World) :
  ∃ arr', random_shuffle entropy arr w
          = Ok arr' (mkWorld (cellHeap w) (doorHeap w) (mazeHeap w)
                       (draws w + (length arr - 1)))
          ∧ arr' ≡ₚ arr.
Proof. by apply random_shuffle_from_ok. Qed.

Lemma random_cell_same maze : posts same_store (random_cell entropy maze).
Proof.
  unfold random_cell, getMaze. pbind; [pleaf|].
  pbind; [apply random_below_same|].
  pbind; [apply random_below_same | apply cell_at_same].
Qed.

Lemma rec_step_generates cell v stack : posts generates (rec_step entropy cell v stack).
Proof.
  unfold rec_step.
  pbind; [apply posts_same_generates, _neighbors_same|].
  case_decide.
  - pbind; [apply posts_same_generates, random_below_same|].
    pbind; [pleaf|].
    pbind; [unfold getCell; pleaf|].
    pbind.
    { apply posts_same_generates, findM_same. intros d. unfold getDoor. posts_auto. }
    destruct a3 as [d|]; [|pleaf].
    pbind; [apply open_door_generates | pleaf].
  - case_decide; [pleaf|]. pbind; pleaf.
Qed.

Lemma rec_loop_generates fuel cell v stack :
  posts generates (rec_loop entropy fuel cell v stack).
Proof.
  revert cell v stack. induction fuel as [|fuel IH]; intros cell v stack; simpl; [pleaf|].
  pbind; [apply rec_step_generates|].
  destruct a as [[[c v'] s']|]; [apply IH | pleaf].
Qed.

Lemma createRandomMazeRec_generates fuel maze :
  posts generates (createRandomMazeRec entropy fuel maze).
Proof.
  unfold createRandomMazeRec.
  pbind; [apply posts_same_generates, random_cell_same | apply rec_loop_generates].
Qed.

Lemma pickWall_same walls : posts same_store (pickWall entropy walls).
Proof.
  unfold pickWall. pbind; [apply random_below_same|]. posts_auto.
Qed.

Lemma prim_loop_generates fuel walls v :
  posts generates (prim_loop entropy fuel walls v).
Proof.
  revert walls v. induction fuel as [|fuel IH]; intros walls v; simpl; [pleaf|].
  case_decide; [pleaf|].
  pbind; [apply posts_same_generates, pickWall_same|].
  destruct a as [w walls'].
  pbind; [unfold getDoor; pleaf|].
  case_match; [apply IH|].
  pbind; [apply open_door_generates|].
  pbind; [unfold getCell; pleaf | apply IH].
Qed.

Lemma createRandomMazePrim_generates fuel maze :
  posts generates (createRandomMazePrim entropy fuel maze).
Proof.
  unfold createRandomMazePrim.
  pbind; [apply posts_same_generates, random_cell_same|].
  pbind; [unfold getCell; pleaf | apply prim_loop_generates].
Qed.

Lemma kruskal_step_generates fuel uf d : posts generates (kruskal_step fuel uf d).
Proof.
  unfold kruskal_step. destruct d as [d|]; [|pleaf].
  pbind; [unfold getDoor; pleaf|].
  pbind; [apply posts_same_generates, with_uf_same|].
  destruct a0 as [j uf']. destruct j; simpl; [pleaf|].
  pbind; [apply open_door_generates|].
  pbind; [apply posts_same_generates, with_uf_same|].
  destruct a1. pleaf.
Qed.

Lemma createRandomMazeKruskal_generates fuel maze :
  posts generates (createRandomMazeKruskal entropy fuel maze).
Proof.
  intros w. unfold createRandomMazeKruskal, getMaze.
  rewrite bind_run. unfold reads.
  destruct (mazeHeap w !! maze) as [m|] eqn:Hm; [|done].
  destruct (random_shuffle_ok (MazeGenerator.doors m) w) as (arr&Hrun&Hperm).
  rewrite bind_run, Hrun.
  set (w1 := mkWorld _ _ _ _).
  assert (generates w w1) as Hw1 by (by apply same_store_generates).
  rewrite bind_run. unfold set_maze_doors at 1, getMaze, reads.
  rewrite bind_run. simpl. rewrite Hm. simpl.
  set (w2 := mkWorld _ _ _ _).
  assert (generates w w2) as Hw2.
  { repeat split; [reflexivity|]. simpl.
    rewrite <-(list_insert_id _ _ _ Hm) at 1.
    apply Forall2_insert; [reflexivity | by repeat split]. }
  assert (posts generates (foldM (kruskal_step fuel) UF.new arr ≫= λ _, mret ())) as Hrest.
  { pbind; [|pleaf]. apply posts_foldM; [apply _|]. intros. apply kruskal_step_generates. }
  specialize (Hrest w2).
  destruct ((foldM (kruskal_step fuel) UF.new arr ≫= λ _, mret ()) w2); try done; by etrans.
Qed.

Lemma randomizeMaze_generates fuel maze :
  posts generates (randomizeMaze entropy fuel maze).
Proof.
  unfold randomizeMaze, getMaze. pbind; [pleaf|].
  case_decide; [apply createRandomMazePrim_generates|].
  case_decide; [apply createRandomMazeKruskal_generates|].
  apply createRandomMazeRec_generates.
Qed.
End Generators.

(** ** Objects and Maps as association lists *)

Section ObjectFacts.
Context {K V : Type} `{EqDecision K}.
Implicit Types (o : list (K * V)) (k : K) (v : V).

Lemma obj_get_set_eq o k v : obj_get k (obj_set k v o) = Some v.
Proof.
  induction o as [|[k' v'] o IH]; simpl.
  - by rewrite decide_True.
  - destruct (decide (k' = k)) as [->|Hne]; simpl.
    + by rewrite decide_True.
    + by rewrite decide_False.
Qed.

Lemma obj_get_set_ne o k k' v : k ≠ k' → obj_get k' (obj_set k v o) = obj_get k' o.
Proof.
  intros Hne. induction o as [|[k0 v0] o IH]; simpl.
  - by rewrite decide_False.
  - destruct (decide (k0 = k)) as [->|Hne0]; simpl.
    + by rewrite !decide_False.
    + by rewrite IH.
Qed.

Lemma obj_get_Some_elem o k v : obj_get k o = Some v → (k, v) ∈ o.
Proof.
  induction o as [|[k0 v0] o IH]; simpl; [done|].
  destruct (decide (k0 = k)) as [->|Hne].
  - intros Hv. injection Hv as ->. left.
  - intros H. right. auto.
Qed.

Lemma obj_get_Some_key o k v : obj_get k o = Some v → k ∈ o.*1.
Proof. intros H%obj_get_Some_elem. by apply (list_elem_of_fmap_2 fst) in H. Qed.

Lemma obj_get_None o k : obj_get k o = None ↔ k ∉ o.*1.
Proof.
  induction o as [|[k0 v0] o IH]; simpl.
  - split; [intros _; apply not_elem_of_nil | done].
  - rewrite not_elem_of_cons. destruct (decide (k0 = k)) as [->|Hne].
    + split; [done | intros [? _]; done].
    + rewrite IH. split; [intros ?; split; [congruence | done] | by intros [_ ?]].
Qed.

Lemma obj_get_is_Some o k : is_Some (obj_get k o) ↔ k ∈ o.*1.
Proof.
  destruct (obj_get k o) eqn:E.
  - split; [intros _; by eapply obj_get_Some_key | by eauto].
  - apply obj_get_None in E. split; [by intros [? ?] | done].
Qed.

Lemma obj_has_true o k : obj_has k o = true ↔ k ∈ o.*1.
Proof. unfold obj_has. rewrite bool_decide_eq_true. apply obj_get_is_Some. Qed.

Lemma obj_set_keys_old o k v : k ∈ o.*1 → (obj_set k v o).*1 = o.*1.
Proof.
  induction o as [|[k0 v0] o IH]; simpl; [by intros ?%elem_of_nil|].
  destruct (decide (k0 = k)) as [->|Hne]; [done|].
  intros [?|?]%elem_of_cons; [congruence|]. rewrite !fmap_cons. f_equal. auto.
Qed.

Lemma obj_set_new o k v : k ∉ o.*1 → obj_set k v o = o ++ [(k, v)].
Proof.
  induction o as [|[k0 v0] o IH]; simpl; [done|].
  intros [? ?]%not_elem_of_cons. rewrite decide_False by done. f_equal. auto.
Qed.

Lemma obj_set_length_old o k v : k ∈ o.*1 → length (obj_set k v o) = length o.
Proof.
  intros H. rewrite <-(length_fmap fst (obj_set k v o)), obj_set_keys_old by done.
  by rewrite length_fmap.
Qed.

Lemma obj_get_lookup o i k v : NoDup o.*1 → o !! i = Some (k, v) → obj_get k o = Some v.
Proof.
  revert i. induction o as [|[k0 v0] o IH]; intros i Hnd Hi; [done|].
  simpl in *. apply NoDup_cons in Hnd as [Hk0 Hnd].
  destruct i as [|i]; simpl in *.
  - injection Hi as -> ->. by rewrite decide_True.
  - rewrite decide_False; [by eapply IH|].
    intros ->. apply Hk0. apply list_elem_of_lookup_2 in Hi.
    by apply (list_elem_of_fmap_2 fst) in Hi.
Qed.

Lemma obj_get_app_l o o' k : k ∈ o.*1 → obj_get k (o ++ o') = obj_get k o.
Proof.
  induction o as [|[k0 v0] o IH]; simpl; [by intros ?%elem_of_nil|].
  destruct (decide (k0 = k)); [done|].
  intros [?|?]%elem_of_cons; [congruence | auto].
Qed.

Lemma obj_get_app_r o o' k : k ∉ o.*1 → obj_get k (o ++ o') = obj_get k o'.
Proof.
  induction o as [|[k0 v0] o IH]; simpl; [done|].
  intros [? ?]%not_elem_of_cons. rewrite decide_False by done. auto.
Qed.
End ObjectFacts.

(** ** Two facts on [filter] *)

Lemma filter_ext_in {A} (P Q : A → Prop) `{∀ x, Decision (P x), ∀ x, Decision (Q x)}
    (l : list A) :
  (∀ x, x ∈ l → (P x ↔ Q x)) → filter P l = filter Q l.
Proof.
  induction l as [|a l IH]; intros Hext; [done|].
  rewrite !filter_cons.
  destruct (decide (P a)) as [HP|HP], (decide (Q a)) as [HQ|HQ].
  - f_equal. apply IH. intros x Hx. apply Hext. by right.
  - exfalso. apply HQ, Hext; [left | done].
  - exfalso. apply HP, Hext; [left | done].
  - apply IH. intros x Hx. apply Hext. by right.
Qed.

Lemma length_filter_remove {A} `{EqDecision A} (l : list A) (a : A) :
  NoDup l → a ∈ l → S (length (filter (λ k, k ≠ a) l)) = length l.
Proof.
  induction l as [|b l IH]; intros Hnd Hin; [by apply elem_of_nil in Hin|].
  apply NoDup_cons in Hnd as [Hb Hnd]. rewrite filter_cons.
  destruct (decide (b ≠ a)) as [Hba|Hba].
  - apply elem_of_cons in Hin as [->|Hin]; [done|]. simpl. by rewrite IH.
  - assert (b = a) as -> by (by destruct (decide (b = a))). simpl. f_equal.
    clear IH Hnd Hin Hba. induction l as [|c l IH]; [done|].
    apply not_elem_of_cons in Hb as [Hca Hb].
    rewrite filter_cons_True by congruence. simpl. f_equal. auto.
Qed.

(** ** The union-find structure *)

Section UFSpec.
Context {node : Type} `{EqDecision node}.
Implicit Types (m : list (node * node)) (x y p q r : node) (l : list node).

(** [chain m x l r]: following the parents from [x] goes through the nodes
    [l] and ends in [r], which is its own parent. *)
Inductive chain m : node → list node → node → Prop :=
| chain_root r : obj_get r m = Some r → chain m r [r] r
| chain_step x p l r :
    obj_get x m = Some p → x ≠ p → chain m p l r → chain m x (x :: l) r.

(** The representative of [x]; a node the structure has not seen stands for
    itself. *)
Definition rep m x r : Prop := (∃ l, chain m x l r) ∨ ((x ∉ m.*1) ∧ r = x).

(** The states the methods keep: every node of the map leads to a root. *)
Record uf_inv m : Prop := {
  uf_keys_nodup : NoDup m.*1;
  uf_rooted : ∀ x, x ∈ m.*1 → ∃ l r, chain m x l r
}.

(** The roots, in the order of the map. *)
Definition roots m : list node := filter (λ k, obj_get k m = Some k) m.*1.

Lemma chain_det m x l r l' r' : chain m x l r → chain m x l' r' → l = l' ∧ r = r'.
Proof.
  intros H1. revert l' r'.
  induction H1 as [r Hr|x p l r Hx Hne _ IH]; intros l' r' H2;
    inversion H2 as [r0 Hr0|x0 p0 l0 r0 Hx0 Hne0 Hc0]; subst.
  - done.
  - congruence.
  - congruence.
  - assert (p0 = p) as -> by congruence. destruct (IH _ _ Hc0) as [-> ->]. done.
Qed.

Lemma chain_key m x l r : chain m x l r → x ∈ m.*1.
Proof. intros [r' Hr|x' p l' r' Hx _ _]; by eapply obj_get_Some_key. Qed.

Lemma chain_last m x l r : chain m x l r → r ∈ l.
Proof. induction 1; [left | by right]. Qed.

Lemma chain_end_root m x l r : chain m x l r → obj_get r m = Some r.
Proof. by induction 1. Qed.

Lemma chain_elem m x l r y :
  chain m x l r → y ∈ l → ∃ l1 l2, l = l1 ++ l2 ∧ chain m y l2 r.
Proof.
  induction 1 as [r Hr|x p l r Hx Hne Hc IH]; intros Hy.
  - apply list_elem_of_singleton in Hy as ->. exists [], [r]. split; [done | by constructor].
  - apply elem_of_cons in Hy as [->|Hy].
    + exists [], (x :: l). split; [done | by econstructor].
    + destruct (IH Hy) as (l1&l2&->&Hc'). exists (x :: l1), l2. done.
Qed.

Lemma chain_NoDup m x l r : chain m x l r → NoDup l.
Proof.
  induction 1 as [r Hr|x p l r Hx Hne Hc IH].
  - apply NoDup_singleton.
  - apply NoDup_cons. split; [|done]. intros Hin.
    destruct (chain_elem _ _ _ _ _ Hc Hin) as (l1&l2&->&Hc').
    assert (chain m x (x :: l1 ++ l2) r) as Hc'' by (by econstructor).
    destruct (chain_det _ _ _ _ _ _ Hc' Hc'') as [Heq _].
    apply (f_equal length) in Heq. simpl in Heq. rewrite length_app in Heq. lia.
Qed.

Lemma chain_length m x l r : chain m x l r → length l ≤ length m.
Proof.
  intros Hc. rewrite <-(length_fmap fst m).
  apply submseteq_length, NoDup_submseteq; [by eapply chain_NoDup|].
  intros y Hy. destruct (chain_elem _ _ _ _ _ Hc Hy) as (?&?&_&Hc').
  by eapply chain_key.
Qed.

Lemma chain_self_root m r l : chain m r l r → l = [r].
Proof.
  intros Hc. pose proof (chain_end_root _ _ _ _ Hc) as Hr.
  by destruct (chain_det _ _ _ _ _ _ Hc (chain_root m r Hr)).
Qed.

Lemma rep_det m x r r' : rep m x r → rep m x r' → r = r'.
Proof.
  intros [[l Hc]|[Hx ->]] [[l' Hc']|[Hx' ->]]; [| | |done].
  - by destruct (chain_det _ _ _ _ _ _ Hc Hc').
  - by apply chain_key in Hc.
  - by apply chain_key in Hc'.
Qed.

Lemma rep_total m x : uf_inv m → ∃ r, rep m x r.
Proof.
  intros Hinv. destruct (decide (x ∈ m.*1)) as [Hx|Hx].
  - destruct (uf_rooted _ Hinv _ Hx) as (l&r&Hc). exists r. left. eauto.
  - exists x. by right.
Qed.

Lemma elem_of_roots m r : r ∈ roots m ↔ obj_get r m = Some r.
Proof.
  unfold roots. rewrite list_elem_of_filter. split; [by intros [? _]|].
  intros Hr. split; [done | by eapply obj_get_Some_key].
Qed.

Lemma rep_root m x r : rep m x r → x ∈ m.*1 → r ∈ roots m.
Proof.
  intros [[l Hc]|[Hx _]] Hin; [|done].
  apply elem_of_roots. by eapply chain_end_root.
Qed.

Lemma root_rep m r : r ∈ roots m → rep m r r.
Proof. intros Hr%elem_of_roots. left. exists [r]. by constructor. Qed.

(** *** One step of path halving *)

Lemma halve_chain m p par ppar x l r :
  obj_get p m = Some par → p ≠ par → obj_get par m = Some ppar →
  chain m x l r →
  ∃ l', chain (obj_set p ppar m) x l' r ∧ length l' ≤ length l.
Proof.
  intros Hp Hne Hpar. induction 1 as [r Hr|x q l r Hx Hxq Hc IH].
  - exists [r]. split; [|done]. constructor.
    rewrite obj_get_set_ne; [done | congruence].
  - destruct IH as (l'&Hc'&Hlen).
    destruct (decide (x = p)) as [->|Hxp].
    + assert (q = par) as -> by congruence.
      inversion Hc as [r0 Hr0|x0 q0 l0 r0 Hpar' Hne' Hc0]; subst.
      * assert (ppar = r) as -> by congruence.
        exists (p :: l'). split; [|simpl in *; lia].
        econstructor; [apply obj_get_set_eq | done | done].
      * assert (q0 = ppar) as -> by congruence.
        assert (p ≠ ppar) as Hpp.
        { intros <-. assert (chain m p (p :: par :: l0) r) as Hcp by (by econstructor).
          apply chain_NoDup, NoDup_cons in Hcp as [Hcp _].
          inversion Hc0; subst; apply Hcp; right; left. }
        inversion Hc' as [r1 Hr1|x1 q1 l1 r1 Hpar1 Hne1 Hc1]; subst.
        { rewrite obj_get_set_ne in Hr1 by done. congruence. }
        rewrite obj_get_set_ne in Hpar1 by done.
        assert (q1 = ppar) as -> by congruence.
        exists (p :: l1). split; [|simpl in *; lia].
        econstructor; [apply obj_get_set_eq | done | done].
    + exists (x :: l'). split; [|simpl; lia].
      apply chain_step with q; [by rewrite obj_get_set_ne | done | done].
Qed.

Lemma halve_inv m p par ppar :
  uf_inv m → obj_get p m = Some par → p ≠ par → obj_get par m = Some ppar →
  uf_inv (obj_set p ppar m)
  ∧ (obj_set p ppar m).*1 = m.*1
  ∧ (∀ x r, rep m x r ↔ rep (obj_set p ppar m) x r)
  ∧ roots (obj_set p ppar m) = roots m.
Proof.
  intros Hinv Hp Hne Hpar.
  assert (p ∈ m.*1) as Hpk by (by eapply obj_get_Some_key).
  assert ((obj_set p ppar m).*1 = m.*1) as Hkeys by (by apply obj_set_keys_old).
  assert (uf_inv (obj_set p ppar m)) as Hinv'.
  { split; [rewrite Hkeys; apply Hinv|].
    intros x Hx. rewrite Hkeys in Hx.
    destruct (uf_rooted _ Hinv _ Hx) as (l&r&Hc).
    destruct (halve_chain _ _ _ _ _ _ _ Hp Hne Hpar Hc) as (l'&Hc'&_). eauto. }
  assert (∀ x r, rep m x r → rep (obj_set p ppar m) x r) as Hfwd.
  { intros x r [[l Hc]|[Hx ->]].
    - destruct (halve_chain _ _ _ _ _ _ _ Hp Hne Hpar Hc) as (l'&Hc'&_). left. eauto.
    - right. by rewrite Hkeys. }
  split_and!; [done | done | |].
  - intros x r. split; [apply Hfwd|].
    intros Hrep'. destruct (rep_total m x Hinv) as [r0 Hr0].
    by rewrite (rep_det _ _ _ _ Hrep' (Hfwd _ _ Hr0)).
  - unfold roots. rewrite Hkeys. apply list_filter_iff. intros k.
    destruct (decide (k = p)) as [->|Hk].
    + rewrite obj_get_set_eq, Hp. split; intros ?; simplify_eq.
      assert (chain (obj_set p p m) p [p] p) as Hc1.
      { constructor. apply obj_get_set_eq. }
      destruct (uf_rooted _ Hinv _ Hpk) as (l&r&Hc).
      pose proof Hc as Hc0.
      inversion Hc0 as [r0 Hr0|x0 q0 l0 r0 Hp0 Hne0 Hcpar]; subst; [congruence|].
      assert (q0 = par) as -> by congruence.
      pose proof (chain_NoDup _ _ _ _ Hc) as Hnd.
      apply NoDup_cons in Hnd as [Hnd _].
      exfalso. apply Hnd.
      inversion Hcpar as [r1 Hr1|x1 q1 l1 r1 Hpar1 Hne1 Hcpp]; subst.
      * assert (p = r) as -> by congruence. left.
      * assert (q1 = p) as -> by congruence. right. inversion Hcpp; left.
    + by rewrite obj_get_set_ne.
Qed.

(** *** Linking one root under another, and registering a node *)

Lemma link_chain m rp rq x l r :
  obj_get rp m = Some rp → obj_get rq m = Some rq → rp ≠ rq →
  chain m x l r →
  ∃ l', chain (obj_set rp rq m) x l' (if decide (r = rp) then rq else r).
Proof.
  intros Hrp Hrq Hne. induction 1 as [r Hr|x q l r Hx Hxq Hc IH].
  - destruct (decide (r = rp)) as [->|Hr'].
    + exists [rp; rq]. apply chain_step with rq; [apply obj_get_set_eq | done |].
      constructor. by rewrite obj_get_set_ne.
    + exists [r]. constructor. rewrite obj_get_set_ne; [done | congruence].
  - destruct IH as [l' Hc']. exists (x :: l').
    apply chain_step with q; [|done|done].
    rewrite obj_get_set_ne; [done|]. intros <-. congruence.
Qed.

Lemma link_inv m rp rq :
  uf_inv m → rp ∈ roots m → rq ∈ roots m → rp ≠ rq →
  uf_inv (obj_set rp rq m)
  ∧ (obj_set rp rq m).*1 = m.*1
  ∧ (∀ x r, rep m x r → rep (obj_set rp rq m) x (if decide (r = rp) then rq else r))
  ∧ roots (obj_set rp rq m) = filter (λ k, k ≠ rp) (roots m).
Proof.
  intros Hinv Hrp%elem_of_roots Hrq%elem_of_roots Hne.
  assert (rp ∈ m.*1) as Hpk by (by eapply obj_get_Some_key).
  assert ((obj_set rp rq m).*1 = m.*1) as Hkeys by (by apply obj_set_keys_old).
  split_and!; [|done| |].
  - split; [rewrite Hkeys; apply Hinv|].
    intros x Hx. rewrite Hkeys in Hx.
    destruct (uf_rooted _ Hinv _ Hx) as (l&r&Hc).
    destruct (link_chain _ _ _ _ _ _ Hrp Hrq Hne Hc) as (l'&Hc'). eauto.
  - intros x r [[l Hc]|[Hx ->]].
    + destruct (link_chain _ _ _ _ _ _ Hrp Hrq Hne Hc) as (l'&Hc'). left. eauto.
    + rewrite decide_False; [right; by rewrite Hkeys|]. by intros ->.
  - unfold roots. rewrite Hkeys, list_filter_filter. apply list_filter_iff. intros k.
    destruct (decide (k = rp)) as [->|Hk].
    + rewrite obj_get_set_eq. split; [intros ?; simplify_eq | by intros [? _]].
    + rewrite obj_get_set_ne by done. split; [done | by intros [_ ?]].
Qed.

(** What [root] does first: [if (!this.m.has(p)) this.m.set(p, p)]. *)
Definition register p m : list (node * node) := if obj_has p m then m else obj_set p p m.

Lemma register_old m p : p ∈ m.*1 → register p m = m.
Proof. intros Hp%obj_has_true. unfold register. by rewrite Hp. Qed.

Lemma register_chain m p x l r : p ∉ m.*1 → chain m x l r → chain (obj_set p p m) x l r.
Proof.
  intros Hp. rewrite (obj_set_new _ _ _ Hp).
  induction 1 as [r Hr|x q l r Hx Hxq Hc IH].
  - constructor. rewrite obj_get_app_l; [done | by eapply obj_get_Some_key].
  - apply chain_step with q; [|done|done].
    rewrite obj_get_app_l; [done | by eapply obj_get_Some_key].
Qed.

Lemma register_inv m p :
  uf_inv m →
  uf_inv (register p m)
  ∧ p ∈ (register p m).*1
  ∧ (register p m).*1 = (if decide (p ∈ m.*1) then m.*1 else m.*1 ++ [p])
  ∧ (∀ x r, rep m x r ↔ rep (register p m) x r)
  ∧ roots (register p m) = (if decide (p ∈ m.*1) then roots m else roots m ++ [p]).
Proof.
  intros Hinv. destruct (decide (p ∈ m.*1)) as [Hp|Hp].
  { rewrite register_old by done. done. }
  unfold register. destruct (obj_has p m) eqn:Hhas; [by apply obj_has_true in Hhas|].
  assert ((obj_set p p m).*1 = m.*1 ++ [p]) as Hkeys.
  { by rewrite obj_set_new, fmap_app. }
  assert (chain (obj_set p p m) p [p] p) as Hcp by (constructor; apply obj_get_set_eq).
  assert (uf_inv (obj_set p p m)) as Hinv'.
  { split.
    - rewrite Hkeys. apply NoDup_app. split_and!; [apply Hinv| |apply NoDup_singleton].
      intros x Hx ->%list_elem_of_singleton. done.
    - intros x. rewrite Hkeys, elem_of_app, list_elem_of_singleton. intros [Hx| ->]; [|eauto].
      destruct (uf_rooted _ Hinv _ Hx) as (l&r&Hc). eauto using register_chain. }
  assert (∀ x r, rep m x r → rep (obj_set p p m) x r) as Hfwd.
  { intros x r [[l Hc]|[Hx ->]].
    - left. eauto using register_chain.
    - destruct (decide (x = p)) as [->|Hxp]; [left; eauto|].
      right. split; [|done]. rewrite Hkeys, not_elem_of_app, list_elem_of_singleton. done. }
  split_and!; [done | | done | |].
  - rewrite Hkeys, elem_of_app, list_elem_of_singleton. by right.
  - intros x r. split; [apply Hfwd|].
    intros Hrep'. destruct (rep_total m x Hinv) as [r0 Hr0].
    by rewrite (rep_det _ _ _ _ Hrep' (Hfwd _ _ Hr0)).
  - unfold roots. rewrite Hkeys, filter_app. f_equal.
    + apply filter_ext_in. intros x Hx.
      rewrite obj_set_new, obj_get_app_l by done. done.
    + rewrite filter_cons_True; [done | apply obj_get_set_eq].
Qed.

(** *** The methods *)

(** The outcome of a method that needs at most [n] iterations and, with that
    many, returns a value and a map satisfying [Q]. *)
Definition finishes {A} (fuel n : nat) (Q : A → list (node * node) → Prop)
    (res : result (list (node * node)) A) : Prop :=
  match res with
  | Ok a m' => Q a m'
  | OutOfFuel => fuel < n
  | _ => False
  end.

Lemma finishes_mono {A} fuel n n' (Q Q' : A → list (node * node) → Prop) res :
  n ≤ n' → (∀ a m', Q a m' → Q' a m') → finishes fuel n Q res → finishes fuel n' Q' res.
Proof. intros Hn HQ. destruct res; simpl; [apply HQ | done | lia | done]. Qed.

(** The map [m'] stands for the same partition as [m], with the same nodes and
    the same roots. *)
Definition same_partition m m' : Prop :=
  uf_inv m' ∧ m'.*1 = m.*1 ∧ (∀ x r, rep m x r ↔ rep m' x r) ∧ roots m' = roots m.

Lemma same_partition_refl m : uf_inv m → same_partition m m.
Proof. by intros ?. Qed.

Lemma same_partition_trans m1 m2 m3 :
  same_partition m1 m2 → same_partition m2 m3 → same_partition m1 m3.
Proof.
  intros (?&Hk&Hr&Hroots) (?&Hk'&Hr'&Hroots'). split_and!; [done|congruence| |congruence].
  intros x r. by rewrite Hr, Hr'.
Qed.

Lemma root_loop_spec fuel m p l r :
  uf_inv m → chain m p l r →
  finishes fuel (length l) (λ r' m', r' = r ∧ same_partition m m') (UF.root_loop fuel p m).
Proof.
  revert m p l. induction fuel as [|fuel IH]; intros m p l Hinv Hc; simpl.
  { destruct Hc; simpl; lia. }
  rewrite bind_run. unfold reads at 1.
  inversion Hc as [r0 Hr0|x0 par l0 r0 Hp Hne Hcpar]; subst.
  - rewrite Hr0, decide_True by done. simpl. split; [done | by apply same_partition_refl].
  - rewrite Hp, decide_False by done. rewrite bind_run. unfold reads at 1.
    assert (∃ ppar lpp, obj_get par m = Some ppar ∧ chain m ppar lpp r
                        ∧ length lpp ≤ length l0) as (ppar&lpp&Hpar&Hcpp&Hlen).
    { inversion Hcpar as [r1 Hr1|x1 q1 l1 r1 Hpar1 Hne1 Hcpp]; subst.
      - exists r, [r]. done.
      - exists q1, l1. split_and!; [done | done | simpl; lia]. }
    rewrite Hpar. simpl. rewrite bind_run. simpl. rewrite bind_run. simpl.
    destruct (halve_inv _ _ _ _ Hinv Hp Hne Hpar) as (Hinv'&Hkeys&Hrep&Hroots).
    destruct (halve_chain _ _ _ _ _ _ _ Hp Hne Hpar Hcpp) as (l'&Hc'&Hlen').
    specialize (IH _ _ _ Hinv' Hc').
    destruct (UF.root_loop fuel ppar (obj_set p ppar m)) as [r' m'| | |]; simpl in *;
      [|done|lia|done].
    destruct IH as [-> Hsame]. split; [done|].
    by apply same_partition_trans with (obj_set p ppar m).
Qed.

Lemma root_spec fuel m p :
  uf_inv m →
  ∃ r, rep m p r
       ∧ finishes fuel (S (length m)) (λ r' m', r' = r ∧ same_partition (register p m) m')
           (UF.root fuel p m).
Proof.
  intros Hinv.
  destruct (register_inv m p Hinv) as (Hinv'&Hp&Hkeys&Hrep&_).
  destruct (uf_rooted _ Hinv' _ Hp) as (l&r&Hc).
  exists r. split; [apply Hrep; left; eauto|].
  assert (UF.root fuel p m = UF.root_loop fuel p (register p m)) as ->.
  { unfold UF.root, register. rewrite bind_run. simpl.
    rewrite bind_run. by destruct (obj_has p m). }
  pose proof (root_loop_spec fuel _ _ _ _ Hinv' Hc) as Hspec.
  pose proof (chain_length _ _ _ _ Hc) as Hlen.
  assert (length (register p m) ≤ S (length m)) as Hlen'.
  { rewrite <-(length_fmap fst (register p m)), Hkeys.
    case_decide; rewrite ?length_app, length_fmap; simpl; lia. }
  destruct (UF.root_loop fuel p (register p m)); simpl in *; [done | done | lia | done].
Qed.

Lemma root_spec_old fuel m p :
  uf_inv m → p ∈ m.*1 →
  finishes fuel (S (length m)) (λ r m', rep m p r ∧ same_partition m m') (UF.root fuel p m).
Proof.
  intros Hinv Hp. destruct (root_spec fuel m p Hinv) as (r&Hr&Hfin).
  rewrite register_old in Hfin by done.
  eapply finishes_mono; [done| |done]. by intros r' m' [-> ?].
Qed.

(** After [root(p)] the map holds [p] and is otherwise the same partition. *)
Definition registered p m m' : Prop :=
  uf_inv m'
  ∧ p ∈ m'.*1
  ∧ m'.*1 = (if decide (p ∈ m.*1) then m.*1 else m.*1 ++ [p])
  ∧ (∀ x r, rep m x r ↔ rep m' x r)
  ∧ roots m' = (if decide (p ∈ m.*1) then roots m else roots m ++ [p]).

Lemma root_spec_new fuel m p :
  uf_inv m →
  finishes fuel (S (length m)) (λ r m', rep m p r ∧ registered p m m') (UF.root fuel p m).
Proof.
  intros Hinv. destruct (root_spec fuel m p Hinv) as (r&Hr&Hfin).
  destruct (register_inv m p Hinv) as (Hinv'&Hp&Hkeys&Hrep&Hroots).
  eapply finishes_mono; [done| |done]. intros r' m' [-> (Hi&Hk&Hr'&Hro)].
  split; [done|]. split_and!; [done|congruence|congruence| |congruence].
  intros x r0. by rewrite Hrep, Hr'.
Qed.

Lemma registered_length p m m' : registered p m m' → length m ≤ length m' ≤ S (length m).
Proof.
  intros (_&_&Hk&_). apply (f_equal length) in Hk. rewrite length_fmap in Hk.
  case_decide; rewrite ?length_app, !length_fmap in Hk; simpl in Hk; lia.
Qed.

Lemma registered_old p m m' : p ∈ m.*1 → registered p m m' → same_partition m m'.
Proof. intros Hp (?&_&Hk&?&Hr). rewrite decide_True in Hk, Hr by done. done. Qed.

Lemma registered_keeps p q m m' : registered p m m' → q ∈ m.*1 → q ∈ m'.*1.
Proof.
  intros (_&_&Hk&_) Hq. rewrite Hk. case_decide; [done|]. apply elem_of_app. by left.
Qed.

Lemma registered_keys p m m' x : registered p m m' → x ∈ m'.*1 ↔ x ∈ m.*1 ∨ x = p.
Proof.
  intros (_&_&Hk&_). rewrite Hk. case_decide as Hp.
  - split; [by left | by intros [?| ->]].
  - by rewrite elem_of_app, list_elem_of_singleton.
Qed.

(** [join] and [joined] *)

Lemma join_spec fuel m p q :
  uf_inv m →
  ∃ rp rq, rep m p rp ∧ rep m q rq ∧
    finishes fuel (length m + 2)
      (λ _ m', uf_inv m'
               ∧ (∀ x, x ∈ m'.*1 ↔ x ∈ m.*1 ∨ x = p ∨ x = q)
               ∧ (∀ x r, rep m x r → rep m' x (if decide (r = rp) then rq else r))
               ∧ (p ∈ m.*1 → q ∈ m.*1 →
                  m'.*1 = m.*1
                  ∧ roots m' = (if decide (rp = rq) then roots m
                                else filter (λ k, k ≠ rp) (roots m))))
      (UF.join fuel p q m).
Proof.
  intros Hinv. destruct (rep_total m p Hinv) as [rp Hrp], (rep_total m q Hinv) as [rq Hrq].
  exists rp, rq. split_and!; [done|done|].
  unfold UF.join. rewrite bind_run.
  pose proof (root_spec_new fuel m p Hinv) as Hp.
  destruct (UF.root fuel p m) as [rp' m1| | |]; simpl in *; [|done|lia|done].
  destruct Hp as [Hrp' Hreg1]. rewrite (rep_det _ _ _ _ Hrp' Hrp). clear rp' Hrp'.
  pose proof Hreg1 as (Hinv1&Hp1&Hk1&Hrep1&Hroots1).
  rewrite bind_run.
  pose proof (root_spec_new fuel m1 q Hinv1) as Hq.
  pose proof (registered_length _ _ _ Hreg1) as Hlen1.
  destruct (UF.root fuel q m1) as [rq' m2| | |]; simpl in *; [|done|lia|done].
  destruct Hq as [Hrq' Hreg2]. apply Hrep1 in Hrq.
  rewrite (rep_det _ _ _ _ Hrq' Hrq). clear rq' Hrq'.
  pose proof Hreg2 as (Hinv2&Hq2&Hk2&Hrep2&Hroots2).
  assert (p ∈ m2.*1) as Hp2 by (by eapply registered_keeps).
  assert (∀ x r, rep m x r ↔ rep m2 x r) as Hrep by (intros; by rewrite Hrep1, Hrep2).
  assert (p ∈ m.*1 → q ∈ m.*1 → same_partition m m2) as Hold.
  { intros Hpm Hqm. apply same_partition_trans with m1; [by apply (registered_old p)|].
    apply (registered_old q); [by eapply registered_keeps | done]. }
  assert (∀ x, x ∈ m2.*1 ↔ x ∈ m.*1 ∨ x = p ∨ x = q) as Hkeys.
  { intros x. rewrite (registered_keys _ _ _ _ Hreg2), (registered_keys _ _ _ _ Hreg1).
    by rewrite (assoc (∨)). }
  destruct (decide (rp = rq)) as [<-|Hne]; simpl.
  - split_and!; [done|done| |].
    + intros x r Hr. apply Hrep in Hr. destruct (decide (r = rp)); by subst.
    + intros Hpm Hqm. by destruct (Hold Hpm Hqm) as (_&?&_&?).
  - assert (rp ∈ roots m2) as Hrp2 by (eapply rep_root; [by apply Hrep|done]).
    assert (rq ∈ roots m2) as Hrq2 by (eapply rep_root; [by apply Hrep2|done]).
    destruct (link_inv m2 rp rq Hinv2 Hrp2 Hrq2 Hne) as (Hinv3&Hk3&Hrep3&Hroots3).
    split_and!; [done| | |].
    + intros x. by rewrite Hk3.
    + intros x r Hr. by apply Hrep3, Hrep.
    + intros Hpm Hqm. destruct (Hold Hpm Hqm) as (_&?&_&?). split; congruence.
Qed.

Lemma joined_spec fuel m p q :
  uf_inv m →
  ∃ rp rq, rep m p rp ∧ rep m q rq ∧
    finishes fuel (length m + 2)
      (λ b m', b = bool_decide (rp = rq) ∧ uf_inv m'
               ∧ (∀ x, x ∈ m'.*1 ↔ x ∈ m.*1 ∨ x = p ∨ x = q)
               ∧ (∀ x r, rep m x r ↔ rep m' x r)
               ∧ (p ∈ m.*1 → q ∈ m.*1 → same_partition m m'))
      (UF.joined fuel p q m).
Proof.
  intros Hinv. destruct (rep_total m p Hinv) as [rp Hrp], (rep_total m q Hinv) as [rq Hrq].
  exists rp, rq. split_and!; [done|done|].
  unfold UF.joined. rewrite bind_run.
  pose proof (root_spec_new fuel m p Hinv) as Hp.
  destruct (UF.root fuel p m) as [rp' m1| | |]; simpl in *; [|done|lia|done].
  destruct Hp as [Hrp' Hreg1]. rewrite (rep_det _ _ _ _ Hrp' Hrp). clear rp' Hrp'.
  pose proof Hreg1 as (Hinv1&Hp1&Hk1&Hrep1&Hroots1).
  rewrite bind_run.
  pose proof (root_spec_new fuel m1 q Hinv1) as Hq.
  pose proof (registered_length _ _ _ Hreg1) as Hlen1.
  destruct (UF.root fuel q m1) as [rq' m2| | |]; simpl in *; [|done|lia|done].
  destruct Hq as [Hrq' Hreg2]. apply Hrep1 in Hrq.
  rewrite (rep_det _ _ _ _ Hrq' Hrq). clear rq' Hrq'.
  pose proof Hreg2 as (Hinv2&Hq2&Hk2&Hrep2&Hroots2).
  split_and!; [done|done| | |].
  - intros x. rewrite (registered_keys _ _ _ _ Hreg2), (registered_keys _ _ _ _ Hreg1).
    by rewrite (assoc (∨)).
  - intros x r. by rewrite Hrep1, Hrep2.
  - intros Hpm Hqm. apply same_partition_trans with m1; [by apply (registered_old p)|].
    apply (registered_old q); [by eapply registered_keeps | done].
Qed.

Lemma elem_of_set_add {A} `{EqDecision A} (s : list A) (a b : A) :
  b ∈ set_add s a ↔ b ∈ s ∨ b = a.
Proof.
  unfold set_add, set_has. case_bool_decide as Ha.
  - split; [by left | by intros [?| ->]].
  - by rewrite elem_of_app, list_elem_of_singleton.
Qed.

Lemma NoDup_set_add {A} `{EqDecision A} (s : list A) (a : A) :
  NoDup s → NoDup (set_add s a).
Proof.
  intros Hnd. unfold set_add, set_has. case_bool_decide as Ha; [done|].
  apply NoDup_app. split_and!; [done | | apply NoDup_singleton].
  by intros b Hb ->%list_elem_of_singleton.
Qed.

(** The parent of a node has the same representative. *)
Lemma parent_key m x p : uf_inv m → obj_get x m = Some p → p ∈ m.*1.
Proof.
  intros Hinv Hx.
  destruct (uf_rooted _ Hinv x) as (l&r&Hc); [by eapply obj_get_Some_key|].
  inversion Hc as [r0 Hr0|x0 q l0 r0 Hx0 Hne Hcq]; subst.
  - assert (p = r) as -> by congruence. by eapply obj_get_Some_key.
  - assert (q = p) as -> by congruence. by eapply chain_key.
Qed.

Lemma rep_parent m x p r : uf_inv m → obj_get x m = Some p → rep m p r → rep m x r.
Proof.
  intros Hinv Hx [[l Hc]|[Hp ->]].
  - left. destruct (decide (x = p)) as [->|Hne]; [eauto|].
    exists (x :: l). by econstructor.
  - exfalso. apply Hp. by eapply parent_key.
Qed.

Lemma forEach_root_spec fuel m0 m i s :
  uf_inv m0 → same_partition m0 m → i ≤ length m0 → NoDup s →
  (∀ r, r ∈ s ↔ ∃ k, k ∈ take i (m0.*1) ∧ rep m0 k r) →
  finishes fuel (2 * length m0 + 2 - i)
    (λ s' m', same_partition m0 m' ∧ NoDup s'
              ∧ ∀ r, r ∈ s' ↔ ∃ k, k ∈ m0.*1 ∧ rep m0 k r)
    (UF.forEach_root fuel i s m).
Proof.
  intros Hinv0. revert m i s.
  induction fuel as [|fuel IH]; intros m i s Hsame Hi Hnd Hs; [simpl; lia|].
  simpl. rewrite bind_run. simpl.
  pose proof Hsame as (Hinv&Hkeys&Hrep&Hroots).
  assert (length m = length m0) as Hlen.
  { by rewrite <-(length_fmap fst m), Hkeys, length_fmap. }
  destruct (m !! i) as [[k p]|] eqn:Hmi.
  - pose proof (lookup_lt_Some _ _ _ Hmi) as Hilt.
    assert (obj_get k m = Some p) as Hk by (eapply obj_get_lookup; [apply Hinv | done]).
    assert (p ∈ m.*1) as Hp by apply (parent_key m k p Hinv Hk).
    assert (m0.*1 !! i = Some k) as Hk0.
    { by rewrite <-Hkeys, list_lookup_fmap, Hmi. }
    rewrite bind_run.
    pose proof (root_spec_old (S fuel) m p Hinv Hp) as Hroot.
    destruct (UF.root (S fuel) p m) as [r' m1| | |]; simpl in *; [|done|lia|done].
    destruct Hroot as [Hr' Hsame1].
    assert (rep m0 k r') as Hkr by apply Hrep, (rep_parent m k p r' Hinv Hk Hr').
    specialize (IH m1 (S i) (set_add s r')).
    assert (finishes fuel (2 * length m0 + 2 - S i)
              (λ s' m', same_partition m0 m' ∧ NoDup s'
                        ∧ ∀ r, r ∈ s' ↔ ∃ k, k ∈ m0.*1 ∧ rep m0 k r)
              (UF.forEach_root fuel (S i) (set_add s r') m1)) as Hrec.
    { apply IH; [by eapply same_partition_trans | lia | by apply NoDup_set_add |].
      intros r. rewrite elem_of_set_add, Hs, (take_S_r _ _ _ Hk0). split.
      * intros [(k'&Hk'&Hr)| ->].
        -- exists k'. split; [apply elem_of_app; by left | done].
        -- exists k. split; [apply elem_of_app; right; left | done].
      * intros (k'&[Hk'| ->%list_elem_of_singleton]%elem_of_app&Hr); [left; eauto|].
        right. by eapply rep_det. }
    destruct (UF.forEach_root fuel (S i) (set_add s r') m1); simpl in *;
      [done | done | lia | done].
  - apply lookup_ge_None in Hmi. simpl. split_and!; [done|done|].
    intros r. rewrite Hs, take_ge; [done|]. rewrite length_fmap. lia.
Qed.

Lemma rootsNbr_spec fuel m :
  uf_inv m →
  finishes fuel (2 * length m + 2) (λ n m', n = length (roots m) ∧ same_partition m m')
    (UF.rootsNbr fuel m).
Proof.
  intros Hinv. unfold UF.rootsNbr. rewrite bind_run.
  pose proof (forEach_root_spec fuel m m 0 [] Hinv (same_partition_refl _ Hinv)) as Hspec.
  rewrite Nat.sub_0_r in Hspec.
  destruct (UF.forEach_root fuel 0 [] m) as [s m'| | |]; simpl in *.
  - destruct Hspec as (Hsame&Hnd&Hs); [lia|apply NoDup_nil_2| |].
    { intros r. rewrite take_0. split; [by intros ?%elem_of_nil|].
      by intros (k&?%elem_of_nil&_). }
    split; [|done]. apply Permutation_length, NoDup_Permutation; [done| |].
    { apply NoDup_filter, Hinv. }
    intros r. rewrite Hs. split.
    + intros (k&Hk&Hr). by eapply rep_root.
    + intros Hr. exists r. split; [|by apply root_rep].
      apply elem_of_roots in Hr. by eapply obj_get_Some_key.
  - apply Hspec; [lia|apply NoDup_nil_2|].
    intros r. rewrite take_0. split; [by intros ?%elem_of_nil|].
    by intros (k&?%elem_of_nil&_).
  - apply Hspec; [lia|apply NoDup_nil_2|].
    intros r. rewrite take_0. split; [by intros ?%elem_of_nil|].
    by intros (k&?%elem_of_nil&_).
  - apply Hspec; [lia|apply NoDup_nil_2|].
    intros r. rewrite take_0. split; [by intros ?%elem_of_nil|].
    by intros (k&?%elem_of_nil&_).
Qed.

Lemma finishes_ok {A} fuel n (Q : A → list (node * node) → Prop) res :
  n ≤ fuel → finishes fuel n Q res → ∃ a m', res = Ok a m' ∧ Q a m'.
Proof. intros Hn. destruct res; simpl; [eauto | done | lia | done]. Qed.

(** Nodes of a map are bounded in number by any list that holds them all. *)
Lemma uf_length_bound m (univ : list node) :
  uf_inv m → (∀ x, x ∈ m.*1 → x ∈ univ) → length m ≤ length univ.
Proof.
  intros Hinv Hsub. rewrite <-(length_fmap fst m).
  apply submseteq_length, NoDup_submseteq; [apply Hinv | done].
Qed.

(** *** The states of a [UF] object *)

(** [new UF], then any calls of its methods that return. *)
Inductive built : list (node * node) → Prop :=
| built_new : built UF.new
| built_root fuel p m r m' : built m → UF.root fuel p m = Ok r m' → built m'
| built_join fuel p q m m' : built m → UF.join fuel p q m = Ok () m' → built m'
| built_joined fuel p q m b m' : built m → UF.joined fuel p q m = Ok b m' → built m'
| built_rootsNbr fuel m n m' : built m → UF.rootsNbr fuel m = Ok n m' → built m'.

Lemma uf_inv_new : uf_inv UF.new.
Proof. split; [apply NoDup_nil_2 | by intros x ?%elem_of_nil]. Qed.

Lemma built_inv m : built m → uf_inv m.
Proof.
  induction 1 as [|fuel p m r m' _ IH Hrun|fuel p q m m' _ IH Hrun
                  |fuel p q m b m' _ IH Hrun|fuel m n m' _ IH Hrun].
  - apply uf_inv_new.
  - pose proof (root_spec_new fuel m p IH) as Hs. rewrite Hrun in Hs.
    by destruct Hs as (_&?&_).
  - destruct (join_spec fuel m p q IH) as (rp&rq&_&_&Hs). rewrite Hrun in Hs.
    by destruct Hs as (?&_).
  - destruct (joined_spec fuel m p q IH) as (rp&rq&_&_&Hs). rewrite Hrun in Hs.
    by destruct Hs as (_&?&_).
  - pose proof (rootsNbr_spec fuel m IH) as Hs. rewrite Hrun in Hs.
    by destruct Hs as (_&?&_).
Qed.
End UFSpec.

(** C6, as amended: whatever calls of its methods the structure has gone
    through, [join(a, b)] returns and [joined(a, b)] is true afterwards; and
    when [a] and [b] are nodes the structure has already seen, [rootsNbr()]
    is one less after the join if [joined(a, b)] was false before it, and the
    same if it was true. *)
Theorem join_joined_rootsNbr {node : Type} `{EqDecision node}
    (m : list (node * node)) (a b : node) (fuel : nat) :
  built m → 2 * length m + 4 ≤ fuel →
  ∃ m1, UF.join fuel a b m = Ok () m1
    ∧ (∃ m2, UF.joined fuel a b m1 = Ok true m2)
    ∧ (a ∈ m.*1 → b ∈ m.*1 →
       ∃ n n1 j m3 m4 m5,
         UF.rootsNbr fuel m = Ok n m3
         ∧ UF.joined fuel a b m = Ok j m4
         ∧ UF.rootsNbr fuel m1 = Ok n1 m5
         ∧ (if j : bool then n1 = n else S n1 = n)).
Proof.
  intros Hinv%built_inv Hfuel.
  destruct (join_spec fuel m a b Hinv) as (rp&rq&Hrp&Hrq&Hjoin).
  apply finishes_ok in Hjoin as ([] & m1 & Hrun & Hinv1 & Hkeys1 & Hrep1 & Hold1); [|lia].
  exists m1. split; [done|].
  assert (length m1 ≤ length m + 2) as Hlen1.
  { etrans; [apply (uf_length_bound m1 (m.*1 ++ [a; b]) Hinv1)|].
    - intros x. rewrite Hkeys1, elem_of_app, !elem_of_cons. intros [?|[?|?]]; eauto.
    - rewrite length_app, length_fmap. simpl. lia. }
  split.
  - destruct (joined_spec fuel m1 a b Hinv1) as (rp'&rq'&Hrp'&Hrq'&Hjoined).
    apply finishes_ok in Hjoined as (j & m2 & Hrun2 & -> & _); [|lia].
    exists m2. rewrite Hrun2. f_equal. apply bool_decide_eq_true.
    pose proof (Hrep1 _ _ Hrp) as Ha. rewrite decide_True in Ha by done.
    pose proof (Hrep1 _ _ Hrq) as Hb.
    assert (rep m1 b rq) as Hb' by (by destruct (decide (rq = rp))).
    rewrite (rep_det _ _ _ _ Hrp' Ha). by eapply rep_det.
  - intros Ha Hb. destruct (Hold1 Ha Hb) as [Hk Hroots].
    assert (length m1 = length m) as Hlen.
    { by rewrite <-(length_fmap fst m1), Hk, length_fmap. }
    pose proof (rootsNbr_spec fuel m Hinv) as Hn.
    apply finishes_ok in Hn as (n & m3 & Hrun3 & -> & _); [|lia].
    destruct (joined_spec fuel m a b Hinv) as (rp0&rq0&Hrp0&Hrq0&Hjoined).
    apply finishes_ok in Hjoined as (j & m4 & Hrun4 & -> & _); [|lia].
    pose proof (rootsNbr_spec fuel m1 Hinv1) as Hn1.
    apply finishes_ok in Hn1 as (n1 & m5 & Hrun5 & -> & _); [|lia].
    exists (length (roots m)), (length (roots m1)), (bool_decide (rp0 = rq0)), m3, m4, m5.
    split_and!; [done|done|done|].
    rewrite (rep_det _ _ _ _ Hrp0 Hrp), (rep_det _ _ _ _ Hrq0 Hrq), Hroots.
    destruct (decide (rp = rq)) as [Heq|Heq].
    + by rewrite bool_decide_eq_true_2.
    + rewrite bool_decide_eq_false_2 by done. apply length_filter_remove.
      * apply NoDup_filter, Hinv.
      * by eapply rep_root.
Qed.

(** C6 as stated fails on nodes the structure has not seen: on a new
    structure [rootsNbr()] is 0, [joined(0, 1)] is false, and after
    [join(0, 1)] [rootsNbr()] is 1: the count went up. *)
Lemma rootsNbr_join_unseen_nodes :
  ∃ m1 m3 m4 m5,
    UF.rootsNbr 8 (@UF.new nat) = Ok 0 m3
    ∧ UF.joined 8 0 1 UF.new = Ok false m4
    ∧ UF.join 8 0 1 UF.new = Ok () m1
    ∧ UF.rootsNbr 8 m1 = Ok 1 m5.
Proof. by eexists _, _, _, _. Qed.

Lemma join_joined_rootsNbr_witness :
  let m := [(0, 1); (1, 1); (2, 2)] in
  ∃ m1, UF.join 10 0 2 m = Ok () m1
    ∧ (∃ m2, UF.joined 10 0 2 m1 = Ok true m2)
    ∧ (0 ∈ m.*1 → 2 ∈ m.*1 →
       ∃ n n1 j m3 m4 m5,
         UF.rootsNbr 10 m = Ok n m3
         ∧ UF.joined 10 0 2 m = Ok j m4
         ∧ UF.rootsNbr 10 m1 = Ok n1 m5
         ∧ (if j : bool then n1 = n else S n1 = n)).
Proof.
  apply (join_joined_rootsNbr [(0, 1); (1, 1); (2, 2)] 0 2 10).
  - apply (built_root 1 2 [(0, 1); (1, 1)] 2); [|reflexivity].
    apply (built_join 2 0 1 UF.new); [apply built_new | reflexivity].
  - simpl. lia.
Defined.

(** ** Doors never close again *)

Global Instance monotone_preorder : PreOrder monotone.
Proof.
  split.
  - intros w d x Hx Hopen. eauto.
  - intros w1 w2 w3 H12 H23 d x Hx Hopen.
    destruct (H12 d x Hx Hopen) as (x'&Hx'&Hopen'). eauto.
Qed.

(** What building a grid does to the doors of the store: it adds new ones. *)
Definition grows (w w' : World) : Prop := doorHeap w `prefix_of` doorHeap w'.

Global Instance grows_preorder : PreOrder grows.
Proof.
  split.
  - intros w. unfold grows. reflexivity.
  - intros w1 w2 w3. unfold grows. apply transitivity.
Qed.

Lemma grows_monotone (w w' : World) : grows w w' → monotone w w'.
Proof.
  intros [k Hk] d x Hx Hopen. exists x. split; [|done].
  rewrite Hk. by apply lookup_app_l_Some.
Qed.

Lemma same_store_grows (w w' : World) : same_store w w' → grows w w'.
Proof. intros (_&Hd&_). unfold grows. by rewrite Hd. Qed.

Lemma new_Door_grows c1 c2 : posts grows (new_Door c1 c2).
Proof.
  unfold new_Door, getCell. pbind; [pleaf|]. pbind; [pleaf|].
  intros w. simpl. by eexists.
Qed.

Lemma putCell_grows c x : posts grows (putCell c x).
Proof. intros w. simpl. unfold grows. reflexivity. Qed.

Lemma putMaze_grows m x : posts grows (putMaze m x).
Proof. intros w. simpl. unfold grows. reflexivity. Qed.

Lemma set_cell_door_grows c dir d : posts grows (set_cell_door c dir d).
Proof. unfold set_cell_door, getCell. pbind; [pleaf | apply putCell_grows]. Qed.

Lemma set_maze_doors_grows m arr : posts grows (set_maze_doors m arr).
Proof. unfold set_maze_doors, getMaze. pbind; [pleaf | apply putMaze_grows]. Qed.

Lemma set_maze_cells_grows m arr : posts grows (set_maze_cells m arr).
Proof. unfold set_maze_cells, getMaze. pbind; [pleaf | apply putMaze_grows]. Qed.

Lemma set_door_at_grows this k d : posts grows (set_door_at this k d).
Proof. unfold set_door_at, getMaze. pbind; [pleaf | apply set_maze_doors_grows]. Qed.

Lemma cell_at_grows m i j : posts grows (cell_at m i j).
Proof. apply (posts_weaken same_store); [apply same_store_grows | apply cell_at_same]. Qed.

Lemma add_doors_grows this x y k : posts grows (add_doors this x y k).
Proof.
  unfold add_doors. pbind; [apply cell_at_grows|]. pbind.
  - case_decide; [|pleaf].
    pbind; [apply cell_at_grows|]. pbind; [apply new_Door_grows|].
    pbind; [apply set_door_at_grows|]. pbind; [apply set_cell_door_grows|].
    pbind; [apply set_cell_door_grows | pleaf].
  - case_decide; [|pleaf].
    pbind; [apply cell_at_grows|]. pbind; [apply new_Door_grows|].
    pbind; [apply set_door_at_grows|]. pbind; [apply set_cell_door_grows|].
    pbind; [apply set_cell_door_grows | pleaf].
Qed.

Lemma build_grid_grows config : posts grows (build_grid config).
Proof.
  unfold build_grid, new_grid.
  generalize (config_rows config) (config_cols config) (config_algo config).
  intros rows cols algo.
  pbind; [intros w; simpl; unfold grows; reflexivity|].
  pbind; [apply posts_mapM; [apply _|]; intros x; apply posts_mapM; [apply _|];
          intros y w; simpl; unfold grows; reflexivity|].
  pbind; [apply set_maze_cells_grows|].
  pbind; [apply set_maze_doors_grows|].
  pbind; [|pleaf].
  apply posts_foldM; [apply _|]; intros k x.
  apply posts_foldM; [apply _|]; intros k' y; apply add_doors_grows.
Qed.

Section Claims.
Variable entropy : nat → Draw.

Lemma constructor_monotone fuel config : posts monotone (constructor entropy fuel config).
Proof.
  unfold constructor.
  pbind; [apply (posts_weaken grows); [apply grows_monotone | apply build_grid_grows]|].
  pbind; [|pleaf].
  apply (posts_weaken generates); [apply generates_monotone | apply randomizeMaze_generates].
Qed.

(** C10: a door that is open stays open through every operation of the
    program.  Each of the three generators and the whole constructor (which
    also makes the new, closed doors) only ever open doors; [solve],
    [groupDoors] and the iterator write to no door at all. *)
Theorem opening_is_monotone (fuel : nat) (maze : maze_ref) :
  posts monotone (createRandomMazeRec entropy fuel maze)
  ∧ posts monotone (createRandomMazePrim entropy fuel maze)
  ∧ posts monotone (createRandomMazeKruskal entropy fuel maze)
  ∧ (∀ config, posts monotone (constructor entropy fuel config))
  ∧ (∀ startCell endCell, posts same_store (solve entropy fuel maze startCell endCell))
  ∧ posts same_store (groupDoors maze)
  ∧ posts same_store (iterator maze).
Proof.
  split_and!.
  - apply (posts_weaken generates), createRandomMazeRec_generates. apply generates_monotone.
  - apply (posts_weaken generates), createRandomMazePrim_generates. apply generates_monotone.
  - apply (posts_weaken generates), createRandomMazeKruskal_generates.
    apply generates_monotone.
  - intros config. apply constructor_monotone.
  - intros startCell endCell. apply solve_same.
  - apply groupDoors_same.
  - apply iterator_same.
Qed.
End Claims.

(** ** Loops over [0 .. n-1] *)

Lemma foldM_seq_inv {St B} (f : B → nat → M St B) (I : nat → B → St → Prop)
    (n : nat) (b : B) (s : St) :
  I 0 b s →
  (∀ i b s, i < n → I i b s → ∃ b' s', f b i s = Ok b' s' ∧ I (S i) b' s') →
  ∃ b' s', foldM f b (seq 0 n) s = Ok b' s' ∧ I n b' s'.
Proof.
  intros H0 Hstep.
  assert (∀ m j b s, j + m = n → I j b s →
            ∃ b' s', foldM f b (seq j m) s = Ok b' s' ∧ I n b' s') as Hgen.
  { induction m as [|m IH]; intros j b0 s0 Hj HI; simpl.
    - exists b0, s0. split; [done|]. by replace n with j by lia.
    - destruct (Hstep j b0 s0) as (b1&s1&Hrun&HI1); [lia|done|].
      rewrite bind_run, Hrun. apply IH; [lia|done]. }
  by apply Hgen.
Qed.

Lemma mapM_seq_inv {St B} (f : nat → M St B) (I : nat → list B → St → Prop)
    (n : nat) (s : St) :
  I 0 [] s →
  (∀ i bs s, i < n → I i bs s → ∃ b s', f i s = Ok b s' ∧ I (S i) (bs ++ [b]) s') →
  ∃ bs s', mapM f (seq 0 n) s = Ok bs s' ∧ I n bs s'.
Proof.
  intros H0 Hstep.
  assert (∀ m j bs s, j + m = n → I j bs s →
            ∃ bs' s', mapM f (seq j m) s = Ok bs' s' ∧ I n (bs ++ bs') s') as Hgen.
  { induction m as [|m IH]; intros j bs s0 Hj HI; simpl.
    - exists [], s0. split; [done|]. rewrite app_nil_r. by replace n with j by lia.
    - destruct (Hstep j bs s0) as (b1&s1&Hrun&HI1); [lia|done|].
      destruct (IH (S j) (bs ++ [b1]) s1) as (bs'&s'&Hrun'&HI'); [lia|done|].
      exists (b1 :: bs'), s'. rewrite bind_run, Hrun, bind_run, Hrun'. split; [done|].
      by rewrite <-app_assoc in HI'. }
  destruct (Hgen n 0 [] s) as (bs&s'&?&?); [lia|done|]. eauto.
Qed.

Lemma div_mod_flat (x y cols : nat) :
  y < cols → (x * cols + y) `div` cols = x ∧ (x * cols + y) `mod` cols = y.
Proof.
  intros Hy. split.
  - symmetry. apply Nat.div_unique with y; lia.
  - symmetry. apply Nat.mod_unique with x; lia.
Qed.

Lemma flat_div_mod (t cols : nat) :
  0 < cols → t = (t `div` cols) * cols + t `mod` cols ∧ t `mod` cols < cols.
Proof.
  intros Hc. split.
  - rewrite Nat.mul_comm. apply Nat.div_mod_eq.
  - apply Nat.mod_upper_bound. lia.
Qed.

(** ** Reading the store *)

Lemma getCell_ok c w x : cellHeap w !! c = Some x → getCell c w = Ok x w.
Proof. intros H. unfold getCell. by apply (reads_ok (λ w, cellHeap w !! c)). Qed.

Lemma getDoor_ok d w x : doorHeap w !! d = Some x → getDoor d w = Ok x w.
Proof. intros H. unfold getDoor. by apply (reads_ok (λ w, doorHeap w !! d)). Qed.

Lemma getMaze_ok m w x : mazeHeap w !! m = Some x → getMaze m w = Ok x w.
Proof. intros H. unfold getMaze. by apply (reads_ok (λ w, mazeHeap w !! m)). Qed.

(** ** The grid the constructor builds

    The constructor visits the cells row by row; [t = x * cols + y] numbers
    the visit of cell [(x, y)], and the cell is the [t]-th one allocated. *)

Section Grid.
Variable w0 : World.
Variables rows cols : nat.
Variable algo : string.
Hypothesis cols_pos : 0 < cols.

(** Where the new objects of this maze start in the store. *)
Definition cell_base : nat := length (cellHeap w0).
Definition door_base : nat := length (doorHeap w0).
Definition this_maze : nat := length (mazeHeap w0).
Definition door_count : nat := rows * (cols - 1) + cols * (rows - 1).

(** The doors made while visiting cell [t]: one to the cell above, then one
    to the cell on the left. *)
Definition step_doors (t : nat) : list Door.t :=
  (if decide (1 ≤ t `div` cols)
   then [Door.mk (cell_base + (t - cols)) (cell_base + t) true] else [])
  ++ (if decide (1 ≤ t `mod` cols)
      then [Door.mk (cell_base + (t - 1)) (cell_base + t) true] else []).

(** The doors made before the visit of cell [t]. *)
Fixpoint grid_doors (t : nat) : list Door.t :=
  match t with
  | 0 => []
  | S t' => grid_doors t' ++ step_doors t'
  end.

(** The entries written into [doors] maps while visiting cell [t]: (cell,
    direction, door). *)
Definition step_slots (t : nat) : list (nat * Dir * nat) :=
  let k := door_base + length (grid_doors t) in
  (if decide (1 ≤ t `div` cols) then [(t, Up, k); (t - cols, Down, k)] else [])
  ++ (if decide (1 ≤ t `mod` cols)
      then let k' := if decide (1 ≤ t `div` cols) then S k else k in
           [(t, Left, k'); (t - 1, Right, k')]
      else []).

Fixpoint grid_slots (t : nat) : list (nat * Dir * nat) :=
  match t with
  | 0 => []
  | S t' => grid_slots t' ++ step_slots t'
  end.

(** The [doors] map of cell [i], given the entries written so far. *)
Definition doors_of (slots : list (nat * Dir * nat)) (i : nat) : list (Dir * nat) :=
  omap (λ s, if decide (s.1.1 = i) then Some (s.1.2, s.2) else None) slots.

Definition grid_cells (slots : list (nat * Dir * nat)) : list Cell.t :=
  (λ t, Cell.mk (t `div` cols) (t `mod` cols) (doors_of slots t)) <$> seq 0 (rows * cols).

Definition grid_cell_refs : list (list nat) :=
  (λ x, seq (cell_base + x * cols) cols) <$> seq 0 rows.

(** [this.doors] once [k] doors are in. *)
Definition doors_array (k : nat) : list (option nat) :=
  (Some <$> seq door_base k) ++ replicate (door_count - k) None.

Definition grid_world (ds : list Door.t) (slots : list (nat * Dir * nat))
    (arr : list (option nat)) : World :=
  mkWorld (cellHeap w0 ++ grid_cells slots)
          (doorHeap w0 ++ ds)
          (mazeHeap w0 ++ [MazeGenerator.mk rows cols algo grid_cell_refs arr])
          (draws w0).

(** The store when the visit of cell [t] starts. *)
Definition grid_state (t : nat) : World :=
  grid_world (grid_doors t) (grid_slots t) (doors_array (length (grid_doors t))).

Lemma grid_maze_lookup ds slots arr :
  mazeHeap (grid_world ds slots arr) !! this_maze
  = Some (MazeGenerator.mk rows cols algo grid_cell_refs arr).
Proof. simpl. unfold this_maze. by rewrite list_lookup_middle. Qed.

Lemma grid_cell_lookup ds slots arr i :
  i < rows * cols →
  cellHeap (grid_world ds slots arr) !! (cell_base + i)
  = Some (Cell.mk (i `div` cols) (i `mod` cols) (doors_of slots i)).
Proof.
  intros Hi. simpl. unfold cell_base, grid_cells.
  rewrite lookup_app_r by lia.
  replace (length (cellHeap w0) + i - length (cellHeap w0)) with i by lia.
  by rewrite list_lookup_fmap, lookup_seq_lt.
Qed.

Lemma cell_at_grid ds slots arr x y :
  x < rows → y < cols →
  cell_at this_maze x y (grid_world ds slots arr)
  = Ok (cell_base + x * cols + y) (grid_world ds slots arr).
Proof.
  intros Hx Hy. unfold cell_at.
  rewrite (bind_ok _ _ _ _ _ (getMaze_ok _ _ _ (grid_maze_lookup ds slots arr))).
  cbn [MazeGenerator.cells].
  erewrite bind_ok; [|apply index_ok; unfold grid_cell_refs;
                      by rewrite list_lookup_fmap, lookup_seq_lt].
  apply index_ok. by rewrite lookup_seq_lt.
Qed.

Lemma new_Door_grid ds slots arr i j :
  i < rows * cols → j < rows * cols →
  ¬ i `div` cols < j `div` cols →
  ¬ (i `div` cols = j `div` cols ∧ i `mod` cols < j `mod` cols) →
  new_Door (cell_base + i) (cell_base + j) (grid_world ds slots arr)
  = Ok (door_base + length ds)
       (grid_world (ds ++ [Door.mk (cell_base + j) (cell_base + i) true]) slots arr).
Proof.
  intros Hi Hj Hrow Hcol. unfold new_Door.
  rewrite (bind_ok _ _ _ _ _ (getCell_ok _ _ _ (grid_cell_lookup ds slots arr i Hi))).
  rewrite (bind_ok _ _ _ _ _ (getCell_ok _ _ _ (grid_cell_lookup ds slots arr j Hj))).
  cbn [Cell.row Cell.col].
  rewrite (bool_decide_eq_false_2 _ Hrow).
  assert (bool_decide (i `div` cols = j `div` cols)
          && bool_decide (i `mod` cols < j `mod` cols) = false) as ->.
  { apply andb_false_iff. rewrite !bool_decide_eq_false.
    destruct (decide (i `div` cols = j `div` cols)); [right|left]; naive_solver. }
  unfold allocDoor, grid_world, door_base. simpl. rewrite length_app.
  by rewrite <-app_assoc.
Qed.

Lemma set_door_at_grid ds slots arr k d :
  set_door_at this_maze k d (grid_world ds slots arr)
  = Ok () (grid_world ds slots (array_set arr k d)).
Proof.
  unfold set_door_at, set_maze_doors.
  rewrite (bind_ok _ _ _ _ _ (getMaze_ok _ _ _ (grid_maze_lookup ds slots arr))).
  rewrite (bind_ok _ _ _ _ _ (getMaze_ok _ _ _ (grid_maze_lookup ds slots arr))).
  unfold putMaze, grid_world, this_maze. simpl. do 2 f_equal.
  rewrite <-(Nat.add_0_r (length (mazeHeap w0))), insert_app_r. done.
Qed.

Lemma doors_of_app slots slots' i :
  doors_of (slots ++ slots') i = doors_of slots i ++ doors_of slots' i.
Proof. apply omap_app. Qed.

Lemma elem_of_doors_of slots i dir d :
  (dir, d) ∈ doors_of slots i ↔ (i, dir, d) ∈ slots.
Proof.
  unfold doors_of. rewrite list_elem_of_omap. split.
  - intros ([[j dir'] d']&Hin&Heq). simpl in Heq. case_decide; simplify_eq. done.
  - intros Hin. exists (i, dir, d). split; [done|]. simpl. by rewrite decide_True.
Qed.

Lemma set_cell_door_grid ds slots arr i dir d :
  i < rows * cols →
  (∀ d', (i, dir, d') ∉ slots) →
  set_cell_door (cell_base + i) dir d (grid_world ds slots arr)
  = Ok () (grid_world ds (slots ++ [(i, dir, d)]) arr).
Proof.
  intros Hi Hfresh. unfold set_cell_door.
  rewrite (bind_ok _ _ _ _ _ (getCell_ok _ _ _ (grid_cell_lookup ds slots arr i Hi))).
  unfold putCell, grid_world, cell_base. simpl. do 2 f_equal.
  rewrite insert_app_r. f_equal.
  rewrite obj_set_new.
  2:{ intros ([dir' d']&Heq&Hin)%list_elem_of_fmap. simpl in Heq. subst dir'.
      by apply elem_of_doors_of, Hfresh in Hin. }
  apply list_eq. intros i0. unfold grid_cells.
  destruct (decide (i0 = i)) as [->|Hne].
  - rewrite list_lookup_insert_eq by (by rewrite length_fmap, length_seq).
    rewrite list_lookup_fmap, lookup_seq_lt by done. simpl. f_equal. f_equal.
    rewrite doors_of_app. f_equal. unfold doors_of. simpl. by rewrite decide_True.
  - rewrite list_lookup_insert_ne by done.
    rewrite !list_lookup_fmap. destruct (seq 0 (rows * cols) !! i0) as [t|] eqn:Ht; [|done].
    apply lookup_seq in Ht as [-> _]. simpl. f_equal. f_equal.
    rewrite doors_of_app. unfold doors_of at 3. simpl. rewrite decide_False by done.
    by rewrite app_nil_r.
Qed.

Lemma step_doors_length x y :
  y < cols →
  length (step_doors (x * cols + y))
  = (if decide (1 ≤ x) then 1 else 0) + (if decide (1 ≤ y) then 1 else 0).
Proof.
  intros Hy. unfold step_doors. destruct (div_mod_flat x y cols Hy) as [-> ->].
  rewrite length_app. by repeat case_decide.
Qed.

Lemma grid_doors_length x y :
  y ≤ cols →
  length (grid_doors (x * cols + y))
  = x * (cols - 1) + cols * (x - 1) + (y - 1) + (if decide (1 ≤ x) then y else 0).
Proof.
  revert y. induction x as [|x IHx]; intros y; induction y as [|y IHy]; intros Hy.
  - simpl. lia.
  - rewrite Nat.add_succ_r. cbn [grid_doors].
    rewrite length_app, IHy, step_doors_length by lia.
    repeat case_decide; lia.
  - replace (S x * cols + 0) with (x * cols + cols) by lia.
    rewrite IHx by lia. destruct x; repeat case_decide; nia.
  - rewrite Nat.add_succ_r. cbn [grid_doors].
    rewrite length_app, IHy, step_doors_length by lia.
    repeat case_decide; lia.
Qed.

Lemma grid_doors_total : length (grid_doors (rows * cols)) = door_count.
Proof.
  pose proof (grid_doors_length rows 0) as H. rewrite Nat.add_0_r in H.
  rewrite H by lia. unfold door_count. destruct rows; repeat case_decide; nia.
Qed.

Lemma grid_doors_prefix t t' : t ≤ t' → grid_doors t `prefix_of` grid_doors t'.
Proof.
  induction 1 as [|t' _ IH]; [done|].
  etrans; [apply IH|]. simpl. by apply prefix_app_r.
Qed.

Lemma grid_doors_bound t : t ≤ rows * cols → length (grid_doors t) ≤ door_count.
Proof.
  intros Ht. rewrite <-grid_doors_total. by apply prefix_length, grid_doors_prefix.
Qed.

Lemma div_ge_1 t : 1 ≤ t `div` cols → cols ≤ t.
Proof.
  intros H. destruct (decide (cols ≤ t)); [done|].
  rewrite Nat.div_small in H by lia. lia.
Qed.

Lemma mod_ge_1 t : 1 ≤ t `mod` cols → 1 ≤ t.
Proof. intros H. destruct t; [|lia]. rewrite Nat.Div0.mod_0_l in H. lia. Qed.

(** An entry written before the visit of cell [t] belongs to a door made
    before it, and to a cell whose side in that direction has been dealt
    with. *)
Lemma grid_slots_below t i dir d :
  (i, dir, d) ∈ grid_slots t →
  door_base ≤ d < door_base + length (grid_doors t)
  ∧ match dir with
    | Up | Left => i < t
    | Down => i + cols < t
    | Right => i + 1 < t
    end.
Proof.
  induction t as [|t IH]; simpl; [by intros ?%elem_of_nil|].
  rewrite elem_of_app, length_app. intros [Hin|Hin].
  { destruct (IH Hin) as [? ?]. split; [lia|]. destruct dir; lia. }
  unfold step_slots in Hin. unfold step_doors. rewrite length_app.
  apply elem_of_app in Hin as [Hin|Hin].
  - case_decide as Hx; [|by apply elem_of_nil in Hin].
    pose proof (div_ge_1 _ Hx).
    apply elem_of_cons in Hin as [Hin|Hin%list_elem_of_singleton]; simplify_eq;
      simpl; split; lia.
  - case_decide as Hy; [|by apply elem_of_nil in Hin].
    pose proof (mod_ge_1 _ Hy).
    apply elem_of_cons in Hin as [Hin|Hin%list_elem_of_singleton]; simplify_eq;
      case_decide; simpl; split; lia.
Qed.

Lemma array_set_doors_array k :
  k < door_count → array_set (doors_array k) k (door_base + k) = doors_array (S k).
Proof.
  intros Hk. unfold array_set, doors_array.
  rewrite decide_True by (rewrite length_app, length_fmap, length_seq, length_replicate; lia).
  rewrite insert_app_r_alt by (rewrite length_fmap, length_seq; lia).
  rewrite length_fmap, length_seq, Nat.sub_diag.
  replace (door_count - k) with (S (door_count - S k)) by lia.
  rewrite seq_S, fmap_app, <-app_assoc. done.
Qed.

(** Making one door between the visited cell [i] and an earlier cell [j]. *)
Lemma link_grid ds slots i j xj yj k dir1 dir2 :
  j = xj * cols + yj → k = length ds →
  i < rows * cols → xj < rows → yj < cols → i ≠ j →
  ¬ i `div` cols < xj →
  ¬ (i `div` cols = xj ∧ i `mod` cols < yj) →
  k < door_count →
  (∀ d', (i, dir1, d') ∉ slots) → (∀ d', (j, dir2, d') ∉ slots) →
  (cell2 ← cell_at this_maze xj yj;
   door ← new_Door (cell_base + i) cell2;
   set_door_at this_maze k door;;
   set_cell_door (cell_base + i) dir1 door;;
   set_cell_door cell2 dir2 door;;
   mret (S k)) (grid_world ds slots (doors_array k))
  = Ok (S k)
       (grid_world (ds ++ [Door.mk (cell_base + j) (cell_base + i) true])
          (slots ++ [(i, dir1, door_base + k); (j, dir2, door_base + k)])
          (doors_array (S k))).
Proof.
  intros Hjdef Hkdef Hi Hxj Hyj Hij Hrow Hcol Hk Hfresh1 Hfresh2.
  assert (j < rows * cols) as Hj by (subst j; nia).
  assert (j `div` cols = xj ∧ j `mod` cols = yj) as [Hdiv Hmod]
    by (subst j; by apply div_mod_flat).
  rewrite (bind_ok _ _ _ _ _ (cell_at_grid _ _ _ xj yj Hxj Hyj)).
  rewrite <-Nat.add_assoc, <-Hjdef.
  erewrite bind_ok; [|apply new_Door_grid; [done|done|by rewrite Hdiv|by rewrite Hdiv, Hmod]].
  rewrite <-Hkdef.
  erewrite bind_ok; [|apply set_door_at_grid].
  rewrite array_set_doors_array by done.
  erewrite bind_ok; [|by apply set_cell_door_grid].
  erewrite bind_ok; [|apply set_cell_door_grid; [done|]].
  2:{ intros d'. rewrite elem_of_app, list_elem_of_singleton.
      intros [?|?]; [by eapply Hfresh2 | congruence]. }
  by rewrite <-app_assoc.
Qed.

Lemma grid_slots_fresh_here t dir d : dir = Up ∨ dir = Left → (t, dir, d) ∉ grid_slots t.
Proof. intros [-> | ->] Hin%grid_slots_below; simpl in Hin; lia. Qed.

Lemma grid_slots_fresh_above t d : cols ≤ t → (t - cols, Down, d) ∉ grid_slots t.
Proof. intros Ht Hin%grid_slots_below. simpl in Hin. lia. Qed.

Lemma grid_slots_fresh_left t d : 1 ≤ t → (t - 1, Right, d) ∉ grid_slots t.
Proof. intros Ht Hin%grid_slots_below. simpl in Hin. lia. Qed.

(** The visit of cell [(x, y)]. *)
Lemma add_doors_grid x y :
  x < rows → y < cols →
  add_doors this_maze x y (length (grid_doors (x * cols + y))) (grid_state (x * cols + y))
  = Ok (length (grid_doors (S (x * cols + y)))) (grid_state (S (x * cols + y))).
Proof.
  intros Hx Hy. set (t := x * cols + y).
  assert (t < rows * cols) as Ht by (unfold t; nia).
  destruct (div_mod_flat x y cols Hy) as [Hdiv Hmod]. fold t in Hdiv, Hmod.
  pose proof (grid_doors_bound (S t) ltac:(lia)) as Hbound.
  unfold grid_state at 2. cbn [grid_doors grid_slots] in *.
  unfold step_slots, step_doors in *. rewrite Hdiv, Hmod in *.
  rewrite !length_app in Hbound.
  unfold add_doors, grid_state.
  rewrite (bind_ok _ _ _ _ _ (cell_at_grid _ _ _ x y Hx Hy)).
  rewrite <-Nat.add_assoc. fold t.
  assert (∀ d', (t, Up, d') ∉ grid_slots t) as HfreshU
    by (intros d'; apply grid_slots_fresh_here; by left).
  assert (∀ d', (t, Left, d') ∉ grid_slots t) as HfreshL
    by (intros d'; apply grid_slots_fresh_here; by right).
  destruct (decide (1 ≤ x)) as [Hx1|Hx1].
  - assert (t - cols = (x - 1) * cols + y) as Hj by (unfold t; nia).
    assert (cols ≤ t) by (unfold t; nia).
    assert (∀ d', (t - cols, Down, d') ∉ grid_slots t) as HfreshD
      by (intros d'; by apply grid_slots_fresh_above).
    rewrite bind_run.
    rewrite (link_grid (grid_doors t) (grid_slots t) t (t - cols) (x - 1) y
               (length (grid_doors t)) Up Down);
      [|first [done | lia | rewrite Hdiv, ?Hmod; lia | simpl in Hbound; lia]..].
    destruct (decide (1 ≤ y)) as [Hy1|Hy1].
    + assert (t - 1 = x * cols + (y - 1)) as Hj' by (unfold t; nia).
      rewrite (link_grid _ _ t (t - 1) x (y - 1) (S (length (grid_doors t))) Left Right);
        [|first [done | lia | rewrite Hdiv, ?Hmod; lia | simpl in Hbound; lia | idtac]..].
      * f_equal; [rewrite !length_app; simpl; lia|].
        f_equal; [by rewrite <-app_assoc | by rewrite <-app_assoc, Nat.add_succ_r |].
        f_equal. rewrite !length_app. simpl. lia.
      * rewrite length_app. simpl. lia.
      * intros d'. rewrite elem_of_app, !elem_of_cons.
        intros [?|[?|[?|?%elem_of_nil]]]; [by eapply HfreshL|done..].
      * intros d'. rewrite elem_of_app, !elem_of_cons.
        intros [Hin|[?|[?|?%elem_of_nil]]]; [|done|simplify_eq|done].
        apply grid_slots_fresh_left in Hin; [done|lia].
    + rewrite mret_run, !app_nil_r, !length_app. simpl.
      by rewrite Nat.add_1_r.
  - rewrite bind_run, mret_run. simpl.
    destruct (decide (1 ≤ y)) as [Hy1|Hy1].
    + assert (t - 1 = x * cols + (y - 1)) as Hj' by (unfold t; nia).
      assert (∀ d', (t - 1, Right, d') ∉ grid_slots t) as HfreshR
        by (intros d'; apply grid_slots_fresh_left; lia).
      rewrite (link_grid _ _ t (t - 1) x (y - 1) (length (grid_doors t)) Left Right);
        [|first [done | lia | rewrite Hdiv, ?Hmod; lia | simpl in Hbound; lia]..].
      by rewrite !length_app, Nat.add_1_r.
    + by rewrite mret_run, !app_nil_r.
Qed.

Lemma door_loops_grid :
  foldM (λ k x, foldM (λ k y, add_doors this_maze x y k) k (seq 0 cols)) 0 (seq 0 rows)
    (grid_state 0)
  = Ok door_count (grid_state (rows * cols)).
Proof.
  destruct (foldM_seq_inv
              (λ k x, foldM (λ k y, add_doors this_maze x y k) k (seq 0 cols))
              (λ x k w, k = length (grid_doors (x * cols)) ∧ w = grid_state (x * cols))
              rows 0 (grid_state 0)) as (k&w&Hrun&->&->); [done| |].
  - intros x k w Hx [-> ->].
    destruct (foldM_seq_inv (λ k y, add_doors this_maze x y k)
                (λ y k w, k = length (grid_doors (x * cols + y))
                          ∧ w = grid_state (x * cols + y))
                cols (length (grid_doors (x * cols))) (grid_state (x * cols)))
      as (k&w&Hrun&->&->).
    + by rewrite Nat.add_0_r.
    + intros y k w Hy [-> ->]. rewrite add_doors_grid by done.
      eexists _, _. split; [done|]. by rewrite Nat.add_succ_r.
    + rewrite Hrun. eexists _, _. split; [done|].
      by replace (S x * cols) with (x * cols + cols) by lia.
  - by rewrite Hrun, grid_doors_total.
Qed.

Lemma alloc_cells_grid (mz : list MazeGenerator.t) :
  mapM (λ x, mapM (λ y, allocCell (Cell.mk x y [])) (seq 0 cols)) (seq 0 rows)
    (mkWorld (cellHeap w0) (doorHeap w0) mz (draws w0))
  = Ok grid_cell_refs (mkWorld (cellHeap w0 ++ grid_cells []) (doorHeap w0) mz (draws w0)).
Proof.
  set (mkc := λ t, Cell.mk (t `div` cols) (t `mod` cols) (doors_of [] t)).
  set (st := λ t, mkWorld (cellHeap w0 ++ (mkc <$> seq 0 t)) (doorHeap w0) mz (draws w0)).
  destruct (mapM_seq_inv
              (λ x, mapM (λ y, allocCell (Cell.mk x y [])) (seq 0 cols))
              (λ x bs w, bs = (λ x, seq (cell_base + x * cols) cols) <$> seq 0 x
                         ∧ w = st (x * cols))
              rows (st 0)) as (bs&w&Hrun&->&->); [done| |].
  - intros x bs w Hx [-> ->].
    destruct (mapM_seq_inv (λ y, allocCell (Cell.mk x y []))
                (λ y bs w, bs = seq (cell_base + x * cols) y ∧ w = st (x * cols + y))
                cols (st (x * cols))) as (bs&w&Hrun&->&->).
    + by rewrite Nat.add_0_r.
    + intros y bs w Hy [-> ->]. eexists _, _. split; [done|]. split.
      * rewrite seq_S. unfold st. cbn [cellHeap].
        rewrite length_app, length_fmap, length_seq.
        unfold cell_base. do 2 f_equal. lia.
      * unfold st. cbn [cellHeap doorHeap mazeHeap draws]. f_equal.
        rewrite Nat.add_succ_r, seq_S, fmap_app, <-app_assoc. do 2 f_equal.
        cbn [fmap list_fmap]. unfold mkc. cbn [Nat.add].
        by destruct (div_mod_flat x y cols Hy) as [-> ->].
    + rewrite Hrun. eexists _, _. split; [done|]. split.
      * by rewrite seq_S, fmap_app.
      * by replace (S x * cols) with (x * cols + cols) by lia.
  - assert (mkWorld (cellHeap w0) (doorHeap w0) mz (draws w0) = st 0) as ->.
    { unfold st. simpl. by rewrite app_nil_r. }
    by rewrite Hrun.
Qed.

Lemma insert_this_maze (m m' : MazeGenerator.t) :
  <[this_maze := m']> (mazeHeap w0 ++ [m]) = mazeHeap w0 ++ [m'].
Proof.
  unfold this_maze. by rewrite <-(Nat.add_0_r (length (mazeHeap w0))), insert_app_r.
Qed.

(** The grid part of the constructor, in closed form. *)
Lemma new_grid_spec : new_grid rows cols algo w0 = Ok this_maze (grid_state (rows * cols)).
Proof.
  unfold new_grid. rewrite bind_run. unfold allocMaze at 1. cbv beta iota.
  fold this_maze. rewrite bind_run, alloc_cells_grid.
  set (w1 := mkWorld _ _ _ _).
  assert (mazeHeap w1 !! this_maze = Some (MazeGenerator.mk rows cols algo [] [])) as Hm1.
  { simpl. unfold this_maze. by rewrite list_lookup_middle. }
  unfold set_maze_cells.
  rewrite bind_run, (bind_ok _ _ _ _ _ (getMaze_ok _ _ _ Hm1)).
  unfold putMaze, w1. simpl. rewrite insert_this_maze.
  set (w2 := mkWorld _ _ _ _).
  assert (mazeHeap w2 !! this_maze
          = Some (MazeGenerator.mk rows cols algo grid_cell_refs [])) as Hm2.
  { simpl. unfold this_maze. by rewrite list_lookup_middle. }
  unfold set_maze_doors.
  rewrite bind_run, (bind_ok _ _ _ _ _ (getMaze_ok _ _ _ Hm2)).
  unfold putMaze, w2. simpl. rewrite insert_this_maze.
  fold door_count.
  assert (mkWorld (cellHeap w0 ++ grid_cells []) (doorHeap w0)
            (mazeHeap w0 ++ [MazeGenerator.mk rows cols algo grid_cell_refs
                               (replicate door_count None)]) (draws w0)
          = grid_state 0) as ->.
  { unfold grid_state, grid_world, doors_array. simpl.
    by rewrite app_nil_r, Nat.sub_0_r. }
  rewrite bind_run, door_loops_grid. done.
Qed.

(** *** What the finished grid looks like *)

Lemma doors_array_full : doors_array door_count = Some <$> seq door_base door_count.
Proof. unfold doors_array. by rewrite Nat.sub_diag, app_nil_r. Qed.

Lemma grid_slots_mono t t' s : t ≤ t' → s ∈ grid_slots t → s ∈ grid_slots t'.
Proof.
  induction 1 as [|t' _ IH]; [done|]. intros Hs. simpl. apply elem_of_app. auto.
Qed.

(** Every door joins a cell to the one above it or to the one on its left,
    is closed, and is in the [doors] maps of both. *)
Lemma grid_doors_lookup T k door :
  grid_doors T !! k = Some door →
  ∃ t, t < T ∧ Door.closed door = true ∧ Door.cell2 door = cell_base + t
    ∧ ((Door.cell1 door = cell_base + (t - cols) ∧ 1 ≤ t `div` cols
        ∧ (t, Up, door_base + k) ∈ grid_slots T
        ∧ (t - cols, Down, door_base + k) ∈ grid_slots T)
       ∨ (Door.cell1 door = cell_base + (t - 1) ∧ 1 ≤ t `mod` cols
          ∧ (t, Left, door_base + k) ∈ grid_slots T
          ∧ (t - 1, Right, door_base + k) ∈ grid_slots T)).
Proof.
  induction T as [|T IH]; simpl; [done|].
  rewrite lookup_app. destruct (grid_doors T !! k) as [door'|] eqn:Hk.
  - intros [= ->]. destruct (IH eq_refl) as (t&Ht&Hc&H2&Hcases).
    exists t. split_and!; [lia|done|done|].
    destruct Hcases as [(?&?&?&?)|(?&?&?&?)]; [left|right];
      split_and!; try done; apply elem_of_app; by left.
  - apply lookup_ge_None in Hk. clear IH. intros Hstep.
    exists T. split; [lia|].
    unfold step_doors in Hstep. unfold step_slots.
    destruct (decide (1 ≤ T `div` cols)) as [Hx|Hx];
      destruct (decide (1 ≤ T `mod` cols)) as [Hy|Hy]; simpl in Hstep.
    + destruct (k - length (grid_doors T)) as [|[|n]] eqn:Hn; simpl in Hstep;
        simplify_eq; simpl.
      * split_and!; [done|done|]. left. split_and!; [done|done| |].
        -- apply elem_of_app. right. replace k with (length (grid_doors T)) by lia. left.
        -- apply elem_of_app. right. replace k with (length (grid_doors T)) by lia.
           right. left.
      * split_and!; [done|done|]. right. split_and!; [done|done| |].
        -- apply elem_of_app. right.
           replace (door_base + k) with (S (door_base + length (grid_doors T))) by lia.
           do 2 right. left.
        -- apply elem_of_app. right.
           replace (door_base + k) with (S (door_base + length (grid_doors T))) by lia.
           do 3 right. left.
    + destruct (k - length (grid_doors T)) as [|n] eqn:Hn; simpl in Hstep;
        simplify_eq; simpl.
      split_and!; [done|done|]. left. split_and!; [done|done| |].
      * apply elem_of_app. right. replace k with (length (grid_doors T)) by lia. left.
      * apply elem_of_app. right. replace k with (length (grid_doors T)) by lia.
        right. left.
    + destruct (k - length (grid_doors T)) as [|n] eqn:Hn; simpl in Hstep;
        simplify_eq; simpl.
      split_and!; [done|done|]. right. split_and!; [done|done| |].
      * apply elem_of_app. right. replace k with (length (grid_doors T)) by lia. left.
      * apply elem_of_app. right. replace k with (length (grid_doors T)) by lia.
        right. left.
    + done.
Qed.

(** Every entry of a [doors] map refers to a door of the grid that has the
    cell at one end. *)
Lemma grid_slots_sound T i dir d :
  (i, dir, d) ∈ grid_slots T →
  i < T ∧ ∃ k door, d = door_base + k ∧ grid_doors T !! k = Some door
    ∧ (Door.cell1 door = cell_base + i ∨ Door.cell2 door = cell_base + i).
Proof.
  induction T as [|T IH]; simpl; [by intros ?%elem_of_nil|].
  rewrite elem_of_app. intros [Hin|Hin].
  { destruct (IH Hin) as (Hi&k&door&->&Hk&Hends). split; [lia|].
    exists k, door. split_and!; [done| |done]. by apply lookup_app_l_Some. }
  clear IH. unfold step_slots in Hin. unfold step_doors.
  apply elem_of_app in Hin as [Hin|Hin].
  - case_decide as Hx; [|by apply elem_of_nil in Hin].
    pose proof (div_ge_1 _ Hx).
    apply elem_of_cons in Hin as [Hin|Hin%list_elem_of_singleton]; simplify_eq.
    + split; [lia|]. eexists (length (grid_doors T)), _. split_and!; [done| |].
      * rewrite lookup_app_r, Nat.sub_diag by done. done.
      * by right.
    + split; [lia|]. eexists (length (grid_doors T)), _. split_and!; [done| |].
      * rewrite lookup_app_r, Nat.sub_diag by done. done.
      * by left.
  - case_decide as Hy; [|by apply elem_of_nil in Hin].
    pose proof (mod_ge_1 _ Hy).
    apply elem_of_cons in Hin as [Hin|Hin%list_elem_of_singleton]; simplify_eq.
    + split; [lia|]. case_decide.
      * eexists (S (length (grid_doors T))), _. split_and!; [lia| |].
        -- rewrite lookup_app_r by lia.
           replace (S (length (grid_doors T)) - length (grid_doors T)) with 1 by lia. done.
        -- by right.
      * eexists (length (grid_doors T)), _. split_and!; [done| |].
        -- rewrite lookup_app_r, Nat.sub_diag by done. done.
        -- by right.
    + split; [lia|]. case_decide.
      * eexists (S (length (grid_doors T))), _. split_and!; [lia| |].
        -- rewrite lookup_app_r by lia.
           replace (S (length (grid_doors T)) - length (grid_doors T)) with 1 by lia. done.
        -- by left.
      * eexists (length (grid_doors T)), _. split_and!; [done| |].
        -- rewrite lookup_app_r, Nat.sub_diag by done. done.
        -- by left.
Qed.

(** A cell has at most one entry for each direction. *)
Lemma grid_slots_keys_NoDup T i : NoDup (doors_of (grid_slots T) i).*1.
Proof.
  induction T as [|T IH]; simpl; [apply NoDup_nil_2|].
  rewrite doors_of_app, fmap_app. apply NoDup_app. split_and!; [done| |].
  - intros dir ([dir' d]&Heq&Hin)%list_elem_of_fmap ([dir'' d']&Heq'&Hin')%list_elem_of_fmap.
    simpl in *. subst dir' dir''.
    apply elem_of_doors_of, grid_slots_below in Hin as [_ Hin].
    apply elem_of_doors_of in Hin'. unfold step_slots in Hin'.
    apply elem_of_app in Hin' as [Hin'|Hin'].
    + case_decide as Hx; [|by apply elem_of_nil in Hin'].
      pose proof (div_ge_1 _ Hx).
      apply elem_of_cons in Hin' as [?|?%list_elem_of_singleton]; simplify_eq; lia.
    + case_decide as Hy; [|by apply elem_of_nil in Hin'].
      pose proof (mod_ge_1 _ Hy).
      apply elem_of_cons in Hin' as [?|?%list_elem_of_singleton]; simplify_eq; lia.
  - unfold step_slots, doors_of.
    repeat case_decide; simpl; repeat case_decide; simpl;
      repeat (apply NoDup_cons; split;
              [intros Hin; repeat (apply elem_of_cons in Hin as [Hin|Hin]; [done|]);
               by apply elem_of_nil in Hin|]);
      apply NoDup_nil_2.
Qed.
End Grid.

(** ** Well-formed stores *)

(** A maze object whose arrays refer to cells and doors of the store, with no
    hole left in [doors]. *)
Record maze_ok (w : World) (m : MazeGenerator.t) : Prop := {
  mz_rows : 0 < MazeGenerator.rows m;
  mz_cols : 0 < MazeGenerator.cols m;
  mz_cells : ∀ i j, i < MazeGenerator.rows m → j < MazeGenerator.cols m →
      ∃ row c, MazeGenerator.cells m !! i = Some row ∧ row !! j = Some c;
  mz_cells_valid : ∀ row c, row ∈ MazeGenerator.cells m → c ∈ row →
      c < length (cellHeap w);
  mz_doors : ∀ od, od ∈ MazeGenerator.doors m → ∃ d, od = Some d ∧ d < length (doorHeap w)
}.

(** Doors and cells refer to each other: the doors in the map of a cell have
    that cell at one end, and a door is in the maps of the cells at both its
    ends. *)
Record heap_wf (w : World) : Prop := {
  wf_keys : ∀ c x, cellHeap w !! c = Some x → NoDup (Cell.doors x).*1;
  wf_cell_door : ∀ c x dir d,
      cellHeap w !! c = Some x → (dir, d) ∈ Cell.doors x →
      ∃ door, doorHeap w !! d = Some door
              ∧ (Door.cell1 door = c ∨ Door.cell2 door = c);
  wf_door_cell : ∀ d door,
      doorHeap w !! d = Some door →
      (∃ x dir, cellHeap w !! Door.cell1 door = Some x ∧ (dir, d) ∈ Cell.doors x)
      ∧ (∃ x dir, cellHeap w !! Door.cell2 door = Some x ∧ (dir, d) ∈ Cell.doors x);
  wf_mazes : ∀ i m, mazeHeap w !! i = Some m → maze_ok w m
}.

Lemma heap_wf_empty : heap_wf empty_world.
Proof. split; intros; simpl in *; by rewrite ?lookup_nil in *. Qed.

Lemma heap_wf_generates (w w' : World) : heap_wf w → generates w w' → heap_wf w'.
Proof.
  intros Hwf (Hc&Hd&Hm).
  pose proof (Forall2_length _ _ _ Hd) as Hlen.
  split.
  - intros c x. rewrite Hc. apply Hwf.
  - intros c x dir d. rewrite Hc. intros Hx Hin.
    destruct (wf_cell_door _ Hwf _ _ _ _ Hx Hin) as (door&Hdoor&Hends).
    destruct (Forall2_lookup_l _ _ _ _ _ Hd Hdoor) as (door'&Hdoor'&(H1&H2&_)).
    exists door'. split; [done|]. by rewrite H1, H2.
  - intros d door' Hdoor'.
    destruct (Forall2_lookup_r _ _ _ _ _ Hd Hdoor') as (door&Hdoor&(H1&H2&_)).
    rewrite Hc, H1, H2. by apply Hwf.
  - intros i m' Hm'.
    destruct (Forall2_lookup_r _ _ _ _ _ Hm Hm') as (m&Hmi&(Hr&Hco&_&Hce&Hdo)).
    destruct (wf_mazes _ Hwf _ _ Hmi) as [? ? Hcells Hvalid Hdoors].
    split; rewrite ?Hr, ?Hco, ?Hce, ?Hc; try done.
    intros od Hod. rewrite Hdo in Hod. rewrite <-Hlen. auto.
Qed.

Lemma obj_get_elem {K V} `{EqDecision K} (o : list (K * V)) k v :
  NoDup o.*1 → (k, v) ∈ o → obj_get k o = Some v.
Proof. intros Hnd [i Hi]%list_elem_of_lookup. by eapply obj_get_lookup. Qed.

Lemma config_rows_pos config : 0 < config_rows config.
Proof. unfold config_rows, num_or. destruct (config_fields config).1.1 as [[|n]|]; lia. Qed.

Lemma config_cols_pos config : 0 < config_cols config.
Proof.
  pose proof (config_rows_pos config).
  unfold config_cols, num_or. destruct (config_fields config).1.2 as [[|n]|]; lia.
Qed.

(** Two cells side by side: one coordinate the same, the other one apart. *)
Definition adjacent (a b : Cell.t) : Prop :=
  (Cell.row a = Cell.row b ∧ (Cell.col a + 1 = Cell.col b ∨ Cell.col b + 1 = Cell.col a))
  ∨ (Cell.col a = Cell.col b ∧ (Cell.row a + 1 = Cell.row b ∨ Cell.row b + 1 = Cell.row a)).

Section GridFacts.
Variable w0 : World.
Variables rows cols : nat.
Variable algo : string.
Hypothesis cols_pos : 0 < cols.
Hypothesis rows_pos : 0 < rows.

Abbreviation T := (rows * cols).
Abbreviation final := (grid_state w0 rows cols algo (rows * cols)).

Lemma final_cell_old c x : cellHeap w0 !! c = Some x → cellHeap final !! c = Some x.
Proof. intros H. simpl. by apply lookup_app_l_Some. Qed.

Lemma final_cell_new i :
  i < T →
  cellHeap final !! (cell_base w0 + i)
  = Some (Cell.mk (i `div` cols) (i `mod` cols)
            (doors_of (grid_slots w0 cols T) i)).
Proof. intros Hi. by apply grid_cell_lookup. Qed.

Lemma final_cell_inv c x :
  cellHeap final !! c = Some x →
  cellHeap w0 !! c = Some x
  ∨ ∃ i, i < T ∧ c = cell_base w0 + i
         ∧ x = Cell.mk (i `div` cols) (i `mod` cols) (doors_of (grid_slots w0 cols T) i).
Proof.
  simpl. rewrite lookup_app. destruct (cellHeap w0 !! c) eqn:Hc; [by left|].
  apply lookup_ge_None in Hc. intros Hx. right.
  exists (c - length (cellHeap w0)).
  pose proof (lookup_lt_Some _ _ _ Hx) as Hlt.
  unfold grid_cells in Hlt. rewrite length_fmap, length_seq in Hlt.
  split_and!; [done | unfold cell_base; lia |].
  unfold grid_cells in Hx. rewrite list_lookup_fmap, lookup_seq_lt in Hx by done.
  by injection Hx.
Qed.

Lemma final_door_new k door :
  grid_doors w0 cols T !! k = Some door →
  doorHeap final !! (door_base w0 + k) = Some door.
Proof.
  intros H. simpl. unfold door_base. rewrite lookup_app_r by lia.
  by replace (length (doorHeap w0) + k - length (doorHeap w0)) with k by lia.
Qed.

Lemma final_door_inv d door :
  doorHeap final !! d = Some door →
  doorHeap w0 !! d = Some door
  ∨ ∃ k, d = door_base w0 + k ∧ grid_doors w0 cols T !! k = Some door.
Proof.
  simpl. rewrite lookup_app. destruct (doorHeap w0 !! d) eqn:Hd; [by left|].
  apply lookup_ge_None in Hd. intros Hx. right.
  exists (d - length (doorHeap w0)). split; [unfold door_base; lia | done].
Qed.

Lemma final_doors_length :
  length (doorHeap final) = door_base w0 + door_count rows cols.
Proof. simpl. by rewrite length_app, grid_doors_total. Qed.

Lemma final_cells_length : length (cellHeap final) = cell_base w0 + T.
Proof. simpl. unfold grid_cells. by rewrite length_app, length_fmap, length_seq. Qed.

Lemma final_maze :
  mazeHeap final !! this_maze w0
  = Some (MazeGenerator.mk rows cols algo (grid_cell_refs w0 rows cols)
            (Some <$> seq (door_base w0) (door_count rows cols))).
Proof.
  unfold grid_state. rewrite grid_maze_lookup, grid_doors_total by done.
  by rewrite doors_array_full.
Qed.

Lemma final_maze_ok :
  maze_ok final (MazeGenerator.mk rows cols algo (grid_cell_refs w0 rows cols)
                   (Some <$> seq (door_base w0) (door_count rows cols))).
Proof.
  split; simpl; [done|done| | |].
  - intros i j Hi Hj. exists (seq (cell_base w0 + i * cols) cols), (cell_base w0 + i * cols + j).
    split.
    + unfold grid_cell_refs. by rewrite list_lookup_fmap, lookup_seq_lt.
    + by rewrite lookup_seq_lt.
  - intros row c (x&->&Hx%elem_of_seq)%list_elem_of_fmap Hc%elem_of_seq.
    unfold grid_cells. rewrite length_app, length_fmap, length_seq.
    unfold cell_base in *. nia.
  - intros od (d&->&Hd)%list_elem_of_fmap. exists d. split; [done|].
    apply elem_of_seq in Hd. rewrite length_app, grid_doors_total by done.
    unfold door_base in *. lia.
Qed.

Lemma final_wf : heap_wf w0 → heap_wf final.
Proof.
  intros Hwf. split.
  - intros c x [Hold|(i&Hi&->&->)]%final_cell_inv; [by eapply wf_keys|].
    by apply grid_slots_keys_NoDup.
  - intros c x dir d [Hold|(i&Hi&->&->)]%final_cell_inv Hin.
    + destruct (wf_cell_door _ Hwf _ _ _ _ Hold Hin) as (door&Hdoor&Hends).
      exists door. split; [|done]. simpl. by apply lookup_app_l_Some.
    + apply elem_of_doors_of, grid_slots_sound in Hin as (_&k&door&->&Hk&Hends); [|done].
      exists door. split; [by apply final_door_new | done].
  - intros d door [Hold|(k&->&Hk)]%final_door_inv.
    + destruct (wf_door_cell _ Hwf _ _ Hold) as [(x1&dir1&Hx1&Hin1) (x2&dir2&Hx2&Hin2)].
      split; eexists _, _; (split; [by apply final_cell_old | done]).
    + destruct (grid_doors_lookup _ _ cols_pos _ _ _ Hk) as (t&Ht&_&H2&Hcases).
      destruct Hcases as [(H1&Hx&HU&HD)|(H1&Hy&HL&HR)]; rewrite H1, H2.
      * pose proof (div_ge_1 _ cols_pos _ Hx).
        split; eexists _, _; (split; [apply final_cell_new; lia|]);
          simpl; by apply elem_of_doors_of.
      * pose proof (mod_ge_1 _ cols_pos _ Hy).
        split; eexists _, _; (split; [apply final_cell_new; lia|]);
          simpl; by apply elem_of_doors_of.
  - intros i m. simpl. rewrite lookup_app.
    destruct (mazeHeap w0 !! i) as [m'|] eqn:Hi.
    + intros [= <-]. destruct (wf_mazes _ Hwf _ _ Hi) as [? ? Hcells Hvalid Hdoors].
      split; [done|done|done| |].
      * intros row c Hrow Hc. pose proof (Hvalid row c Hrow Hc).
        simpl. rewrite length_app. lia.
      * intros od Hod. destruct (Hdoors od Hod) as (d&?&?). exists d. split; [done|].
        simpl. rewrite length_app. lia.
    + intros Hm. destruct (i - length (mazeHeap w0)) as [|n]; simpl in Hm; [|done].
      injection Hm as <-. rewrite (grid_doors_total w0 rows cols cols_pos), doors_array_full.
      apply final_maze_ok.
Qed.
End GridFacts.

Lemma build_grid_spec config w :
  build_grid config w
  = Ok (this_maze w)
       (grid_state w (config_rows config) (config_cols config) (config_algo config)
          (config_rows config * config_cols config)).
Proof. unfold build_grid. apply new_grid_spec, config_cols_pos. Qed.

Lemma build_grid_wf config w :
  heap_wf w →
  ∃ w', build_grid config w = Ok (this_maze w) w' ∧ heap_wf w'
        ∧ length (cellHeap w') = length (cellHeap w) + config_rows config * config_cols config.
Proof.
  intros Hwf. eexists. split; [apply build_grid_spec|]. split.
  - apply final_wf; [apply config_cols_pos | apply config_rows_pos | done].
  - apply final_cells_length.
Qed.

(** The doors of the grid, in the store as the constructor leaves it before
    [randomizeMaze] runs. *)
Lemma grid_door_facts (config : Config) (w : World) (d : nat) :
  let rows := config_rows config in
  let cols := config_cols config in
  let w' := grid_state w rows cols (config_algo config) (rows * cols) in
  d ∈ seq (door_base w) (door_count rows cols) →
  ∃ door c1 c2,
    doorHeap w' !! d = Some door
    ∧ cellHeap w' !! Door.cell1 door = Some c1
    ∧ cellHeap w' !! Door.cell2 door = Some c2
    ∧ adjacent c1 c2
    ∧ Door.closed door = true
    ∧ (∃ dir, obj_get dir (Cell.doors c1) = Some d)
    ∧ (∃ dir, obj_get dir (Cell.doors c2) = Some d).
Proof.
  intros rows cols w'.
  pose proof (config_rows_pos config) as Hrows.
  pose proof (config_cols_pos config) as Hcols.
  fold rows in Hrows. fold cols in Hcols. unfold w'. clear w'.
  intros [Hd1 Hd2]%elem_of_seq.
  destruct (lookup_lt_is_Some_2 (grid_doors w cols (rows * cols)) (d - door_base w))
    as [door Hdoor].
  { rewrite grid_doors_total by done. lia. }
  destruct (grid_doors_lookup _ _ Hcols _ _ _ Hdoor) as (t&Ht&Hclosed&H2&Hcases).
  replace (door_base w + (d - door_base w)) with d in Hcases by lia.
  destruct (flat_div_mod t cols Hcols) as [Hflat Hmod].
  set (x := t `div` cols) in *. set (y := t `mod` cols) in *.
  assert (∀ i dir, i < rows * cols →
            (i, dir, d) ∈ grid_slots w cols (rows * cols) →
            obj_get dir (doors_of (grid_slots w cols (rows * cols)) i) = Some d) as Hget.
  { intros i dir Hi Hin. apply obj_get_elem; [by apply grid_slots_keys_NoDup|].
    by apply elem_of_doors_of. }
  exists door.
  destruct Hcases as [(H1&Hx&HU&HD)|(H1&Hy&HL&HR)].
  - assert (t - cols = (x - 1) * cols + y) as Hup by nia.
    destruct (div_mod_flat (x - 1) y cols Hmod) as [Hdiv' Hmod']. rewrite <-Hup in *.
    eexists _, _. rewrite H1, H2.
    split_and!; [|by apply final_cell_new; lia|by apply final_cell_new|..].
    + replace d with (door_base w + (d - door_base w)) by lia. by apply final_door_new.
    + right. simpl. fold y. split; [lia|]. left. fold x. lia.
    + done.
    + exists Down. simpl. apply Hget; [lia|done].
    + exists Up. simpl. by apply Hget.
  - assert (t - 1 = x * cols + (y - 1)) as Hleft by nia.
    destruct (div_mod_flat x (y - 1) cols ltac:(lia)) as [Hdiv' Hmod']. rewrite <-Hleft in *.
    eexists _, _. rewrite H1, H2.
    split_and!; [|by apply final_cell_new; lia|by apply final_cell_new|..].
    + replace d with (door_base w + (d - door_base w)) by lia. by apply final_door_new.
    + left. simpl. fold x. split; [lia|]. left. fold y. lia.
    + done.
    + exists Right. simpl. apply Hget; [lia|done].
    + exists Left. simpl. by apply Hget.
Qed.

(** The grid as the constructor builds it from any argument, before
    [randomizeMaze] runs, in terms of the [rows] and [cols] the constructor
    reads from its argument. *)
Lemma grid_of_config (config : Config) (w : World) :
  let rows := config_rows config in
  let cols := config_cols config in
  ∃ this w' m ds,
    build_grid config w = Ok this w'
    ∧ 0 < rows ∧ 0 < cols
    ∧ mazeHeap w' !! this = Some m
    ∧ MazeGenerator.rows m = rows ∧ MazeGenerator.cols m = cols
    ∧ MazeGenerator.doors m = Some <$> ds
    ∧ NoDup ds
    ∧ length ds = rows * (cols - 1) + cols * (rows - 1)
    ∧ ∀ d, d ∈ ds →
        ∃ door c1 c2,
          doorHeap w' !! d = Some door
          ∧ cellHeap w' !! Door.cell1 door = Some c1
          ∧ cellHeap w' !! Door.cell2 door = Some c2
          ∧ adjacent c1 c2
          ∧ Door.closed door = true
          ∧ (∃ dir, obj_get dir (Cell.doors c1) = Some d)
          ∧ (∃ dir, obj_get dir (Cell.doors c2) = Some d).
Proof.
  intros rows cols.
  pose proof (config_rows_pos config) as Hrows.
  pose proof (config_cols_pos config) as Hcols.
  fold rows in Hrows. fold cols in Hcols.
  eexists (this_maze w), _, _, (seq (door_base w) (door_count rows cols)).
  split; [apply build_grid_spec|]. fold rows cols.
  split_and!; [done|done|by apply final_maze|done|done|done|apply NoDup_seq| |].
  { by rewrite length_seq. }
  intros d Hd. by apply grid_door_facts.
Qed.

Lemma config_rows_given (r c : nat) (algo : option string) :
  0 < r → config_rows (Options (Some r) (Some c) algo) = r.
Proof. intros Hr. destruct r; [lia|done]. Qed.

Lemma config_cols_given (r c : nat) (algo : option string) :
  0 < c → config_cols (Options (Some r) (Some c) algo) = c.
Proof. intros Hc. destruct c; [lia|done]. Qed.

(** C5: the grid that [new MazeGenerator({rows: r, cols: c, algo})] builds for
    positive [r] and [c], before [randomizeMaze] runs. The maze has [r] rows
    of [c] cells; [this.doors] has no hole and holds
    [r * (c - 1) + c * (r - 1)] distinct doors; each door is closed, joins two
    cells one apart in exactly one coordinate, and is the value of an entry
    in the [doors] map of each of the two. *)
Theorem constructed_grid (r c : nat) (algo : option string) (w : World) :
  0 < r → 0 < c →
  ∃ this w' m ds,
    build_grid (Options (Some r) (Some c) algo) w = Ok this w'
    ∧ mazeHeap w' !! this = Some m
    ∧ MazeGenerator.rows m = r ∧ MazeGenerator.cols m = c
    ∧ length (MazeGenerator.cells m) = r
    ∧ (∀ row, row ∈ MazeGenerator.cells m → length row = c)
    ∧ MazeGenerator.doors m = Some <$> ds
    ∧ NoDup ds
    ∧ length ds = r * (c - 1) + c * (r - 1)
    ∧ ∀ d, d ∈ ds →
        ∃ door c1 c2,
          doorHeap w' !! d = Some door
          ∧ cellHeap w' !! Door.cell1 door = Some c1
          ∧ cellHeap w' !! Door.cell2 door = Some c2
          ∧ adjacent c1 c2
          ∧ Door.closed door = true
          ∧ (∃ dir, obj_get dir (Cell.doors c1) = Some d)
          ∧ (∃ dir, obj_get dir (Cell.doors c2) = Some d).
Proof.
  intros Hr Hc.
  pose proof (config_rows_given r c algo Hr) as Er.
  pose proof (config_cols_given r c algo Hc) as Ec.
  set (config := Options (Some r) (Some c) algo) in *.
  eexists (this_maze w), _, _, (seq (door_base w) (door_count r c)).
  split; [apply build_grid_spec|]. rewrite Er, Ec.
  split_and!; [by apply final_maze|done|done| | |done|apply NoDup_seq| |].
  - simpl. unfold grid_cell_refs. by rewrite length_fmap, length_seq.
  - simpl. unfold grid_cell_refs. intros row (x&->&_)%list_elem_of_fmap.
    apply length_seq.
  - by rewrite length_seq.
  - intros d Hd. pose proof (grid_door_facts config w d) as Hfacts.
    cbv zeta in Hfacts. rewrite Er, Ec in Hfacts. by apply Hfacts.
Qed.

Lemma constructed_grid_witness :
  ∃ this w' m ds,
    build_grid (Options (Some 2) (Some 3) None) empty_world = Ok this w'
    ∧ mazeHeap w' !! this = Some m
    ∧ MazeGenerator.rows m = 2 ∧ MazeGenerator.cols m = 3
    ∧ length (MazeGenerator.cells m) = 2
    ∧ (∀ row, row ∈ MazeGenerator.cells m → length row = 3)
    ∧ MazeGenerator.doors m = Some <$> ds
    ∧ NoDup ds
    ∧ length ds = 2 * (3 - 1) + 3 * (2 - 1)
    ∧ ∀ d, d ∈ ds →
        ∃ door c1 c2,
          doorHeap w' !! d = Some door
          ∧ cellHeap w' !! Door.cell1 door = Some c1
          ∧ cellHeap w' !! Door.cell2 door = Some c2
          ∧ adjacent c1 c2
          ∧ Door.closed door = true
          ∧ (∃ dir, obj_get dir (Cell.doors c1) = Some d)
          ∧ (∃ dir, obj_get dir (Cell.doors c2) = Some d).
Proof. apply (constructed_grid 2 3 None empty_world); lia. Defined.

(** ** The cells next to a cell *)

(** What an entry of [cell.doors] adds to [neighbors()]. *)
Definition door_entry (w : World) (c : nat) (e : Dir * nat) : option (Dir * nat) :=
  match doorHeap w !! e.2 with
  | Some door => if Door.closed door then None else Some (e.1, across c door)
  | None => None
  end.

(** The list [canVisit()] returns: the cells behind the open doors of [c], in
    the order of [c.doors]. *)
Definition open_neighbors (w : World) (c : nat) : list nat :=
  match cellHeap w !! c with
  | Some x => (omap (door_entry w c) (Cell.doors x)).*2
  | None => []
  end.

(** The list [_neighbors(c)] returns. *)
Definition all_neighbors (w : World) (c : nat) : list nat :=
  match cellHeap w !! c with
  | Some x => omap (λ d, across c <$> doorHeap w !! d) (Object_values (Cell.doors x))
  | None => []
  end.

Lemma neighbors_fold w c l acc :
  NoDup (acc.*1 ++ l.*1) →
  (∀ e, e ∈ l → is_Some (doorHeap w !! e.2)) →
  foldM (λ neighbors '(dir, d),
           door ← getDoor d;
           if Door.closed door then mret neighbors
           else mret (obj_set dir (across c door) neighbors))
        acc l w
  = Ok (acc ++ omap (door_entry w c) l) w.
Proof.
  revert acc. induction l as [|[dir d] l IH]; intros acc Hnd Hvalid; simpl.
  { by rewrite app_nil_r. }
  destruct (Hvalid (dir, d)) as [door Hdoor]; [left|]. simpl in Hdoor.
  rewrite bind_run, (bind_ok _ _ _ _ _ (getDoor_ok _ _ _ Hdoor)).
  unfold door_entry at 1. simpl. rewrite Hdoor.
  rewrite fmap_cons in Hnd. simpl in Hnd.
  destruct (Door.closed door).
  - rewrite mret_run. apply IH; [|intros e He; apply Hvalid; by right].
    apply NoDup_app in Hnd as (?&Hdisj&[? ?]%NoDup_cons).
    apply NoDup_app. split_and!; [done| |done].
    intros k Hk Hk'. apply (Hdisj k Hk). by right.
  - rewrite mret_run.
    assert (dir ∉ acc.*1) as Hfresh.
    { apply NoDup_app in Hnd as (_&Hdisj&_). intros Hin. apply (Hdisj _ Hin). left. }
    rewrite obj_set_new by done.
    rewrite IH; [by rewrite <-app_assoc| |intros e He; apply Hvalid; by right].
    by rewrite fmap_app, <-app_assoc.
Qed.

Lemma canVisit_run w c :
  heap_wf w → c < length (cellHeap w) → canVisit c w = Ok (open_neighbors w c) w.
Proof.
  intros Hwf Hc. destruct (lookup_lt_is_Some_2 _ _ Hc) as [x Hx].
  unfold canVisit, neighbors, open_neighbors. rewrite Hx.
  rewrite bind_run, (bind_ok _ _ _ _ _ (getCell_ok _ _ _ Hx)).
  rewrite neighbors_fold; [done| |].
  - simpl. by eapply wf_keys.
  - intros [dir d] He. simpl. destruct (wf_cell_door _ Hwf _ _ _ _ Hx He) as (door&->&_).
    by eexists.
Qed.

Lemma _neighbors_fold w c l acc :
  (∀ d, d ∈ l → is_Some (doorHeap w !! d)) →
  foldM (λ neighbors d, door ← getDoor d; mret (push neighbors (across c door))) acc l w
  = Ok (acc ++ omap (λ d, across c <$> doorHeap w !! d) l) w.
Proof.
  revert acc. induction l as [|d l IH]; intros acc Hvalid; simpl.
  { by rewrite app_nil_r. }
  destruct (Hvalid d) as [door Hdoor]; [left|].
  rewrite bind_run, (bind_ok _ _ _ _ _ (getDoor_ok _ _ _ Hdoor)), mret_run.
  rewrite Hdoor. simpl. rewrite IH; [|intros d' Hd'; apply Hvalid; by right].
  unfold push. by rewrite <-app_assoc.
Qed.

Lemma _neighbors_run w c :
  heap_wf w → c < length (cellHeap w) → _neighbors c w = Ok (all_neighbors w c) w.
Proof.
  intros Hwf Hc. destruct (lookup_lt_is_Some_2 _ _ Hc) as [x Hx].
  unfold _neighbors, all_neighbors. rewrite Hx.
  rewrite (bind_ok _ _ _ _ _ (getCell_ok _ _ _ Hx)).
  rewrite _neighbors_fold; [done|].
  intros d ([dir d']&->&He)%list_elem_of_fmap. simpl.
  destruct (wf_cell_door _ Hwf _ _ _ _ Hx He) as (door&->&_). by eexists.
Qed.

(** A door of the store, open, between [a] and [b]. *)
Definition open_between (w : World) (a b : nat) : Prop :=
  ∃ d door, doorHeap w !! d = Some door ∧ Door.closed door = false
            ∧ ((Door.cell1 door = a ∧ Door.cell2 door = b)
               ∨ (Door.cell1 door = b ∧ Door.cell2 door = a)).

(** A door of the store, open or not, between [a] and [b]. *)
Definition door_between (w : World) (a b : nat) : Prop :=
  ∃ d door, doorHeap w !! d = Some door
            ∧ ((Door.cell1 door = a ∧ Door.cell2 door = b)
               ∨ (Door.cell1 door = b ∧ Door.cell2 door = a)).

(** [b] can be reached from [a] through open doors. *)
Definition reachable (w : World) : relation nat := rtc (open_between w).

Lemma across_ends c door b :
  Door.cell1 door = c ∨ Door.cell2 door = c →
  across c door = b ↔
  (Door.cell1 door = c ∧ Door.cell2 door = b) ∨ (Door.cell1 door = b ∧ Door.cell2 door = c).
Proof. unfold across. intros Hc. case_decide; intuition congruence. Qed.

Lemma elem_of_open_neighbors w a b :
  heap_wf w → a < length (cellHeap w) → b ∈ open_neighbors w a ↔ open_between w a b.
Proof.
  intros Hwf Ha. destruct (lookup_lt_is_Some_2 _ _ Ha) as [x Hx].
  unfold open_neighbors, open_between. rewrite Hx. split.
  - intros ([dir b']&->&He)%list_elem_of_fmap.
    apply list_elem_of_omap in He as ([dir' d]&Hin&He). unfold door_entry in He. simpl in *.
    destruct (wf_cell_door _ Hwf _ _ _ _ Hx Hin) as (door&Hdoor&Hends).
    rewrite Hdoor in He. destruct (Door.closed door) eqn:Hcl; [done|].
    injection He as -> <-. exists d, door. split_and!; [done|done|].
    by apply across_ends.
  - intros (d&door&Hdoor&Hcl&Hends).
    assert (∃ dir, (dir, d) ∈ Cell.doors x) as [dir Hin].
    { destruct (wf_door_cell _ Hwf _ _ Hdoor) as [(x1&dir1&Hx1&Hin1) (x2&dir2&Hx2&Hin2)].
      destruct Hends as [[H1 H2]|[H1 H2]].
      - rewrite H1 in Hx1. simplify_eq. eauto.
      - rewrite H2 in Hx2. simplify_eq. eauto. }
    apply list_elem_of_fmap. exists (dir, b). split; [done|].
    apply list_elem_of_omap. exists (dir, d). split; [done|].
    unfold door_entry. simpl. rewrite Hdoor, Hcl. do 2 f_equal.
    apply across_ends; [|done]. destruct Hends as [[? ?]|[? ?]]; eauto.
Qed.

Lemma open_neighbors_valid w a b :
  heap_wf w → a < length (cellHeap w) → b ∈ open_neighbors w a → b < length (cellHeap w).
Proof.
  intros Hwf Ha (d&door&Hdoor&_&Hends)%elem_of_open_neighbors; [|done..].
  destruct (wf_door_cell _ Hwf _ _ Hdoor) as [(x1&dir1&Hx1&_) (x2&dir2&Hx2&_)].
  apply lookup_lt_Some in Hx1, Hx2. destruct Hends as [[? ?]|[? ?]]; congruence.
Qed.

Lemma heap_wf_same_store (w w' : World) : heap_wf w → same_store w w' → heap_wf w'.
Proof. intros Hwf Hsame. eapply heap_wf_generates; [done|]. by apply same_store_generates. Qed.

Lemma open_neighbors_same (w w' : World) c :
  same_store w w' → open_neighbors w' c = open_neighbors w c.
Proof.
  intros (Hc&Hd&_). unfold open_neighbors, door_entry. rewrite Hc.
  destruct (cellHeap w !! c) as [x|]; [|done]. f_equal.
  apply list_omap_ext, Forall_Forall2_diag, Forall_forall. intros e _. by rewrite Hd.
Qed.

Lemma set_add_new {A} `{EqDecision A} (s : list A) (a : A) : a ∉ s → set_add s a = s ++ [a].
Proof. intros Ha. unfold set_add, set_has. by rewrite bool_decide_eq_false_2. Qed.

Lemma NoDup_bounded_length (l : list nat) (n : nat) :
  NoDup l → (∀ c, c ∈ l → c < n) → length l ≤ n.
Proof.
  intros Hnd Hb. rewrite <-(length_seq n 0).
  apply submseteq_length, NoDup_submseteq; [done|].
  intros c Hc. apply elem_of_seq. specialize (Hb c Hc). lia.
Qed.

Lemma last_snoc_inv {A} (l : list A) (a : A) : last l = Some a → ∃ l', l = l' ++ [a].
Proof.
  intros Hl. destruct l as [|b l] using rev_ind; [done|].
  rewrite last_snoc in Hl. injection Hl as ->. eauto.
Qed.

Lemma lookup_last_snoc {A} (l : list A) (a : A) :
  (l ++ [a]) !! (length (l ++ [a]) - 1) = Some a.
Proof.
  rewrite length_app. simpl.
  replace (length l + 1 - 1) with (length l) by lia. apply list_lookup_middle. done.
Qed.

(** ** The solver *)

Section Solver.
Variable entropy : nat → Draw.
Variable w : World.
Hypothesis Hwf : heap_wf w.
Variables startCell endCell : nat.

(** What [solve] is to return: a walk through open doors from [startCell] to
    [endCell] that visits no cell twice. *)
Definition simple_path (path : list nat) : Prop :=
  head path = Some startCell
  ∧ last path = Some endCell
  ∧ NoDup path
  ∧ ∀ i a b, path !! i = Some a → path !! S i = Some b → open_between w a b.

(** The invariant of the loop: [path] is a walk from [startCell] to the
    current cell, inside the visited set [v]; the visited cells that have
    left [path] have all their open neighbours visited; [endCell] is not
    visited until it is the current cell. *)
Record dfs_inv (cur : nat) (path v : list nat) : Prop := {
  dfs_last : last path = Some cur;
  dfs_head : head path = Some startCell;
  dfs_path_nodup : NoDup path;
  dfs_path_visited : ∀ c, c ∈ path → c ∈ v;
  dfs_v_nodup : NoDup v;
  dfs_v_valid : ∀ c, c ∈ v → c < length (cellHeap w);
  dfs_steps : ∀ i a b, path !! i = Some a → path !! S i = Some b → b ∈ open_neighbors w a;
  dfs_done : ∀ a b, a ∈ v → a ∉ path → b ∈ open_neighbors w a → b ∈ v;
  dfs_end : endCell ∈ v → cur = endCell
}.

Lemma dfs_inv_start :
  startCell < length (cellHeap w) → dfs_inv startCell [startCell] [startCell].
Proof.
  intros Hs. split; try done.
  - apply NoDup_singleton.
  - apply NoDup_singleton.
  - by intros c ->%list_elem_of_singleton.
  - by intros ->%list_elem_of_singleton.
Qed.

Lemma dfs_inv_push cur path v n :
  dfs_inv cur path v → cur ≠ endCell →
  n ∈ open_neighbors w cur → n ∉ v →
  dfs_inv n (path ++ [n]) (v ++ [n]).
Proof.
  intros [Hlast Hhead Hnd Hpv Hvnd Hvalid Hsteps Hdone Hend] Hcur Hn Hnv.
  assert (cur ∈ path) as Hcp.
  { apply last_snoc_inv in Hlast as [l' ->]. apply elem_of_app. right. left. }
  split.
  - by rewrite last_snoc.
  - destruct path; [done|]. done.
  - apply NoDup_app. split_and!; [done| |apply NoDup_singleton].
    intros c Hc ->%list_elem_of_singleton. auto.
  - intros c [Hc| ->%list_elem_of_singleton]%elem_of_app; apply elem_of_app; auto.
    right. left.
  - apply NoDup_app. split_and!; [done| |apply NoDup_singleton].
    by intros c Hc ->%list_elem_of_singleton.
  - intros c [Hc| ->%list_elem_of_singleton]%elem_of_app; [auto|].
    eapply open_neighbors_valid; [done| |done]. auto.
  - intros i a b Ha Hb.
    destruct (decide (S i < length path)) as [Hi|Hi].
    + rewrite lookup_app_l in Ha, Hb by lia. eauto.
    + apply last_snoc_inv in Hlast as [l' ->].
      rewrite length_app in Hi. simpl in Hi.
      pose proof (lookup_lt_Some _ _ _ Hb) as Hlt. rewrite !length_app in Hlt. simpl in Hlt.
      assert (i = length l') as -> by lia.
      rewrite lookup_app_l in Ha by (rewrite length_app; simpl; lia).
      rewrite list_lookup_middle in Ha by done.
      rewrite (list_lookup_middle (l' ++ [cur]) [] n (S (length l'))) in Hb
        by (rewrite length_app; simpl; lia).
      by simplify_eq.
  - intros a b [Ha| ->%list_elem_of_singleton]%elem_of_app Hap Hb.
    + apply elem_of_app. left. eapply Hdone; [done| |done].
      intros Hin. apply Hap. apply elem_of_app. by left.
    + exfalso. apply Hap. apply elem_of_app. right. left.
  - intros [He| ->%list_elem_of_singleton]%elem_of_app; [|done].
    exfalso. auto.
Qed.

Lemma dfs_inv_pop prev cur path v :
  dfs_inv cur ((path ++ [prev]) ++ [cur]) v → cur ≠ endCell →
  (∀ b, b ∈ open_neighbors w cur → b ∈ v) →
  dfs_inv prev (path ++ [prev]) v.
Proof.
  intros [Hlast Hhead Hnd Hpv Hvnd Hvalid Hsteps Hdone Hend] Hcur Hall.
  apply NoDup_app in Hnd as (Hnd&Hdisj&_).
  split; try done.
  - by rewrite last_snoc.
  - destruct path; done.
  - intros c Hc. apply Hpv. apply elem_of_app. by left.
  - intros i a b Ha Hb. apply (Hsteps i); by apply lookup_app_l_Some.
  - intros a b Ha Hap Hb.
    destruct (decide (a = cur)) as [->|Hne]; [auto|].
    eapply Hdone; [done| |done].
    intros [?| ->%list_elem_of_singleton]%elem_of_app; done.
  - intros He. exfalso. auto.
Qed.

(** With every visited cell closed under open doors, whatever can be reached
    has been visited. *)
Lemma dfs_exhausted cur v :
  dfs_inv cur [cur] v → (∀ b, b ∈ open_neighbors w cur → b ∈ v) →
  ∀ b, rtc (λ a b, b ∈ open_neighbors w a) startCell b → b ∈ v.
Proof.
  intros [Hlast Hhead Hnd Hpv Hvnd Hvalid Hsteps Hdone Hend] Hall.
  simpl in Hhead. injection Hhead as ->.
  apply (rtc_ind_r (λ b, b ∈ v)).
  - apply Hpv. left.
  - intros a b _ Hab Ha. destruct (decide (a = startCell)) as [->|Hne]; [auto|].
    eapply Hdone; [apply Ha| |done]. by intros ->%list_elem_of_singleton.
Qed.

Lemma solve_loop_finds fuel cur path v w' :
  same_store w w' → dfs_inv cur path v →
  rtc (λ a b, b ∈ open_neighbors w a) startCell endCell →
  2 * (length (cellHeap w) - length v) + length path < fuel →
  ∃ path' w'', solve_loop entropy fuel endCell (Some cur) path v w' = Ok path' w''
               ∧ simple_path path'.
Proof.
  intros Hsame Hinv Hreach. revert cur path v w' Hsame Hinv.
  induction fuel as [|fuel IH]; intros cur path v w' Hsame Hinv Hfuel; [lia|].
  simpl. destruct (decide (Some cur = Some endCell)) as [[= ->]|Hne].
  { eexists _, _. split; [done|]. destruct Hinv. split_and!; try done.
    intros i a b Ha Hb. apply elem_of_open_neighbors; [done| |by eauto].
    apply dfs_v_valid0, dfs_path_visited0. by eapply list_elem_of_lookup_2. }
  assert (cur ≠ endCell) as Hcur by congruence.
  pose proof (dfs_last _ _ _ Hinv) as Hlast.
  apply last_snoc_inv in Hlast as [p0 ->].
  assert (cur ∈ v) as Hcv.
  { apply (dfs_path_visited _ _ _ Hinv). apply elem_of_app. right. left. }
  pose proof (dfs_v_valid _ _ _ Hinv _ Hcv) as Hvalid.
  rewrite bind_run, canVisit_run;
    [|by eapply heap_wf_same_store|by destruct Hsame as (->&_)].
  rewrite (open_neighbors_same w w') by done.
  set (u := filter (λ n, n ∉ v) (open_neighbors w cur)).
  destruct (decide (length u ≠ 0)) as [Hu|Hu].
  - rewrite bind_run, random_below_run.
    pose proof (floor_times_lt (entropy (draws w')) (length u) ltac:(lia)) as Hi.
    destruct (lookup_lt_is_Some_2 u _ Hi) as [n Hn].
    rewrite (bind_ok _ _ _ _ _ (index_ok _ _ _ _ Hn)).
    apply list_elem_of_lookup_2, list_elem_of_filter in Hn as [Hnv Hnn].
    rewrite set_add_new by done. unfold push.
    assert (dfs_inv n ((p0 ++ [cur]) ++ [n]) (v ++ [n])) as Hinv'
      by (by apply (dfs_inv_push cur)).
    apply IH; [by destruct Hsame as (?&?&?)|done|].
    pose proof (NoDup_bounded_length _ (length (cellHeap w))
                  (dfs_v_nodup _ _ _ Hinv') (dfs_v_valid _ _ _ Hinv')) as Hlen.
    rewrite !length_app in *. simpl in *. lia.
  - assert (∀ b, b ∈ open_neighbors w cur → b ∈ v) as Hall.
    { intros b Hb. destruct (decide (b ∈ v)) as [|Hbv]; [done|].
      assert (b ∈ u) as Hbu by (by apply list_elem_of_filter).
      destruct u; [by apply elem_of_nil in Hbu | simpl in Hu; lia]. }
    rewrite decide_False by (rewrite length_app; simpl; lia).
    unfold pop. rewrite removelast_last.
    destruct p0 as [|c p0 _] using rev_ind.
    { exfalso. apply Hcur. apply (dfs_end _ _ _ Hinv).
      by apply (dfs_exhausted cur). }
    rewrite lookup_last_snoc.
    apply IH; [done|by apply (dfs_inv_pop c cur)|].
    rewrite !length_app in *. simpl in *. lia.
Qed.
(** Every run of the loop ends: with a path, or, when the search has seen
    every cell it can reach without meeting [endCell], with the [TypeError]
    of [current.canVisit()] on the [undefined] that [path[path.length - 1]]
    yields once [path] is empty. *)
Lemma solve_loop_total fuel cur path v w' :
  same_store w w' → dfs_inv cur path v →
  2 * (length (cellHeap w) - length v) + length path < fuel →
  match solve_loop entropy fuel endCell (Some cur) path v w' with
  | Ok path' _ => simple_path path'
  | Throw e _ => e = TypeError ∧ ¬ rtc (λ a b, b ∈ open_neighbors w a) startCell endCell
  | _ => False
  end.
Proof.
  revert cur path v w'.
  induction fuel as [|fuel IH]; intros cur path v w' Hsame Hinv Hfuel; [lia|].
  simpl. destruct (decide (Some cur = Some endCell)) as [[= ->]|Hne].
  { rewrite mret_run. destruct Hinv. split_and!; try done.
    intros i a b Ha Hb. apply elem_of_open_neighbors; [done| |by eauto].
    apply dfs_v_valid0, dfs_path_visited0. by eapply list_elem_of_lookup_2. }
  assert (cur ≠ endCell) as Hcur by congruence.
  pose proof (dfs_last _ _ _ Hinv) as Hlast.
  apply last_snoc_inv in Hlast as [p0 ->].
  assert (cur ∈ v) as Hcv.
  { apply (dfs_path_visited _ _ _ Hinv). apply elem_of_app. right. left. }
  pose proof (dfs_v_valid _ _ _ Hinv _ Hcv) as Hvalid.
  rewrite bind_run, canVisit_run;
    [|by eapply heap_wf_same_store|by destruct Hsame as (->&_)].
  rewrite (open_neighbors_same w w') by done.
  set (u := filter (λ n, n ∉ v) (open_neighbors w cur)).
  destruct (decide (length u ≠ 0)) as [Hu|Hu].
  - rewrite bind_run, random_below_run.
    pose proof (floor_times_lt (entropy (draws w')) (length u) ltac:(lia)) as Hi.
    destruct (lookup_lt_is_Some_2 u _ Hi) as [n Hn].
    rewrite (bind_ok _ _ _ _ _ (index_ok _ _ _ _ Hn)).
    apply list_elem_of_lookup_2, list_elem_of_filter in Hn as [Hnv Hnn].
    rewrite set_add_new by done. unfold push.
    assert (dfs_inv n ((p0 ++ [cur]) ++ [n]) (v ++ [n])) as Hinv'
      by (by apply (dfs_inv_push cur)).
    apply IH; [by destruct Hsame as (?&?&?)|done|].
    pose proof (NoDup_bounded_length _ (length (cellHeap w))
                  (dfs_v_nodup _ _ _ Hinv') (dfs_v_valid _ _ _ Hinv')) as Hlen.
    rewrite !length_app in *. simpl in *. lia.
  - assert (∀ b, b ∈ open_neighbors w cur → b ∈ v) as Hall.
    { intros b Hb. destruct (decide (b ∈ v)) as [|Hbv]; [done|].
      assert (b ∈ u) as Hbu by (by apply list_elem_of_filter).
      destruct u; [by apply elem_of_nil in Hbu | simpl in Hu; lia]. }
    rewrite decide_False by (rewrite length_app; simpl; lia).
    unfold pop. rewrite removelast_last.
    destruct p0 as [|c p0 _] using rev_ind.
    { simpl. destruct fuel as [|fuel]; [simpl in Hfuel; lia|]. simpl.
      split; [done|]. intros Hreach. apply Hcur, (dfs_end _ _ _ Hinv).
      by apply (dfs_exhausted cur). }
    rewrite lookup_last_snoc.
    apply IH; [done|by apply (dfs_inv_pop c cur)|].
    rewrite !length_app in *. simpl in *. lia.
Qed.
End Solver.

(** ** Generated mazes *)

Lemma constructor_inv entropy fuel config w0 this w :
  heap_wf w0 →
  constructor entropy fuel config w0 = Ok this w →
  this = this_maze w0
  ∧ heap_wf w
  ∧ generates (grid_state w0 (config_rows config) (config_cols config) (config_algo config)
                 (config_rows config * config_cols config)) w.
Proof.
  intros Hwf Hrun. unfold constructor in Hrun.
  rewrite bind_run, build_grid_spec in Hrun.
  set (w1 := grid_state _ _ _ _ _) in *.
  assert (heap_wf w1) as Hwf1.
  { apply final_wf; [apply config_cols_pos | apply config_rows_pos | done]. }
  pose proof (randomizeMaze_generates entropy fuel (this_maze w0) w1) as Hgen.
  rewrite bind_run in Hrun.
  destruct (randomizeMaze entropy fuel (this_maze w0) w1) as [[] w2| | |]; try done.
  rewrite mret_run in Hrun. injection Hrun as <- <-.
  split_and!; [done | by eapply heap_wf_generates | done].
Qed.

Lemma elem_of_concat {A} (ls : list (list A)) (a : A) :
  a ∈ concat ls ↔ ∃ l, l ∈ ls ∧ a ∈ l.
Proof.
  induction ls as [|l ls IH]; simpl.
  - split; [by intros ?%elem_of_nil | by intros (l&?%elem_of_nil&_)].
  - rewrite elem_of_app, IH. split.
    + intros [Ha|(l'&Hl'&Ha)]; [exists l; split; [left|done] | exists l'; split; [by right|done]].
    + intros (l'&[->|Hl']%elem_of_cons&Ha); [by left | right; eauto].
Qed.

Lemma maze_cell_valid w this m c :
  heap_wf w → mazeHeap w !! this = Some m → c ∈ concat (MazeGenerator.cells m) →
  c < length (cellHeap w).
Proof.
  intros Hwf Hm (row&Hrow&Hc)%elem_of_concat.
  by eapply (mz_cells_valid _ _ (wf_mazes _ Hwf _ _ Hm)).
Qed.

Lemma reachable_edges w a b :
  heap_wf w → a < length (cellHeap w) → reachable w a b →
  rtc (λ a b, b ∈ open_neighbors w a) a b.
Proof.
  intros Hwf Ha Hreach. induction Hreach as [|a b c Hab Hbc IH]; [done|].
  apply elem_of_open_neighbors in Hab; [|done..].
  eapply rtc_l; [done|]. apply IH. by eapply open_neighbors_valid.
Qed.

Section SolveClaims.
Variable entropy : nat → Draw.

(** [solve] on a well-formed store, from a cell of the store to one that can
    be reached from it. *)
Lemma solve_finds w this startCell endCell fuel :
  heap_wf w → startCell < length (cellHeap w) →
  reachable w startCell endCell →
  2 * length (cellHeap w) + 2 ≤ fuel →
  ∃ path w', solve entropy fuel this startCell endCell w = Ok path w'
             ∧ simple_path w startCell endCell path.
Proof.
  intros Hwf Hs Hreach Hfuel. unfold solve. simpl.
  apply (solve_loop_finds entropy w Hwf startCell endCell); [done| | |simpl; lia].
  - by apply dfs_inv_start.
  - by apply reachable_edges.
Qed.

Lemma solve_same_cell w this c fuel :
  0 < fuel → solve entropy fuel this c c w = Ok [c] w.
Proof.
  intros Hfuel. destruct fuel as [|fuel]; [lia|].
  unfold solve. simpl. by rewrite decide_True.
Qed.

(** C2: on a maze the constructor has made, from a cell of the maze to a
    cell of the maze that can be reached from it through open doors, [solve]
    returns (given enough iterations) a sequence that starts with the first
    cell, ends with the second, has an open door between any two consecutive
    cells and no cell twice; and [solve(c, c)] returns [[c]]. *)
Theorem solve_returns_simple_path (fuel0 : nat) (config : Config) (w0 : World)
    (this : nat) (w : World) (m : MazeGenerator.t) (startCell endCell : nat) (fuel : nat) :
  heap_wf w0 →
  constructor entropy fuel0 config w0 = Ok this w →
  mazeHeap w !! this = Some m →
  startCell ∈ concat (MazeGenerator.cells m) →
  endCell ∈ concat (MazeGenerator.cells m) →
  reachable w startCell endCell →
  2 * length (cellHeap w) + 2 ≤ fuel →
  ∃ path w',
    solve entropy fuel this startCell endCell w = Ok path w'
    ∧ head path = Some startCell
    ∧ last path = Some endCell
    ∧ NoDup path
    ∧ (∀ i a b, path !! i = Some a → path !! S i = Some b → open_between w a b)
    ∧ (startCell = endCell → path = [startCell]).
Proof.
  intros Hwf0 Hrun Hm Hs He Hreach Hfuel.
  destruct (constructor_inv _ _ _ _ _ _ Hwf0 Hrun) as (_&Hwf&_).
  pose proof (maze_cell_valid _ _ _ _ Hwf Hm Hs) as Hvalid.
  destruct (solve_finds w this startCell endCell fuel Hwf Hvalid Hreach Hfuel)
    as (path&w'&Hsolve&Hhead&Hlast&Hnd&Hsteps).
  exists path, w'. split_and!; try done.
  intros <-. rewrite solve_same_cell in Hsolve by lia. by injection Hsolve as <- _.
Qed.
End SolveClaims.

(** ** The error of [solve] *)

(** Code that throws no exception. *)
Definition silent {St A} (m : M St A) : Prop := ∀ s e s', m s ≠ Throw e s'.

Lemma silent_ret {St A} (a : A) : silent (mret a : M St A).
Proof. by intros s e s'. Qed.

Lemma silent_reads {St A} (f : St → option A) : silent (reads f).
Proof. intros s e s'. unfold reads. by destruct (f s). Qed.

Lemma silent_bind {St A B} (m : M St A) (f : A → M St B) :
  silent m → (∀ a, silent (f a)) → silent (m ≫= f).
Proof.
  intros Hm Hf s e s'. rewrite bind_run. specialize (Hm s).
  destruct (m s) as [a s1|e1 s1| |]; try done.
  - apply Hf.
  - by specialize (Hm e1 s1).
Qed.

Lemma silent_foldM {St A B} (f : B → A → M St B) (l : list A) (b : B) :
  (∀ b a, silent (f b a)) → silent (foldM f b l).
Proof.
  intros Hf. revert b. induction l as [|a l IH]; intros b; simpl.
  - apply silent_ret.
  - apply silent_bind; [apply Hf | intros b'; apply IH].
Qed.

Lemma canVisit_silent c : silent (canVisit c).
Proof.
  unfold canVisit, neighbors, getCell, getDoor.
  apply silent_bind; [|intros; apply silent_ret].
  apply silent_bind; [apply silent_reads|]. intros x.
  apply silent_foldM. intros acc [dir d].
  apply silent_bind; [apply silent_reads|]. intros door.
  destruct (Door.closed door); apply silent_ret.
Qed.

(** The [throw] of [solve] is dead code: the test [path.length === 0] comes
    before [path.pop()], and once [path] is empty [current] is [undefined],
    so that the next round fails on [current.canVisit()]. *)
Lemma solve_loop_not_PathNotFound entropy fuel endCell current path v w w' :
  current = last path →
  solve_loop entropy fuel endCell current path v w ≠ Throw PathNotFound w'.
Proof.
  revert current path v w. induction fuel as [|fuel IH]; intros current path v w Hcur; [done|].
  simpl. case_decide; [done|].
  destruct current as [cur|]; [|done].
  rewrite bind_run. pose proof (canVisit_silent cur w) as Hsilent.
  destruct (canVisit cur w) as [ns w1|e w1| |]; [|by specialize (Hsilent e w1)|done..].
  case_decide.
  - rewrite bind_run, random_below_run, bind_run. unfold index, reads.
    destruct (filter (λ n, n ∉ v) ns !! _) as [n|]; [|done].
    apply IH. unfold push. by rewrite last_snoc.
  - case_decide as Hlen.
    + destruct path; [done | simpl in Hlen; lia].
    + apply IH. by rewrite last_lookup, Nat.sub_1_r.
Qed.

Lemma solve_not_PathNotFound entropy fuel this startCell endCell w w' :
  solve entropy fuel this startCell endCell w ≠ Throw PathNotFound w'.
Proof. by apply solve_loop_not_PathNotFound. Qed.

(** ** Termination of the generators *)

Lemma generates_cells (w w' : World) : generates w w' → cellHeap w' = cellHeap w.
Proof. by intros (?&_). Qed.

Lemma posts_ok {St A} (R : relation St) (m : M St A) s a s' :
  posts R m → m s = Ok a s' → R s s'.
Proof. intros Hm Hrun. specialize (Hm s). by rewrite Hrun in Hm. Qed.

Lemma open_door_run w d :
  d < length (doorHeap w) →
  ∃ w', open_door d w = Ok () w' ∧ generates w w'.
Proof.
  intros Hd. destruct (lookup_lt_is_Some_2 _ _ Hd) as [door Hdoor].
  unfold open_door. rewrite (bind_ok _ _ _ _ _ (getDoor_ok _ _ _ Hdoor)).
  eexists. split; [done|].
  eapply (posts_ok generates (open_door d)); [apply open_door_generates|].
  unfold open_door. by rewrite (bind_ok _ _ _ _ _ (getDoor_ok _ _ _ Hdoor)).
Qed.

Lemma findM_run {A} (p : A → M World bool) (pb : A → bool) (l : list A) (w : World) :
  (∀ a, a ∈ l → p a w = Ok (pb a) w) → findM p l w = Ok (find pb l) w.
Proof.
  induction l as [|a l IH]; intros Hp; simpl; [done|].
  rewrite bind_run, Hp by left. destruct (pb a); [done|].
  apply IH. intros a' Ha'. apply Hp. by right.
Qed.

Lemma find_is_Some {A} (pb : A → bool) (l : list A) (a : A) :
  a ∈ l → pb a = true → ∃ a', find pb l = Some a' ∧ a' ∈ l ∧ pb a' = true.
Proof.
  induction l as [|b l IH]; intros Ha Hpa; [by apply elem_of_nil in Ha|].
  simpl. destruct (pb b) eqn:Hb.
  - exists b. split_and!; [done|left|done].
  - apply elem_of_cons in Ha as [->|Ha]; [congruence|].
    destruct (IH Ha Hpa) as (a'&?&?&?). exists a'. split_and!; [done|by right|done].
Qed.

Lemma elem_of_all_neighbors w c x n :
  cellHeap w !! c = Some x →
  n ∈ all_neighbors w c ↔
  ∃ dir d door, (dir, d) ∈ Cell.doors x ∧ doorHeap w !! d = Some door ∧ n = across c door.
Proof.
  intros Hx. unfold all_neighbors, Object_values. rewrite Hx, list_elem_of_omap. split.
  - intros (d&([dir d']&->&Hin)%list_elem_of_fmap&Hn). simpl in Hn.
    destruct (doorHeap w !! d') as [door|] eqn:Hd; [|done]. injection Hn as <-. eauto 6.
  - intros (dir&d&door&Hin&Hd&->). exists d. split.
    + apply list_elem_of_fmap. by exists (dir, d).
    + by rewrite Hd.
Qed.

(** A neighbour is a cell of the store, and the door to it is in its own
    [doors] map. *)
Lemma neighbor_door w cell n :
  heap_wf w → cell < length (cellHeap w) → n ∈ all_neighbors w cell →
  ∃ xn d door, cellHeap w !! n = Some xn ∧ d ∈ Object_values (Cell.doors xn)
               ∧ doorHeap w !! d = Some door
               ∧ (Door.cell1 door = cell ∨ Door.cell2 door = cell).
Proof.
  intros Hwf Hc Hn. destruct (lookup_lt_is_Some_2 _ _ Hc) as [x Hx].
  destruct (proj1 (elem_of_all_neighbors _ _ _ _ Hx) Hn) as (dir&d&door&Hin&Hd&Hn').
  destruct (wf_cell_door _ Hwf _ _ _ _ Hx Hin) as (door'&Hd'&Hends). simplify_eq.
  destruct (wf_door_cell _ Hwf _ _ Hd) as [(x1&dir1&Hx1&Hin1) (x2&dir2&Hx2&Hin2)].
  unfold across. case_decide as H1.
  - exists x2, d, door. split_and!; [done| |done|by left].
    apply list_elem_of_fmap. by exists (dir2, d).
  - exists x1, d, door. split_and!; [done| |done|done].
    apply list_elem_of_fmap. by exists (dir1, d).
Qed.

Section RecTermination.
Variable entropy : nat → Draw.

(** One round of the loop either ends it or moves on to a state closer to the
    end: a new cell is visited, or the stack gets shorter. *)
Lemma rec_step_runs cell v stack w :
  let N := length (cellHeap w) in
  heap_wf w → cell < N →
  NoDup v → (∀ c, c ∈ v → c < N) → (∀ c, c ∈ stack → c < N) →
  ∃ st w', rec_step entropy cell v stack w = Ok st w' ∧ generates w w'
    ∧ match st with
      | None => True
      | Some (cell', v', stack') =>
          cell' < N ∧ NoDup v' ∧ (∀ c, c ∈ v' → c < N) ∧ (∀ c, c ∈ stack' → c < N)
          ∧ 2 * (N - length v') + length stack' < 2 * (N - length v) + length stack
      end.
Proof.
  intros N Hwf Hcell Hnd Hv Hstack. unfold rec_step.
  rewrite bind_run, _neighbors_run by done.
  set (u := filter (λ n, n ∉ v) (all_neighbors w cell)).
  destruct (decide (length u ≠ 0)) as [Hu|Hu].
  - rewrite bind_run, random_below_run.
    set (w1 := mkWorld _ _ _ _).
    assert (same_store w w1) as Hsame by done.
    pose proof (floor_times_lt (entropy (draws w)) (length u) ltac:(lia)) as Hi.
    destruct (lookup_lt_is_Some_2 u _ Hi) as [n Hn].
    rewrite (bind_ok _ _ _ _ _ (index_ok _ _ _ _ Hn)).
    apply list_elem_of_lookup_2, list_elem_of_filter in Hn as [Hnv Hnn].
    destruct (neighbor_door w cell n Hwf Hcell Hnn) as (xn&d&door&Hxn&Hd&Hdoor&Hends).
    rewrite (bind_ok _ _ _ _ _ (getCell_ok n w1 xn Hxn)).
    set (pb := λ d, match doorHeap w !! d with
                    | Some door => bool_decide (Door.cell1 door = cell)
                                   || bool_decide (Door.cell2 door = cell)
                    | None => false
                    end).
    erewrite bind_ok; [|apply (findM_run _ pb)].
    2:{ intros d' ([dir' d'']&->&Hin)%list_elem_of_fmap. simpl.
        destruct (wf_cell_door _ Hwf _ _ _ _ Hxn Hin) as (door'&Hd'&_).
        rewrite (bind_ok _ _ _ _ _ (getDoor_ok d'' w1 door' Hd')).
        unfold pb. by rewrite Hd'. }
    destruct (find_is_Some pb _ d Hd) as (d'&->&Hd'&Hpb).
    { unfold pb. rewrite Hdoor. apply orb_true_iff. rewrite !bool_decide_eq_true.
      done. }
    assert (d' < length (doorHeap w1)) as Hvalid.
    { unfold pb in Hpb. destruct (doorHeap w !! d') eqn:E; [|done].
      by apply lookup_lt_Some in E. }
    destruct (open_door_run w1 d' Hvalid) as (w2&Hopen&Hgen).
    rewrite (bind_ok _ _ _ _ _ Hopen), mret_run.
    eexists _, _. split; [done|]. split.
    { etrans; [by apply same_store_generates|done]. }
    assert (n < N) as HnN by (by apply lookup_lt_Some in Hxn).
    rewrite set_add_new by done.
    assert (NoDup (v ++ [n])) as Hnd'.
    { apply NoDup_app. split_and!; [done| |apply NoDup_singleton].
      by intros c Hc ->%list_elem_of_singleton. }
    assert (∀ c, c ∈ v ++ [n] → c < N) as Hv'.
    { intros c [?| ->%list_elem_of_singleton]%elem_of_app; auto. }
    pose proof (NoDup_bounded_length _ N Hnd' Hv') as Hlen.
    split_and!; [done|done|done| |].
    + intros c [?| ->%list_elem_of_singleton]%elem_of_app; auto.
    + unfold push. rewrite !length_app in *. simpl in *. lia.
  - destruct (decide (length stack = 0)) as [Hs|Hs].
    + rewrite mret_run. eexists _, _. split; [done|]. split; [reflexivity|done].
    + destruct stack as [|top stack _] using rev_ind; [done|].
      rewrite (bind_ok _ _ _ _ _ (index_ok _ _ _ _ (lookup_last_snoc stack top))), mret_run.
      eexists _, _. split; [done|]. split; [reflexivity|].
      unfold pop. rewrite removelast_last.
      split_and!; [|done|done| |].
      * apply Hstack. apply elem_of_app. right. left.
      * intros c Hc. apply Hstack. apply elem_of_app. by left.
      * rewrite length_app. simpl. lia.
Qed.

Lemma rec_loop_terminates fuel cell v stack w :
  let N := length (cellHeap w) in
  heap_wf w → cell < N →
  NoDup v → (∀ c, c ∈ v → c < N) → (∀ c, c ∈ stack → c < N) →
  2 * (N - length v) + length stack < fuel →
  ∃ w', rec_loop entropy fuel cell v stack w = Ok () w'.
Proof.
  revert cell v stack w. induction fuel as [|fuel IH];
    intros cell v stack w N Hwf Hcell Hnd Hv Hstack Hfuel; [lia|].
  simpl.
  destruct (rec_step_runs cell v stack w Hwf Hcell Hnd Hv Hstack) as (st&w1&Hrun&Hgen&Hst).
  rewrite (bind_ok _ _ _ _ _ Hrun).
  destruct st as [[[cell' v'] stack']|]; [|by eexists].
  destruct Hst as (Hcell'&Hnd'&Hv'&Hstack'&Hless).
  pose proof (generates_cells _ _ Hgen) as Hcells.
  apply IH; rewrite ?Hcells; try done.
  - by eapply heap_wf_generates.
  - fold N. lia.
Qed.
End RecTermination.

Lemma elem_of_insert_inv {A} (l : list A) (i : nat) (x y : A) :
  y ∈ <[i := x]> l → y = x ∨ y ∈ l.
Proof.
  intros [j Hj]%list_elem_of_lookup_1.
  apply list_lookup_insert_Some in Hj as [(_&->&_)|[_ Hj]]; [by left|].
  right. by eapply list_elem_of_lookup_2.
Qed.

Lemma elem_of_pop {A} (l : list A) (x : A) : x ∈ pop l → x ∈ l.
Proof.
  unfold pop. rewrite removelast_firstn_len. apply (subseteq_take _ l).
Qed.

Lemma length_pop {A} (l : list A) : length (pop l) = length l - 1.
Proof.
  unfold pop. rewrite removelast_firstn_len, length_take. lia.
Qed.

Lemma foldl_push {A} (l k : list A) : foldl push l k = l ++ k.
Proof.
  revert l. induction k as [|x k IH]; intros l; simpl; [by rewrite app_nil_r|].
  rewrite IH. unfold push. by rewrite <-app_assoc.
Qed.

Lemma Dir_keys_length (l : list Dir) : NoDup l → length l ≤ 4.
Proof.
  intros Hnd.
  change 4 with (length [Up; Down; Left; Right]).
  apply submseteq_length, NoDup_submseteq; [done|].
  intros []; set_solver.
Qed.

Lemma cell_doors_length w c x :
  heap_wf w → cellHeap w !! c = Some x → length (Object_values (Cell.doors x)) ≤ 4.
Proof.
  intros Hwf Hx. unfold Object_values. rewrite length_fmap.
  rewrite <-(length_fmap fst). apply Dir_keys_length. by eapply wf_keys.
Qed.

Lemma cell_doors_valid w c x d :
  heap_wf w → cellHeap w !! c = Some x → d ∈ Object_values (Cell.doors x) →
  d < length (doorHeap w).
Proof.
  intros Hwf Hx ([dir d']&->&Hin)%list_elem_of_fmap.
  destruct (wf_cell_door _ Hwf _ _ _ _ Hx Hin) as (door&Hd&_).
  by apply lookup_lt_Some in Hd.
Qed.

Lemma door_ends_valid w d door :
  heap_wf w → doorHeap w !! d = Some door →
  Door.cell1 door < length (cellHeap w) ∧ Door.cell2 door < length (cellHeap w).
Proof.
  intros Hwf Hd.
  destruct (wf_door_cell _ Hwf _ _ Hd) as [(x1&dir1&Hx1&_) (x2&dir2&Hx2&_)].
  split; by eapply lookup_lt_Some.
Qed.

Section GeneratorTermination.
Variable entropy : nat → Draw.

Lemma random_cell_run maze m w :
  heap_wf w → mazeHeap w !! maze = Some m →
  ∃ c w', random_cell entropy maze w = Ok c w' ∧ same_store w w'
          ∧ c < length (cellHeap w) ∧ c ∈ concat (MazeGenerator.cells m).
Proof.
  intros Hwf Hm. pose proof (wf_mazes _ Hwf _ _ Hm) as Hok.
  unfold random_cell.
  rewrite (bind_ok _ _ _ _ _ (getMaze_ok _ _ _ Hm)).
  rewrite bind_run, random_below_run, bind_run, random_below_run.
  set (i := floor_times _ (MazeGenerator.rows m)).
  set (j := floor_times _ (MazeGenerator.cols m)).
  set (w' := mkWorld _ _ _ (S (draws (mkWorld _ _ _ _)))).
  assert (i < MazeGenerator.rows m) by (apply floor_times_lt, Hok).
  assert (j < MazeGenerator.cols m) by (apply floor_times_lt, Hok).
  destruct (mz_cells _ _ Hok i j) as (row&c&Hrow&Hc); [done..|].
  exists c, w'. unfold cell_at.
  rewrite (bind_ok _ _ _ _ _ (getMaze_ok maze w' m Hm)).
  rewrite (bind_ok _ _ _ _ _ (index_ok _ _ _ _ Hrow)).
  rewrite (index_ok _ _ _ _ Hc).
  split_and!; [done|done| |].
  - eapply (mz_cells_valid _ _ Hok); by eapply list_elem_of_lookup_2.
  - apply elem_of_concat. exists row. split; by eapply list_elem_of_lookup_2.
Qed.

Lemma createRandomMazeRec_terminates fuel maze m w :
  heap_wf w → mazeHeap w !! maze = Some m →
  2 * length (cellHeap w) < fuel →
  ∃ w', createRandomMazeRec entropy fuel maze w = Ok () w'.
Proof.
  intros Hwf Hm Hfuel. unfold createRandomMazeRec.
  destruct (random_cell_run maze m w Hwf Hm) as (c&w1&Hrun&Hsame&Hc&_).
  rewrite (bind_ok _ _ _ _ _ Hrun).
  assert (cellHeap w1 = cellHeap w) as Hcells by (by destruct Hsame as (?&?&?)).
  apply rec_loop_terminates; rewrite ?Hcells; simpl; try done.
  - by eapply heap_wf_same_store.
  - apply NoDup_nil_2.
  - intros ? ?%elem_of_nil. done.
  - intros ? ?%elem_of_nil. done.
  - lia.
Qed.

Lemma pickWall_run walls w :
  walls ≠ [] →
  ∃ d walls' w', pickWall entropy walls w = Ok (d, walls') w' ∧ same_store w w'
    ∧ d ∈ walls ∧ (∀ x, x ∈ walls' → x ∈ walls) ∧ length walls' = length walls - 1.
Proof.
  intros Hne. assert (0 < length walls) as Hlen by (destruct walls; simpl; [done|lia]).
  unfold pickWall. rewrite bind_run, random_below_run.
  set (w' := mkWorld _ _ _ _).
  set (k := floor_times _ _).
  assert (k < length walls) as Hk.
  { pose proof (floor_times_lt (entropy (draws w)) (length walls - 1 + 1) ltac:(lia)).
    unfold k. lia. }
  destruct (lookup_lt_is_Some_2 walls k Hk) as [tmp Htmp].
  destruct (lookup_lt_is_Some_2 walls (length walls - 1) ltac:(lia)) as [wl Hwl].
  rewrite (bind_ok _ _ _ _ _ (index_ok _ _ _ _ Htmp)).
  rewrite (bind_ok _ _ _ _ _ (index_ok _ _ _ _ Hwl)).
  set (walls2 := <[length walls - 1 := tmp]> (<[k := wl]> walls)).
  assert (length walls2 = length walls) as Hlen2.
  { unfold walls2. by rewrite !length_insert. }
  assert (walls2 !! (length walls2 - 1) = Some tmp) as Hlast.
  { rewrite Hlen2. unfold walls2. apply list_lookup_insert_eq.
    rewrite length_insert. lia. }
  rewrite (bind_ok _ _ _ _ _ (index_ok _ _ _ _ Hlast)), mret_run.
  exists tmp, (pop walls2), w'. split_and!; [done|done| | |].
  - by eapply list_elem_of_lookup_2.
  - intros x Hx%elem_of_pop. unfold walls2 in Hx.
    apply elem_of_insert_inv in Hx as [->|Hx]; [by eapply list_elem_of_lookup_2|].
    apply elem_of_insert_inv in Hx as [->|Hx]; [by eapply list_elem_of_lookup_2|done].
  - rewrite length_pop. lia.
Qed.

Lemma prim_loop_terminates fuel walls v w :
  let N := length (cellHeap w) in
  heap_wf w →
  (∀ d, d ∈ walls → d < length (doorHeap w)) →
  NoDup v → (∀ c, c ∈ v → c < N) →
  4 * (N - length v) + length walls < fuel →
  ∃ w', prim_loop entropy fuel walls v w = Ok () w'.
Proof.
  revert walls v w. induction fuel as [|fuel IH];
    intros walls v w N Hwf Hwalls Hnd Hv Hfuel; [lia|].
  simpl. case_decide as Hlen; [by eexists|].
  destruct (pickWall_run walls w) as (d&walls'&w1&Hrun&Hsame&Hd&Hsub&Hlen').
  { by intros ->. }
  rewrite (bind_ok _ _ _ _ _ Hrun).
  pose proof (heap_wf_same_store _ _ Hwf Hsame) as Hwf1.
  destruct Hsame as (Hc1&Hd1&Hm1).
  destruct (lookup_lt_is_Some_2 (doorHeap w1) d) as [door Hdoor].
  { rewrite Hd1. auto. }
  rewrite (bind_ok _ _ _ _ _ (getDoor_ok _ _ _ Hdoor)).
  destruct (set_has v (Door.cell1 door) && set_has v (Door.cell2 door)) eqn:Hboth.
  - apply IH; rewrite ?Hc1, ?Hd1; try done.
    + intros d' Hd'. auto.
    + fold N. lia.
  - destruct (open_door_run w1 d) as (w2&Hopen&Hgen).
    { by eapply lookup_lt_Some. }
    rewrite bind_run, Hopen.
    set (unvisited := if set_has v (Door.cell1 door)
                      then Door.cell2 door else Door.cell1 door).
    pose proof (heap_wf_generates _ _ Hwf1 Hgen) as Hwf2.
    pose proof (generates_cells _ _ Hgen) as Hc2.
    destruct (door_ends_valid _ _ _ Hwf1 Hdoor) as [He1 He2].
    assert (unvisited < N ∧ unvisited ∉ v) as [HuN Huv].
    { unfold unvisited, N. rewrite <-Hc1. unfold set_has in *.
      destruct (bool_decide (Door.cell1 door ∈ v)) eqn:E1.
      - simpl in Hboth. apply bool_decide_eq_false in Hboth. done.
      - apply bool_decide_eq_false in E1. done. }
    destruct (lookup_lt_is_Some_2 (cellHeap w2) unvisited) as [x Hx].
    { rewrite Hc2, Hc1. done. }
    rewrite (bind_ok _ _ _ _ _ (getCell_ok _ _ _ Hx)).
    rewrite set_add_new by done. rewrite foldl_push.
    assert (NoDup (v ++ [unvisited])) as Hnd'.
    { apply NoDup_app. split_and!; [done| |apply NoDup_singleton].
      by intros c Hc ->%list_elem_of_singleton. }
    assert (∀ c, c ∈ v ++ [unvisited] → c < N) as Hv'.
    { intros c [?| ->%list_elem_of_singleton]%elem_of_app; auto. }
    pose proof (NoDup_bounded_length _ N Hnd' Hv') as HlenN.
    pose proof (cell_doors_length _ _ _ Hwf2 Hx) as Hdeg.
    apply IH; rewrite ?Hc2, ?Hc1; try done.
    + intros d' [Hd'|Hd']%elem_of_app.
      * destruct Hgen as (_&Hdoors&_). rewrite <-(Forall2_length _ _ _ Hdoors), Hd1. auto.
      * by eapply cell_doors_valid.
    + fold N. rewrite !length_app in *. simpl in *. lia.
Qed.

Lemma createRandomMazePrim_terminates fuel maze m w :
  heap_wf w → mazeHeap w !! maze = Some m →
  4 * length (cellHeap w) < fuel →
  ∃ w', createRandomMazePrim entropy fuel maze w = Ok () w'.
Proof.
  intros Hwf Hm Hfuel. unfold createRandomMazePrim.
  destruct (random_cell_run maze m w Hwf Hm) as (c&w1&Hrun&Hsame&Hc&_).
  rewrite (bind_ok _ _ _ _ _ Hrun).
  pose proof (heap_wf_same_store _ _ Hwf Hsame) as Hwf1.
  destruct Hsame as (Hc1&Hd1&Hm1).
  destruct (lookup_lt_is_Some_2 (cellHeap w1) c) as [x Hx]; [by rewrite Hc1|].
  rewrite (bind_ok _ _ _ _ _ (getCell_ok _ _ _ Hx)).
  pose proof (cell_doors_length _ _ _ Hwf1 Hx) as Hdeg.
  apply prim_loop_terminates; rewrite ?Hc1; try done.
  - intros d Hd. by eapply cell_doors_valid.
  - apply NoDup_singleton.
  - intros c' ->%list_elem_of_singleton. done.
  - simpl. lia.
Qed.
End GeneratorTermination.

Section KruskalTermination.
Variable entropy : nat → Draw.

Lemma with_uf_run {A} (c : M (list (cell_ref * cell_ref)) A) uf a uf' (w : World) :
  c uf = Ok a uf' → with_uf c uf w = Ok (a, uf') w.
Proof. intros Hc. unfold with_uf. by rewrite Hc. Qed.

Lemma uf_cells_length (uf : list (nat * nat)) (N : nat) :
  uf_inv uf → (∀ x, x ∈ uf.*1 → x < N) → length uf ≤ N.
Proof.
  intros Hinv Hkeys. rewrite <-(length_seq N 0).
  apply uf_length_bound; [done|].
  intros x Hx%Hkeys. apply elem_of_seq. lia.
Qed.

(** One door of Kruskal's loop: both union-find calls return within
    [length (cellHeap w) + 2] steps of [root]. *)
Lemma kruskal_step_runs fuel uf d w :
  let N := length (cellHeap w) in
  heap_wf w → uf_inv uf → (∀ x, x ∈ uf.*1 → x < N) →
  d < length (doorHeap w) → N + 2 ≤ fuel →
  ∃ uf' w', kruskal_step fuel uf (Some d) w = Ok uf' w' ∧ generates w w'
            ∧ uf_inv uf' ∧ (∀ x, x ∈ uf'.*1 → x < N).
Proof.
  intros N Hwf Hinv Hkeys Hd Hfuel. unfold kruskal_step.
  destruct (lookup_lt_is_Some_2 _ _ Hd) as [door Hdoor].
  rewrite (bind_ok _ _ _ _ _ (getDoor_ok _ _ _ Hdoor)).
  destruct (door_ends_valid _ _ _ Hwf Hdoor) as [He1 He2].
  pose proof (uf_cells_length uf N Hinv Hkeys) as Hlen.
  destruct (joined_spec fuel uf (Door.cell1 door) (Door.cell2 door) Hinv)
    as (rp&rq&_&_&Hjoined).
  apply finishes_ok in Hjoined as (j&uf1&Hrun1&_&Hinv1&Hkeys1&_); [|lia].
  rewrite (bind_ok _ _ _ _ _ (with_uf_run _ _ _ _ w Hrun1)).
  assert (∀ x, x ∈ uf1.*1 → x < N) as Hk1.
  { intros x [?|[->| ->]]%Hkeys1; auto. }
  destruct j; simpl.
  - rewrite mret_run. exists uf1, w. split_and!; [done|reflexivity|done|done].
  - destruct (open_door_run w d Hd) as (w1&Hopen&Hgen).
    rewrite bind_run, Hopen.
    pose proof (uf_cells_length uf1 N Hinv1 Hk1) as Hlen1.
    destruct (join_spec fuel uf1 (Door.cell1 door) (Door.cell2 door) Hinv1)
      as (rp'&rq'&_&_&Hjoin).
    apply finishes_ok in Hjoin as ([]&uf2&Hrun2&Hinv2&Hkeys2&_); [|lia].
    rewrite (bind_ok _ _ _ _ _ (with_uf_run _ _ _ _ w1 Hrun2)), mret_run.
    exists uf2, w1. split_and!; [done|done|done|].
    intros x [?|[->| ->]]%Hkeys2; auto.
Qed.

Lemma kruskal_loop_runs fuel arr uf w :
  let N := length (cellHeap w) in
  heap_wf w → uf_inv uf → (∀ x, x ∈ uf.*1 → x < N) →
  (∀ od, od ∈ arr → ∃ d, od = Some d ∧ d < length (doorHeap w)) → N + 2 ≤ fuel →
  ∃ uf' w', foldM (kruskal_step fuel) uf arr w = Ok uf' w' ∧ generates w w'.
Proof.
  revert uf w. induction arr as [|od arr IH]; intros uf w N Hwf Hinv Hkeys Harr Hfuel; simpl.
  - exists uf, w. by rewrite mret_run.
  - destruct (Harr od) as (d&->&Hd); [left|].
    destruct (kruskal_step_runs fuel uf d w Hwf Hinv Hkeys Hd Hfuel)
      as (uf1&w1&Hrun&Hgen&Hinv1&Hkeys1).
    rewrite (bind_ok _ _ _ _ _ Hrun).
    pose proof (generates_cells _ _ Hgen) as Hcells.
    destruct (IH uf1 w1) as (uf2&w2&Hrun2&Hgen2); rewrite ?Hcells; try done.
    + by eapply heap_wf_generates.
    + intros od Hod. destruct (Harr od) as (d'&->&Hd'); [by right|].
      exists d'. split; [done|].
      destruct Hgen as (_&Hdoors&_). by rewrite <-(Forall2_length _ _ _ Hdoors).
    + exists uf2, w2. split; [done|]. by etrans.
Qed.

Lemma createRandomMazeKruskal_terminates fuel maze m w :
  heap_wf w → mazeHeap w !! maze = Some m →
  length (cellHeap w) + 2 ≤ fuel →
  ∃ w', createRandomMazeKruskal entropy fuel maze w = Ok () w'.
Proof.
  intros Hwf Hm Hfuel. unfold createRandomMazeKruskal.
  rewrite (bind_ok _ _ _ _ _ (getMaze_ok _ _ _ Hm)).
  destruct (random_shuffle_ok entropy (MazeGenerator.doors m) w) as (arr&Hrun&Hperm).
  rewrite (bind_ok _ _ _ _ _ Hrun).
  set (w1 := mkWorld _ _ _ _).
  unfold set_maze_doors.
  rewrite bind_run, (bind_ok _ _ _ _ _ (getMaze_ok maze w1 m Hm)).
  unfold putMaze. simpl.
  set (w2 := mkWorld _ _ _ _).
  assert (generates w w2) as Hgen.
  { repeat split; [reflexivity|]. simpl.
    rewrite <-(list_insert_id _ _ _ Hm) at 1.
    apply Forall2_insert; [reflexivity | by repeat split]. }
  pose proof (heap_wf_generates _ _ Hwf Hgen) as Hwf2.
  destruct (kruskal_loop_runs fuel arr UF.new w2) as (uf&w3&Hloop&_); try done.
  - apply uf_inv_new.
  - intros x Hx. by apply elem_of_nil in Hx.
  - intros od Hod. rewrite Hperm in Hod.
    by apply (mz_doors _ _ (wf_mazes _ Hwf _ _ Hm)).
  - rewrite bind_run, Hloop. by eexists.
Qed.

Lemma randomizeMaze_terminates fuel maze m w :
  heap_wf w → mazeHeap w !! maze = Some m →
  4 * length (cellHeap w) + 2 ≤ fuel →
  ∃ w', randomizeMaze entropy fuel maze w = Ok () w' ∧ generates w w'.
Proof.
  intros Hwf Hm Hfuel.
  assert (∃ w', randomizeMaze entropy fuel maze w = Ok () w') as [w' Hrun].
  { unfold randomizeMaze. rewrite (bind_ok _ _ _ _ _ (getMaze_ok _ _ _ Hm)).
    case_decide; [apply createRandomMazePrim_terminates with m; [done..|lia]|].
    case_decide; [apply createRandomMazeKruskal_terminates with m; [done..|lia]|].
    apply createRandomMazeRec_terminates with m; [done..|lia]. }
  exists w'. split; [done|].
  by eapply (posts_ok generates), Hrun; apply randomizeMaze_generates.
Qed.
End KruskalTermination.

(** ** Every run ends *)

Lemma walk_rtc {A} (R : relation A) (path : list A) (a b : A) :
  head path = Some a → last path = Some b →
  (∀ i x y, path !! i = Some x → path !! S i = Some y → R x y) →
  rtc R a b.
Proof.
  revert a. induction path as [|x path IH]; intros a Hhead Hlast Hsteps; [done|].
  injection Hhead as ->. destruct path as [|y path].
  - injection Hlast as ->. done.
  - apply rtc_l with y.
    + by apply (Hsteps 0).
    + apply IH; [done|done|]. intros i. apply (Hsteps (S i)).
Qed.

Section Termination.
Variable entropy : nat → Draw.

Lemma simple_path_reachable w s e path : simple_path w s e path → reachable w s e.
Proof. intros (Hhead&Hlast&_&Hsteps). by eapply walk_rtc. Qed.

(** The two ways [solve] ends on a store whose doors and cells refer to each
    other: it returns a simple path over open doors, or the end cell cannot
    be reached and the run ends with a [TypeError]. *)
Lemma solve_total w this startCell endCell fuel :
  heap_wf w → startCell < length (cellHeap w) →
  2 * length (cellHeap w) + 2 ≤ fuel →
  match solve entropy fuel this startCell endCell w with
  | Ok path _ => simple_path w startCell endCell path
  | Throw e _ => e = TypeError ∧ ¬ reachable w startCell endCell
  | _ => False
  end.
Proof.
  intros Hwf Hstart Hfuel. unfold solve.
  pose proof (solve_loop_total entropy w Hwf startCell endCell fuel startCell
                [startCell] [startCell] w) as Hloop.
  simpl. unfold push, set_add, set_has.
  rewrite bool_decide_eq_false_2 by apply not_elem_of_nil. simpl.
  destruct (solve_loop _ _ _ _ _ _ _) as [path w'|e w'| |].
  - apply Hloop; [done|by apply dfs_inv_start|simpl; lia].
  - destruct Hloop as [-> Hn]; [done|by apply dfs_inv_start|simpl; lia|].
    split; [done|]. intros Hr. apply Hn. by apply reachable_edges.
  - apply Hloop; [done|by apply dfs_inv_start|simpl; lia].
  - apply Hloop; [done|by apply dfs_inv_start|simpl; lia].
Qed.

Lemma solve_unreachable w this startCell endCell fuel :
  heap_wf w → startCell < length (cellHeap w) →
  2 * length (cellHeap w) + 2 ≤ fuel →
  ¬ reachable w startCell endCell →
  ∃ w', solve entropy fuel this startCell endCell w = Throw TypeError w'.
Proof.
  intros Hwf Hstart Hfuel Hn.
  pose proof (solve_total w this startCell endCell fuel Hwf Hstart Hfuel) as Htotal.
  destruct (solve _ _ _ _ _ _) as [path w'|e w'| |]; [|destruct Htotal as [-> _]|..].
  - by apply simple_path_reachable in Htotal.
  - by eexists.
  - done.
  - done.
Qed.

Lemma constructor_terminates fuel config w0 :
  heap_wf w0 →
  4 * (length (cellHeap w0) + config_rows config * config_cols config) + 2 ≤ fuel →
  ∃ w, constructor entropy fuel config w0 = Ok (this_maze w0) w ∧ heap_wf w
       ∧ length (cellHeap w)
         = length (cellHeap w0) + config_rows config * config_cols config.
Proof.
  intros Hwf Hfuel. unfold constructor.
  destruct (build_grid_wf config w0 Hwf) as (w1&Hbuild&Hwf1&Hlen).
  rewrite (bind_ok _ _ _ _ _ Hbuild).
  assert (is_Some (mazeHeap w1 !! this_maze w0)) as [m Hm].
  { rewrite build_grid_spec in Hbuild. injection Hbuild as <-.
    eexists. apply final_maze; first [apply config_cols_pos | apply config_rows_pos]. }
  destruct (randomizeMaze_terminates entropy fuel (this_maze w0) m w1 Hwf1 Hm)
    as (w2&Hrun&Hgen); [lia|].
  rewrite bind_run, Hrun, mret_run.
  exists w2. split_and!; [done|by eapply heap_wf_generates|].
  by rewrite (generates_cells _ _ Hgen).
Qed.

(** C9: [solve] writes nothing. However it ends, every door (its [closed] flag
    with it), every cell (its [doors] map with it) and every maze object (its
    [cells] and [doors] arrays with it) is as it was before the call; and it
    does end, with a path or an exception, when the doors and cells of the
    store refer to each other, [startCell] is a cell of the store and the
    loop is given [2 * n + 2] rounds, [n] the number of cells. *)
Theorem solve_mutates_nothing (fuel : nat) (this : maze_ref) (startCell endCell : cell_ref)
    (w : World) :
  match solve entropy fuel this startCell endCell w with
  | Ok _ w' | Throw _ w' =>
      doorHeap w' = doorHeap w ∧ cellHeap w' = cellHeap w ∧ mazeHeap w' = mazeHeap w
  | OutOfFuel | Stuck =>
      ¬ (heap_wf w ∧ startCell < length (cellHeap w)
         ∧ 2 * length (cellHeap w) + 2 ≤ fuel)
  end.
Proof.
  pose proof (solve_same entropy fuel this startCell endCell w) as Hsame.
  pose proof (solve_total w this startCell endCell fuel) as Htotal.
  destruct (solve entropy fuel this startCell endCell w);
    [by destruct Hsame as (?&?&?)..| |]; intros (?&?&?); auto.
Qed.

(** C7: in a store whose doors and cells refer to each other, constructing
    a maze (grid, then the generator that [algo] names: Prim, Kruskal, or
    the recursive backtracker for every other value) returns a maze within
    [4 * n + 2] rounds of any loop, [n] the number of cells of the store
    once the grid is in it; and [solve] from a cell of a store with [n]
    cells ends within [2 * n + 2] rounds, with a path or an exception. *)
Theorem generation_and_solving_terminate (config : Config) (w0 : World) (fuel : nat) :
  heap_wf w0 →
  4 * (length (cellHeap w0) + config_rows config * config_cols config) + 2 ≤ fuel →
  ∃ this w,
    constructor entropy fuel config w0 = Ok this w
    ∧ ∀ maze startCell endCell,
        startCell < length (cellHeap w) →
        match solve entropy fuel maze startCell endCell w with
        | Ok _ _ | Throw _ _ => True
        | OutOfFuel | Stuck => False
        end.
Proof.
  intros Hwf Hfuel.
  destruct (constructor_terminates fuel config w0 Hwf Hfuel) as (w&Hrun&Hwf'&Hlen).
  exists (this_maze w0), w. split; [done|].
  intros maze startCell endCell Hstart.
  pose proof (solve_total w maze startCell endCell fuel Hwf' Hstart ltac:(lia)) as Htotal.
  by destruct (solve _ _ _ _ _ _).
Qed.
End Termination.

(** * Runs on small mazes *)

(** [Math.random()] returning 0 at every call, and returning 1/2 at call
    number [k] and 0 elsewhere. *)
Definition zero_draws : nat → Draw := λ _, mkDraw 0 0.
Definition half_at (k : nat) : nat → Draw :=
  λ i, if decide (i = k) then mkDraw 1 0 else mkDraw 0 0.

(** The store after [new Maze(2)] on an empty store, up to the doors' flags,
    the order of [this.doors] and the number of draws: cells 0..3 are (0,0),
    (0,1), (1,0), (1,1); doors 0..3 join 0-1, 0-2, 1-3, 2-3. *)
Definition cells2x2 : list Cell.t :=
  [Cell.mk 0 0 [(Right, 0); (Down, 1)]; Cell.mk 0 1 [(Left, 0); (Down, 2)];
   Cell.mk 1 0 [(Up, 1); (Right, 3)]; Cell.mk 1 1 [(Up, 2); (Left, 3)]].
Definition doors2x2 (closed : bool * bool * bool * bool) : list Door.t :=
  let '(c0, c1, c2, c3) := closed in
  [Door.mk 0 1 c0; Door.mk 0 2 c1; Door.mk 1 3 c2; Door.mk 2 3 c3].
Definition maze2x2 (algo : string) (doors : list door_ref) : MazeGenerator.t :=
  MazeGenerator.mk 2 2 algo [[0; 1]; [2; 3]] (Some <$> doors).
Definition world2x2 (closed : bool * bool * bool * bool) (algo : string)
    (doors : list door_ref) (draws : nat) : World :=
  mkWorld cells2x2 (doors2x2 closed) [maze2x2 algo doors] draws.

(** Two mazes of one cell each, in one store. *)
Definition two_cells : World :=
  mkWorld [Cell.mk 0 0 []; Cell.mk 0 0 []] []
    [MazeGenerator.mk 1 1 "recursive" [[0]] []; MazeGenerator.mk 1 1 "recursive" [[1]] []] 4.

(** C1 fails for the recursive backtracker: on a 2x2 grid, with
    [Math.random()] returning 0, 0, 0, 1/2, 0, 0, the generator opens all
    four doors, not [2 * 2 - 1 = 3]: the open doors form the cycle
    0 - 1 - 3 - 2 - 0. The walk starts at cell 0, which is not in [v], goes
    to 1, 3 and 2, and from 2 finds 0 unvisited. *)
Theorem recursive_backtracker_opens_a_cycle :
  let w := world2x2 (false, false, false, false) "recursive" [0; 1; 2; 3] 6 in
  constructor (half_at 3) 18 (Options (Some 2) (Some 2) (Some "recursive")) empty_world
  = Ok 0 w
  ∧ length (filter (λ door, Door.closed door = false) (doorHeap w)) = 4
  ∧ open_between w 0 1 ∧ open_between w 1 3 ∧ open_between w 3 2 ∧ open_between w 2 0.
Proof.
  split; [by vm_compute|]. split; [by vm_compute|].
  split_and!.
  - exists 0, (Door.mk 0 1 false). split_and!; [done|done|by left].
  - exists 2, (Door.mk 1 3 false). split_and!; [done|done|by left].
  - exists 3, (Door.mk 2 3 false). split_and!; [done|done|by right].
  - exists 1, (Door.mk 0 2 false). split_and!; [done|done|by right].
Qed.

(** C3 fails: [createRandomMazeRec] enters its loop with an empty [v]. On
    the 2x2 grid with [Math.random()] returning 0 the start cell is 0; after
    the first round [v] is [[1]], without the start cell, and the second
    round, at cell 1, picks the start cell 0 as an unvisited neighbour and
    adds it to [v] only then. *)
Theorem recursive_backtracker_start_not_visited :
  let grid := world2x2 (true, true, true, true) "recursive" [0; 1; 2; 3] in
  let w1 := world2x2 (false, true, true, true) "recursive" [0; 1; 2; 3] in
  build_grid (Number 2) empty_world = Ok 0 (grid 0)
  ∧ random_cell zero_draws 0 (grid 0) = Ok 0 (grid 2)
  ∧ (∀ fuel, createRandomMazeRec zero_draws fuel 0 (grid 0)
             = rec_loop zero_draws fuel 0 [] [] (grid 2))
  ∧ rec_step zero_draws 0 [] [] (grid 2) = Ok (Some (1, [1], [0])) (w1 3)
  ∧ rec_step zero_draws 1 [1] [0] (w1 3) = Ok (Some (0, [1; 0], [0; 1])) (w1 4).
Proof.
  split_and!; [by vm_compute|by vm_compute| |by vm_compute|by vm_compute].
  intros fuel. unfold createRandomMazeRec. rewrite bind_run.
  by replace (random_cell zero_draws 0 _) with (Ok 0 (world2x2 (true, true, true, true)
    "recursive" [0; 1; 2; 3] 2)) by (by vm_compute).
Qed.

(** C4 fails: after [m1 = new Maze(1); m2 = new Maze(1)] the one cell of
    [m2] cannot be reached from the one cell of [m1], and
    [m1.solve(m1.cells[0][0], m2.cells[0][0])] ends with a [TypeError], not
    with the error of the [throw] statement. *)
Theorem solve_unreachable_raises_TypeError :
  (m1 ← constructor zero_draws 6 (Number 1);
   m2 ← constructor zero_draws 6 (Number 1);
   c1 ← cell_at m1 0 0;
   c2 ← cell_at m2 0 0;
   mret (m1, c1, c2)) empty_world = Ok (0, 0, 1) two_cells
  ∧ ¬ reachable two_cells 0 1
  ∧ solve zero_draws 6 0 0 1 two_cells = Throw TypeError two_cells.
Proof.
  split; [by vm_compute|]. split; [|by vm_compute].
  intros [?|(y&(d&door&Hd&_)&_)]%rtc_inv; [done|].
  simpl in Hd. by rewrite lookup_nil in Hd.
Qed.

Lemma solve_returns_simple_path_witness :
  let w := world2x2 (false, false, true, false) "recursive" [0; 1; 2; 3] 6 in
  ∃ path w', solve zero_draws 10 0 0 3 w = Ok path w'
    ∧ head path = Some 0 ∧ last path = Some 3 ∧ NoDup path
    ∧ (∀ i a b, path !! i = Some a → path !! S i = Some b → open_between w a b)
    ∧ (0 = 3 → path = [0]).
Proof.
  apply (solve_returns_simple_path zero_draws 18 (Number 2) empty_world 0
           (world2x2 (false, false, true, false) "recursive" [0; 1; 2; 3] 6)
           (maze2x2 "recursive" [0; 1; 2; 3]) 0 3 10).
  - apply heap_wf_empty.
  - vm_compute. reflexivity.
  - reflexivity.
  - simpl. rewrite !elem_of_cons. tauto.
  - simpl. rewrite !elem_of_cons. tauto.
  - apply rtc_l with 2.
    + exists 1, (Door.mk 0 2 false). split_and!; [reflexivity|reflexivity|by left].
    + apply rtc_once. exists 3, (Door.mk 2 3 false).
      split_and!; [reflexivity|reflexivity|by left].
  - simpl. lia.
Defined.

Lemma generation_and_solving_terminate_witness :
  ∃ this w,
    constructor zero_draws 18 (Number 2) empty_world = Ok this w
    ∧ ∀ maze startCell endCell,
        startCell < length (cellHeap w) →
        match solve zero_draws 18 maze startCell endCell w with
        | Ok _ _ | Throw _ _ => True
        | OutOfFuel | Stuck => False
        end.
Proof.
  apply (generation_and_solving_terminate zero_draws (Number 2) empty_world 18).
  - apply heap_wf_empty.
  - vm_compute. lia.
Defined.

(** * [groupDoors] *)

(** The recursive backtracker and Prim's algorithm do not write to the maze
    object. *)
Definition keeps_mazes (w w' : World) : Prop := mazeHeap w' = mazeHeap w.

Global Instance keeps_mazes_preorder : PreOrder keeps_mazes.
Proof.
  split; [done|]. intros w1 w2 w3 H12 H23. unfold keeps_mazes in *. congruence.
Qed.

Lemma posts_same_keeps {A} (m : M World A) : posts same_store m → posts keeps_mazes m.
Proof. apply posts_weaken. by intros w w' (_&_&?). Qed.

Lemma open_door_keeps d : posts keeps_mazes (open_door d).
Proof.
  intros w. unfold open_door, getDoor. rewrite bind_run. unfold reads.
  by destruct (doorHeap w !! d).
Qed.

Section KeepsMazes.
Variable entropy : nat → Draw.

Lemma rec_loop_keeps fuel cell v stack :
  posts keeps_mazes (rec_loop entropy fuel cell v stack).
Proof.
  revert cell v stack. induction fuel as [|fuel IH]; intros cell v stack; simpl; [pleaf|].
  pbind.
  - unfold rec_step.
    pbind; [apply posts_same_keeps, _neighbors_same|].
    case_decide.
    + pbind; [apply posts_same_keeps, random_below_same|].
      pbind; [pleaf|].
      pbind; [unfold getCell; pleaf|].
      pbind.
      { apply posts_same_keeps, findM_same. intros d. unfold getDoor. posts_auto. }
      destruct a3 as [d|]; [|pleaf].
      pbind; [apply open_door_keeps | pleaf].
    + case_decide; [pleaf|]. pbind; pleaf.
  - destruct a as [[[c v'] s']|]; [apply IH | pleaf].
Qed.

Lemma createRandomMazeRec_keeps fuel maze :
  posts keeps_mazes (createRandomMazeRec entropy fuel maze).
Proof.
  unfold createRandomMazeRec.
  pbind; [apply posts_same_keeps, random_cell_same | apply rec_loop_keeps].
Qed.

Lemma prim_loop_keeps fuel walls v :
  posts keeps_mazes (prim_loop entropy fuel walls v).
Proof.
  revert walls v. induction fuel as [|fuel IH]; intros walls v; simpl; [pleaf|].
  case_decide; [pleaf|].
  pbind; [apply posts_same_keeps, pickWall_same|].
  destruct a as [w walls'].
  pbind; [unfold getDoor; pleaf|].
  case_match; [apply IH|].
  pbind; [apply open_door_keeps|].
  pbind; [unfold getCell; pleaf | apply IH].
Qed.

Lemma createRandomMazePrim_keeps fuel maze :
  posts keeps_mazes (createRandomMazePrim entropy fuel maze).
Proof.
  unfold createRandomMazePrim.
  pbind; [apply posts_same_keeps, random_cell_same|].
  pbind; [unfold getCell; pleaf | apply prim_loop_keeps].
Qed.
End KeepsMazes.

Lemma omap_Some_fmap {A} (l : list A) : omap id (Some <$> l) = l.
Proof. induction l as [|x l IH]; [done|]. rewrite fmap_cons. simpl. by f_equal. Qed.

Lemma perm_Some_fmap {A} (l : list (option A)) (ds0 : list A) :
  l ≡ₚ Some <$> ds0 → ∃ ds, l = Some <$> ds ∧ ds ≡ₚ ds0.
Proof.
  intros Hperm. exists (omap id l). split.
  - assert (Forall is_Some l) as Hall.
    { rewrite Hperm. apply Forall_fmap, Forall_true. intros x. by eexists. }
    clear Hperm. induction Hall as [|x l' [y ->] _ IH]; [done|].
    change (omap id (Some y :: l')) with (y :: omap id l').
    rewrite fmap_cons. by f_equal.
  - by rewrite Hperm, omap_Some_fmap.
Qed.

(** The value of [door.direction] in a store, when the door and its two
    cells are there. *)
Definition door_direction (w : World) (d : door_ref) : option string :=
  match direction d w with
  | Ok s _ => Some s
  | _ => None
  end.

Lemma direction_run w d door c1 c2 :
  doorHeap w !! d = Some door →
  cellHeap w !! Door.cell1 door = Some c1 → cellHeap w !! Door.cell2 door = Some c2 →
  direction d w = Ok (if decide (Cell.row c1 = Cell.row c2) then "|" else "-") w.
Proof.
  intros Hd H1 H2. unfold direction.
  rewrite (bind_ok _ _ _ _ _ (getDoor_ok _ _ _ Hd)).
  rewrite (bind_ok _ _ _ _ _ (getCell_ok _ _ _ H1)).
  by rewrite (bind_ok _ _ _ _ _ (getCell_ok _ _ _ H2)).
Qed.

(** The [reduce] of [groupDoors]: each door goes to the end of the group its
    direction names. *)
Lemma groupDoors_fold w ds A B :
  (∀ d, d ∈ ds → ∃ s, direction d w = Ok s w ∧ (s = "|" ∨ s = "-")) →
  foldM (λ acc d,
           match d with
           | None => mret acc
           | Some door =>
               dir ← direction door;
               arr ← reads (λ _, obj_get dir acc);
               mret (obj_set dir (push arr door) acc)
           end)
        [("|", A); ("-", B)] (Some <$> ds) w
  = Ok [("|", A ++ filter (λ d, door_direction w d = Some "|") ds);
        ("-", B ++ filter (λ d, door_direction w d = Some "-") ds)] w.
Proof.
  revert A B. induction ds as [|d ds IH]; intros A B Hds; simpl.
  - by rewrite mret_run, !app_nil_r.
  - destruct (Hds d) as (s&Hs&Hcase); [left|].
    assert (door_direction w d = Some s) as Hdir by (unfold door_direction; by rewrite Hs).
    rewrite bind_run, bind_run, Hs.
    destruct Hcase as [-> | ->].
    + rewrite filter_cons_True, filter_cons_False by (rewrite Hdir; done).
      change (A ++ d :: ?l) with (A ++ [d] ++ l). rewrite app_assoc.
      rewrite <-IH by (intros; apply Hds; by right). done.
    + rewrite filter_cons_False, filter_cons_True by (rewrite Hdir; done).
      change (B ++ d :: ?l) with (B ++ [d] ++ l). rewrite app_assoc.
      rewrite <-IH by (intros; apply Hds; by right). done.
Qed.

Section GroupDoors.
Variable entropy : nat → Draw.

(** The maze object after generation: its doors are those of the grid, in
    the order of construction unless the algorithm is Kruskal's, which
    shuffles [maze.doors] itself. *)
Lemma constructor_doors fuel config w0 this w :
  heap_wf w0 → constructor entropy fuel config w0 = Ok this w →
  let w1 := grid_state w0 (config_rows config) (config_cols config) (config_algo config)
              (config_rows config * config_cols config) in
  let ds0 := seq (door_base w0) (door_count (config_rows config) (config_cols config)) in
  ∃ m1 m ds,
    build_grid config w0 = Ok this w1
    ∧ generates w1 w
    ∧ mazeHeap w1 !! this = Some m1 ∧ MazeGenerator.doors m1 = Some <$> ds0
    ∧ mazeHeap w !! this = Some m ∧ MazeGenerator.doors m = Some <$> ds
    ∧ ds ≡ₚ ds0
    ∧ (MazeGenerator.algo m ≠ "kruskal" → ds = ds0).
Proof.
  intros Hwf Hrun w1 ds0.
  destruct (constructor_inv entropy fuel config w0 this w Hwf Hrun) as (->&Hwf'&Hgen).
  fold w1 in Hgen.
  pose proof (config_rows_pos config) as Hrows.
  pose proof (config_cols_pos config) as Hcols.
  pose proof (final_maze w0 (config_rows config) _ (config_algo config) Hcols) as Hm1.
  fold w1 ds0 in Hm1.
  destruct Hgen as (Hc&Hd&Hm).
  destruct (Forall2_lookup_l _ _ _ _ _ Hm Hm1) as (m&Hmw&(_&_&Halgo&_&Hperm)).
  simpl in Hperm, Halgo.
  destruct (perm_Some_fmap _ _ Hperm) as (ds&Hds&Hperm').
  eexists _, m, ds.
  split_and!; [apply build_grid_spec|done|done|done|done|done|done|].
  intros Hnk. rewrite Halgo in Hnk.
  assert (mazeHeap w = mazeHeap w1) as Hkeep.
  { unfold constructor in Hrun.
    rewrite bind_run, build_grid_spec in Hrun. fold w1 in Hrun.
    rewrite bind_run in Hrun.
    destruct (randomizeMaze entropy fuel (this_maze w0) w1) as [[] w2| | |] eqn:Hrand;
      try done.
    rewrite mret_run in Hrun. injection Hrun as <-.
    unfold randomizeMaze in Hrand.
    rewrite (bind_ok _ _ _ _ _ (getMaze_ok _ _ _ Hm1)) in Hrand. simpl in Hrand.
    case_decide.
    - by apply (posts_ok keeps_mazes _ _ _ _ (createRandomMazePrim_keeps entropy fuel _)) in Hrand.
    - rewrite decide_False in Hrand by done.
      by apply (posts_ok keeps_mazes _ _ _ _ (createRandomMazeRec_keeps entropy fuel _)) in Hrand. }
  rewrite Hkeep, Hm1 in Hmw. injection Hmw as <-. simpl in Hds.
  apply (f_equal (omap id)) in Hds. by rewrite !omap_Some_fmap in Hds.
Qed.

(** C8, with the order as the code has it: on a maze the constructor
    returned, [groupDoors()] returns the two groups ['|'] and ['-'] and
    leaves the store as it is. The doors of [this.doors] with direction
    ['|'] are those whose cells are in one row and in different columns,
    those with direction ['-'] have cells in one column and in different
    rows, and every door has one of the two. Each group lists its doors in
    the order of [this.doors]. That array is a permutation without
    repetition of the sequence in which the constructor made the doors, and
    is that sequence when the algorithm is not Kruskal's. *)
Theorem groupDoors_groups (fuel : nat) (config : Config) (w0 : World)
    (this : nat) (w : World) :
  heap_wf w0 → constructor entropy fuel config w0 = Ok this w →
  ∃ w1 m1 m ds0 ds,
    build_grid config w0 = Ok this w1
    ∧ mazeHeap w1 !! this = Some m1 ∧ MazeGenerator.doors m1 = Some <$> ds0
    ∧ mazeHeap w !! this = Some m ∧ MazeGenerator.doors m = Some <$> ds
    ∧ ds ≡ₚ ds0 ∧ NoDup ds
    ∧ (MazeGenerator.algo m ≠ "kruskal" → ds = ds0)
    ∧ groupDoors this w
      = Ok [("|", filter (λ d, door_direction w d = Some "|") ds);
            ("-", filter (λ d, door_direction w d = Some "-") ds)] w
    ∧ ∀ d, d ∈ ds →
        ∃ door c1 c2,
          doorHeap w !! d = Some door
          ∧ cellHeap w !! Door.cell1 door = Some c1
          ∧ cellHeap w !! Door.cell2 door = Some c2
          ∧ (door_direction w d = Some "|" ∨ door_direction w d = Some "-")
          ∧ (door_direction w d = Some "|"
             ↔ Cell.row c1 = Cell.row c2 ∧ Cell.col c1 ≠ Cell.col c2)
          ∧ (door_direction w d = Some "-"
             ↔ Cell.col c1 = Cell.col c2 ∧ Cell.row c1 ≠ Cell.row c2).
Proof.
  intros Hwf Hrun.
  destruct (constructor_doors fuel config w0 this w Hwf Hrun)
    as (m1&m&ds&Hbuild&Hgen&Hm1&Hds0&Hm&Hds&Hperm&Hsame).
  set (w1 := grid_state _ _ _ _ _) in *.
  set (ds0 := seq _ _) in *.
  assert (∀ d, d ∈ ds →
            ∃ door c1 c2,
              doorHeap w !! d = Some door
              ∧ cellHeap w !! Door.cell1 door = Some c1
              ∧ cellHeap w !! Door.cell2 door = Some c2
              ∧ adjacent c1 c2
              ∧ door_direction w d
                = Some (if decide (Cell.row c1 = Cell.row c2) then "|" else "-")) as Hdoors.
  { intros d Hd. rewrite Hperm in Hd.
    destruct (grid_door_facts config w0 d Hd) as (door1&c1&c2&Hd1&Hc1&Hc2&Hadj&_).
    fold w1 in Hd1, Hc1, Hc2.
    destruct Hgen as (Hc&Hdo&_).
    destruct (Forall2_lookup_l _ _ _ _ _ Hdo Hd1) as (door&Hdoor&(He1&He2&_)).
    exists door, c1, c2. rewrite He1, He2, Hc.
    split_and!; [done|done|done|done|].
    unfold door_direction. erewrite direction_run; [done|done|..].
    - by rewrite He1, Hc.
    - by rewrite He2, Hc. }
  exists w1, m1, m, ds0, ds.
  split_and!; [done|done|done|done|done|done| |done| |].
  - rewrite Hperm. apply NoDup_seq.
  - unfold groupDoors. rewrite (bind_ok _ _ _ _ _ (getMaze_ok _ _ _ Hm)), Hds.
    rewrite groupDoors_fold; [done|].
    intros d Hd. destruct (Hdoors d Hd) as (door&c1&c2&Hdoor&Hc1&Hc2&_&_).
    eexists. split; [by eapply direction_run|]. case_decide; auto.
  - intros d Hd. destruct (Hdoors d Hd) as (door&c1&c2&Hdoor&Hc1&Hc2&Hadj&Hdir).
    exists door, c1, c2. rewrite Hdir.
    split_and!; [done|done|done|..].
    + case_decide; auto.
    + case_decide as Hrow; split; try done.
      * intros _. split; [done|]. destruct Hadj as [[_ ?]|[_ ?]]; lia.
      * intros [? _]. done.
    + case_decide as Hrow; split; try done.
      * intros [_ ?]. done.
      * intros _. destruct Hadj as [[? _]|[? ?]]; [done|]. split; [done|lia].
Qed.
End GroupDoors.

(** C8 as stated, with the order of construction, fails for Kruskal's
    algorithm: [random_shuffle(maze.doors)] shuffles the array of the maze
    itself. On a 2x2 grid with [Math.random()] returning 0 the constructor
    makes the doors in the order 0, 1, 2, 3, [this.doors] ends as
    3 before 0, and group ['|'] lists door 3 before door 0. *)
Lemma groupDoors_kruskal_order :
  let config := Options (Some 2) (Some 2) (Some "kruskal") in
  let w := world2x2 (true, false, false, false) "kruskal" [1; 2; 3; 0] 3 in
  build_grid config empty_world
  = Ok 0 (world2x2 (true, true, true, true) "kruskal" [0; 1; 2; 3] 0)
  ∧ constructor zero_draws 18 config empty_world = Ok 0 w
  ∧ groupDoors 0 w = Ok [("|", [3; 0]); ("-", [1; 2])] w.
Proof. split_and!; by vm_compute. Qed.

Lemma groupDoors_groups_witness :
  let w := world2x2 (true, false, false, false) "kruskal" [1; 2; 3; 0] 3 in
  ∃ w1 m1 m ds0 ds,
    build_grid (Options (Some 2) (Some 2) (Some "kruskal")) empty_world = Ok 0 w1
    ∧ mazeHeap w1 !! 0 = Some m1 ∧ MazeGenerator.doors m1 = Some <$> ds0
    ∧ mazeHeap w !! 0 = Some m ∧ MazeGenerator.doors m = Some <$> ds
    ∧ ds ≡ₚ ds0 ∧ NoDup ds
    ∧ (MazeGenerator.algo m ≠ "kruskal" → ds = ds0)
    ∧ groupDoors 0 w
      = Ok [("|", filter (λ d, door_direction w d = Some "|") ds);
            ("-", filter (λ d, door_direction w d = Some "-") ds)] w
    ∧ ∀ d, d ∈ ds →
        ∃ door c1 c2,
          doorHeap w !! d = Some door
          ∧ cellHeap w !! Door.cell1 door = Some c1
          ∧ cellHeap w !! Door.cell2 door = Some c2
          ∧ (door_direction w d = Some "|" ∨ door_direction w d = Some "-")
          ∧ (door_direction w d = Some "|"
             ↔ Cell.row c1 = Cell.row c2 ∧ Cell.col c1 ≠ Cell.col c2)
          ∧ (door_direction w d = Some "-"
             ↔ Cell.col c1 = Cell.col c2 ∧ Cell.row c1 ≠ Cell.row c2).
Proof.
  apply (groupDoors_groups zero_draws 18 (Options (Some 2) (Some 2) (Some "kruskal"))
           empty_world 0 (world2x2 (true, false, false, false) "kruskal" [1; 2; 3; 0] 3)).
  - apply heap_wf_empty.
  - vm_compute. reflexivity.
Defined.

(** * Further properties of the code *)

(** ** The union-find structure *)

Section UFRuns.
Context {node : Type} `{EqDecision node}.
Implicit Types (m : list (node * node)) (a b c d p r : node).

Lemma uf_grown_length m m' (new : list node) :
  uf_inv m' → (∀ x, x ∈ m'.*1 → x ∈ m.*1 ∨ x ∈ new) → length m' ≤ length m + length new.
Proof.
  intros Hinv Hkeys.
  etrans; [apply (uf_length_bound m' (m.*1 ++ new) Hinv)|].
  - intros x Hx. apply elem_of_app. auto.
  - by rewrite length_app, length_fmap.
Qed.

Lemma joined_run fuel m a b :
  uf_inv m → length m + 2 ≤ fuel →
  ∃ ra rb m', rep m a ra ∧ rep m b rb
    ∧ UF.joined fuel a b m = Ok (bool_decide (ra = rb)) m'
    ∧ uf_inv m' ∧ (∀ x r, rep m x r ↔ rep m' x r) ∧ length m' ≤ length m + 2.
Proof.
  intros Hinv Hfuel.
  destruct (joined_spec fuel m a b Hinv) as (ra&rb&Ha&Hb&Hrun).
  apply finishes_ok in Hrun as (j&m'&Hrun&->&Hinv'&Hkeys&Hrep&_); [|done].
  exists ra, rb, m'. split_and!; try done.
  apply (uf_grown_length m m' [a; b] Hinv').
  intros x [?|[->| ->]]%Hkeys; [by left|right; left|right; right; left].
Qed.

Lemma join_run fuel m a b :
  uf_inv m → length m + 2 ≤ fuel →
  ∃ ra rb m', rep m a ra ∧ rep m b rb
    ∧ UF.join fuel a b m = Ok () m'
    ∧ uf_inv m'
    ∧ (∀ x r, rep m x r → rep m' x (if decide (r = ra) then rb else r))
    ∧ length m' ≤ length m + 2.
Proof.
  intros Hinv Hfuel.
  destruct (join_spec fuel m a b Hinv) as (ra&rb&Ha&Hb&Hrun).
  apply finishes_ok in Hrun as ([]&m'&Hrun&Hinv'&Hkeys&Hrep&_); [|done].
  exists ra, rb, m'. split_and!; try done.
  apply (uf_grown_length m m' [a; b] Hinv').
  intros x [?|[->| ->]]%Hkeys; [by left|right; left|right; right; left].
Qed.

Lemma root_run fuel m p :
  uf_inv m → length m + 1 ≤ fuel →
  ∃ r m', rep m p r ∧ UF.root fuel p m = Ok r m'
    ∧ uf_inv m' ∧ (∀ x r, rep m x r ↔ rep m' x r) ∧ length m' ≤ length m + 1.
Proof.
  intros Hinv Hfuel.
  pose proof (root_spec_new fuel m p Hinv) as Hrun.
  apply finishes_ok in Hrun as (r&m'&Hrun&Hr&Hreg); [|lia].
  pose proof (registered_length _ _ _ Hreg).
  destruct Hreg as (Hinv'&_&_&Hrep&_).
  exists r, m'. split_and!; [done..|lia].
Qed.

Lemma rootsNbr_run fuel m :
  uf_inv m → 2 * length m + 2 ≤ fuel →
  ∃ m', UF.rootsNbr fuel m = Ok (length (roots m)) m'
    ∧ uf_inv m' ∧ (∀ x r, rep m x r ↔ rep m' x r) ∧ length m' = length m.
Proof.
  intros Hinv Hfuel.
  pose proof (rootsNbr_spec fuel m Hinv) as Hrun.
  apply finishes_ok in Hrun as (n&m'&Hrun&->&Hinv'&Hkeys&Hrep&_); [|done].
  exists m'. split_and!; [done..|].
  by rewrite <-(length_fmap fst m'), Hkeys, length_fmap.
Qed.

(** A representative stands for itself. *)
Lemma rep_rep m x r : rep m x r → rep m r r.
Proof.
  intros [[l Hc]|[Hx ->]]; [|by right].
  left. exists [r]. constructor. by eapply chain_end_root.
Qed.
End UFRuns.

(** X1: [joined] answers as an equivalence. In every state a sequence of
    calls leads to, given [length m + 2] rounds for the loop of [root]:
    [joined(a, a)] is true; [joined(a, b)] and [joined(b, a)] agree; and if
    [joined(a, b)] and [joined(b, c)] are true, so is [joined(a, c)]. *)
Theorem joined_is_equivalence {node : Type} `{EqDecision node}
    (m : list (node * node)) (a b c : node) (fuel : nat) :
  built m → length m + 2 ≤ fuel →
  ∃ jab jba jbc jac m1 m2 m3 m4 m5,
    UF.joined fuel a a m = Ok true m1
    ∧ UF.joined fuel a b m = Ok jab m2
    ∧ UF.joined fuel b a m = Ok jba m3
    ∧ UF.joined fuel b c m = Ok jbc m4
    ∧ UF.joined fuel a c m = Ok jac m5
    ∧ jab = jba
    ∧ (jab = true → jbc = true → jac = true).
Proof.
  intros Hinv%built_inv Hfuel.
  destruct (joined_run fuel m a a Hinv Hfuel) as (r1&r1'&m1&H1&H1'&Haa&_).
  destruct (joined_run fuel m a b Hinv Hfuel) as (ra&rb&m2&Ha&Hb&Hab&_).
  destruct (joined_run fuel m b a Hinv Hfuel) as (rb'&ra'&m3&Hb'&Ha'&Hba&_).
  destruct (joined_run fuel m b c Hinv Hfuel) as (rb''&rc&m4&Hb''&Hc&Hbc&_).
  destruct (joined_run fuel m a c Hinv Hfuel) as (ra''&rc'&m5&Ha''&Hc'&Hac&_).
  rewrite (rep_det _ _ _ _ H1' H1) in Haa.
  rewrite (rep_det _ _ _ _ Hb' Hb), (rep_det _ _ _ _ Ha' Ha) in Hba.
  rewrite (rep_det _ _ _ _ Hb'' Hb) in Hbc.
  rewrite (rep_det _ _ _ _ Ha'' Ha), (rep_det _ _ _ _ Hc' Hc) in Hac.
  eexists _, _, _, _, m1, m2, m3, m4, m5.
  split_and!; [|done|done|done|done| |].
  - by rewrite Haa, bool_decide_eq_true_2.
  - apply bool_decide_ext. split; congruence.
  - rewrite !bool_decide_eq_true. congruence.
Qed.

Lemma joined_is_equivalence_witness :
  let m := [(0, 1); (1, 1); (2, 2)] in
  ∃ jab jba jbc jac m1 m2 m3 m4 m5,
    UF.joined 5 0 0 m = Ok true m1
    ∧ UF.joined 5 0 1 m = Ok jab m2
    ∧ UF.joined 5 1 0 m = Ok jba m3
    ∧ UF.joined 5 1 2 m = Ok jbc m4
    ∧ UF.joined 5 0 2 m = Ok jac m5
    ∧ jab = jba
    ∧ (jab = true → jbc = true → jac = true).
Proof.
  apply (joined_is_equivalence [(0, 1); (1, 1); (2, 2)] 0 1 2 5).
  - apply (built_root 1 2 [(0, 1); (1, 1)] 2); [|reflexivity].
    apply (built_join 2 0 1 UF.new); [apply built_new | reflexivity].
  - simpl. lia.
Defined.

(** X2: [join] is union. After [join(a, b)], [joined(c, d)] is true exactly
    when it was true before, or [c] was joined with one of [a], [b] and [d]
    with the other. Nothing else changes. *)
Theorem join_unites {node : Type} `{EqDecision node}
    (m : list (node * node)) (a b c d : node) (fuel : nat) :
  built m → length m + 4 ≤ fuel →
  ∃ m' j' jcd jca jdb jcb jda m1 m2 m3 m4 m5 m6,
    UF.join fuel a b m = Ok () m'
    ∧ UF.joined fuel c d m' = Ok j' m1
    ∧ UF.joined fuel c d m = Ok jcd m2
    ∧ UF.joined fuel c a m = Ok jca m3
    ∧ UF.joined fuel d b m = Ok jdb m4
    ∧ UF.joined fuel c b m = Ok jcb m5
    ∧ UF.joined fuel d a m = Ok jda m6
    ∧ j' = jcd || (jca && jdb) || (jcb && jda).
Proof.
  intros Hinv%built_inv Hfuel.
  destruct (join_run fuel m a b Hinv) as (ra&rb&m'&Ha&Hb&Hjoin&Hinv'&Hrep&Hlen); [lia|].
  destruct (joined_run fuel m' c d Hinv') as (rc'&rd'&m1&Hc'&Hd'&H1&_); [lia|].
  destruct (joined_run fuel m c d Hinv) as (rc&rd&m2&Hc&Hd&H2&_); [lia|].
  destruct (joined_run fuel m c a Hinv) as (x3&y3&m3&Hx3&Hy3&H3&_); [lia|].
  destruct (joined_run fuel m d b Hinv) as (x4&y4&m4&Hx4&Hy4&H4&_); [lia|].
  destruct (joined_run fuel m c b Hinv) as (x5&y5&m5&Hx5&Hy5&H5&_); [lia|].
  destruct (joined_run fuel m d a Hinv) as (x6&y6&m6&Hx6&Hy6&H6&_); [lia|].
  rewrite (rep_det _ _ _ _ Hx3 Hc), (rep_det _ _ _ _ Hy3 Ha) in H3.
  rewrite (rep_det _ _ _ _ Hx4 Hd), (rep_det _ _ _ _ Hy4 Hb) in H4.
  rewrite (rep_det _ _ _ _ Hx5 Hc), (rep_det _ _ _ _ Hy5 Hb) in H5.
  rewrite (rep_det _ _ _ _ Hx6 Hd), (rep_det _ _ _ _ Hy6 Ha) in H6.
  rewrite (rep_det _ _ _ _ Hc' (Hrep _ _ Hc)), (rep_det _ _ _ _ Hd' (Hrep _ _ Hd)) in H1.
  eexists m', _, _, _, _, _, _, m1, m2, m3, m4, m5, m6.
  split_and!; [done..|].
  apply eq_true_iff_eq.
  rewrite !orb_true_iff, !andb_true_iff, !bool_decide_eq_true.
  destruct (decide (rc = ra)) as [->|Hca], (decide (rd = ra)) as [->|Hda];
    intuition congruence.
Qed.

Lemma join_unites_witness :
  let m := [(0, 1); (1, 1); (2, 2)] in
  ∃ m' j' jcd jca jdb jcb jda m1 m2 m3 m4 m5 m6,
    UF.join 7 1 2 m = Ok () m'
    ∧ UF.joined 7 0 2 m' = Ok j' m1
    ∧ UF.joined 7 0 2 m = Ok jcd m2
    ∧ UF.joined 7 0 1 m = Ok jca m3
    ∧ UF.joined 7 2 2 m = Ok jdb m4
    ∧ UF.joined 7 0 2 m = Ok jcb m5
    ∧ UF.joined 7 2 1 m = Ok jda m6
    ∧ j' = jcd || (jca && jdb) || (jcb && jda).
Proof.
  apply (join_unites [(0, 1); (1, 1); (2, 2)] 1 2 0 2 7).
  - apply (built_root 1 2 [(0, 1); (1, 1)] 2); [|reflexivity].
    apply (built_join 2 0 1 UF.new); [apply built_new | reflexivity].
  - simpl. lia.
Defined.

(** X3: the queries keep the answers. [root], [joined] and [rootsNbr] write
    to the map (a node not seen before is added as its own root, and [root]
    halves the paths it walks), but after any of them [joined(c, d)] answers
    as it did before. *)
Theorem queries_keep_answers {node : Type} `{EqDecision node}
    (m m' : list (node * node)) (c d : node) (fuel : nat) :
  built m → 2 * length m + 4 ≤ fuel →
  (∃ p r, UF.root fuel p m = Ok r m')
  ∨ (∃ p q j, UF.joined fuel p q m = Ok j m')
  ∨ (∃ n, UF.rootsNbr fuel m = Ok n m') →
  ∃ j m1 m2,
    UF.joined fuel c d m = Ok j m1 ∧ UF.joined fuel c d m' = Ok j m2.
Proof.
  intros Hinv%built_inv Hfuel Hquery.
  assert (uf_inv m' ∧ (∀ x r, rep m x r ↔ rep m' x r) ∧ length m' ≤ length m + 2)
    as (Hinv'&Hrep&Hlen).
  { destruct Hquery as [(p&r&Hrun)|[(p&q&j&Hrun)|(n&Hrun)]].
    - destruct (root_run fuel m p Hinv) as (r'&m''&_&Hrun'&?&?&?); [lia|].
      rewrite Hrun in Hrun'. injection Hrun' as _ <-. split_and!; [done..|lia].
    - destruct (joined_run fuel m p q Hinv) as (?&?&m''&_&_&Hrun'&?&?&?); [lia|].
      rewrite Hrun in Hrun'. injection Hrun' as _ <-. done.
    - destruct (rootsNbr_run fuel m Hinv) as (m''&Hrun'&?&?&?); [lia|].
      rewrite Hrun in Hrun'. injection Hrun' as _ <-. split_and!; [done..|lia]. }
  destruct (joined_run fuel m c d Hinv) as (rc&rd&m1&Hc&Hd&H1&_); [lia|].
  destruct (joined_run fuel m' c d Hinv') as (rc'&rd'&m2&Hc'&Hd'&H2&_); [lia|].
  apply Hrep in Hc, Hd.
  rewrite (rep_det _ _ _ _ Hc' Hc), (rep_det _ _ _ _ Hd' Hd) in H2.
  by eexists _, m1, m2.
Qed.

Lemma queries_keep_answers_witness :
  ∃ j m1 m2,
    UF.joined 10 0 2 [(0, 1); (1, 1); (2, 2)] = Ok j m1
    ∧ UF.joined 10 0 2 [(0, 1); (1, 1); (2, 2); (3, 3)] = Ok j m2.
Proof.
  apply (queries_keep_answers [(0, 1); (1, 1); (2, 2)] [(0, 1); (1, 1); (2, 2); (3, 3)]
           0 2 10).
  - apply (built_root 1 2 [(0, 1); (1, 1)] 2); [|reflexivity].
    apply (built_join 2 0 1 UF.new); [apply built_new | reflexivity].
  - simpl. lia.
  - left. exists 3, 3. reflexivity.
Defined.

(** X4: what [root] returns is a root. After [root(p)] has returned [r],
    [root(r)] returns [r] and [root(p)] returns [r] again. *)
Theorem root_is_stable {node : Type} `{EqDecision node}
    (m : list (node * node)) (p : node) (fuel : nat) :
  built m → length m + 2 ≤ fuel →
  ∃ r m1 m2 m3,
    UF.root fuel p m = Ok r m1
    ∧ UF.root fuel r m1 = Ok r m2
    ∧ UF.root fuel p m1 = Ok r m3.
Proof.
  intros Hinv%built_inv Hfuel.
  destruct (root_run fuel m p Hinv) as (r&m1&Hr&Hrun&Hinv1&Hrep&Hlen); [lia|].
  destruct (root_run fuel m1 r Hinv1) as (r2&m2&Hr2&Hrun2&_); [lia|].
  destruct (root_run fuel m1 p Hinv1) as (r3&m3&Hr3&Hrun3&_); [lia|].
  pose proof (rep_rep _ _ _ Hr) as Hrr. apply Hrep in Hrr, Hr.
  rewrite (rep_det _ _ _ _ Hr2 Hrr) in Hrun2.
  rewrite (rep_det _ _ _ _ Hr3 Hr) in Hrun3.
  by exists r, m1, m2, m3.
Qed.

Lemma root_is_stable_witness :
  ∃ r m1 m2 m3,
    UF.root 5 0 [(0, 1); (1, 2); (2, 2)] = Ok r m1
    ∧ UF.root 5 r m1 = Ok r m2
    ∧ UF.root 5 0 m1 = Ok r m3.
Proof.
  apply (root_is_stable [(0, 1); (1, 2); (2, 2)] 0 5).
  - apply (built_join 3 1 2 [(0, 1); (1, 1)]); [|reflexivity].
    apply (built_join 2 0 1 UF.new); [apply built_new | reflexivity].
  - simpl. lia.
Defined.

(** ** [random_shuffle] *)

(** A run of the shuffle reads [Math.random] from the current draw on. *)
Lemma random_shuffle_from_ext {A} (e1 e2 : nat → Draw) (n : nat) (arr : list A) (w : World) :
  (∀ i, draws w ≤ i → e1 i = e2 i) →
  random_shuffle_from e1 n arr w = random_shuffle_from e2 n arr w.
Proof.
  revert arr w. induction n as [|n IH]; intros arr w Hext; simpl; [done|].
  case_decide; [|done].
  rewrite !bind_run, !random_below_run, (Hext (draws w)) by done.
  set (k := floor_times _ _).
  rewrite !bind_run. destruct (index arr n _) as [tmp w1| | |] eqn:E1; try done.
  assert (w1 = mkWorld (cellHeap w) (doorHeap w) (mazeHeap w) (S (draws w))) as ->.
  { unfold index, reads in E1. by destruct (arr !! n); simplify_eq. }
  rewrite !bind_run. destruct (index arr k _) as [ak w2| | |] eqn:E2; try done.
  assert (w2 = mkWorld (cellHeap w) (doorHeap w) (mazeHeap w) (S (draws w))) as ->.
  { unfold index, reads in E2. by destruct (arr !! k); simplify_eq. }
  apply IH. intros i Hi. apply Hext. simpl in Hi. lia.
Qed.

Lemma floor_times_exact (k n : nat) : k < n → floor_times (mkDraw k (n - k - 1)) n = k.
Proof.
  intros Hk. unfold floor_times. simpl.
  replace (k + (n - k - 1) + 1) with n by lia. apply Nat.div_mul. lia.
Qed.

Lemma random_shuffle_from_reaches {A} (n : nat) (arr arr' : list A) (w : World) :
  n ≤ length arr → length arr' = length arr →
  take n arr' ≡ₚ take n arr → drop n arr' = drop n arr →
  ∃ entropy w', random_shuffle_from entropy n arr w = Ok arr' w'.
Proof.
  revert arr w. induction n as [|n IH]; intros arr w Hn Hlen Htake Hdrop.
  { exists (λ _, mkDraw 0 0), w. simpl. rewrite !drop_0 in Hdrop. by subst. }
  destruct (decide (1 < S n)) as [Hgt|Hle].
  - destruct (lookup_lt_is_Some_2 arr' n) as [x Hx]; [lia|].
    destruct (lookup_lt_is_Some_2 arr n) as [tmp Htmp]; [lia|].
    assert (x ∈ take (S n) arr) as Hin.
    { rewrite <-Htake. apply list_elem_of_lookup. exists n. rewrite lookup_take_lt by lia. done. }
    apply elem_of_take in Hin as (k&Hk&Hkn).
    set (arr1 := <[k := tmp]> (<[n := x]> arr)).
    destruct (IH arr1 (mkWorld (cellHeap w) (doorHeap w) (mazeHeap w) (S (draws w))))
      as (e&w'&Hrun).
    + unfold arr1. rewrite !length_insert. lia.
    + unfold arr1. rewrite !length_insert. lia.
    + assert (take (S n) arr1 ≡ₚ take (S n) arr) as Hswap.
      { unfold arr1. rewrite !take_insert_lt by lia.
        apply Permutation_insert_swap; by rewrite lookup_take_lt by lia. }
      assert (arr1 !! n = Some x) as Hn1.
      { unfold arr1. destruct (decide (k = n)) as [->|Hne].
        - rewrite list_lookup_insert_eq by (rewrite length_insert; lia). congruence.
        - rewrite list_lookup_insert_ne by done. apply list_lookup_insert_eq. lia. }
      rewrite (take_S_r _ _ _ Hn1), <-Htake, (take_S_r _ _ _ Hx) in Hswap.
      symmetry. by eapply Permutation_app_inv_r.
    + apply list_eq. intros i. rewrite !lookup_drop.
      destruct (decide (i = 0)) as [->|Hi].
      * rewrite Nat.add_0_r, Hx. unfold arr1. destruct (decide (k = n)) as [->|Hne].
        -- rewrite list_lookup_insert_eq by (rewrite length_insert; lia). congruence.
        -- rewrite list_lookup_insert_ne by done. symmetry. apply list_lookup_insert_eq. lia.
      * unfold arr1. rewrite !list_lookup_insert_ne by lia.
        replace (n + i) with (S n + (i - 1)) by lia.
        by rewrite <-!lookup_drop, Hdrop.
    + exists (λ i, if decide (i = draws w) then mkDraw k (S n - k - 1) else e i), w'.
      simpl. rewrite decide_True by done.
      rewrite bind_run, random_below_run, decide_True by done.
      rewrite floor_times_exact by done.
      rewrite (bind_ok _ _ _ _ _ (index_ok _ _ _ _ Htmp)).
      rewrite (bind_ok _ _ _ _ _ (index_ok _ _ _ _ Hk)).
      fold arr1. rewrite <-Hrun. apply random_shuffle_from_ext.
      intros i Hi. simpl in Hi. rewrite decide_False by lia. done.
  - exists (λ _, mkDraw 0 0), w. simpl. rewrite decide_False by done. rewrite mret_run.
    f_equal. assert (n = 0) as -> by lia.
    rewrite <-(take_drop 1 arr), <-(take_drop 1 arr'), Hdrop. f_equal.
    destruct arr as [|a arr], arr' as [|a' arr']; simpl in *; try done.
    by apply Permutation_singleton_l in Htake.
Qed.

(** The call [random_shuffle(maze.doors)], as [createRandomMazeKruskal]
    makes it. [random_shuffle] permutes the array it is given in place, and
    the array is the one the maze object holds, so the new order is seen
    through [maze.doors]. An array is a value in this development:
    [random_shuffle] takes the content of the array before the call and
    returns its content after the call, and the call on [maze.doors] stores
    that content as the [doors] of the maze object. *)
Definition random_shuffle_doors (entropy : nat → Draw) (maze : maze_ref)
  : M World (list (option door_ref)) :=
  m ← getMaze maze;
  arr ← random_shuffle entropy (MazeGenerator.doors m);
  set_maze_doors maze arr;;
  mret arr.

(** [createRandomMazeKruskal] starts with that call and goes through the
    array it leaves. *)
Lemma createRandomMazeKruskal_shuffles entropy fuel maze w :
  createRandomMazeKruskal entropy fuel maze w
  = (arr ← random_shuffle_doors entropy maze;
     _ ← foldM (kruskal_step fuel) UF.new arr;
     mret ()) w.
Proof.
  unfold createRandomMazeKruskal, random_shuffle_doors. rewrite !bind_run.
  destruct (getMaze maze w) as [m w1| | |]; [|done..]. rewrite !bind_run.
  destruct (random_shuffle entropy (MazeGenerator.doors m) w1) as [arr w2| | |]; [|done..].
  rewrite !bind_run.
  by destruct (set_maze_doors maze arr w2) as [[] w3| | |].
Qed.

(** X5: [random_shuffle(maze.doors)] never fails on a maze of the store. It
    leaves in [maze.doors], and returns, a permutation of what the array
    held; it calls [Math.random] [arr.length - 1] times (not at all on an
    array of fewer than two elements); the other fields of the maze and every
    other object of the store are as they were. *)
Theorem random_shuffle_permutes (entropy : nat → Draw) (maze : maze_ref)
    (m : MazeGenerator.t) (w : World) :
  mazeHeap w !! maze = Some m →
  ∃ arr',
    random_shuffle_doors entropy maze w
    = Ok arr'
        (mkWorld (cellHeap w) (doorHeap w)
           (<[maze := MazeGenerator.mk (MazeGenerator.rows m) (MazeGenerator.cols m)
                        (MazeGenerator.algo m) (MazeGenerator.cells m) arr']>
              (mazeHeap w))
           (draws w + (length (MazeGenerator.doors m) - 1)))
    ∧ arr' ≡ₚ MazeGenerator.doors m.
Proof.
  intros Hm. unfold random_shuffle_doors.
  rewrite (bind_ok _ _ _ _ _ (getMaze_ok _ _ _ Hm)).
  destruct (random_shuffle_ok entropy (MazeGenerator.doors m) w) as (arr'&Hrun&Hperm).
  rewrite (bind_ok _ _ _ _ _ Hrun).
  set (w1 := mkWorld _ _ _ _).
  unfold set_maze_doors.
  rewrite !bind_run, (getMaze_ok maze w1 m Hm).
  exists arr'. by split.
Qed.

Lemma random_shuffle_permutes_witness :
  ∃ m,
    mazeHeap (world2x2 (true, true, true, true) "kruskal" [0; 1; 2; 3] 0) !! 0 = Some m
    ∧ ∃ arr',
        random_shuffle_doors zero_draws 0
          (world2x2 (true, true, true, true) "kruskal" [0; 1; 2; 3] 0)
        = Ok arr'
            (mkWorld
               (cellHeap (world2x2 (true, true, true, true) "kruskal" [0; 1; 2; 3] 0))
               (doorHeap (world2x2 (true, true, true, true) "kruskal" [0; 1; 2; 3] 0))
               (<[0 := MazeGenerator.mk (MazeGenerator.rows m) (MazeGenerator.cols m)
                         (MazeGenerator.algo m) (MazeGenerator.cells m) arr']>
                  (mazeHeap (world2x2 (true, true, true, true) "kruskal" [0; 1; 2; 3] 0)))
               (draws (world2x2 (true, true, true, true) "kruskal" [0; 1; 2; 3] 0)
                + (length (MazeGenerator.doors m) - 1)))
        ∧ arr' ≡ₚ MazeGenerator.doors m.
Proof.
  eexists. split; [reflexivity|].
  apply (random_shuffle_permutes zero_draws 0 _
           (world2x2 (true, true, true, true) "kruskal" [0; 1; 2; 3] 0)).
  reflexivity.
Defined.

(** X6: every order can come out of [random_shuffle]: for each permutation
    of the argument there are values of [Math.random] for which the shuffle
    returns it. *)
Theorem random_shuffle_reaches_every_order {A} (arr arr' : list A) (w : World) :
  arr' ≡ₚ arr →
  ∃ entropy w', random_shuffle entropy arr w = Ok arr' w'.
Proof.
  intros Hperm. pose proof (Permutation_length Hperm) as Hlen.
  apply random_shuffle_from_reaches; [done|done| |].
  - by rewrite !take_ge by lia.
  - by rewrite !drop_ge by lia.
Qed.

Lemma random_shuffle_reaches_every_order_witness :
  ∃ entropy w', random_shuffle entropy [1; 2; 3] empty_world = Ok [3; 1; 2] w'.
Proof.
  apply (random_shuffle_reaches_every_order [1; 2; 3] [3; 1; 2] empty_world).
  apply (Permutation_cons_append [1; 2] 3).
Defined.

(** ** [solve] *)

Lemma solve_loop_throws_TypeError entropy fuel endCell current path v w e w' :
  current = last path →
  solve_loop entropy fuel endCell current path v w = Throw e w' → e = TypeError.
Proof.
  revert current path v w. induction fuel as [|fuel IH]; intros current path v w Hcur; [done|].
  simpl. case_decide; [done|].
  destruct current as [cur|]; [|by intros [= <- _]].
  rewrite bind_run. pose proof (canVisit_silent cur w) as Hsilent.
  destruct (canVisit cur w) as [ns w1|e1 w1| |]; [|by specialize (Hsilent e1 w1)|done..].
  case_decide.
  - rewrite bind_run, random_below_run, bind_run. unfold index, reads.
    destruct (filter (λ n, n ∉ v) ns !! _) as [n|]; [|done].
    apply IH. unfold push. by rewrite last_snoc.
  - case_decide as Hlen.
    + destruct path; [done | simpl in Hlen; lia].
    + apply IH. by rewrite last_lookup, Nat.sub_1_r.
Qed.

(** X7: the only exception [solve] ever ends with is a [TypeError]. The
    [Error] of its [throw] statement is never raised, whatever the store,
    the cells and the values of [Math.random]: when the test
    [path.length === 0] is made, [path] still holds the current cell. *)
Theorem solve_throws_only_TypeError (entropy : nat → Draw) (fuel : nat) (this : maze_ref)
    (startCell endCell : cell_ref) (w w' : World) (e : exn) :
  solve entropy fuel this startCell endCell w = Throw e w' → e = TypeError.
Proof. by apply solve_loop_throws_TypeError. Qed.

Lemma solve_throws_only_TypeError_witness :
  TypeError = TypeError.
Proof.
  apply (solve_throws_only_TypeError zero_draws 6 0 0 1 two_cells two_cells TypeError).
  vm_compute. reflexivity.
Defined.

(** X8: [solve] decides reachability. In a store whose doors and cells
    refer to each other, from a cell of the store and with [2 * n + 2] rounds
    of its loop ([n] cells in the store), [solve] returns a path exactly
    when the end cell can be reached over open doors, and ends with a
    [TypeError] exactly when it cannot. *)
Theorem solve_decides_reachability (entropy : nat → Draw) (w : World) (this : maze_ref)
    (startCell endCell : cell_ref) (fuel : nat) :
  heap_wf w → startCell < length (cellHeap w) →
  2 * length (cellHeap w) + 2 ≤ fuel →
  (reachable w startCell endCell
   ↔ ∃ path w', solve entropy fuel this startCell endCell w = Ok path w')
  ∧ (¬ reachable w startCell endCell
     ↔ ∃ w', solve entropy fuel this startCell endCell w = Throw TypeError w').
Proof.
  intros Hwf Hstart Hfuel.
  pose proof (solve_total entropy w this startCell endCell fuel Hwf Hstart Hfuel) as Htotal.
  destruct (solve entropy fuel this startCell endCell w) as [path w'|e w'| |]; [| |done..].
  - apply simple_path_reachable in Htotal. split.
    + split; [by eauto|done].
    + split; [done|]. by intros (?&?).
  - destruct Htotal as [-> Hn]. split.
    + split; [done|]. by intros (?&?&?).
    + split; [by eauto|done].
Qed.

Lemma solve_decides_reachability_witness :
  let w := world2x2 (false, false, true, false) "recursive" [0; 1; 2; 3] 6 in
  (reachable w 0 3 ↔ ∃ path w', solve zero_draws 10 0 0 3 w = Ok path w')
  ∧ (¬ reachable w 0 3 ↔ ∃ w', solve zero_draws 10 0 0 3 w = Throw TypeError w').
Proof.
  apply (solve_decides_reachability zero_draws
           (world2x2 (false, false, true, false) "recursive" [0; 1; 2; 3] 6) 0 0 3 10).
  - apply (constructor_inv zero_draws 18 (Number 2) empty_world 0); [apply heap_wf_empty|].
    vm_compute. reflexivity.
  - simpl. lia.
  - simpl. lia.
Defined.

(** ** Cells and doors *)

Lemma open_between_sym w a b : open_between w a b → open_between w b a.
Proof. intros (d&door&?&?&?). exists d, door. intuition. Qed.

Lemma elem_of_all_neighbors_door w a b :
  heap_wf w → a < length (cellHeap w) → b ∈ all_neighbors w a ↔ door_between w a b.
Proof.
  intros Hwf Ha. destruct (lookup_lt_is_Some_2 _ _ Ha) as [x Hx].
  rewrite (elem_of_all_neighbors _ _ _ _ Hx). split.
  - intros (dir&d&door&Hin&Hd&->).
    destruct (wf_cell_door _ Hwf _ _ _ _ Hx Hin) as (door'&Hd'&Hends). simplify_eq.
    exists d, door. split; [done|]. by apply (across_ends a door).
  - intros (d&door&Hd&Hends).
    destruct (wf_door_cell _ Hwf _ _ Hd) as [(x1&dir1&Hx1&Hin1) (x2&dir2&Hx2&Hin2)].
    assert (∃ dir, (dir, d) ∈ Cell.doors x) as [dir Hin].
    { destruct Hends as [[<- _]|[_ <-]]; simplify_eq; eauto. }
    exists dir, d, door. split_and!; [done|done|].
    symmetry. apply across_ends; [|done]. destruct Hends as [[? _]|[_ ?]]; auto.
Qed.

Lemma open_sublist_all w c (l : list (Dir * nat)) :
  (omap (door_entry w c) l).*2
  `sublist_of` omap (λ d, across c <$> doorHeap w !! d) (Object_values l).
Proof.
  induction l as [|[dir d] l IH]; [done|].
  unfold Object_values in *. simpl in *. unfold door_entry at 1. simpl.
  destruct (doorHeap w !! d) as [door|]; simpl; [|done].
  destruct (Door.closed door); simpl.
  - by apply sublist_cons.
  - by apply sublist_skip.
Qed.

Lemma length_omap_le {A B} (f : A → option B) (l : list A) : length (omap f l) ≤ length l.
Proof.
  induction l as [|a l IH]; [done|].
  change (omap f (a :: l)) with (match f a with Some y => y :: omap f l | None => omap f l end).
  destruct (f a); simpl; lia.
Qed.

(** X9: [_neighbors(cell)] lists the cells that share a door with [cell],
    open or closed: in a store whose doors and cells refer to each other, a
    cell is in the list exactly when some door has the two cells as its
    ends. The list has at most four entries. *)
Theorem _neighbors_are_door_ends (w : World) (c : cell_ref) :
  heap_wf w → c < length (cellHeap w) →
  ∃ ln, _neighbors c w = Ok ln w
        ∧ length ln ≤ 4
        ∧ ∀ b, b ∈ ln ↔ door_between w c b.
Proof.
  intros Hwf Hc. exists (all_neighbors w c).
  split_and!; [by apply _neighbors_run| |intros b; by apply elem_of_all_neighbors_door].
  destruct (lookup_lt_is_Some_2 _ _ Hc) as [x Hx].
  unfold all_neighbors. rewrite Hx.
  etrans; [apply length_omap_le|]. by eapply cell_doors_length.
Qed.

Lemma _neighbors_are_door_ends_witness :
  let w := world2x2 (false, false, true, false) "recursive" [0; 1; 2; 3] 6 in
  ∃ ln, _neighbors 3 w = Ok ln w ∧ length ln ≤ 4 ∧ ∀ b, b ∈ ln ↔ door_between w 3 b.
Proof.
  apply (_neighbors_are_door_ends
           (world2x2 (false, false, true, false) "recursive" [0; 1; 2; 3] 6) 3).
  - apply (constructor_inv zero_draws 18 (Number 2) empty_world 0); [apply heap_wf_empty|].
    vm_compute. reflexivity.
  - simpl. lia.
Defined.

(** X10: [canVisit()] is symmetric and stays among the neighbours. In a
    store whose doors and cells refer to each other, [b] is in
    [a.canVisit()] exactly when [a] is in [b.canVisit()]: both say that an
    open door joins the two; and [a.canVisit()] is [_neighbors(a)] with
    the cells behind closed doors left out, in the same order. *)
Theorem canVisit_symmetric (w : World) (a b : cell_ref) :
  heap_wf w → a < length (cellHeap w) → b < length (cellHeap w) →
  ∃ la lb ln,
    canVisit a w = Ok la w ∧ canVisit b w = Ok lb w ∧ _neighbors a w = Ok ln w
    ∧ (b ∈ la ↔ open_between w a b)
    ∧ (b ∈ la ↔ a ∈ lb)
    ∧ la `sublist_of` ln.
Proof.
  intros Hwf Ha Hb. exists (open_neighbors w a), (open_neighbors w b), (all_neighbors w a).
  split_and!; [by apply canVisit_run..|by apply _neighbors_run| | |].
  - by apply elem_of_open_neighbors.
  - rewrite !elem_of_open_neighbors by done. split; apply open_between_sym.
  - unfold open_neighbors, all_neighbors. destruct (cellHeap w !! a); [|done].
    apply open_sublist_all.
Qed.

Lemma canVisit_symmetric_witness :
  let w := world2x2 (false, false, true, false) "recursive" [0; 1; 2; 3] 6 in
  ∃ la lb ln,
    canVisit 2 w = Ok la w ∧ canVisit 3 w = Ok lb w ∧ _neighbors 2 w = Ok ln w
    ∧ (3 ∈ la ↔ open_between w 2 3)
    ∧ (3 ∈ la ↔ 2 ∈ lb)
    ∧ la `sublist_of` ln.
Proof.
  apply (canVisit_symmetric
           (world2x2 (false, false, true, false) "recursive" [0; 1; 2; 3] 6) 2 3).
  - apply (constructor_inv zero_draws 18 (Number 2) empty_world 0); [apply heap_wf_empty|].
    vm_compute. reflexivity.
  - simpl. lia.
  - simpl. lia.
Defined.

(** X11: [new Door(c1, c2)] puts the two cells in row-major order. For
    cells at different places the new door is closed, its [cell1] is the
    one with the lower row, or with the lower column in the same row,
    its [cell2] is the other, and [new Door(c2, c1)] makes the same door. *)
Theorem new_Door_orders_cells (w : World) (c1 c2 : cell_ref) (a b : Cell.t) :
  cellHeap w !! c1 = Some a → cellHeap w !! c2 = Some b →
  (Cell.row a, Cell.col a) ≠ (Cell.row b, Cell.col b) →
  ∃ door x y,
    new_Door c1 c2 w
    = Ok (length (doorHeap w))
         (mkWorld (cellHeap w) (doorHeap w ++ [door]) (mazeHeap w) (draws w))
    ∧ new_Door c2 c1 w = new_Door c1 c2 w
    ∧ Door.closed door = true
    ∧ ((Door.cell1 door = c1 ∧ Door.cell2 door = c2)
       ∨ (Door.cell1 door = c2 ∧ Door.cell2 door = c1))
    ∧ cellHeap w !! Door.cell1 door = Some x ∧ cellHeap w !! Door.cell2 door = Some y
    ∧ (Cell.row x < Cell.row y ∨ (Cell.row x = Cell.row y ∧ Cell.col x < Cell.col y)).
Proof.
  intros Ha Hb Hne. unfold new_Door.
  rewrite !(bind_ok _ _ _ _ _ (getCell_ok _ _ _ Ha)).
  rewrite !(bind_ok _ _ _ _ _ (getCell_ok _ _ _ Hb)).
  rewrite !(bind_ok _ _ _ _ _ (getCell_ok _ _ _ Ha)).
  unfold allocDoor.
  destruct (decide (Cell.row a < Cell.row b)) as [Hlt|Hnlt].
  - rewrite (bool_decide_eq_true_2 _ Hlt), (bool_decide_eq_false_2 (Cell.row b < Cell.row a))
      by lia.
    rewrite (bool_decide_eq_false_2 (Cell.row b = Cell.row a)) by lia. simpl.
    eexists _, a, b. split_and!; [done|done|done|by left|done|done|by left].
  - rewrite (bool_decide_eq_false_2 _ Hnlt).
    destruct (decide (Cell.row a = Cell.row b)) as [Heq|Hneq].
    + rewrite (bool_decide_eq_true_2 _ Heq), (bool_decide_eq_false_2 (Cell.row b < Cell.row a))
        by lia.
      rewrite (bool_decide_eq_true_2 (Cell.row b = Cell.row a)) by done.
      destruct (decide (Cell.col a < Cell.col b)) as [Hc|Hc].
      * rewrite (bool_decide_eq_true_2 _ Hc), (bool_decide_eq_false_2 (Cell.col b < Cell.col a))
          by lia.
        simpl. eexists _, a, b. split_and!; [done|done|done|by left|done|done|by right].
      * assert (Cell.col b < Cell.col a) as Hc'.
        { destruct (decide (Cell.col a = Cell.col b)); [|lia]. destruct Hne. congruence. }
        rewrite (bool_decide_eq_false_2 _ Hc), (bool_decide_eq_true_2 _ Hc').
        simpl. eexists _, b, a. split_and!; [done|done|done|by right|done|done|right; lia].
    + rewrite (bool_decide_eq_false_2 _ Hneq), (bool_decide_eq_true_2 (Cell.row b < Cell.row a))
        by lia.
      simpl. eexists _, b, a. split_and!; [done|done|done|by right|done|done|left; lia].
Qed.

Lemma new_Door_orders_cells_witness :
  let w := world2x2 (true, true, true, true) "recursive" [0; 1; 2; 3] 0 in
  ∃ door x y,
    new_Door 3 1 w
    = Ok (length (doorHeap w))
         (mkWorld (cellHeap w) (doorHeap w ++ [door]) (mazeHeap w) (draws w))
    ∧ new_Door 1 3 w = new_Door 3 1 w
    ∧ Door.closed door = true
    ∧ ((Door.cell1 door = 3 ∧ Door.cell2 door = 1)
       ∨ (Door.cell1 door = 1 ∧ Door.cell2 door = 3))
    ∧ cellHeap w !! Door.cell1 door = Some x ∧ cellHeap w !! Door.cell2 door = Some y
    ∧ (Cell.row x < Cell.row y ∨ (Cell.row x = Cell.row y ∧ Cell.col x < Cell.col y)).
Proof.
  apply (new_Door_orders_cells (world2x2 (true, true, true, true) "recursive" [0; 1; 2; 3] 0)
           3 1 (Cell.mk 1 1 [(Up, 2); (Left, 3)]) (Cell.mk 0 1 [(Left, 0); (Down, 2)])).
  - reflexivity.
  - reflexivity.
  - simpl. congruence.
Defined.

(** ** Mazes as graphs *)

(** The cells are the nodes; a door joins its two cells. *)
Definition joins (door : Door.t) (a b : cell_ref) : Prop :=
  (Door.cell1 door = a ∧ Door.cell2 door = b) ∨ (Door.cell1 door = b ∧ Door.cell2 door = a).

Definition is_open (w : World) (d : door_ref) : bool :=
  match doorHeap w !! d with
  | Some door => negb (Door.closed door)
  | None => false
  end.

(** A door of [ds] joins [a] and [b]; an open door of [ds] does. *)
Definition door_adj (w : World) (ds : list door_ref) (a b : cell_ref) : Prop :=
  ∃ d door, d ∈ ds ∧ doorHeap w !! d = Some door ∧ joins door a b.
Definition link (w : World) (ds : list door_ref) (a b : cell_ref) : Prop :=
  ∃ d door, d ∈ ds ∧ doorHeap w !! d = Some door ∧ Door.closed door = false
            ∧ joins door a b.

(** The open doors among [ds] make a spanning tree of the cells [cs]: there
    is one open door less than there are cells, every cell can be reached
    from every other over open doors of [ds], and no open door of [ds] has
    its two cells joined by a walk over the other open doors. *)
Definition spanning_tree (w : World) (cs : list cell_ref) (ds : list door_ref) : Prop :=
  length (filter (λ d, is_open w d) ds) = length cs - 1
  ∧ (∀ a b, a ∈ cs → b ∈ cs → rtc (link w ds) a b)
  ∧ (∀ d door, d ∈ ds → doorHeap w !! d = Some door → Door.closed door = false →
       ¬ rtc (link w (filter (λ d', d' ≠ d) ds)) (Door.cell1 door) (Door.cell2 door)).

Lemma joins_sym door a b : joins door a b → joins door b a.
Proof. unfold joins. tauto. Qed.

Lemma link_sym w ds a b : link w ds a b → link w ds b a.
Proof. intros (d&door&?&?&?&?%joins_sym). by exists d, door. Qed.

Lemma door_adj_sym w ds a b : door_adj w ds a b → door_adj w ds b a.
Proof. intros (d&door&?&?&?%joins_sym). by exists d, door. Qed.

Lemma rtc_sym {A} (R : relation A) x y : (∀ a b, R a b → R b a) → rtc R x y → rtc R y x.
Proof.
  intros Hsym. induction 1 as [|x y z Hxy _ IH]; [done|].
  eapply rtc_r; [done|]. by apply Hsym.
Qed.

Lemma rtc_mono {A} (R R' : relation A) x y :
  (∀ a b, R a b → R' a b) → rtc R x y → rtc R' x y.
Proof.
  intros Hsub. induction 1 as [|x y z Hxy _ IH]; [done|].
  eapply rtc_l; [by apply Hsub | done].
Qed.

(** A walk in a graph with one more edge, between [p] and [q], is a walk of
    the graph, or one to an end of the edge and one from the other. *)
Lemma rtc_add_edge {A} (R : relation A) (p q x y : A) :
  rtc (λ a b, R a b ∨ (a = p ∧ b = q) ∨ (a = q ∧ b = p)) x y →
  rtc R x y ∨ (rtc R x p ∧ rtc R q y) ∨ (rtc R x q ∧ rtc R p y).
Proof.
  induction 1 as [|x x1 y Hstep _ IH]; [by left|].
  destruct Hstep as [Hstep|[[-> ->]|[-> ->]]].
  - destruct IH as [IH|[[IH1 IH2]|[IH1 IH2]]].
    + left. by eapply rtc_l.
    + right. left. split; [by eapply rtc_l | done].
    + right. right. split; [by eapply rtc_l | done].
  - destruct IH as [IH|[[IH1 IH2]|[IH1 IH2]]].
    + right. left. done.
    + right. left. done.
    + left. done.
  - destruct IH as [IH|[[IH1 IH2]|[IH1 IH2]]].
    + right. right. done.
    + left. done.
    + right. right. done.
Qed.

Lemma link_open_between w ds a b : link w ds a b → open_between w a b.
Proof. intros (d&door&_&?&?&?). by exists d, door. Qed.

Lemma link_reachable w ds a b : rtc (link w ds) a b → reachable w a b.
Proof. apply rtc_mono, link_open_between. Qed.

Lemma link_subset w ds ds' a b : (∀ d, d ∈ ds → d ∈ ds') → link w ds a b → link w ds' a b.
Proof. intros Hsub (d&door&?&?&?&?). exists d, door. auto. Qed.

(** [w'] is [w] after [d.closed = false]. *)
Definition opens_one (w w' : World) (d : door_ref) (door : Door.t) : Prop :=
  doorHeap w !! d = Some door
  ∧ w' = mkWorld (cellHeap w)
           (<[d := Door.mk (Door.cell1 door) (Door.cell2 door) false]> (doorHeap w))
           (mazeHeap w) (draws w).

Lemma open_door_opens_one w d door :
  doorHeap w !! d = Some door →
  ∃ w', open_door d w = Ok () w' ∧ opens_one w w' d door.
Proof.
  intros Hd. eexists. split; [|split; [done|reflexivity]].
  unfold open_door. by rewrite (bind_ok _ _ _ _ _ (getDoor_ok _ _ _ Hd)).
Qed.

Lemma opens_one_generates w w' d door : opens_one w w' d door → generates w w'.
Proof.
  intros [Hd ->]. repeat split; [|reflexivity]. simpl.
  rewrite <-(list_insert_id _ _ _ Hd) at 1.
  apply Forall2_insert; [reflexivity | by repeat split].
Qed.

Lemma opens_one_lookup w w' d door d' :
  opens_one w w' d door →
  doorHeap w' !! d'
  = if decide (d' = d) then Some (Door.mk (Door.cell1 door) (Door.cell2 door) false)
    else doorHeap w !! d'.
Proof.
  intros [Hd ->]. simpl. case_decide as Heq.
  - subst. apply list_lookup_insert_eq. by eapply lookup_lt_Some.
  - by apply list_lookup_insert_ne.
Qed.

Lemma opens_one_same w w' d door :
  opens_one w w' d door → Door.closed door = false → doorHeap w' = doorHeap w.
Proof.
  intros [Hd ->] Hopen. simpl. apply list_insert_id. rewrite Hd. f_equal.
  destruct door; simpl in *. by subst.
Qed.

Lemma link_opened w w' d door ds a b :
  opens_one w w' d door →
  link w' ds a b ↔ link w ds a b ∨ (d ∈ ds ∧ joins door a b).
Proof.
  intros Hone. split.
  - intros (d'&door'&Hin&Hd'&Hopen&Hj).
    rewrite (opens_one_lookup _ _ _ _ d' Hone) in Hd'. case_decide; simplify_eq.
    + right. done.
    + left. by exists d', door'.
  - intros [(d'&door'&Hin&Hd'&Hopen&Hj)|[Hin Hj]].
    + destruct (decide (d' = d)) as [->|Hne].
      * exists d, (Door.mk (Door.cell1 door) (Door.cell2 door) false).
        rewrite (opens_one_lookup _ _ _ _ d Hone), decide_True by done.
        destruct Hone as [Hd _]. by simplify_eq.
      * exists d', door'. by rewrite (opens_one_lookup _ _ _ _ d' Hone), decide_False.
    + exists d, (Door.mk (Door.cell1 door) (Door.cell2 door) false).
      by rewrite (opens_one_lookup _ _ _ _ d Hone), decide_True.
Qed.

Lemma link_opened_mono w w' d door ds a b :
  opens_one w w' d door → rtc (link w ds) a b → rtc (link w' ds) a b.
Proof.
  intros Hone. apply rtc_mono. intros x y Hxy.
  apply (link_opened _ _ _ _ _ _ _ Hone). by left.
Qed.

(** Walks after a door is opened. *)
Lemma walk_opened w w' d door ds a b :
  opens_one w w' d door → d ∈ ds →
  rtc (link w' ds) a b ↔
  rtc (link w ds) a b
  ∨ (rtc (link w ds) a (Door.cell1 door) ∧ rtc (link w ds) (Door.cell2 door) b)
  ∨ (rtc (link w ds) a (Door.cell2 door) ∧ rtc (link w ds) (Door.cell1 door) b).
Proof.
  intros Hone Hin. split.
  - intros Hwalk. apply rtc_add_edge. revert Hwalk. apply rtc_mono.
    intros x y [?|[_ Hj]]%(link_opened _ _ _ _ _ _ _ Hone); [by left|].
    right. destruct Hj as [[<- <-]|[<- <-]]; auto.
  - assert (link w' ds (Door.cell1 door) (Door.cell2 door)) as Hedge.
    { apply (link_opened _ _ _ _ _ _ _ Hone). right. split; [done|]. by left. }
    intros [H|[[H1 H2]|[H1 H2]]].
    + by eapply link_opened_mono.
    + etrans; [by eapply link_opened_mono|]. eapply rtc_l; [done|].
      by eapply link_opened_mono.
    + etrans; [by eapply link_opened_mono|]. eapply rtc_l; [by apply link_sym|].
      by eapply link_opened_mono.
Qed.

Lemma is_open_opened w w' d door d' :
  opens_one w w' d door → is_open w' d' = if decide (d' = d) then true else is_open w d'.
Proof.
  intros Hone. unfold is_open. rewrite (opens_one_lookup _ _ _ _ d' Hone).
  by case_decide.
Qed.

Lemma open_count_opened w w' d door (ds : list door_ref) :
  opens_one w w' d door → Door.closed door = true → NoDup ds →
  length (filter (λ d, is_open w' d) ds)
  = length (filter (λ d, is_open w d) ds) + (if decide (d ∈ ds) then 1 else 0).
Proof.
  intros Hone Hclosed. induction 1 as [|d' ds Hnin Hnd IH]; [done|].
  pose proof (is_open_opened _ _ _ _ d' Hone) as Hd'.
  destruct (decide (d' = d)) as [->|Hne].
  - assert (is_open w d = false) as Hd.
    { destruct Hone as [Hd _]. unfold is_open. by rewrite Hd, Hclosed. }
    rewrite filter_cons_True by (by rewrite Hd').
    rewrite filter_cons_False by (rewrite Hd; intros []).
    rewrite decide_False in IH by done. rewrite decide_True by left.
    simpl. rewrite IH. lia.
  - assert ((if decide (d ∈ d' :: ds) then 1 else 0) = (if decide (d ∈ ds) then 1 else 0))
      as ->.
    { assert (d ∈ d' :: ds ↔ d ∈ ds) as Hiff.
      { rewrite elem_of_cons. split; [by intros [?|?]|by right]. }
      destruct (decide (d ∈ d' :: ds)) as [H1|H1], (decide (d ∈ ds)) as [H2|H2];
        [done|by apply Hiff in H1|by apply Hiff in H2|done]. }
    destruct (is_open w d') eqn:Hopen.
    + rewrite !filter_cons_True by (by rewrite ?Hd', ?Hopen). simpl. rewrite IH. lia.
    + rewrite !filter_cons_False by (rewrite ?Hd', ?Hopen; intros []). done.
Qed.

Lemma open_count_bound w w' d door (ds : list door_ref) :
  opens_one w w' d door → NoDup ds →
  length (filter (λ d, is_open w' d) ds) ≤ S (length (filter (λ d, is_open w d) ds)).
Proof.
  intros Hone Hnd. destruct (Door.closed door) eqn:Hcl.
  - rewrite (open_count_opened _ _ _ _ _ Hone Hcl Hnd). case_decide; lia.
  - pose proof (opens_one_same _ _ _ _ Hone Hcl) as Heq.
    unfold is_open. rewrite Heq. lia.
Qed.

(** No open door of [ds] closes a cycle of open doors of [ds]. *)
Definition forest (w : World) (ds : list door_ref) : Prop :=
  ∀ d door, d ∈ ds → doorHeap w !! d = Some door → Door.closed door = false →
    ¬ rtc (link w (filter (λ d', d' ≠ d) ds)) (Door.cell1 door) (Door.cell2 door).

(** Opening a door between two cells that no walk joins keeps the forest. *)
Lemma forest_opened w w' d door ds :
  opens_one w w' d door → d ∈ ds →
  forest w ds →
  ¬ rtc (link w ds) (Door.cell1 door) (Door.cell2 door) →
  forest w' ds.
Proof.
  intros Hone Hin Hforest Hapart d' door' Hin' Hd' Hopen' Hwalk.
  assert (∀ a b, rtc (link w (filter (λ x, x ≠ d') ds)) a b → rtc (link w ds) a b) as Hsub.
  { intros a b. apply rtc_mono. intros x y. apply link_subset.
    by intros ? [_ ?]%list_elem_of_filter. }
  rewrite (opens_one_lookup _ _ _ _ d' Hone) in Hd'.
  destruct (decide (d' = d)) as [->|Hne].
  - injection Hd' as <-. simpl in Hwalk. apply Hapart, Hsub.
    revert Hwalk. apply rtc_mono. intros x y Hxy.
    apply (link_opened _ _ _ _ _ _ _ Hone) in Hxy as [?|[Hd _]]; [done|].
    by apply list_elem_of_filter in Hd as [? _].
  - assert (d ∈ filter (λ x, x ≠ d') ds) as Hin2.
    { apply list_elem_of_filter. split; [by intros ->|done]. }
    assert (link w ds (Door.cell1 door') (Door.cell2 door')) as Hedge.
    { exists d', door'. split_and!; [done|done|done|by left]. }
    apply (walk_opened _ _ _ _ _ _ _ Hone Hin2) in Hwalk as [H|[[H1 H2]|[H1 H2]]].
    + by eapply Hforest.
    + apply Hapart. etrans; [apply (rtc_sym _ _ _ (link_sym w ds)), Hsub, H1|].
      eapply rtc_l; [apply Hedge|]. apply (rtc_sym _ _ _ (link_sym w ds)), Hsub, H2.
    + apply Hapart. etrans; [apply Hsub, H2|].
      eapply rtc_l; [apply link_sym, Hedge|]. apply Hsub, H1.
Qed.

(** The cells [cs] and doors [ds] of a maze in a store: the doors join
    cells of the maze, the [doors] maps of the cells hold doors of the maze,
    and the doors, open or not, connect all the cells. *)
Record maze_graph (w : World) (cs : list cell_ref) (ds : list door_ref) : Prop := {
  mg_cells_nodup : NoDup cs;
  mg_cells_valid : ∀ c, c ∈ cs → c < length (cellHeap w);
  mg_doors_nodup : NoDup ds;
  mg_door : ∀ d, d ∈ ds →
      ∃ door, doorHeap w !! d = Some door
              ∧ Door.cell1 door ∈ cs ∧ Door.cell2 door ∈ cs
              ∧ Door.cell1 door ≠ Door.cell2 door;
  mg_cell_doors : ∀ c x dir d,
      c ∈ cs → cellHeap w !! c = Some x → (dir, d) ∈ Cell.doors x → d ∈ ds;
  mg_connected : ∀ a b, a ∈ cs → b ∈ cs → rtc (door_adj w ds) a b
}.

Lemma door_adj_generates w w' ds a b : generates w w' → door_adj w ds a b → door_adj w' ds a b.
Proof.
  intros (_&Hd&_) (d&door&Hin&Hdoor&Hj).
  destruct (Forall2_lookup_l _ _ _ _ _ Hd Hdoor) as (door'&Hdoor'&(H1&H2&_)).
  exists d, door'. split_and!; [done|done|]. unfold joins. by rewrite H1, H2.
Qed.

Lemma maze_graph_generates w w' cs ds :
  generates w w' → maze_graph w cs ds → maze_graph w' cs ds.
Proof.
  intros Hgen [Hcs Hvalid Hds Hdoor Hcd Hconn].
  pose proof Hgen as (Hc&Hd&_).
  split; [done| |done| | |].
  - intros c Hin. rewrite Hc. auto.
  - intros d Hin. destruct (Hdoor d Hin) as (door&Hdoor'&?&?&?).
    destruct (Forall2_lookup_l _ _ _ _ _ Hd Hdoor') as (door'&Hdoor''&(He1&He2&_)).
    exists door'. by rewrite He1, He2.
  - intros c x dir d. rewrite Hc. apply Hcd.
  - intros a b Ha Hb. eapply rtc_mono; [|by apply Hconn].
    intros x y. by apply door_adj_generates.
Qed.

(** A set of cells closed under the doors of the maze holds every cell. *)
Lemma maze_graph_closed w cs ds (P : cell_ref → Prop) (s : cell_ref) :
  maze_graph w cs ds → s ∈ cs → P s →
  (∀ a b, P a → door_adj w ds a b → P b) →
  ∀ c, c ∈ cs → P c.
Proof.
  intros Hmg Hs HPs Hclosed c Hc.
  pose proof (mg_connected _ _ _ Hmg s c Hs Hc) as Hwalk.
  induction Hwalk as [|a b c' Hab _ IH]; [done|].
  apply IH; [|by eapply Hclosed|done].
  destruct Hab as (d&door&Hin&Hdoor&Hj).
  destruct (mg_door _ _ _ Hmg d Hin) as (door'&Hdoor'&H1&H2&_). simplify_eq.
  destruct Hj as [[_ <-]|[<- _]]; done.
Qed.

(** ** The grid as a graph *)

Section GridGraph.
Variable w0 : World.
Variables rows cols : nat.
Variable algo : string.
Hypothesis cols_pos : 0 < cols.
Hypothesis rows_pos : 0 < rows.

Abbreviation final := (grid_state w0 rows cols algo (rows * cols)).
Abbreviation cs := (seq (cell_base w0) (rows * cols)).
Abbreviation ds := (seq (door_base w0) (door_count rows cols)).

Lemma concat_grid_cell_refs : concat (grid_cell_refs w0 rows cols) = cs.
Proof.
  unfold grid_cell_refs. generalize (cell_base w0) as b. clear.
  induction rows as [|n IH]; intros b; [done|].
  rewrite seq_S, fmap_app, concat_app, IH. simpl. rewrite app_nil_r.
  replace (cols + n * cols) with (n * cols + cols) by lia.
  by rewrite seq_app.
Qed.

Lemma grid_door_in k door :
  grid_doors w0 cols (rows * cols) !! k = Some door → door_base w0 + k ∈ ds.
Proof.
  intros Hk%lookup_lt_Some. rewrite grid_doors_total in Hk by done.
  apply elem_of_seq. lia.
Qed.

Lemma grid_door_ends d :
  d ∈ ds →
  ∃ door t, doorHeap final !! d = Some door
    ∧ Door.closed door = true
    ∧ t < rows * cols
    ∧ Door.cell2 door = cell_base w0 + t
    ∧ ((Door.cell1 door = cell_base w0 + (t - cols) ∧ cols ≤ t)
       ∨ (Door.cell1 door = cell_base w0 + (t - 1) ∧ 1 ≤ t `mod` cols ∧ 1 ≤ t)).
Proof.
  intros [Hd1 Hd2]%elem_of_seq.
  destruct (lookup_lt_is_Some_2 (grid_doors w0 cols (rows * cols)) (d - door_base w0))
    as [door Hdoor].
  { rewrite grid_doors_total by done. lia. }
  destruct (grid_doors_lookup _ _ cols_pos _ _ _ Hdoor) as (t&Ht&Hclosed&H2&Hcases).
  exists door, t. split_and!; [|done|done|done|].
  - replace d with (door_base w0 + (d - door_base w0)) by lia.
    by apply final_door_new.
  - destruct Hcases as [(H1&Hx&_)|(H1&Hy&_)].
    + left. split; [done|]. by apply div_ge_1.
    + right. split_and!; [done|done|]. by apply (mod_ge_1 cols).
Qed.

Lemma step_door_in t door :
  t < rows * cols → door ∈ step_doors w0 cols t →
  ∃ d, d ∈ ds ∧ doorHeap final !! d = Some door.
Proof.
  intros Ht Hin.
  assert (door ∈ grid_doors w0 cols (rows * cols)) as [k Hk]%list_elem_of_lookup_1.
  { destruct (grid_doors_prefix w0 cols (S t) (rows * cols)) as [l ->]; [lia|].
    apply elem_of_app. left. simpl. apply elem_of_app. by right. }
  exists (door_base w0 + k). split; [by eapply grid_door_in | by apply final_door_new].
Qed.

(** Every cell but the first has a door to a cell before it. *)
Lemma grid_step_down t :
  1 ≤ t → t < rows * cols →
  ∃ t', t' < t ∧ door_adj final ds (cell_base w0 + t) (cell_base w0 + t').
Proof.
  intros Ht1 Ht. destruct (decide (1 ≤ t `mod` cols)) as [Hy|Hy].
  - exists (t - 1). split; [lia|].
    destruct (step_door_in t (Door.mk (cell_base w0 + (t - 1)) (cell_base w0 + t) true))
      as (d&Hd&Hdoor); [done| |].
    { unfold step_doors. apply elem_of_app. right. rewrite decide_True by done. left. }
    exists d, (Door.mk (cell_base w0 + (t - 1)) (cell_base w0 + t) true).
    split_and!; [done|done|by right].
  - exists (t - cols).
    assert (1 ≤ t `div` cols) as Hx.
    { destruct (flat_div_mod t cols cols_pos) as [Hflat _].
      destruct (t `div` cols); [|lia]. lia. }
    pose proof (div_ge_1 _ cols_pos _ Hx). split; [lia|].
    destruct (step_door_in t (Door.mk (cell_base w0 + (t - cols)) (cell_base w0 + t) true))
      as (d&Hd&Hdoor); [done| |].
    { unfold step_doors. apply elem_of_app. left. rewrite decide_True by done. left. }
    exists d, (Door.mk (cell_base w0 + (t - cols)) (cell_base w0 + t) true).
    split_and!; [done|done|by right].
Qed.

Lemma grid_walk_to_first t :
  t < rows * cols → rtc (door_adj final ds) (cell_base w0 + t) (cell_base w0 + 0).
Proof.
  induction (lt_wf t) as [t _ IH]. intros Ht.
  destruct (decide (t = 0)) as [->|Hne]; [done|].
  destruct (grid_step_down t) as (t'&Hlt&Hadj); [lia|done|].
  eapply rtc_l; [done|]. apply IH; lia.
Qed.

Lemma grid_maze_graph : maze_graph final cs ds.
Proof.
  split.
  - apply NoDup_seq.
  - intros c [? ?]%elem_of_seq. rewrite final_cells_length. lia.
  - apply NoDup_seq.
  - intros d Hd. destruct (grid_door_ends d Hd) as (door&t&Hdoor&_&Ht&H2&Hcases).
    exists door. rewrite H2. split; [done|].
    destruct Hcases as [[-> ?]|(->&?&?)]; (split_and!; [apply elem_of_seq|apply elem_of_seq|]; lia).
  - intros c x dir d [? ?]%elem_of_seq Hx Hin.
    replace c with (cell_base w0 + (c - cell_base w0)) in Hx by lia.
    rewrite final_cell_new in Hx by (done || lia).
    injection Hx as <-. simpl in Hin.
    apply elem_of_doors_of, grid_slots_sound in Hin as (_&k&door&->&Hk&_); [|done].
    by eapply grid_door_in.
  - intros a b [? ?]%elem_of_seq [? ?]%elem_of_seq.
    replace a with (cell_base w0 + (a - cell_base w0)) by lia.
    replace b with (cell_base w0 + (b - cell_base w0)) by lia.
    etrans; [apply grid_walk_to_first; lia|].
    apply (rtc_sym _ _ _ (door_adj_sym final ds)), grid_walk_to_first. lia.
Qed.

Lemma grid_all_closed d : d ∈ ds → is_open final d = false.
Proof.
  intros Hd. destruct (grid_door_ends d Hd) as (door&t&Hdoor&Hclosed&_).
  unfold is_open. by rewrite Hdoor, Hclosed.
Qed.
End GridGraph.

(** The doors outside [ds] are as they were. *)
Definition doors_kept (ds : list door_ref) (w w' : World) : Prop :=
  ∀ d, d ∉ ds → doorHeap w' !! d = doorHeap w !! d.

Global Instance doors_kept_preorder ds : PreOrder (doors_kept ds).
Proof.
  split; [done|]. intros w1 w2 w3 H12 H23 d Hd. by rewrite H23, H12.
Qed.

Lemma doors_kept_eq ds w w' : doorHeap w' = doorHeap w → doors_kept ds w w'.
Proof. intros Heq d _. by rewrite Heq. Qed.

Lemma opens_one_kept w w' d door ds : opens_one w w' d door → d ∈ ds → doors_kept ds w w'.
Proof.
  intros Hone Hd d' Hd'. rewrite (opens_one_lookup _ _ _ _ d' Hone).
  rewrite decide_False; [done|]. by intros ->.
Qed.

(** ** Kruskal's algorithm *)

(** Two nodes with the same representative. *)
Definition same_class {node} `{EqDecision node} (m : list (node * node)) (a b : node) : Prop :=
  ∃ r, rep m a r ∧ rep m b r.

Section Classes.
Context {node : Type} `{EqDecision node}.
Implicit Types (m : list (node * node)) (a b p q r : node).

Lemma same_class_reps m a b ra rb :
  rep m a ra → rep m b rb → same_class m a b ↔ ra = rb.
Proof.
  intros Ha Hb. split.
  - intros (r&Ha'&Hb'). by rewrite (rep_det _ _ _ _ Ha Ha'), (rep_det _ _ _ _ Hb Hb').
  - intros ->. by exists rb.
Qed.

Lemma same_class_keep m m' a b :
  uf_inv m → (∀ x r, rep m x r ↔ rep m' x r) → same_class m a b ↔ same_class m' a b.
Proof.
  intros Hinv Hrep. unfold same_class. split; intros (r&?&?); exists r; by rewrite ?Hrep in *.
Qed.

Lemma same_class_join m m' p q rp rq a b :
  uf_inv m → rep m p rp → rep m q rq →
  (∀ x r, rep m x r → rep m' x (if decide (r = rp) then rq else r)) →
  same_class m' a b
  ↔ same_class m a b ∨ (same_class m a p ∧ same_class m q b)
    ∨ (same_class m a q ∧ same_class m p b).
Proof.
  intros Hinv Hp Hq Hrep.
  destruct (rep_total m a Hinv) as [ra Ha], (rep_total m b Hinv) as [rb Hb].
  rewrite (same_class_reps m' a b _ _ (Hrep _ _ Ha) (Hrep _ _ Hb)).
  rewrite (same_class_reps m a b _ _ Ha Hb), (same_class_reps m a p _ _ Ha Hp),
    (same_class_reps m q b _ _ Hq Hb), (same_class_reps m a q _ _ Ha Hq),
    (same_class_reps m p b _ _ Hp Hb).
  destruct (decide (ra = rp)), (decide (rb = rp)); intuition congruence.
Qed.

Lemma rep_in m x r : rep m x r → r = x ∨ r ∈ m.*1.
Proof.
  intros [[l Hc]|[_ ->]]; [|by left].
  right. eapply obj_get_Some_key. by eapply chain_end_root.
Qed.
End Classes.

(** The loop of [createRandomMazeKruskal], between two doors: the classes
    of [uf] are the sets of cells joined by walks over open doors, these
    doors close no cycle, and each of them has merged two classes. *)
Record kruskal_inv (w : World) (cs : list cell_ref) (ds : list door_ref)
    (uf : list (cell_ref * cell_ref)) : Prop := {
  ki_uf : uf_inv uf;
  ki_keys : ∀ x, x ∈ uf.*1 → x ∈ cs;
  ki_class : ∀ a b, same_class uf a b ↔ rtc (link w ds) a b;
  ki_forest : forest w ds;
  ki_count : ∃ R, NoDup R ∧ (∀ c, c ∈ R ↔ c ∈ cs ∧ rep uf c c)
                  ∧ length (filter (λ d, is_open w d) ds) + length R = length cs
}.

Lemma closed_no_link w ds a b :
  (∀ d, d ∈ ds → is_open w d = false) → rtc (link w ds) a b → a = b.
Proof.
  intros Hclosed [?|(y&(d&door&Hin&Hd&Hopen&_)&_)]%rtc_inv; [done|].
  specialize (Hclosed d Hin). unfold is_open in Hclosed. by rewrite Hd, Hopen in Hclosed.
Qed.

Lemma filter_is_open_nil w (ds : list door_ref) :
  (∀ d, d ∈ ds → is_open w d = false) → filter (λ d, is_open w d) ds = [].
Proof.
  induction ds as [|d ds IH]; intros Hclosed; [done|].
  rewrite filter_cons_False by (rewrite Hclosed; [intros []|left]).
  apply IH. intros d' Hd'. apply Hclosed. by right.
Qed.

Lemma kruskal_inv_start w cs ds :
  NoDup cs → (∀ d, d ∈ ds → is_open w d = false) → kruskal_inv w cs ds UF.new.
Proof.
  intros Hcs Hclosed.
  assert (∀ a r, rep (@UF.new nat) a r ↔ r = a) as Hrep.
  { intros a r. split.
    - intros [[l Hc]|[_ ->]]; [|done]. apply chain_key in Hc. by apply elem_of_nil in Hc.
    - intros ->. right. split; [apply not_elem_of_nil|done]. }
  split.
  - apply uf_inv_new.
  - intros x Hx. by apply elem_of_nil in Hx.
  - intros a b. split.
    + intros (r&->%Hrep&->%Hrep). done.
    + intros ->%(closed_no_link _ _ _ _ Hclosed). exists b. by rewrite !Hrep.
  - intros d door Hin Hd Hopen. specialize (Hclosed d Hin). unfold is_open in Hclosed.
    by rewrite Hd, Hopen in Hclosed.
  - exists cs. split_and!; [done| |].
    + intros c. rewrite Hrep. tauto.
    + by rewrite filter_is_open_nil.
Qed.

Lemma is_open_false_closed w d door :
  doorHeap w !! d = Some door → is_open w d = false → Door.closed door = true.
Proof. intros Hd. unfold is_open. rewrite Hd. by destruct (Door.closed door). Qed.

(** One door of the loop. *)
Lemma kruskal_step_inv fuel w cs ds uf d :
  maze_graph w cs ds → kruskal_inv w cs ds uf → d ∈ ds → is_open w d = false →
  length cs + 2 ≤ fuel →
  ∃ uf' w', kruskal_step fuel uf (Some d) w = Ok uf' w'
    ∧ generates w w' ∧ doors_kept ds w w' ∧ kruskal_inv w' cs ds uf'
    ∧ mazeHeap w' = mazeHeap w
    ∧ (∀ d', d' ≠ d → is_open w' d' = is_open w d')
    ∧ (∃ door, doorHeap w !! d = Some door
               ∧ rtc (link w' ds) (Door.cell1 door) (Door.cell2 door)).
Proof.
  intros Hmg [Hinv Hkeys Hclass Hforest (R&HR&HRin&Hcount)] Hd Hclosed Hfuel.
  destruct (mg_door _ _ _ Hmg d Hd) as (door&Hdoor&Hc1&Hc2&Hne).
  unfold kruskal_step. rewrite (bind_ok _ _ _ _ _ (getDoor_ok _ _ _ Hdoor)).
  pose proof (uf_length_bound uf cs Hinv Hkeys) as Hlen.
  destruct (joined_spec fuel uf (Door.cell1 door) (Door.cell2 door) Hinv)
    as (rp&rq&Hrp&Hrq&Hjoined).
  apply finishes_ok in Hjoined as (j&uf1&Hrun1&->&Hinv1&Hkeys1&Hrep1&_); [|lia].
  rewrite (bind_ok _ _ _ _ _ (with_uf_run _ _ _ _ w Hrun1)).
  assert (∀ x, x ∈ uf1.*1 → x ∈ cs) as Hk1.
  { intros x [?|[->| ->]]%Hkeys1; auto. }
  assert (∀ c, c ∈ R ↔ c ∈ cs ∧ rep uf1 c c) as HRin1.
  { intros c. by rewrite HRin, Hrep1. }
  destruct (decide (rp = rq)) as [Heq|Hneq].
  - rewrite bool_decide_eq_true_2 by done. simpl. rewrite mret_run.
    exists uf1, w. split_and!; [done|reflexivity|reflexivity| |done|done|].
    + split; [done|done| |done|by exists R].
      intros a b. by rewrite <-(same_class_keep uf uf1), Hclass.
    + exists door. split; [done|]. apply Hclass. exists rp. by subst.
  - rewrite bool_decide_eq_false_2 by done. simpl.
    destruct (open_door_opens_one w d door Hdoor) as (w1&Hopen&Hone).
    rewrite bind_run, Hopen.
    pose proof (uf_length_bound uf1 cs Hinv1 Hk1) as Hlen1.
    destruct (join_spec fuel uf1 (Door.cell1 door) (Door.cell2 door) Hinv1)
      as (rp'&rq'&Hrp'&Hrq'&Hjoin).
    apply finishes_ok in Hjoin as ([]&uf2&Hrun2&Hinv2&Hkeys2&Hrep2&_); [|lia].
    rewrite (bind_ok _ _ _ _ _ (with_uf_run _ _ _ _ w1 Hrun2)), mret_run.
    pose proof (proj1 (Hrep1 _ _) Hrp) as Hrp1. pose proof (proj1 (Hrep1 _ _) Hrq) as Hrq1.
    rewrite (rep_det _ _ _ _ Hrp' Hrp1), (rep_det _ _ _ _ Hrq' Hrq1) in Hrep2.
    assert (¬ rtc (link w ds) (Door.cell1 door) (Door.cell2 door)) as Hapart.
    { intros Hwalk%Hclass. by apply (same_class_reps uf _ _ _ _ Hrp Hrq) in Hwalk. }
    exists uf2, w1.
    split_and!; [done|by eapply opens_one_generates|by eapply opens_one_kept|
                 |by destruct Hone as [_ ->]| |].
    + split.
      * done.
      * intros x [?|[->| ->]]%Hkeys2; auto.
      * intros a b.
        rewrite (same_class_join uf1 uf2 _ _ _ _ a b Hinv1 Hrp1 Hrq1 Hrep2).
        rewrite <-!(same_class_keep uf uf1) by done. rewrite !Hclass.
        symmetry. apply (walk_opened w w1 d door ds a b Hone Hd).
      * by apply (forest_opened w w1 d door ds Hone Hd).
      * exists (filter (λ c, c ≠ rp) R).
        assert (rp ∈ R) as HrpR.
        { apply HRin1. split; [|by eapply rep_rep].
          destruct (rep_in _ _ _ Hrp) as [->|?]; auto. }
        split_and!.
        -- by apply NoDup_filter.
        -- intros c. rewrite list_elem_of_filter, HRin1. split.
           ++ intros (Hc&Hcs&Hcc). split; [done|].
              pose proof (Hrep2 _ _ Hcc) as H. by rewrite decide_False in H.
           ++ intros (Hcs&Hcc).
              destruct (rep_total uf1 c Hinv1) as [r Hr].
              pose proof (Hrep2 _ _ Hr) as Hr2.
              pose proof (rep_det _ _ _ _ Hcc Hr2) as Hc. case_decide as Hrr; subst.
              ** exfalso. apply Hneq.
                 apply (rep_det uf1 rq); [done | by eapply rep_rep].
              ** done.
        -- rewrite (open_count_opened _ _ _ _ _ Hone); [|by eapply is_open_false_closed|].
           2:{ apply Hmg. }
           rewrite decide_True by done.
           pose proof (length_filter_remove R rp HR HrpR). lia.
    + intros d' Hd'. rewrite (is_open_opened _ _ _ _ d' Hone). by rewrite decide_False.
    + exists door. split; [done|]. apply rtc_once.
      apply (link_opened _ _ _ _ _ _ _ Hone). right. split; [done|by left].
Qed.

Lemma link_generates w w' ds a b : generates w w' → link w ds a b → link w' ds a b.
Proof.
  intros (_&Hd&_) (d&door&Hin&Hdoor&Hopen&Hj).
  destruct (Forall2_lookup_l _ _ _ _ _ Hd Hdoor) as (door'&Hdoor'&(H1&H2&H3)).
  exists d, door'. split_and!; [done|done|by apply H3|]. unfold joins. by rewrite H1, H2.
Qed.

Lemma kruskal_loop_inv fuel w cs ds uf suf :
  maze_graph w cs ds → kruskal_inv w cs ds uf → NoDup suf →
  (∀ d, d ∈ suf → d ∈ ds ∧ is_open w d = false) →
  length cs + 2 ≤ fuel →
  ∃ uf' w', foldM (kruskal_step fuel) uf (Some <$> suf) w = Ok uf' w'
    ∧ generates w w' ∧ doors_kept ds w w' ∧ kruskal_inv w' cs ds uf'
    ∧ mazeHeap w' = mazeHeap w
    ∧ ∀ d, d ∈ suf →
        ∃ door, doorHeap w' !! d = Some door
                ∧ rtc (link w' ds) (Door.cell1 door) (Door.cell2 door).
Proof.
  revert uf w. induction suf as [|d suf IH]; intros uf w Hmg Hinv Hnd Hsuf Hfuel.
  { exists uf, w. simpl. rewrite mret_run.
    split_and!; [done|reflexivity|reflexivity|done|done|].
    by intros d ?%elem_of_nil. }
  apply NoDup_cons in Hnd as [Hd Hnd].
  destruct (Hsuf d) as [Hin Hclosed]; [left|].
  destruct (kruskal_step_inv fuel w cs ds uf d Hmg Hinv Hin Hclosed Hfuel)
    as (uf1&w1&Hrun&Hgen&Hkept1&Hinv1&Hmaze1&Hother&door&Hdoor&Hwalk).
  rewrite fmap_cons. simpl. rewrite (bind_ok _ _ _ _ _ Hrun).
  destruct (IH uf1 w1) as (uf2&w2&Hrun2&Hgen2&Hkept2&Hinv2&Hmaze2&Hlinks); [..|done|].
  - by eapply maze_graph_generates.
  - done.
  - done.
  - intros d' Hd'. destruct (Hsuf d') as [? ?]; [by right|]. split; [done|].
    rewrite Hother; [done|]. by intros ->.
  - exists uf2, w2. split_and!; [done|by etrans|by etrans|done|congruence|].
    intros d' [->|Hd']%elem_of_cons; [|by apply Hlinks].
    assert (generates w w2) as (_&Hdoors&_) by (by etrans).
    destruct (Forall2_lookup_l _ _ _ _ _ Hdoors Hdoor) as (door2&Hdoor2&(H1&H2&_)).
    exists door2. split; [done|]. rewrite H1, H2.
    eapply rtc_mono; [|done]. intros x y. by apply link_generates.
Qed.

(** When the loop is over the open doors make a spanning tree. *)
Lemma kruskal_inv_tree w cs ds uf :
  maze_graph w cs ds → kruskal_inv w cs ds uf →
  (∀ d, d ∈ ds → ∃ door, doorHeap w !! d = Some door
                         ∧ rtc (link w ds) (Door.cell1 door) (Door.cell2 door)) →
  spanning_tree w cs ds.
Proof.
  intros Hmg [Hinv Hkeys Hclass Hforest (R&HR&HRin&Hcount)] Hlinks.
  assert (∀ a b, a ∈ cs → b ∈ cs → rtc (link w ds) a b) as Hconn.
  { intros a b Ha Hb. pose proof (mg_connected _ _ _ Hmg a b Ha Hb) as Hwalk.
    clear Ha Hb. induction Hwalk as [|a b c (d&door&Hin&Hdoor&Hj) _ IH]; [done|].
    etrans; [|apply IH].
    destruct (Hlinks d Hin) as (door'&Hdoor'&Hwalk'). simplify_eq.
    destruct Hj as [[<- <-]|[<- <-]]; [done|].
    by apply (rtc_sym _ _ _ (link_sym w ds)). }
  split_and!; [|done|done].
  destruct cs as [|s cs'] eqn:Hcs; [simpl in *; lia|]. rewrite <-Hcs in *.
  assert (s ∈ cs) as Hs by (rewrite Hcs; left).
  destruct (rep_total uf s Hinv) as [r Hr].
  assert (r ∈ R) as HrR.
  { apply HRin. split; [|by eapply rep_rep]. destruct (rep_in _ _ _ Hr) as [->|?]; auto. }
  assert (∀ c, c ∈ R → c = r) as Hall.
  { intros c [Hc Hcc]%HRin.
    pose proof (proj2 (Hclass s c) (Hconn s c Hs Hc)) as Hsc.
    by apply (same_class_reps uf s c r c Hr Hcc) in Hsc. }
  assert (length R = 1) as HlenR.
  { destruct R as [|x [|y R']]; [by apply elem_of_nil in HrR|done|].
    exfalso. apply NoDup_cons in HR as [Hx _]. apply Hx.
    rewrite (Hall x), <-(Hall y); [left|right; left|left]. }
  lia.
Qed.

Lemma spanning_tree_perm w cs ds ds' :
  ds' ≡ₚ ds → spanning_tree w cs ds → spanning_tree w cs ds'.
Proof.
  intros Hperm (Hcount&Hconn&Hforest). split_and!.
  - by rewrite Hperm.
  - intros a b Ha Hb. eapply rtc_mono; [|by apply Hconn].
    intros x y. apply link_subset. intros d. by rewrite Hperm.
  - intros d door Hd Hdoor Hopen Hwalk. rewrite Hperm in Hd.
    apply (Hforest d door Hd Hdoor Hopen).
    eapply rtc_mono; [|done]. intros x y. apply link_subset.
    intros d'. by rewrite !list_elem_of_filter, Hperm.
Qed.

Section KruskalTree.
Variable entropy : nat → Draw.

Lemma createRandomMazeKruskal_tree fuel maze m w cs ds :
  mazeHeap w !! maze = Some m → MazeGenerator.doors m = Some <$> ds →
  maze_graph w cs ds → (∀ d, d ∈ ds → is_open w d = false) →
  length cs + 2 ≤ fuel →
  ∃ w', createRandomMazeKruskal entropy fuel maze w = Ok () w'
        ∧ generates w w' ∧ spanning_tree w' cs ds
        ∧ doors_kept ds w w'
        ∧ (∀ i, i ≠ maze → mazeHeap w' !! i = mazeHeap w !! i).
Proof.
  intros Hm Hdoors Hmg Hclosed Hfuel. unfold createRandomMazeKruskal.
  rewrite (bind_ok _ _ _ _ _ (getMaze_ok _ _ _ Hm)).
  destruct (random_shuffle_ok entropy (MazeGenerator.doors m) w) as (arr0&Hrun&Hperm0).
  rewrite (bind_ok _ _ _ _ _ Hrun).
  rewrite Hdoors in Hperm0. destruct (perm_Some_fmap _ _ Hperm0) as (arr&->&Hperm).
  set (w1 := mkWorld _ _ _ _).
  unfold set_maze_doors.
  rewrite bind_run, (bind_ok _ _ _ _ _ (getMaze_ok maze w1 m Hm)).
  unfold putMaze. simpl.
  set (w2 := mkWorld _ _ _ _).
  assert (generates w w2) as Hgen.
  { repeat split; [reflexivity|]. simpl.
    rewrite <-(list_insert_id _ _ _ Hm) at 1.
    apply Forall2_insert; [reflexivity|]. repeat split. simpl. by rewrite Hdoors. }
  pose proof (maze_graph_generates _ _ _ _ Hgen Hmg) as Hmg2.
  assert (∀ d, d ∈ ds → is_open w2 d = false) as Hclosed2 by done.
  destruct (kruskal_loop_inv fuel w2 cs ds UF.new arr) as (uf&w3&Hloop&Hgen3&Hkept3&Hinv&Hmz&Hlinks).
  - done.
  - apply kruskal_inv_start; [apply Hmg|done].
  - rewrite Hperm. apply Hmg.
  - intros d Hd. rewrite Hperm in Hd. auto.
  - done.
  - rewrite bind_run, Hloop, mret_run. exists w3. split_and!; [done|by etrans| |exact Hkept3|].
    + apply (kruskal_inv_tree w3 cs ds uf); [by eapply maze_graph_generates|done|].
      intros d Hd. apply Hlinks. by rewrite Hperm.
    + intros i Hi. rewrite Hmz. simpl. by apply list_lookup_insert_ne.
Qed.
End KruskalTree.

(** The parts of a run of the constructor: the grid, then the generator on
    the new maze. *)
Lemma constructor_parts entropy fuel config w0 :
  let rows := config_rows config in
  let cols := config_cols config in
  let w1 := grid_state w0 rows cols (config_algo config) (rows * cols) in
  let cs := seq (cell_base w0) (rows * cols) in
  let ds := seq (door_base w0) (door_count rows cols) in
  constructor entropy fuel config w0
  = match randomizeMaze entropy fuel (this_maze w0) w1 with
    | Ok _ w => Ok (this_maze w0) w
    | Throw e w => Throw e w
    | OutOfFuel => OutOfFuel
    | Stuck => Stuck
    end
  ∧ mazeHeap w1 !! this_maze w0
    = Some (MazeGenerator.mk rows cols (config_algo config) (grid_cell_refs w0 rows cols)
              (Some <$> ds))
  ∧ concat (grid_cell_refs w0 rows cols) = cs
  ∧ maze_graph w1 cs ds
  ∧ (∀ d, d ∈ ds → is_open w1 d = false).
Proof.
  intros rows cols w1 cs ds.
  pose proof (config_rows_pos config) as Hrows.
  pose proof (config_cols_pos config) as Hcols.
  split_and!.
  - unfold constructor. rewrite bind_run, build_grid_spec. fold rows cols w1.
    rewrite bind_run. by destruct (randomizeMaze _ _ _ _) as [[] ?| | |].
  - by apply final_maze.
  - apply concat_grid_cell_refs.
  - by apply grid_maze_graph.
  - by apply grid_all_closed.
Qed.

Lemma generated_maze w1 w i m1 ds :
  generates w1 w → mazeHeap w1 !! i = Some m1 → MazeGenerator.doors m1 = Some <$> ds →
  ∃ m ds', mazeHeap w !! i = Some m
    ∧ MazeGenerator.cells m = MazeGenerator.cells m1
    ∧ MazeGenerator.doors m = Some <$> ds' ∧ ds' ≡ₚ ds.
Proof.
  intros (_&_&Hm) Hm1 Hds.
  destruct (Forall2_lookup_l _ _ _ _ _ Hm Hm1) as (m&Hmw&(_&_&_&Hcells&Hperm)).
  rewrite Hds in Hperm. destruct (perm_Some_fmap _ _ Hperm) as (ds'&Hds'&Hperm').
  by exists m, ds'.
Qed.

(** X12: Kruskal's generator makes a spanning tree. For every grid size,
    every store and all values of [Math.random], [new Maze] with
    [algo: 'kruskal'] returns a maze in which [rows * cols - 1] doors are
    open, every cell can be reached from every other over open doors of
    the maze, and no open door closes a cycle; [rows * cols + 2] rounds
    are enough for each loop. *)
Theorem kruskal_makes_spanning_tree (entropy : nat → Draw) (fuel : nat) (config : Config)
    (w0 : World) :
  config_algo config = "kruskal" →
  config_rows config * config_cols config + 2 ≤ fuel →
  ∃ this w m ds,
    constructor entropy fuel config w0 = Ok this w
    ∧ mazeHeap w !! this = Some m
    ∧ MazeGenerator.doors m = Some <$> ds
    ∧ length (concat (MazeGenerator.cells m)) = config_rows config * config_cols config
    ∧ spanning_tree w (concat (MazeGenerator.cells m)) ds.
Proof.
  intros Halgo Hfuel.
  destruct (constructor_parts entropy fuel config w0) as (Hrun&Hm1&Hcells&Hmg&Hclosed).
  set (w1 := grid_state _ _ _ _ _) in *.
  set (cs := seq (cell_base w0) _) in *. set (ds := seq (door_base w0) _) in *.
  destruct (createRandomMazeKruskal_tree entropy fuel (this_maze w0) _ w1 cs ds Hm1 eq_refl
              Hmg Hclosed) as (w&Hgen_run&Hgen&Htree&_).
  { unfold cs. by rewrite length_seq. }
  assert (randomizeMaze entropy fuel (this_maze w0) w1 = Ok () w) as Hrand.
  { unfold randomizeMaze. rewrite (bind_ok _ _ _ _ _ (getMaze_ok _ _ _ Hm1)). simpl.
    rewrite Halgo. by rewrite decide_False, decide_True by done. }
  rewrite Hrand in Hrun.
  destruct (generated_maze w1 w _ _ ds Hgen Hm1 eq_refl) as (m&ds'&Hm&Hc&Hds'&Hperm).
  exists (this_maze w0), w, m, ds'. simpl in Hc. rewrite Hc, Hcells.
  split_and!; [done|done|done|by unfold cs; rewrite length_seq|by eapply spanning_tree_perm].
Qed.

Lemma kruskal_makes_spanning_tree_witness :
  ∃ this w m ds,
    constructor zero_draws 6 (Options (Some 2) (Some 2) (Some "kruskal")) empty_world
    = Ok this w
    ∧ mazeHeap w !! this = Some m
    ∧ MazeGenerator.doors m = Some <$> ds
    ∧ length (concat (MazeGenerator.cells m))
      = config_rows (Options (Some 2) (Some 2) (Some "kruskal"))
        * config_cols (Options (Some 2) (Some 2) (Some "kruskal"))
    ∧ spanning_tree w (concat (MazeGenerator.cells m)) ds.
Proof.
  apply (kruskal_makes_spanning_tree zero_draws 6
           (Options (Some 2) (Some 2) (Some "kruskal")) empty_world).
  - reflexivity.
  - vm_compute. lia.
Defined.

(** ** Prim's algorithm *)

(** The loop of [createRandomMazePrim], between two walls: the visited
    cells [v] are joined by walks over open doors, the open doors are
    between visited cells and close no cycle, and [walls] holds every
    door that leads from a visited cell to a cell not yet visited. *)
Record prim_inv (w : World) (cs : list cell_ref) (ds walls : list door_ref)
    (v : list cell_ref) : Prop := {
  pi_nodup : NoDup v;
  pi_cells : ∀ c, c ∈ v → c ∈ cs;
  pi_start : v ≠ [];
  pi_conn : ∀ a b, a ∈ v → b ∈ v → rtc (link w ds) a b;
  pi_open : ∀ d door, d ∈ ds → doorHeap w !! d = Some door → Door.closed door = false →
      Door.cell1 door ∈ v ∧ Door.cell2 door ∈ v;
  pi_forest : forest w ds;
  pi_count : length (filter (λ d, is_open w d) ds) + 1 = length v;
  pi_walls : ∀ d, d ∈ walls →
      d ∈ ds ∧ ∃ door, doorHeap w !! d = Some door
                       ∧ (Door.cell1 door ∈ v ∨ Door.cell2 door ∈ v);
  pi_frontier : ∀ d door, d ∈ ds → doorHeap w !! d = Some door →
      Door.cell1 door ∈ v ∨ Door.cell2 door ∈ v →
      d ∈ walls ∨ (Door.cell1 door ∈ v ∧ Door.cell2 door ∈ v)
}.

Lemma prim_inv_same w w' cs ds walls v :
  doorHeap w' = doorHeap w → prim_inv w cs ds walls v → prim_inv w' cs ds walls v.
Proof.
  intros Heq [? ? ? ? ? ? ? ? ?].
  split; unfold forest, link, is_open in *; rewrite ?Heq; done.
Qed.

Lemma prim_inv_start w cs ds s x :
  heap_wf w → maze_graph w cs ds → (∀ d, d ∈ ds → is_open w d = false) →
  s ∈ cs → cellHeap w !! s = Some x →
  prim_inv w cs ds (Object_values (Cell.doors x)) [s].
Proof.
  intros Hwf Hmg Hclosed Hs Hx.
  assert (∀ d door, d ∈ ds → doorHeap w !! d = Some door → Door.closed door = true) as Hcl.
  { intros d door Hd Hdoor. eapply is_open_false_closed; eauto. }
  split.
  - apply NoDup_singleton.
  - by intros c ->%list_elem_of_singleton.
  - done.
  - by intros a b ->%list_elem_of_singleton ->%list_elem_of_singleton.
  - intros d door Hd Hdoor Hopen. rewrite (Hcl d door Hd Hdoor) in Hopen. done.
  - intros d door Hd Hdoor Hopen. rewrite (Hcl d door Hd Hdoor) in Hopen. done.
  - by rewrite filter_is_open_nil.
  - intros d ([dir d']&->&Hin)%list_elem_of_fmap. simpl.
    split; [by eapply (mg_cell_doors _ _ _ Hmg)|].
    destruct (wf_cell_door _ Hwf _ _ _ _ Hx Hin) as (door&Hdoor&Hends).
    exists door. split; [done|]. rewrite !list_elem_of_singleton. tauto.
  - intros d door Hd Hdoor Hends. left.
    destruct (wf_door_cell _ Hwf _ _ Hdoor) as [(x1&dir1&Hx1&Hin1) (x2&dir2&Hx2&Hin2)].
    rewrite !list_elem_of_singleton in Hends.
    apply list_elem_of_fmap.
    destruct Hends as [He|He]; rewrite He in *; simplify_eq;
      [by exists (dir1, d) | by exists (dir2, d)].
Qed.

Lemma prim_inv_skip w cs ds walls walls' v d door :
  prim_inv w cs ds walls v → walls ≡ₚ walls' ++ [d] →
  doorHeap w !! d = Some door → Door.cell1 door ∈ v → Door.cell2 door ∈ v →
  prim_inv w cs ds walls' v.
Proof.
  intros [? ? ? ? ? ? ? Hwalls Hfront] Hperm Hdoor H1 H2. split; try done.
  - intros d' Hd'. apply Hwalls. rewrite Hperm. apply elem_of_app. by left.
  - intros d' door' Hd' Hdoor' Hends.
    destruct (Hfront d' door' Hd' Hdoor' Hends) as [Hin|?]; [|by right].
    rewrite Hperm in Hin.
    apply elem_of_app in Hin as [?| ->%list_elem_of_singleton]; [by left|].
    right. by simplify_eq.
Qed.

Lemma prim_inv_done w cs ds v :
  maze_graph w cs ds → prim_inv w cs ds [] v → spanning_tree w cs ds.
Proof.
  intros Hmg [Hnd Hcells Hne Hconn Hopen Hforest Hcount _ Hfront].
  destruct v as [|s v'] eqn:Hv; [done|]. rewrite <-Hv in *.
  assert (s ∈ v) as Hs by (rewrite Hv; left).
  assert (∀ c, c ∈ cs → c ∈ v) as Hall.
  { apply (maze_graph_closed w cs ds (λ c, c ∈ v) s Hmg); [by apply Hcells|done|].
    intros a b Ha (d&door&Hd&Hdoor&Hj).
    destruct (Hfront d door Hd Hdoor) as [?%elem_of_nil|[? ?]]; [|done|].
    - destruct Hj as [[<- _]|[_ <-]]; auto.
    - destruct Hj as [[_ <-]|[<- _]]; done. }
  assert (v ≡ₚ cs) as Hperm.
  { apply NoDup_Permutation; [done|apply Hmg|]. intros c. split; auto. }
  split_and!; [|by auto|done].
  rewrite <-Hperm. lia.
Qed.

Lemma opens_one_ends w w' d door d' door' :
  opens_one w w' d door → doorHeap w' !! d' = Some door' →
  ∃ door0, doorHeap w !! d' = Some door0
           ∧ Door.cell1 door' = Door.cell1 door0 ∧ Door.cell2 door' = Door.cell2 door0.
Proof.
  intros Hone Hd'. rewrite (opens_one_lookup _ _ _ _ d' Hone) in Hd'.
  case_decide; simplify_eq; [|by eauto].
  exists door. by destruct Hone as [? _].
Qed.

Lemma opens_one_ends_inv w w' d door d' door0 :
  opens_one w w' d door → doorHeap w !! d' = Some door0 →
  ∃ door', doorHeap w' !! d' = Some door'
           ∧ Door.cell1 door' = Door.cell1 door0 ∧ Door.cell2 door' = Door.cell2 door0.
Proof.
  intros Hone Hd'. rewrite (opens_one_lookup _ _ _ _ d' Hone).
  case_decide; [|by eauto]. subst. destruct Hone as [? _]. simplify_eq. by eexists.
Qed.

(** The wall leads to a cell not yet visited: the door is opened, the cell
    visited and its doors added to [walls]. *)
Lemma prim_inv_visit w w' cs ds walls walls' v d door u x :
  heap_wf w → maze_graph w cs ds → prim_inv w cs ds walls v →
  walls ≡ₚ walls' ++ [d] →
  doorHeap w !! d = Some door →
  ¬ (Door.cell1 door ∈ v ∧ Door.cell2 door ∈ v) →
  u = (if set_has v (Door.cell1 door) then Door.cell2 door else Door.cell1 door) →
  opens_one w w' d door →
  cellHeap w !! u = Some x →
  (u ∉ v) ∧ prim_inv w' cs ds (walls' ++ Object_values (Cell.doors x)) (v ++ [u]).
Proof.
  intros Hwf Hmg [Hnd Hcells Hne Hconn Hopen Hforest Hcount Hwalls Hfront]
    Hperm Hdoor Hnboth Hu Hone Hx.
  assert (d ∈ walls) as Hdw.
  { rewrite Hperm. apply elem_of_app. right. left. }
  destruct (Hwalls d Hdw) as (Hd&door0&Hdoor0&Hsome). simplify_eq.
  destruct (mg_door _ _ _ Hmg d Hd) as (door0&Hdoor0&Hc1&Hc2&Hc12). simplify_eq.
  set (u := if set_has v (Door.cell1 door) then Door.cell2 door else Door.cell1 door) in *.
  assert (∃ o, o ∈ v ∧ (u ∉ v) ∧ u ∈ cs ∧ o ≠ u ∧ joins door o u) as (o&Ho&Huv&Hucs&Hou&Hj).
  { unfold u, set_has. destruct (decide (Door.cell1 door ∈ v)) as [H1|H1].
    - rewrite bool_decide_eq_true_2 by done. exists (Door.cell1 door).
      split_and!; [done|tauto|done|done|by left].
    - rewrite bool_decide_eq_false_2 by done. exists (Door.cell2 door).
      split_and!; [tauto|done|done|done|by right]. }
  assert (Door.closed door = true) as Hclosed.
  { destruct (Door.closed door) eqn:Hcl; [done|]. destruct Hnboth. by eapply Hopen. }
  assert (∀ y, ¬ link w ds u y) as Hisolated.
  { intros y (d'&door'&Hd'&Hdoor'&Hopen'&Hj').
    destruct (Hopen d' door' Hd' Hdoor' Hopen') as [? ?].
    apply Huv. destruct Hj' as [[<- _]|[_ <-]]; done. }
  assert (¬ rtc (link w ds) (Door.cell1 door) (Door.cell2 door)) as Hapart.
  { intros Hwalk.
    assert (rtc (link w ds) u o) as [?|(y&Hy&_)]%rtc_inv; [|done|by eapply Hisolated].
    destruct Hj as [[<- <-]|[<- <-]]; [|done].
    by apply (rtc_sym _ _ _ (link_sym w ds)). }
  assert (link w' ds o u) as Hedge.
  { apply (link_opened _ _ _ _ _ _ _ Hone). right. done. }
  assert (∀ a, a ∈ v ++ [u] → rtc (link w' ds) o a) as Hfrom.
  { intros a [Ha| ->%list_elem_of_singleton]%elem_of_app.
    - eapply link_opened_mono; [done|]. by apply Hconn.
    - by apply rtc_once. }
  split; [done|]. split.
  - apply NoDup_app. split_and!; [done| |apply NoDup_singleton].
    by intros c Hc ->%list_elem_of_singleton.
  - intros c [?| ->%list_elem_of_singleton]%elem_of_app; auto.
  - by destruct v.
  - intros a b Ha Hb. etrans; [|by apply Hfrom].
    apply (rtc_sym _ _ _ (link_sym w' ds)). by apply Hfrom.
  - intros d' door' Hd' Hdoor' Hopen'.
    rewrite (opens_one_lookup _ _ _ _ d' Hone) in Hdoor'. rewrite !elem_of_app.
    case_decide; simplify_eq.
    + simpl. rewrite !list_elem_of_singleton.
      destruct Hj as [[<- <-]|[<- <-]]; auto.
    + destruct (Hopen d' door' Hd' Hdoor' Hopen'). auto.
  - by apply (forest_opened w w' d door ds Hone Hd).
  - rewrite (open_count_opened _ _ _ _ _ Hone Hclosed (mg_doors_nodup _ _ _ Hmg)).
    rewrite decide_True by done. rewrite length_app. simpl. lia.
  - intros d' [Hd'|Hd']%elem_of_app.
    + destruct (Hwalls d') as (Hin&door'&Hdoor'&Hends).
      { rewrite Hperm. apply elem_of_app. by left. }
      split; [done|].
      destruct (opens_one_ends_inv _ _ _ _ d' door' Hone Hdoor') as (door''&Hdoor''&H1&H2).
      exists door''. split; [done|]. rewrite H1, H2, !elem_of_app. tauto.
    + apply list_elem_of_fmap in Hd' as ([dir d'']&->&Hin). simpl.
      split; [by eapply (mg_cell_doors _ _ _ Hmg)|].
      destruct (wf_cell_door _ Hwf _ _ _ _ Hx Hin) as (door'&Hdoor'&Hends).
      destruct (opens_one_ends_inv _ _ _ _ d'' door' Hone Hdoor') as (door''&Hdoor''&H1&H2).
      exists door''. split; [done|]. rewrite H1, H2, !elem_of_app, !list_elem_of_singleton.
      tauto.
  - intros d' door' Hd' Hdoor' Hends.
    destruct (opens_one_ends _ _ _ _ d' door' Hone Hdoor') as (door0&Hdoor0&H1&H2).
    rewrite H1, H2 in *. rewrite !elem_of_app, !list_elem_of_singleton in *.
    destruct (wf_door_cell _ Hwf _ _ Hdoor0) as [(x1&dir1&Hx1&Hin1) (x2&dir2&Hx2&Hin2)].
    destruct (decide (Door.cell1 door0 = u)) as [He1|He1].
    { left. right. rewrite He1 in Hx1. simplify_eq.
      apply list_elem_of_fmap. by exists (dir1, d'). }
    destruct (decide (Door.cell2 door0 = u)) as [He2|He2].
    { left. right. rewrite He2 in Hx2. simplify_eq.
      apply list_elem_of_fmap. by exists (dir2, d'). }
    destruct (Hfront d' door0 Hd' Hdoor0) as [Hin|[? ?]]; [tauto| |by auto].
    rewrite Hperm in Hin.
    apply elem_of_app in Hin as [?| ->%list_elem_of_singleton]; [by auto|].
    simplify_eq. right. destruct Hj as [[<- <-]|[<- <-]]; auto.
Qed.

Section PrimTree.
Variable entropy : nat → Draw.

(** [pickWall] takes one wall out of [walls] and keeps the others. *)
Lemma pickWall_perm walls w :
  walls ≠ [] →
  ∃ d walls' w', pickWall entropy walls w = Ok (d, walls') w' ∧ same_store w w'
    ∧ walls ≡ₚ walls' ++ [d].
Proof.
  intros Hne. assert (0 < length walls) as Hlen by (destruct walls; simpl; [done|lia]).
  unfold pickWall. rewrite bind_run, random_below_run.
  set (w' := mkWorld _ _ _ _).
  set (k := floor_times _ _).
  assert (k < length walls) as Hk.
  { pose proof (floor_times_lt (entropy (draws w)) (length walls - 1 + 1) ltac:(lia)).
    unfold k. lia. }
  destruct (lookup_lt_is_Some_2 walls k Hk) as [tmp Htmp].
  destruct (lookup_lt_is_Some_2 walls (length walls - 1) ltac:(lia)) as [wl Hwl].
  rewrite (bind_ok _ _ _ _ _ (index_ok _ _ _ _ Htmp)).
  rewrite (bind_ok _ _ _ _ _ (index_ok _ _ _ _ Hwl)).
  set (walls2 := <[length walls - 1 := tmp]> (<[k := wl]> walls)).
  assert (walls2 ≡ₚ walls) as Hperm.
  { unfold walls2. by apply Permutation_insert_swap. }
  assert (walls2 !! (length walls2 - 1) = Some tmp) as Hlast.
  { unfold walls2. rewrite !length_insert. apply list_lookup_insert_eq.
    rewrite length_insert. lia. }
  rewrite (bind_ok _ _ _ _ _ (index_ok _ _ _ _ Hlast)), mret_run.
  exists tmp, (pop walls2), w'. split_and!; [done|done|].
  rewrite <-Hperm.
  assert (last walls2 = Some tmp) as [l Hl]%last_snoc_inv.
  { by rewrite last_lookup, <-Nat.sub_1_r. }
  rewrite Hl. unfold pop. by rewrite removelast_last.
Qed.

Lemma prim_loop_tree fuel walls v w cs ds :
  heap_wf w → maze_graph w cs ds → prim_inv w cs ds walls v →
  4 * (length cs - length v) + length walls < fuel →
  ∃ w', prim_loop entropy fuel walls v w = Ok () w'
        ∧ generates w w' ∧ spanning_tree w' cs ds ∧ doors_kept ds w w'.
Proof.
  revert walls v w. induction fuel as [|fuel IH];
    intros walls v w Hwf Hmg Hinv Hfuel; [lia|].
  simpl. case_decide as Hlen.
  { apply nil_length_inv in Hlen as ->. rewrite mret_run.
    exists w. split_and!; [done|reflexivity|by eapply prim_inv_done|reflexivity]. }
  destruct (pickWall_perm walls w) as (d&walls'&w1&Hrun&Hsame&Hperm).
  { by intros ->. }
  rewrite (bind_ok _ _ _ _ _ Hrun).
  pose proof (same_store_generates _ _ Hsame) as Hgen1.
  pose proof (heap_wf_same_store _ _ Hwf Hsame) as Hwf1.
  pose proof (maze_graph_generates _ _ _ _ Hgen1 Hmg) as Hmg1.
  destruct Hsame as (Hc1&Hd1&Hm1).
  pose proof (prim_inv_same w w1 _ _ _ _ Hd1 Hinv) as Hinv1.
  pose proof (Permutation_length Hperm) as Hlenw. rewrite length_app in Hlenw.
  simpl in Hlenw.
  destruct (pi_walls _ _ _ _ _ Hinv1 d) as (Hd&door&Hdoor&Hends).
  { rewrite Hperm. apply elem_of_app. right. left. }
  rewrite (bind_ok _ _ _ _ _ (getDoor_ok _ _ _ Hdoor)).
  destruct (set_has v (Door.cell1 door) && set_has v (Door.cell2 door)) eqn:Hboth.
  - apply andb_true_iff in Hboth as [H1%bool_decide_eq_true H2%bool_decide_eq_true].
    destruct (IH walls' v w1) as (w2&Hloop&Hgen2&Htree&Hkept2); [done|done| |lia|].
    { by eapply prim_inv_skip. }
    exists w2. split_and!; [done|by etrans|done|].
    etrans; [by apply doors_kept_eq|done].
  - assert (¬ (Door.cell1 door ∈ v ∧ Door.cell2 door ∈ v)) as Hnboth.
    { intros [H1 H2]. unfold set_has in Hboth.
      by rewrite !bool_decide_eq_true_2 in Hboth by done. }
    destruct (open_door_opens_one w1 d door Hdoor) as (w2&Hopen&Hone).
    rewrite bind_run, Hopen.
    set (u := if set_has v (Door.cell1 door) then Door.cell2 door else Door.cell1 door).
    pose proof (opens_one_generates _ _ _ _ Hone) as Hgen2.
    assert (u ∈ cs) as Hu.
    { destruct (mg_door _ _ _ Hmg1 d Hd) as (door'&Hdoor'&?&?&_). simplify_eq.
      unfold u. by destruct (set_has v (Door.cell1 door)). }
    destruct (lookup_lt_is_Some_2 (cellHeap w1) u) as [x Hx].
    { by apply (mg_cells_valid _ _ _ Hmg1). }
    assert (cellHeap w2 !! u = Some x) as Hx2.
    { by rewrite (generates_cells _ _ Hgen2). }
    rewrite (bind_ok _ _ _ _ _ (getCell_ok _ _ _ Hx2)).
    destruct (prim_inv_visit w1 w2 cs ds walls walls' v d door u x) as [Huv Hinv2];
      [done..|].
    rewrite set_add_new by done. rewrite foldl_push.
    pose proof (heap_wf_generates _ _ Hwf1 Hgen2) as Hwf2.
    pose proof (maze_graph_generates _ _ _ _ Hgen2 Hmg1) as Hmg2.
    pose proof (cell_doors_length _ _ _ Hwf2 Hx2) as Hdeg.
    assert (length (v ++ [u]) ≤ length cs) as Hlenv.
    { apply submseteq_length, NoDup_submseteq; [apply Hinv2|]. apply Hinv2. }
    destruct (IH (walls' ++ Object_values (Cell.doors x)) (v ++ [u]) w2)
      as (w3&Hloop&Hgen3&Htree&Hkept3); [done|done|done| |].
    { rewrite !length_app in *. simpl in *. lia. }
    exists w3. split_and!; [done| |done|].
    + etrans; [done|]. by etrans.
    + etrans; [by apply doors_kept_eq|]. etrans; [by eapply opens_one_kept|done].
Qed.

Lemma createRandomMazePrim_tree fuel maze m w ds :
  heap_wf w → mazeHeap w !! maze = Some m →
  maze_graph w (concat (MazeGenerator.cells m)) ds →
  (∀ d, d ∈ ds → is_open w d = false) →
  4 * length (concat (MazeGenerator.cells m)) < fuel →
  ∃ w', createRandomMazePrim entropy fuel maze w = Ok () w'
        ∧ generates w w' ∧ spanning_tree w' (concat (MazeGenerator.cells m)) ds
        ∧ doors_kept ds w w'.
Proof.
  intros Hwf Hm Hmg Hclosed Hfuel. unfold createRandomMazePrim.
  destruct (random_cell_run entropy maze m w Hwf Hm) as (c&w1&Hrun&Hsame&Hc&Hcs).
  rewrite (bind_ok _ _ _ _ _ Hrun).
  pose proof (same_store_generates _ _ Hsame) as Hgen1.
  pose proof (heap_wf_same_store _ _ Hwf Hsame) as Hwf1.
  pose proof (maze_graph_generates _ _ _ _ Hgen1 Hmg) as Hmg1.
  destruct Hsame as (Hc1&Hd1&Hm1).
  destruct (lookup_lt_is_Some_2 (cellHeap w1) c) as [x Hx]; [by rewrite Hc1|].
  rewrite (bind_ok _ _ _ _ _ (getCell_ok _ _ _ Hx)).
  pose proof (cell_doors_length _ _ _ Hwf1 Hx) as Hdeg.
  unfold set_add, set_has. rewrite bool_decide_eq_false_2 by apply not_elem_of_nil.
  destruct (prim_loop_tree fuel (Object_values (Cell.doors x)) [c] w1
              (concat (MazeGenerator.cells m)) ds) as (w2&Hloop&Hgen2&Htree&Hkept2);
    [done|done| | |].
  - apply prim_inv_start; [done|done| |done|done].
    intros d Hd. unfold is_open. rewrite Hd1. by apply Hclosed.
  - assert (0 < length (concat (MazeGenerator.cells m))).
    { destruct (concat (MazeGenerator.cells m)); [by apply elem_of_nil in Hcs|simpl; lia]. }
    simpl. lia.
  - exists w2. split_and!; [done|by etrans|done|].
    etrans; [by apply doors_kept_eq|done].
Qed.
End PrimTree.

(** X13: Prim's generator makes a spanning tree. From a store whose doors
    and cells refer to each other, for every grid size and all values of
    [Math.random], [new Maze] with [algo: 'prim'] returns a maze in which
    [rows * cols - 1] doors are open, every cell can be reached from every
    other over open doors of the maze, and no open door closes a cycle;
    [4 * rows * cols + 1] rounds are enough for the loop. *)
Theorem prim_makes_spanning_tree (entropy : nat → Draw) (fuel : nat) (config : Config)
    (w0 : World) :
  heap_wf w0 → config_algo config = "prim" →
  4 * (config_rows config * config_cols config) < fuel →
  ∃ this w m ds,
    constructor entropy fuel config w0 = Ok this w
    ∧ mazeHeap w !! this = Some m
    ∧ MazeGenerator.doors m = Some <$> ds
    ∧ length (concat (MazeGenerator.cells m)) = config_rows config * config_cols config
    ∧ spanning_tree w (concat (MazeGenerator.cells m)) ds.
Proof.
  intros Hwf Halgo Hfuel.
  destruct (constructor_parts entropy fuel config w0) as (Hrun&Hm1&Hcells&Hmg&Hclosed).
  set (w1 := grid_state _ _ _ _ _) in *.
  set (ds := seq (door_base w0) _) in *.
  assert (heap_wf w1) as Hwf1.
  { apply final_wf; [apply config_cols_pos | apply config_rows_pos | done]. }
  destruct (createRandomMazePrim_tree entropy fuel (this_maze w0) _ w1 ds Hwf1 Hm1)
    as (w&Hgen_run&Hgen&Htree&_).
  { simpl. by rewrite Hcells. }
  { done. }
  { simpl. by rewrite Hcells, length_seq. }
  assert (randomizeMaze entropy fuel (this_maze w0) w1 = Ok () w) as Hrand.
  { unfold randomizeMaze. rewrite (bind_ok _ _ _ _ _ (getMaze_ok _ _ _ Hm1)). simpl.
    rewrite Halgo. by rewrite decide_True by done. }
  rewrite Hrand in Hrun.
  destruct (generated_maze w1 w _ _ ds Hgen Hm1 eq_refl) as (m&ds'&Hm&Hc&Hds'&Hperm).
  exists (this_maze w0), w, m, ds'. simpl in Hc, Htree. rewrite Hc.
  split_and!; [done|done|done|by rewrite Hcells, length_seq|by eapply spanning_tree_perm].
Qed.

Lemma prim_makes_spanning_tree_witness :
  ∃ this w m ds,
    constructor zero_draws 17 (Options (Some 2) (Some 2) (Some "prim")) empty_world
    = Ok this w
    ∧ mazeHeap w !! this = Some m
    ∧ MazeGenerator.doors m = Some <$> ds
    ∧ length (concat (MazeGenerator.cells m))
      = config_rows (Options (Some 2) (Some 2) (Some "prim"))
        * config_cols (Options (Some 2) (Some 2) (Some "prim"))
    ∧ spanning_tree w (concat (MazeGenerator.cells m)) ds.
Proof.
  apply (prim_makes_spanning_tree zero_draws 17
           (Options (Some 2) (Some 2) (Some "prim")) empty_world).
  - apply heap_wf_empty.
  - reflexivity.
  - vm_compute. lia.
Defined.

(** ** The recursive backtracker *)

Section RecTree.
Variable entropy : nat → Draw.

(** The three ways a round of the loop goes. *)
Lemma rec_step_spec cell v stack w :
  heap_wf w → cell < length (cellHeap w) →
  let u := filter (λ n, n ∉ v) (all_neighbors w cell) in
  (u ≠ [] ∧ ∃ n xn d door w1 w',
      n ∈ u ∧ cellHeap w !! n = Some xn ∧ d ∈ Object_values (Cell.doors xn)
      ∧ doorHeap w !! d = Some door
      ∧ (Door.cell1 door = cell ∨ Door.cell2 door = cell)
      ∧ same_store w w1 ∧ opens_one w1 w' d door
      ∧ rec_step entropy cell v stack w = Ok (Some (n, v ++ [n], stack ++ [cell])) w')
  ∨ (u = [] ∧ stack = [] ∧ rec_step entropy cell v stack w = Ok None w)
  ∨ (u = [] ∧ ∃ stack' top, stack = stack' ++ [top]
             ∧ rec_step entropy cell v stack w = Ok (Some (top, v, stack')) w).
Proof.
  intros Hwf Hcell u. unfold rec_step.
  rewrite bind_run, _neighbors_run by done. fold u.
  destruct (decide (length u ≠ 0)) as [Hu|Hu].
  - left. split; [by intros Heq; rewrite Heq in Hu|].
    rewrite bind_run, random_below_run.
    set (w1 := mkWorld _ _ _ _).
    assert (same_store w w1) as Hsame by done.
    pose proof (floor_times_lt (entropy (draws w)) (length u) ltac:(lia)) as Hi.
    destruct (lookup_lt_is_Some_2 u _ Hi) as [n Hn].
    rewrite (bind_ok _ _ _ _ _ (index_ok _ _ _ _ Hn)).
    apply list_elem_of_lookup_2 in Hn. pose proof Hn as [Hnv Hnn]%list_elem_of_filter.
    destruct (neighbor_door w cell n Hwf Hcell Hnn) as (xn&d&door&Hxn&Hd&Hdoor&Hends).
    rewrite (bind_ok _ _ _ _ _ (getCell_ok n w1 xn Hxn)).
    set (pb := λ d, match doorHeap w !! d with
                    | Some door => bool_decide (Door.cell1 door = cell)
                                   || bool_decide (Door.cell2 door = cell)
                    | None => false
                    end).
    erewrite bind_ok; [|apply (findM_run _ pb)].
    2:{ intros d' ([dir' d'']&->&Hin)%list_elem_of_fmap. simpl.
        destruct (wf_cell_door _ Hwf _ _ _ _ Hxn Hin) as (door'&Hd'&_).
        rewrite (bind_ok _ _ _ _ _ (getDoor_ok d'' w1 door' Hd')).
        unfold pb. by rewrite Hd'. }
    destruct (find_is_Some pb _ d Hd) as (d'&->&Hd'&Hpb).
    { unfold pb. rewrite Hdoor. apply orb_true_iff. rewrite !bool_decide_eq_true.
      done. }
    unfold pb in Hpb. destruct (doorHeap w !! d') as [door'|] eqn:Hdoor'; [|done].
    apply orb_true_iff in Hpb. rewrite !bool_decide_eq_true in Hpb.
    destruct (open_door_opens_one w1 d' door' Hdoor') as (w2&Hopen&Hone).
    rewrite (bind_ok _ _ _ _ _ Hopen), mret_run.
    rewrite set_add_new by done.
    by exists n, xn, d', door', w1, w2.
  - assert (u = []) as Hnil by (apply nil_length_inv; lia).
    right. destruct (decide (length stack = 0)) as [Hs|Hs].
    + left. apply nil_length_inv in Hs. by rewrite mret_run.
    + right. split; [done|].
      destruct stack as [|top stack _] using rev_ind; [done|].
      rewrite (bind_ok _ _ _ _ _ (index_ok _ _ _ _ (lookup_last_snoc stack top))), mret_run.
      exists stack, top. unfold pop. by rewrite removelast_last.
Qed.

(** The loop of [createRandomMazeRec] started at [s], between two rounds:
    the cells seen are joined to [s] by walks over open doors, the open
    doors are between cells seen, and a cell that has left the stack has
    all its neighbours in [v]. *)
Record rec_inv (w : World) (cs : list cell_ref) (ds : list door_ref) (s cell : cell_ref)
    (v stack : list cell_ref) : Prop := {
  ri_nodup : NoDup v;
  ri_cells : ∀ c, c ∈ v → c ∈ cs;
  ri_cell : cell ∈ cs;
  ri_stack : ∀ c, c ∈ stack → c ∈ cs;
  ri_seen : ∀ a, a ∈ stack ∨ a = cell → a ∈ v ∨ a = s;
  ri_head : head (stack ++ [cell]) = Some s;
  ri_conn : ∀ a, a ∈ v ∨ a ∈ stack ∨ a = cell → rtc (link w ds) s a;
  ri_open : ∀ d door, d ∈ ds → doorHeap w !! d = Some door → Door.closed door = false →
      (Door.cell1 door ∈ v ∨ Door.cell1 door = s)
      ∧ (Door.cell2 door ∈ v ∨ Door.cell2 door = s);
  ri_done : ∀ a b, a ∈ v ∨ a = s → a ∉ stack → a ≠ cell → door_adj w ds a b → b ∈ v;
  ri_count : length (filter (λ d, is_open w d) ds) ≤ length v
             ∧ length v ≤ length (filter (λ d, is_open w d) ds) + 1
             ∧ (s ∉ v → length v = length (filter (λ d, is_open w d) ds))
}.

Lemma rec_inv_same w w' cs ds s cell v stack :
  doorHeap w' = doorHeap w → rec_inv w cs ds s cell v stack → rec_inv w' cs ds s cell v stack.
Proof.
  intros Heq [? ? ? ? ? ? ? ? ? ?].
  split; unfold door_adj, link, is_open in *; rewrite ?Heq; done.
Qed.

Lemma rec_inv_start w cs ds s :
  (∀ d, d ∈ ds → is_open w d = false) → s ∈ cs → rec_inv w cs ds s s [] [].
Proof.
  intros Hclosed Hs. split.
  - apply NoDup_nil_2.
  - by intros c ?%elem_of_nil.
  - done.
  - by intros c ?%elem_of_nil.
  - intros a [?%elem_of_nil| ->]; [done|by right].
  - done.
  - intros a [?%elem_of_nil|[?%elem_of_nil| ->]]; done.
  - intros d door Hd Hdoor Hopen. specialize (Hclosed d Hd). unfold is_open in Hclosed.
    by rewrite Hdoor, Hopen in Hclosed.
  - intros a b [?%elem_of_nil| ->] _ Hne; done.
  - rewrite filter_is_open_nil by done. simpl. split_and!; [lia|lia|done].
Qed.

Lemma door_adj_opened w w' d door ds a b :
  opens_one w w' d door → door_adj w' ds a b ↔ door_adj w ds a b.
Proof.
  intros Hone. split.
  - intros (d'&door'&Hd'&Hdoor'&Hj).
    destruct (opens_one_ends _ _ _ _ d' door' Hone Hdoor') as (door0&Hdoor0&H1&H2).
    exists d', door0. split_and!; [done|done|]. unfold joins in *. by rewrite <-H1, <-H2.
  - intros (d'&door0&Hd'&Hdoor0&Hj).
    destruct (opens_one_ends_inv _ _ _ _ d' door0 Hone Hdoor0) as (door'&Hdoor'&H1&H2).
    exists d', door'. split_and!; [done|done|]. unfold joins in *. by rewrite H1, H2.
Qed.

(** A neighbour of a cell of the maze is another cell of the maze, and the
    door found in its [doors] joins the two. *)
Lemma maze_neighbor w cs ds cell n xn d door :
  heap_wf w → maze_graph w cs ds → cell ∈ cs →
  n ∈ all_neighbors w cell →
  cellHeap w !! n = Some xn → d ∈ Object_values (Cell.doors xn) →
  doorHeap w !! d = Some door →
  Door.cell1 door = cell ∨ Door.cell2 door = cell →
  n ∈ cs ∧ n ≠ cell ∧ d ∈ ds ∧ joins door cell n.
Proof.
  intros Hwf Hmg Hcell Hn Hxn Hd Hdoor Hends.
  pose proof (mg_cells_valid _ _ _ Hmg cell Hcell) as Hvalid.
  apply (elem_of_all_neighbors_door w cell n Hwf Hvalid) in Hn as (d0&door0&Hdoor0&Hj0).
  assert (d0 ∈ ds) as Hd0.
  { destruct (wf_door_cell _ Hwf _ _ Hdoor0) as [(x1&dir1&Hx1&Hin1) (x2&dir2&Hx2&Hin2)].
    destruct Hj0 as [[He _]|[_ He]]; rewrite He in *;
      by eapply (mg_cell_doors _ _ _ Hmg cell). }
  destruct (mg_door _ _ _ Hmg d0 Hd0) as (door0'&Hdoor0'&Hc1&Hc2&Hne). simplify_eq.
  assert (n ∈ cs ∧ n ≠ cell) as [Hncs Hnc].
  { destruct Hj0 as [[<- <-]|[<- <-]]; split; done. }
  apply list_elem_of_fmap in Hd as ([dir d']&->&Hin). simpl in *.
  destruct (wf_cell_door _ Hwf _ _ _ _ Hxn Hin) as (door'&Hdoor'&Hends'). simplify_eq.
  split_and!; [done|done|by eapply (mg_cell_doors _ _ _ Hmg n)|].
  unfold joins. destruct Hends as [He|He], Hends' as [He'|He']; try tauto; congruence.
Qed.

Lemma head_snoc_snoc {A} (l : list A) (a b : A) : head ((l ++ [a]) ++ [b]) = head (l ++ [a]).
Proof. by destruct l. Qed.

Lemma rec_inv_push w w' cs ds s cell v stack n d door :
  maze_graph w cs ds → rec_inv w cs ds s cell v stack →
  n ∈ cs → n ≠ cell → n ∉ v → d ∈ ds →
  doorHeap w !! d = Some door → joins door cell n →
  opens_one w w' d door →
  rec_inv w' cs ds s n (v ++ [n]) (stack ++ [cell]).
Proof.
  intros Hmg [Hnd Hcells Hcell Hstack Hseen Hhead Hconn Hopen Hdone (Hc1&Hc2&Hc3)]
    Hn Hnc Hnv Hd Hdoor Hj Hone.
  assert (link w' ds cell n) as Hedge.
  { apply (link_opened _ _ _ _ _ _ _ Hone). by right. }
  split.
  - apply NoDup_app. split_and!; [done| |apply NoDup_singleton].
    by intros c Hc ->%list_elem_of_singleton.
  - intros c [?| ->%list_elem_of_singleton]%elem_of_app; auto.
  - done.
  - intros c [?| ->%list_elem_of_singleton]%elem_of_app; auto.
  - intros a Ha. rewrite !elem_of_app, !list_elem_of_singleton in *.
    destruct Ha as [Ha| ->]; [destruct (Hseen a Ha); tauto | tauto].
  - by rewrite head_snoc_snoc.
  - intros a Ha. rewrite !elem_of_app, !list_elem_of_singleton in Ha.
    assert (a = n ∨ (a ∈ v ∨ a ∈ stack ∨ a = cell)) as [->|Ha'] by tauto.
    + eapply rtc_r; [|done]. eapply link_opened_mono; [done|]. apply Hconn. auto.
    + eapply link_opened_mono; [done|]. by apply Hconn.
  - intros d' door' Hd' Hdoor' Hopen'.
    rewrite (opens_one_lookup _ _ _ _ d' Hone) in Hdoor'.
    rewrite !elem_of_app, !list_elem_of_singleton.
    case_decide; simplify_eq.
    + simpl. destruct (Hseen cell) as [?|?]; [by right| |];
        destruct Hj as [[<- <-]|[<- <-]]; tauto.
    + destruct (Hopen d' door' Hd' Hdoor' Hopen'). tauto.
  - intros a b Ha Hna Hne Hadj%(door_adj_opened _ _ _ _ _ _ _ Hone).
    rewrite !elem_of_app, !list_elem_of_singleton in *.
    left. apply (Hdone a b); tauto.
  - rewrite length_app. simpl.
    destruct (Door.closed door) eqn:Hcl.
    + rewrite (open_count_opened _ _ _ _ _ Hone Hcl (mg_doors_nodup _ _ _ Hmg)).
      rewrite decide_True by done. split_and!; [lia|lia|].
      intros Hs. rewrite Hc3; [lia|]. intros ?. apply Hs. apply elem_of_app. by left.
    + pose proof (opens_one_same _ _ _ _ Hone Hcl) as Heq.
      assert (n = s) as ->.
      { destruct (Hopen d door Hd Hdoor Hcl) as [H1 H2].
        destruct Hj as [[_ <-]|[<- _]]; tauto. }
      assert (filter (λ d, is_open w' d) ds = filter (λ d, is_open w d) ds) as ->.
      { unfold is_open. by rewrite Heq. }
      specialize (Hc3 Hnv). split_and!; [lia|lia|].
      intros Hs. destruct Hs. apply elem_of_app. right. left.
Qed.

Lemma rec_inv_pop w cs ds s cell v stack top :
  heap_wf w → maze_graph w cs ds → rec_inv w cs ds s cell v (stack ++ [top]) →
  filter (λ n, n ∉ v) (all_neighbors w cell) = [] →
  rec_inv w cs ds s top v stack.
Proof.
  intros Hwf Hmg [Hnd Hcells Hcell Hstack Hseen Hhead Hconn Hopen Hdone Hcount] Hu.
  split; try done.
  - apply Hstack. apply elem_of_app. right. left.
  - intros c Hc. apply Hstack. apply elem_of_app. by left.
  - intros a Ha. apply Hseen. rewrite elem_of_app, list_elem_of_singleton. tauto.
  - by rewrite head_snoc_snoc in Hhead.
  - intros a Ha. apply Hconn. rewrite elem_of_app, list_elem_of_singleton. tauto.
  - intros a b Ha Hna Hne Hadj.
    destruct (decide (a = cell)) as [->|Hac].
    + destruct (decide (b ∈ v)) as [|Hb]; [done|].
      assert (b ∈ filter (λ n, n ∉ v) (all_neighbors w cell)) as Hin.
      { apply list_elem_of_filter. split; [done|].
        apply elem_of_all_neighbors_door; [done|by apply (mg_cells_valid _ _ _ Hmg)|].
        destruct Hadj as (d&door&_&?&?). by exists d, door. }
      rewrite Hu in Hin. by apply elem_of_nil in Hin.
    + apply (Hdone a b); [done| |done|done].
      rewrite elem_of_app, list_elem_of_singleton. tauto.
Qed.

(** What the recursive backtracker leaves: a connected maze with
    [length cs - 1] or [length cs] open doors. *)
Definition connected_maze (w : World) (cs : list cell_ref) (ds : list door_ref) : Prop :=
  (∀ a b, a ∈ cs → b ∈ cs → rtc (link w ds) a b)
  ∧ length cs - 1 ≤ length (filter (λ d, is_open w d) ds)
  ∧ length (filter (λ d, is_open w d) ds) ≤ length cs.

Lemma rec_inv_end w cs ds s cell v :
  heap_wf w → maze_graph w cs ds → rec_inv w cs ds s cell v [] →
  filter (λ n, n ∉ v) (all_neighbors w cell) = [] →
  connected_maze w cs ds.
Proof.
  intros Hwf Hmg [Hnd Hcells Hcell Hstack Hseen Hhead Hconn Hopen Hdone (Hc1&Hc2&Hc3)] Hu.
  simpl in Hhead. injection Hhead as ->.
  assert (∀ b, door_adj w ds s b → b ∈ v) as Hs.
  { intros b Hadj. destruct (decide (b ∈ v)) as [|Hb]; [done|].
    assert (b ∈ filter (λ n, n ∉ v) (all_neighbors w s)) as Hin.
    { apply list_elem_of_filter. split; [done|].
      apply elem_of_all_neighbors_door; [done|by apply (mg_cells_valid _ _ _ Hmg)|].
      destruct Hadj as (d&door&_&?&?). by exists d, door. }
    rewrite Hu in Hin. by apply elem_of_nil in Hin. }
  assert (∀ c, c ∈ cs → c ∈ v ∨ c = s) as Hall.
  { apply (maze_graph_closed w cs ds (λ c, c ∈ v ∨ c = s) s Hmg); [done|by right|].
    intros a b Ha Hadj. left. destruct (decide (a = s)) as [->|Hne]; [by apply Hs|].
    apply (Hdone a b); [done|apply not_elem_of_nil|done|done]. }
  assert (∀ c, c ∈ cs → rtc (link w ds) s c) as Hfrom.
  { intros c [?| ->]%Hall; [|done]. apply Hconn. by left. }
  assert (length v ≤ length cs) as Hle.
  { by apply submseteq_length, NoDup_submseteq. }
  split_and!.
  - intros a b Ha Hb. etrans; [|by apply Hfrom].
    apply (rtc_sym _ _ _ (link_sym w ds)). by apply Hfrom.
  - destruct (decide (s ∈ v)) as [Hsv|Hsv].
    + assert (length cs ≤ length v); [|lia].
      apply submseteq_length, NoDup_submseteq; [apply Hmg|].
      intros c [?| ->]%Hall; done.
    + specialize (Hc3 Hsv).
      assert (length cs ≤ length (s :: v)) as H; [|simpl in H; lia].
      apply submseteq_length, NoDup_submseteq; [apply Hmg|].
      intros c [?| ->]%Hall; [by right|left].
  - lia.
Qed.

Lemma rec_loop_result fuel cell v stack w cs ds s :
  heap_wf w → maze_graph w cs ds → rec_inv w cs ds s cell v stack →
  2 * (length cs - length v) + length stack < fuel →
  ∃ w', rec_loop entropy fuel cell v stack w = Ok () w'
        ∧ generates w w' ∧ connected_maze w' cs ds ∧ doors_kept ds w w'.
Proof.
  revert cell v stack w. induction fuel as [|fuel IH];
    intros cell v stack w Hwf Hmg Hinv Hfuel; [lia|].
  simpl.
  pose proof (mg_cells_valid _ _ _ Hmg cell (ri_cell _ _ _ _ _ _ _ Hinv)) as Hvalid.
  destruct (rec_step_spec cell v stack w Hwf Hvalid)
    as [(_&n&xn&d&door&w1&w2&Hn&Hxn&Hd&Hdoor&Hends&Hsame&Hone&Hrun)
       |[(Hu&->&Hrun)|(Hu&stack'&top&->&Hrun)]];
    rewrite (bind_ok _ _ _ _ _ Hrun).
  - apply list_elem_of_filter in Hn as [Hnv Hnn].
    destruct (maze_neighbor w cs ds cell n xn d door) as (Hncs&Hnc&Hdds&Hj);
      [done|done|apply (ri_cell _ _ _ _ _ _ _ Hinv)|done..|].
    pose proof (same_store_generates _ _ Hsame) as Hgen1.
    pose proof (opens_one_generates _ _ _ _ Hone) as Hgen2.
    destruct Hsame as (Hc1&Hd1&Hm1).
    assert (rec_inv w2 cs ds s n (v ++ [n]) (stack ++ [cell])) as Hinv2.
    { apply (rec_inv_push w1 w2 cs ds s cell v stack n d door);
        [by eapply maze_graph_generates|by eapply rec_inv_same|done|done|done|done
        |by rewrite Hd1|done|done]. }
    assert (length (v ++ [n]) ≤ length cs) as Hlen.
    { apply submseteq_length, NoDup_submseteq; [apply Hinv2|]. apply Hinv2. }
    destruct (IH n (v ++ [n]) (stack ++ [cell]) w2) as (w3&Hloop&Hgen3&Hres&Hkept3).
    + eapply heap_wf_generates; [|done]. by eapply heap_wf_generates.
    + eapply maze_graph_generates; [done|]. by eapply maze_graph_generates.
    + done.
    + rewrite !length_app in *. simpl in *. lia.
    + exists w3. split_and!; [done| |done|].
      * etrans; [done|]. by etrans.
      * etrans; [by apply doors_kept_eq|]. etrans; [by eapply opens_one_kept|done].
  - rewrite mret_run.
    exists w. split_and!; [done|reflexivity|by eapply rec_inv_end|reflexivity].
  - destruct (IH top v stack' w) as (w3&Hloop&Hgen3&Hres&Hkept3); [done|done| | |].
    + by eapply rec_inv_pop.
    + rewrite length_app in Hfuel. simpl in Hfuel. lia.
    + by exists w3.
Qed.

Lemma createRandomMazeRec_result fuel maze m w ds :
  heap_wf w → mazeHeap w !! maze = Some m →
  maze_graph w (concat (MazeGenerator.cells m)) ds →
  (∀ d, d ∈ ds → is_open w d = false) →
  2 * length (concat (MazeGenerator.cells m)) < fuel →
  ∃ w', createRandomMazeRec entropy fuel maze w = Ok () w'
        ∧ generates w w' ∧ connected_maze w' (concat (MazeGenerator.cells m)) ds
        ∧ doors_kept ds w w'.
Proof.
  intros Hwf Hm Hmg Hclosed Hfuel. unfold createRandomMazeRec.
  destruct (random_cell_run entropy maze m w Hwf Hm) as (c&w1&Hrun&Hsame&Hc&Hcs).
  rewrite (bind_ok _ _ _ _ _ Hrun).
  pose proof (same_store_generates _ _ Hsame) as Hgen1.
  pose proof (heap_wf_same_store _ _ Hwf Hsame) as Hwf1.
  pose proof (maze_graph_generates _ _ _ _ Hgen1 Hmg) as Hmg1.
  destruct Hsame as (Hc1&Hd1&Hm1).
  destruct (rec_loop_result fuel c [] [] w1 (concat (MazeGenerator.cells m)) ds c)
    as (w2&Hloop&Hgen2&Hres&Hkept2); [done|done| | |].
  - apply rec_inv_start; [|done]. intros d Hd. unfold is_open. rewrite Hd1. by apply Hclosed.
  - simpl. lia.
  - exists w2. split_and!; [done|by etrans|done|].
    etrans; [by apply doors_kept_eq|done].
Qed.
End RecTree.

Lemma connected_maze_perm w cs ds ds' :
  ds' ≡ₚ ds → connected_maze w cs ds → connected_maze w cs ds'.
Proof.
  intros Hperm (Hconn&Hlow&Hhigh). split_and!.
  - intros a b Ha Hb. eapply rtc_mono; [|by apply Hconn].
    intros x y. apply link_subset. intros d. by rewrite Hperm.
  - by rewrite Hperm.
  - by rewrite Hperm.
Qed.

(** X14: the recursive backtracker connects the maze, with one door too
    many at most. From a store whose doors and cells refer to each other,
    for every grid size and all values of [Math.random], [new Maze] with
    an [algo] other than ['prim'] and ['kruskal'] returns a maze in which
    every cell can be reached from every other over open doors of the
    maze, and [rows * cols - 1] or [rows * cols] doors are open;
    [2 * rows * cols + 1] rounds are enough for the loop. *)
Theorem recursive_backtracker_connects (entropy : nat → Draw) (fuel : nat) (config : Config)
    (w0 : World) :
  heap_wf w0 → config_algo config ≠ "prim" → config_algo config ≠ "kruskal" →
  2 * (config_rows config * config_cols config) < fuel →
  ∃ this w m ds,
    constructor entropy fuel config w0 = Ok this w
    ∧ mazeHeap w !! this = Some m
    ∧ MazeGenerator.doors m = Some <$> ds
    ∧ length (concat (MazeGenerator.cells m)) = config_rows config * config_cols config
    ∧ connected_maze w (concat (MazeGenerator.cells m)) ds.
Proof.
  intros Hwf Hnp Hnk Hfuel.
  destruct (constructor_parts entropy fuel config w0) as (Hrun&Hm1&Hcells&Hmg&Hclosed).
  set (w1 := grid_state _ _ _ _ _) in *.
  set (ds := seq (door_base w0) _) in *.
  assert (heap_wf w1) as Hwf1.
  { apply final_wf; [apply config_cols_pos | apply config_rows_pos | done]. }
  destruct (createRandomMazeRec_result entropy fuel (this_maze w0) _ w1 ds Hwf1 Hm1)
    as (w&Hgen_run&Hgen&Hres&_).
  { simpl. by rewrite Hcells. }
  { done. }
  { simpl. by rewrite Hcells, length_seq. }
  assert (randomizeMaze entropy fuel (this_maze w0) w1 = Ok () w) as Hrand.
  { unfold randomizeMaze. rewrite (bind_ok _ _ _ _ _ (getMaze_ok _ _ _ Hm1)). simpl.
    by rewrite !decide_False by done. }
  rewrite Hrand in Hrun.
  destruct (generated_maze w1 w _ _ ds Hgen Hm1 eq_refl) as (m&ds'&Hm&Hc&Hds'&Hperm).
  exists (this_maze w0), w, m, ds'. simpl in Hc, Hres. rewrite Hc.
  split_and!; [done|done|done|by rewrite Hcells, length_seq|by eapply connected_maze_perm].
Qed.

Lemma recursive_backtracker_connects_witness :
  ∃ this w m ds,
    constructor (half_at 3) 9 (Number 2) empty_world = Ok this w
    ∧ mazeHeap w !! this = Some m
    ∧ MazeGenerator.doors m = Some <$> ds
    ∧ length (concat (MazeGenerator.cells m))
      = config_rows (Number 2) * config_cols (Number 2)
    ∧ connected_maze w (concat (MazeGenerator.cells m)) ds.
Proof.
  apply (recursive_backtracker_connects (half_at 3) 9 (Number 2) empty_world).
  - apply heap_wf_empty.
  - vm_compute. congruence.
  - vm_compute. congruence.
  - vm_compute. lia.
Defined.

(** ** Generated mazes are connected *)

Lemma spanning_tree_connected w cs ds :
  spanning_tree w cs ds → ∀ a b, a ∈ cs → b ∈ cs → rtc (link w ds) a b.
Proof. by intros (_&?&_). Qed.

(** Whatever the algorithm, the constructor returns a maze in which all
    cells are joined by walks over open doors. *)
Lemma constructor_connected entropy fuel config w0 :
  heap_wf w0 →
  4 * (config_rows config * config_cols config) + 2 ≤ fuel →
  ∃ w m,
    constructor entropy fuel config w0 = Ok (this_maze w0) w
    ∧ heap_wf w
    ∧ length (cellHeap w) = length (cellHeap w0) + config_rows config * config_cols config
    ∧ mazeHeap w !! this_maze w0 = Some m
    ∧ concat (MazeGenerator.cells m)
      = seq (cell_base w0) (config_rows config * config_cols config)
    ∧ ∀ a b, a ∈ concat (MazeGenerator.cells m) → b ∈ concat (MazeGenerator.cells m) →
             reachable w a b.
Proof.
  intros Hwf Hfuel.
  destruct (constructor_parts entropy fuel config w0) as (Hrun&Hm1&Hcells&Hmg&Hclosed).
  set (w1 := grid_state _ _ _ _ _) in *.
  set (ds := seq (door_base w0) _) in *.
  set (m1 := MazeGenerator.mk _ _ _ _ _) in *.
  assert (heap_wf w1) as Hwf1.
  { apply final_wf; [apply config_cols_pos | apply config_rows_pos | done]. }
  assert (length (cellHeap w1)
          = length (cellHeap w0) + config_rows config * config_cols config) as Hlen1.
  { apply final_cells_length. }
  assert (maze_graph w1 (concat (MazeGenerator.cells m1)) ds) as Hmg'.
  { simpl. by rewrite Hcells. }
  assert (length (concat (MazeGenerator.cells m1))
          = config_rows config * config_cols config) as Hn.
  { simpl. by rewrite Hcells, length_seq. }
  assert (∃ w, randomizeMaze entropy fuel (this_maze w0) w1 = Ok () w ∧ generates w1 w
               ∧ ∀ a b, a ∈ concat (MazeGenerator.cells m1) →
                        b ∈ concat (MazeGenerator.cells m1) → rtc (link w ds) a b)
    as (w&Hrand&Hgen&Hconn).
  { unfold randomizeMaze. rewrite (bind_ok _ _ _ _ _ (getMaze_ok _ _ _ Hm1)).
    case_decide; [|case_decide].
    - destruct (createRandomMazePrim_tree entropy fuel (this_maze w0) m1 w1 ds)
        as (w&?&?&Htree&_); [done..|lia|].
      exists w. split_and!; [done|done|by apply spanning_tree_connected].
    - destruct (createRandomMazeKruskal_tree entropy fuel (this_maze w0) m1 w1
                  (concat (MazeGenerator.cells m1)) ds) as (w&?&?&Htree&_);
        [done|done|done|done|lia|].
      exists w. split_and!; [done|done|by apply spanning_tree_connected].
    - destruct (createRandomMazeRec_result entropy fuel (this_maze w0) m1 w1 ds)
        as (w&?&?&Hres&_); [done..|lia|].
      exists w. split_and!; [done|done|apply Hres]. }
  rewrite Hrand in Hrun.
  destruct (generated_maze w1 w _ _ ds Hgen Hm1 eq_refl) as (m&ds'&Hm&Hc&_).
  exists w, m. rewrite Hc.
  split_and!; [done|by eapply heap_wf_generates| |done|done|].
  - by rewrite (generates_cells _ _ Hgen).
  - intros a b Ha Hb. eapply link_reachable. by apply Hconn.
Qed.

(** X15: [solve] finds a way between any two cells of a maze the
    constructor has made, whatever the algorithm, the size of the grid and
    the values of [Math.random]: it returns a path from the first cell to
    the second, without a repeated cell, that only goes through open
    doors. *)
Theorem solve_succeeds_on_generated_maze (entropy : nat → Draw) (fuel : nat)
    (config : Config) (w0 : World) :
  heap_wf w0 →
  4 * (length (cellHeap w0) + config_rows config * config_cols config) + 2 ≤ fuel →
  ∃ this w m,
    constructor entropy fuel config w0 = Ok this w
    ∧ mazeHeap w !! this = Some m
    ∧ ∀ a b, a ∈ concat (MazeGenerator.cells m) → b ∈ concat (MazeGenerator.cells m) →
        ∃ path w',
          solve entropy fuel this a b w = Ok path w'
          ∧ head path = Some a ∧ last path = Some b ∧ NoDup path
          ∧ ∀ i x y, path !! i = Some x → path !! S i = Some y → open_between w x y.
Proof.
  intros Hwf Hfuel.
  destruct (constructor_connected entropy fuel config w0 Hwf) as (w&m&Hrun&Hwf'&Hlen&Hm&Hcs&Hconn);
    [lia|].
  exists (this_maze w0), w, m. split_and!; [done|done|].
  intros a b Ha Hb.
  destruct (solve_finds entropy w (this_maze w0) a b fuel Hwf') as (path&w'&Hsolve&Hpath).
  - rewrite Hcs in Ha. apply elem_of_seq in Ha. unfold cell_base in Ha. lia.
  - by apply Hconn.
  - lia.
  - exists path, w'. by destruct Hpath as (?&?&?&?).
Qed.

Lemma solve_succeeds_on_generated_maze_witness :
  ∃ this w m,
    constructor zero_draws 18 (Options (Some 2) (Some 2) (Some "prim")) empty_world
    = Ok this w
    ∧ mazeHeap w !! this = Some m
    ∧ ∀ a b, a ∈ concat (MazeGenerator.cells m) → b ∈ concat (MazeGenerator.cells m) →
        ∃ path w',
          solve zero_draws 18 this a b w = Ok path w'
          ∧ head path = Some a ∧ last path = Some b ∧ NoDup path
          ∧ ∀ i x y, path !! i = Some x → path !! S i = Some y → open_between w x y.
Proof.
  apply (solve_succeeds_on_generated_maze zero_draws 18
           (Options (Some 2) (Some 2) (Some "prim")) empty_world).
  - apply heap_wf_empty.
  - vm_compute. lia.
Defined.

(** ** Mazes do not disturb each other *)

(** X16: [new MazeGenerator(config)] only adds to the store. Every cell, door
    and maze object that existed before the call is, after the call and the
    generation it runs, exactly as it was: an earlier maze keeps its doors,
    open or closed, whichever algorithm builds the new one. *)
Theorem new_maze_keeps_earlier_mazes (entropy : nat → Draw) (fuel : nat) (config : Config)
    (w0 : World) :
  heap_wf w0 →
  4 * (config_rows config * config_cols config) + 2 ≤ fuel →
  ∃ w, constructor entropy fuel config w0 = Ok (this_maze w0) w
    ∧ (∀ c cell, cellHeap w0 !! c = Some cell → cellHeap w !! c = Some cell)
    ∧ (∀ d door, doorHeap w0 !! d = Some door → doorHeap w !! d = Some door)
    ∧ (∀ i m, mazeHeap w0 !! i = Some m → mazeHeap w !! i = Some m).
Proof.
  intros Hwf Hfuel.
  destruct (constructor_parts entropy fuel config w0) as (Hrun&Hm1&Hcells&Hmg&Hclosed).
  set (w1 := grid_state _ _ _ _ _) in *.
  set (ds := seq (door_base w0) _) in *.
  set (m1 := MazeGenerator.mk _ _ _ _ _) in *.
  assert (heap_wf w1) as Hwf1.
  { apply final_wf; [apply config_cols_pos | apply config_rows_pos | done]. }
  assert (maze_graph w1 (concat (MazeGenerator.cells m1)) ds) as Hmg'.
  { simpl. by rewrite Hcells. }
  assert (length (concat (MazeGenerator.cells m1))
          = config_rows config * config_cols config) as Hn.
  { simpl. by rewrite Hcells, length_seq. }
  assert (∃ w, randomizeMaze entropy fuel (this_maze w0) w1 = Ok () w ∧ generates w1 w
               ∧ doors_kept ds w1 w
               ∧ ∀ i, i ≠ this_maze w0 → mazeHeap w !! i = mazeHeap w1 !! i)
    as (w&Hrand&Hgen&Hkept&Hmazes).
  { unfold randomizeMaze. rewrite (bind_ok _ _ _ _ _ (getMaze_ok _ _ _ Hm1)).
    case_decide; [|case_decide].
    - destruct (createRandomMazePrim_tree entropy fuel (this_maze w0) m1 w1 ds)
        as (w&Hw&?&_&?); [done..|lia|].
      exists w. split_and!; [done..|]. intros i _.
      by rewrite (posts_ok _ _ _ _ _ (createRandomMazePrim_keeps entropy fuel _) Hw).
    - destruct (createRandomMazeKruskal_tree entropy fuel (this_maze w0) m1 w1
                  (concat (MazeGenerator.cells m1)) ds) as (w&?&?&_&?&?);
        [done|done|done|done|lia|].
      by exists w.
    - destruct (createRandomMazeRec_result entropy fuel (this_maze w0) m1 w1 ds)
        as (w&Hw&?&_&?); [done..|lia|].
      exists w. split_and!; [done..|]. intros i _.
      by rewrite (posts_ok _ _ _ _ _ (createRandomMazeRec_keeps entropy fuel _) Hw). }
  rewrite Hrand in Hrun. exists w. split_and!; [done|..].
  - intros c cell Hc. rewrite (generates_cells _ _ Hgen). simpl.
    by apply lookup_app_l_Some.
  - intros d door Hd. rewrite Hkept.
    + simpl. by apply lookup_app_l_Some.
    + apply lookup_lt_Some in Hd. unfold ds, door_base. rewrite elem_of_seq. lia.
  - intros i m Hi. rewrite Hmazes.
    + simpl. by apply lookup_app_l_Some.
    + apply lookup_lt_Some in Hi. unfold this_maze. lia.
Qed.

Lemma new_maze_keeps_earlier_mazes_witness :
  let w0 := world2x2 (false, false, true, false) "recursive" [0; 1; 2; 3] 6 in
  ∃ w, constructor zero_draws 18 (Options (Some 2) (Some 2) (Some "kruskal")) w0
       = Ok (this_maze w0) w
    ∧ (∀ c cell, cellHeap w0 !! c = Some cell → cellHeap w !! c = Some cell)
    ∧ (∀ d door, doorHeap w0 !! d = Some door → doorHeap w !! d = Some door)
    ∧ (∀ i m, mazeHeap w0 !! i = Some m → mazeHeap w !! i = Some m).
Proof.
  apply (new_maze_keeps_earlier_mazes zero_draws 18
           (Options (Some 2) (Some 2) (Some "kruskal"))
           (world2x2 (false, false, true, false) "recursive" [0; 1; 2; 3] 6)).
  - apply (constructor_inv zero_draws 18 (Number 2) empty_world 0); [apply heap_wf_empty|].
    vm_compute. reflexivity.
  - vm_compute. lia.
Defined.

(** ** The cells in order *)

(** X17: after [new MazeGenerator(config)] the iterator yields the
    [rows * cols] cells of the maze, each once, row by row, and changes
    nothing: the cell yielded at position [x * cols + y] is [cells[x][y]], and
    its [row] is [x] and its [col] is [y]. *)
Theorem iterator_row_major (entropy : nat → Draw) (fuel : nat) (config : Config)
    (w0 w : World) (this : maze_ref) :
  constructor entropy fuel config w0 = Ok this w →
  ∃ m cs,
    mazeHeap w !! this = Some m
    ∧ iterator this w = Ok cs w
    ∧ length cs = config_rows config * config_cols config
    ∧ NoDup cs
    ∧ ∀ x y, x < config_rows config → y < config_cols config →
        ∃ row c cell,
          MazeGenerator.cells m !! x = Some row ∧ row !! y = Some c
          ∧ cs !! (x * config_cols config + y) = Some c
          ∧ cellHeap w !! c = Some cell
          ∧ Cell.row cell = x ∧ Cell.col cell = y.
Proof.
  intros Hcon.
  destruct (constructor_parts entropy fuel config w0) as (Hrun&Hm1&Hcells&_&_).
  set (w1 := grid_state _ _ _ _ _) in *.
  set (ds := seq (door_base w0) _) in *.
  rewrite Hcon in Hrun.
  destruct (randomizeMaze entropy fuel (this_maze w0) w1) as [[] w2| | |] eqn:Hrand;
    [|done..].
  injection Hrun as -> ->.
  pose proof (posts_ok _ _ _ _ _ (randomizeMaze_generates entropy fuel _) Hrand) as Hgen.
  destruct (generated_maze w1 w2 _ _ ds Hgen Hm1 eq_refl) as (m&ds'&Hm&Hc&_).
  simpl in Hc.
  exists m, (seq (cell_base w0) (config_rows config * config_cols config)).
  split_and!.
  - done.
  - unfold iterator. rewrite (bind_ok _ _ _ _ _ (getMaze_ok _ _ _ Hm)).
    by rewrite mret_run, Hc, Hcells.
  - apply length_seq.
  - apply NoDup_seq.
  - intros x y Hx Hy.
    assert (x * config_cols config + y < config_rows config * config_cols config) as Hk
      by nia.
    exists (seq (cell_base w0 + x * config_cols config) (config_cols config)),
           (cell_base w0 + (x * config_cols config + y)).
    eexists. split_and!.
    + rewrite Hc. unfold grid_cell_refs. by rewrite list_lookup_fmap, lookup_seq_lt.
    + rewrite lookup_seq_lt by done. f_equal. lia.
    + by rewrite lookup_seq_lt.
    + rewrite (generates_cells _ _ Hgen). unfold w1, grid_state.
      rewrite grid_cell_lookup;
        [reflexivity|first [apply config_cols_pos|apply config_rows_pos|done]..].
    + simpl. rewrite Nat.div_add_l by lia. rewrite Nat.div_small by done. lia.
    + simpl. rewrite Nat.add_comm, Nat.Div0.mod_add. by apply Nat.mod_small.
Qed.

Lemma iterator_row_major_witness :
  ∃ m cs,
    mazeHeap (world2x2 (false, false, true, false) "recursive" [0; 1; 2; 3] 6) !! 0 = Some m
    ∧ iterator 0 (world2x2 (false, false, true, false) "recursive" [0; 1; 2; 3] 6)
      = Ok cs (world2x2 (false, false, true, false) "recursive" [0; 1; 2; 3] 6)
    ∧ length cs = config_rows (Number 2) * config_cols (Number 2)
    ∧ NoDup cs
    ∧ ∀ x y, x < config_rows (Number 2) → y < config_cols (Number 2) →
        ∃ row c cell,
          MazeGenerator.cells m !! x = Some row ∧ row !! y = Some c
          ∧ cs !! (x * config_cols (Number 2) + y) = Some c
          ∧ cellHeap (world2x2 (false, false, true, false) "recursive" [0; 1; 2; 3] 6) !! c
            = Some cell
          ∧ Cell.row cell = x ∧ Cell.col cell = y.
Proof.
  apply (iterator_row_major zero_draws 18 (Number 2) empty_world).
  vm_compute. reflexivity.
Defined.

(** ** Neighbours on the grid *)

(** Positions [t] and [t'] of a grid [cols] wide are side by side. *)
Definition grid_adj (cols t t' : nat) : Prop :=
  (t `div` cols = t' `div` cols
   ∧ (t `mod` cols + 1 = t' `mod` cols ∨ t' `mod` cols + 1 = t `mod` cols))
  ∨ (t `mod` cols = t' `mod` cols
     ∧ (t `div` cols + 1 = t' `div` cols ∨ t' `div` cols + 1 = t `div` cols)).

Lemma grid_adj_sym cols t t' : grid_adj cols t t' → grid_adj cols t' t.
Proof. unfold grid_adj. intros [[? [?|?]]|[? [?|?]]]; lia. Qed.

Lemma grid_adj_up cols t : 0 < cols → 1 ≤ t `div` cols → grid_adj cols (t - cols) t.
Proof.
  intros Hcols Hx. destruct (flat_div_mod t cols Hcols) as [Hflat Hmod].
  assert (t - cols = (t `div` cols - 1) * cols + t `mod` cols) as Hup by nia.
  destruct (div_mod_flat (t `div` cols - 1) (t `mod` cols) cols Hmod) as [Hdiv' Hmod'].
  rewrite <-Hup in *. right. lia.
Qed.

Lemma grid_adj_left cols t : 0 < cols → 1 ≤ t `mod` cols → grid_adj cols (t - 1) t.
Proof.
  intros Hcols Hy. destruct (flat_div_mod t cols Hcols) as [Hflat Hmod].
  assert (t - 1 = t `div` cols * cols + (t `mod` cols - 1)) as Hleft by nia.
  destruct (div_mod_flat (t `div` cols) (t `mod` cols - 1) cols ltac:(lia))
    as [Hdiv' Hmod'].
  rewrite <-Hleft in *. left. lia.
Qed.

(** Two positions side by side, the second one later: it is the one on the
    right of the first or the one below it. *)
Lemma grid_adj_later cols t t' :
  0 < cols → grid_adj cols t t' → t < t' →
  (t = t' - 1 ∧ 1 ≤ t' `mod` cols) ∨ (t = t' - cols ∧ 1 ≤ t' `div` cols).
Proof.
  intros Hcols Hadj Hlt.
  destruct (flat_div_mod t cols Hcols) as [Hflat Hmod].
  destruct (flat_div_mod t' cols Hcols) as [Hflat' Hmod'].
  destruct Hadj as [[Hrow [Hcol|Hcol]]|[Hcol [Hrow|Hrow]]].
  - left. rewrite Hrow in Hflat. lia.
  - rewrite Hrow in Hflat. lia.
  - right. rewrite <-Hrow in Hflat'. nia.
  - rewrite <-Hrow in Hflat. nia.
Qed.

Lemma door_between_sym w a b : door_between w a b → door_between w b a.
Proof. intros (d&door&Hd&Hends). exists d, door. split; [done|]. tauto. Qed.

Lemma door_between_generates w w' a b :
  generates w w' → door_between w a b ↔ door_between w' a b.
Proof.
  intros (_&Hdoors&_). split.
  - intros (d&door&Hd&Hends).
    destruct (Forall2_lookup_l _ _ _ _ _ Hdoors Hd) as (door'&Hd'&(H1&H2&_)).
    exists d, door'. by rewrite H1, H2.
  - intros (d&door'&Hd'&Hends).
    destruct (Forall2_lookup_r _ _ _ _ _ Hdoors Hd') as (door&Hd&(H1&H2&_)).
    exists d, door. by rewrite <-H1, <-H2.
Qed.

Section GridNeighbors.
Variable w0 : World.
Variables rows cols : nat.
Variable algo : string.
Hypothesis cols_pos : 0 < cols.
Hypothesis rows_pos : 0 < rows.
Hypothesis w0_wf : heap_wf w0.

Abbreviation final := (grid_state w0 rows cols algo (rows * cols)).

(** A door of an earlier maze has no end among the new cells. *)
Lemma old_door_ends d door :
  doorHeap w0 !! d = Some door →
  Door.cell1 door < cell_base w0 ∧ Door.cell2 door < cell_base w0.
Proof.
  intros Hd.
  destruct (wf_door_cell _ w0_wf _ _ Hd) as [(x1&?&Hx1&_) (x2&?&Hx2&_)].
  split; by eapply lookup_lt_Some.
Qed.

Lemma grid_door_between_adj t b :
  door_between final (cell_base w0 + t) b →
  ∃ t', t' < rows * cols ∧ b = cell_base w0 + t' ∧ t < rows * cols ∧ grid_adj cols t t'.
Proof.
  intros (d&door&Hd&Hends).
  apply final_door_inv in Hd as [Hold|(k&Hdk&Hk)]; [| |done..].
  { destruct (old_door_ends _ _ Hold). lia. }
  destruct (grid_doors_lookup _ _ cols_pos _ _ _ Hk)
    as (t2&Ht2&_&H2&[(H1&Hx&_)|(H1&Hy&_)]).
  - pose proof (div_ge_1 _ cols_pos _ Hx) as Hge.
    pose proof (grid_adj_up cols t2 cols_pos Hx) as Hadj.
    destruct Hends as [[Ha Hb]|[Hb Ha]].
    + exists t2. assert (t = t2 - cols) as -> by lia.
      split_and!; [done|congruence|lia|done].
    + exists (t2 - cols). assert (t = t2) as -> by lia.
      split_and!; [lia|congruence|done|by apply grid_adj_sym].
  - assert (1 ≤ t2) as Hge by (by apply (mod_ge_1 cols)).
    pose proof (grid_adj_left cols t2 cols_pos Hy) as Hadj.
    destruct Hends as [[Ha Hb]|[Hb Ha]].
    + exists t2. assert (t = t2 - 1) as -> by lia.
      split_and!; [done|congruence|lia|done].
    + exists (t2 - 1). assert (t = t2) as -> by lia.
      split_and!; [lia|congruence|done|by apply grid_adj_sym].
Qed.

Lemma grid_adj_door_later t t' :
  t' < rows * cols → grid_adj cols t t' → t < t' →
  door_between final (cell_base w0 + t) (cell_base w0 + t').
Proof.
  intros Ht' Hadj Hlt.
  destruct (grid_adj_later cols t t' cols_pos Hadj Hlt) as [[-> Hy]|[-> Hx]].
  - destruct (step_door_in w0 rows cols algo cols_pos rows_pos t'
                (Door.mk (cell_base w0 + (t' - 1)) (cell_base w0 + t') true))
      as (d&_&Hdoor); [done| |].
    { unfold step_doors. apply elem_of_app. right. rewrite decide_True by done. left. }
    exists d, (Door.mk (cell_base w0 + (t' - 1)) (cell_base w0 + t') true).
    split; [done|]. by left.
  - destruct (step_door_in w0 rows cols algo cols_pos rows_pos t'
                (Door.mk (cell_base w0 + (t' - cols)) (cell_base w0 + t') true))
      as (d&_&Hdoor); [done| |].
    { unfold step_doors. apply elem_of_app. left. rewrite decide_True by done. left. }
    exists d, (Door.mk (cell_base w0 + (t' - cols)) (cell_base w0 + t') true).
    split; [done|]. by left.
Qed.

Lemma grid_adj_door t t' :
  t < rows * cols → t' < rows * cols → grid_adj cols t t' →
  door_between final (cell_base w0 + t) (cell_base w0 + t').
Proof.
  intros Ht Ht' Hadj. destruct (decide (t < t')) as [Hlt|Hge].
  - by apply grid_adj_door_later.
  - apply door_between_sym. apply grid_adj_door_later; [done|by apply grid_adj_sym|].
    assert (t ≠ t'); [|lia]. intros ->.
    unfold grid_adj in Hadj. lia.
Qed.
End GridNeighbors.

(** X18: in a maze made by [new MazeGenerator(config)], [_neighbors(cell)]
    lists exactly the cells of that maze that are side by side with [cell] on
    the grid: same row and columns one apart, or same column and rows one
    apart, whatever doors the generation has opened. No cell of an earlier
    maze is listed. *)
Theorem _neighbors_are_grid_neighbours (entropy : nat → Draw) (fuel : nat)
    (config : Config) (w0 w : World) (this : maze_ref) :
  heap_wf w0 →
  constructor entropy fuel config w0 = Ok this w →
  ∀ a ca, length (cellHeap w0) ≤ a → cellHeap w !! a = Some ca →
    ∃ ln, _neighbors a w = Ok ln w
      ∧ ∀ b, b ∈ ln ↔ length (cellHeap w0) ≤ b
                       ∧ ∃ cb, cellHeap w !! b = Some cb ∧ adjacent ca cb.
Proof.
  intros Hwf0 Hcon a ca Ha Hca.
  pose proof (config_rows_pos config) as Hrows.
  pose proof (config_cols_pos config) as Hcols.
  destruct (constructor_inv _ _ _ _ _ _ Hwf0 Hcon) as (_&Hwf&Hgen).
  pose proof (lookup_lt_Some _ _ _ Hca) as Hlt.
  rewrite (generates_cells _ _ Hgen) in Hca.
  apply final_cell_inv in Hca as [Hold|(i&Hi&Ha'&Hca)]; [| |done..].
  { apply lookup_lt_Some in Hold. lia. }
  subst a ca.
  exists (all_neighbors w (cell_base w0 + i)). split; [by apply _neighbors_run|].
  intros b. rewrite (elem_of_all_neighbors_door w _ b Hwf Hlt).
  rewrite <-(door_between_generates _ _ _ _ Hgen). split.
  - intros Hb. apply grid_door_between_adj in Hb as (j&Hj&Hb&_&Hadj); [|done..].
    subst b. split; [unfold cell_base; lia|].
    eexists. split; [rewrite (generates_cells _ _ Hgen); by apply final_cell_new|].
    exact Hadj.
  - intros (Hb&cb&Hcb&Hadj).
    rewrite (generates_cells _ _ Hgen) in Hcb.
    apply final_cell_inv in Hcb as [Hold|(j&Hj&Hb'&Hcb)]; [| |done..].
    { apply lookup_lt_Some in Hold. lia. }
    subst b cb. by apply grid_adj_door.
Qed.

Lemma _neighbors_are_grid_neighbours_witness :
  ∃ ca,
    cellHeap (world2x2 (false, false, true, false) "recursive" [0; 1; 2; 3] 6) !! 3
    = Some ca
    ∧ ∃ ln,
        _neighbors 3 (world2x2 (false, false, true, false) "recursive" [0; 1; 2; 3] 6)
        = Ok ln (world2x2 (false, false, true, false) "recursive" [0; 1; 2; 3] 6)
        ∧ ∀ b, b ∈ ln ↔
            length (cellHeap empty_world) ≤ b
            ∧ ∃ cb,
                cellHeap (world2x2 (false, false, true, false) "recursive" [0; 1; 2; 3] 6)
                !! b = Some cb
                ∧ adjacent ca cb.
Proof.
  eexists. split; [reflexivity|].
  apply (_neighbors_are_grid_neighbours zero_draws 18 (Number 2) empty_world _ 0).
  - apply heap_wf_empty.
  - vm_compute. reflexivity.
  - simpl. lia.
  - reflexivity.
Defined.

(** ** The sizes of the two groups of doors *)

(** The two ends of a door are in the same row of a grid [cols] wide whose
    first cell is [base]. *)
Definition same_row (base cols : nat) (door : Door.t) : Prop :=
  (Door.cell1 door - base) `div` cols = (Door.cell2 door - base) `div` cols.

Global Instance same_row_dec base cols door : Decision (same_row base cols door).
Proof. unfold same_row. apply _. Defined.

Lemma length_filter_seq {A} (P : nat → Prop) `{!∀ n, Decision (P n)}
    (Q : A → Prop) `{!∀ x, Decision (Q x)} (l : list A) (b : nat) :
  (∀ k x, l !! k = Some x → P (b + k) ↔ Q x) →
  length (filter P (seq b (length l))) = length (filter Q l).
Proof.
  revert b. induction l as [|x l IH]; intros b Hl; [done|].
  simpl. rewrite !filter_cons.
  assert (length (filter P (seq (S b) (length l))) = length (filter Q l)) as Hrest.
  { apply IH. intros k y Hk. rewrite <-(Hl (S k) y Hk). by rewrite Nat.add_succ_r. }
  pose proof (Hl 0 x eq_refl) as Hhead. rewrite Nat.add_0_r in Hhead.
  destruct (decide (P b)), (decide (Q x)); simpl; rewrite ?Hrest; tauto || done.
Qed.

Lemma length_filter_complement {A} (P : A → Prop) `{!∀ x, Decision (P x)} (l : list A) :
  length (filter P l) + length (filter (λ x, ¬ P x) l) = length l.
Proof. by rewrite <-length_app, filter_app_complement. Qed.

Section GroupSizes.
Variable w0 : World.
Variables rows cols : nat.
Variable algo : string.
Hypothesis cols_pos : 0 < cols.
Hypothesis rows_pos : 0 < rows.

Abbreviation final := (grid_state w0 rows cols algo (rows * cols)).

Lemma same_row_at t1 t2 closed :
  same_row (cell_base w0) cols (Door.mk (cell_base w0 + t1) (cell_base w0 + t2) closed)
  ↔ t1 `div` cols = t2 `div` cols.
Proof.
  unfold same_row. simpl.
  replace (cell_base w0 + t1 - cell_base w0) with t1 by lia.
  by replace (cell_base w0 + t2 - cell_base w0) with t2 by lia.
Qed.

Lemma step_doors_same_row x y :
  y < cols →
  length (filter (same_row (cell_base w0) cols) (step_doors w0 cols (x * cols + y)))
  = if decide (1 ≤ y) then 1 else 0.
Proof.
  intros Hy. unfold step_doors.
  destruct (div_mod_flat x y cols Hy) as [Hdiv Hmod]. rewrite Hdiv, Hmod.
  rewrite filter_app, length_app.
  assert (length (filter (same_row (cell_base w0) cols)
                    (if decide (1 ≤ x)
                     then [Door.mk (cell_base w0 + (x * cols + y - cols))
                             (cell_base w0 + (x * cols + y)) true]
                     else [])) = 0) as ->.
  { case_decide as Hx; [|done].
    rewrite filter_cons, decide_False; [done|].
    rewrite same_row_at, Hdiv.
    replace (x * cols + y - cols) with ((x - 1) * cols + y) by nia.
    destruct (div_mod_flat (x - 1) y cols Hy) as [-> _]. lia. }
  case_decide as Hy1; [|done].
  rewrite filter_cons, decide_True; [done|].
  rewrite same_row_at, Hdiv.
  replace (x * cols + y - 1) with (x * cols + (y - 1)) by lia.
  by destruct (div_mod_flat x (y - 1) cols ltac:(lia)) as [-> _].
Qed.

Lemma grid_doors_same_row x y :
  y ≤ cols →
  length (filter (same_row (cell_base w0) cols) (grid_doors w0 cols (x * cols + y)))
  = x * (cols - 1) + (y - 1).
Proof.
  revert y. induction x as [|x IHx]; intros y; induction y as [|y IHy]; intros Hy.
  - simpl. lia.
  - rewrite Nat.add_succ_r. cbn [grid_doors].
    rewrite filter_app, length_app, IHy, step_doors_same_row by lia.
    case_decide; lia.
  - replace (S x * cols + 0) with (x * cols + cols) by lia.
    rewrite IHx by lia. nia.
  - rewrite Nat.add_succ_r. cbn [grid_doors].
    rewrite filter_app, length_app, IHy, step_doors_same_row by lia.
    case_decide; lia.
Qed.

Lemma grid_doors_same_row_total :
  length (filter (same_row (cell_base w0) cols) (grid_doors w0 cols (rows * cols)))
  = rows * (cols - 1).
Proof.
  pose proof (grid_doors_same_row rows 0) as H. rewrite Nat.add_0_r in H.
  rewrite H by lia. lia.
Qed.

(** The direction of the [k]-th door of the grid, in any store the
    generation leaves. *)
Lemma grid_door_direction w k door :
  generates final w →
  grid_doors w0 cols (rows * cols) !! k = Some door →
  direction (door_base w0 + k) w
  = Ok (if decide (same_row (cell_base w0) cols door) then "|" else "-") w.
Proof.
  intros Hgen Hk.
  destruct (grid_doors_lookup _ _ cols_pos _ _ _ Hk) as (t&Ht&_&H2&Hcases).
  assert (∃ t1, t1 < rows * cols ∧ Door.cell1 door = cell_base w0 + t1) as (t1&Ht1&H1).
  { destruct Hcases as [(H1&_)|(H1&_)]; eexists; (split; [|exact H1]); lia. }
  assert (doorHeap final !! (door_base w0 + k) = Some door) as Hdoor
    by (by apply final_door_new).
  destruct Hgen as (Hc&Hdo&_).
  destruct (Forall2_lookup_l _ _ _ _ _ Hdo Hdoor) as (door'&Hdoor'&(He1&He2&_)).
  rewrite (direction_run w _ door'
             (Cell.mk (t1 `div` cols) (t1 `mod` cols)
                (doors_of (grid_slots w0 cols (rows * cols)) t1))
             (Cell.mk (t `div` cols) (t `mod` cols)
                (doors_of (grid_slots w0 cols (rows * cols)) t)) Hdoor').
  - simpl. destruct door as [c1 c2 closed]. simpl in H1, H2. subst c1 c2.
    f_equal. pose proof (same_row_at t1 t closed).
    destruct (decide (t1 `div` cols = t `div` cols)),
             (decide (same_row (cell_base w0) cols
                        (Door.mk (cell_base w0 + t1) (cell_base w0 + t) closed)));
      tauto || done.
  - rewrite He1, Hc, H1. by apply final_cell_new.
  - rewrite He2, Hc, H2. by apply final_cell_new.
Qed.
End GroupSizes.

(** X19: on a maze made by [new MazeGenerator(config)], with [rows] rows and
    [cols] columns, [groupDoors()] returns [rows * (cols - 1)] doors under
    ['|'] and [cols * (rows - 1)] doors under ['-'], whichever algorithm
    generated the maze, and leaves the store as it is. *)
Theorem groupDoors_group_sizes (entropy : nat → Draw) (fuel : nat) (config : Config)
    (w0 w : World) (this : maze_ref) :
  heap_wf w0 →
  constructor entropy fuel config w0 = Ok this w →
  ∃ vs hs,
    groupDoors this w = Ok [("|", vs); ("-", hs)] w
    ∧ length vs = config_rows config * (config_cols config - 1)
    ∧ length hs = config_cols config * (config_rows config - 1).
Proof.
  intros Hwf Hrun.
  pose proof (config_rows_pos config) as Hrows.
  pose proof (config_cols_pos config) as Hcols.
  destruct (constructor_doors entropy fuel config w0 this w Hwf Hrun)
    as (m1&m&ds&_&Hgen&_&_&Hm&Hds&Hperm&_).
  set (rows := config_rows config) in *. set (cols := config_cols config) in *.
  set (w1 := grid_state _ _ _ _ _) in *.
  set (l := grid_doors w0 cols (rows * cols)).
  assert (length l = door_count rows cols) as Hlen by (by apply grid_doors_total).
  rewrite <-Hlen in Hperm.
  assert (∀ k door, l !! k = Some door →
            direction (door_base w0 + k) w
            = Ok (if decide (same_row (cell_base w0) cols door) then "|" else "-") w)
    as Hdir.
  { intros k door Hk.
    by apply (grid_door_direction w0 rows cols (config_algo config) Hcols Hrows). }
  exists (filter (λ d, door_direction w d = Some "|") ds),
         (filter (λ d, door_direction w d = Some "-") ds).
  split_and!.
  - unfold groupDoors. rewrite (bind_ok _ _ _ _ _ (getMaze_ok _ _ _ Hm)), Hds.
    rewrite groupDoors_fold; [done|].
    intros d Hd. rewrite Hperm in Hd. apply elem_of_seq in Hd as [Hd1 Hd2].
    destruct (lookup_lt_is_Some_2 l (d - door_base w0)) as [door Hdoor]; [lia|].
    apply Hdir in Hdoor. replace (door_base w0 + (d - door_base w0)) with d in Hdoor by lia.
    eexists. split; [done|]. case_decide; auto.
  - rewrite Hperm.
    rewrite (length_filter_seq _ (same_row (cell_base w0) cols) l).
    + by apply grid_doors_same_row_total.
    + intros k door Hk. unfold door_direction. rewrite (Hdir k door Hk).
      case_decide; split; done || congruence.
  - rewrite Hperm.
    rewrite (length_filter_seq _ (λ door, ¬ same_row (cell_base w0) cols door) l).
    + pose proof (length_filter_complement (same_row (cell_base w0) cols) l) as Hsum.
      unfold l in Hsum, Hlen.
      rewrite (grid_doors_same_row_total w0 rows cols Hcols Hrows) in Hsum.
      rewrite Hlen in Hsum. unfold door_count in Hsum. unfold l. lia.
    + intros k door Hk. unfold door_direction. rewrite (Hdir k door Hk).
      case_decide; split; done || congruence.
Qed.

Lemma groupDoors_group_sizes_witness :
  ∃ vs hs,
    groupDoors 0 (world2x2 (false, false, true, false) "recursive" [0; 1; 2; 3] 6)
    = Ok [("|", vs); ("-", hs)]
         (world2x2 (false, false, true, false) "recursive" [0; 1; 2; 3] 6)
    ∧ length vs = config_rows (Number 2) * (config_cols (Number 2) - 1)
    ∧ length hs = config_cols (Number 2) * (config_rows (Number 2) - 1).
Proof.
  apply (groupDoors_group_sizes zero_draws 18 (Number 2) empty_world).
  - apply heap_wf_empty.
  - vm_compute. reflexivity.
Defined.

(** ** Perfect mazes *)

(** An open door at a cell of the maze is one of the doors of the maze, and
    leads to a cell of the maze. *)
Lemma open_between_link w cs ds a b :
  heap_wf w → maze_graph w cs ds → a ∈ cs → open_between w a b →
  b ∈ cs ∧ ∃ d door, d ∈ ds ∧ doorHeap w !! d = Some door
                     ∧ Door.closed door = false ∧ joins door a b.
Proof.
  intros Hwf Hmg Ha (d&door&Hd&Hopen&Hends).
  assert (d ∈ ds) as Hds.
  { destruct (wf_door_cell _ Hwf _ _ Hd) as [(x1&dir1&Hx1&Hin1) (x2&dir2&Hx2&Hin2)].
    destruct Hends as [[He _]|[_ He]]; rewrite He in *.
    - by apply (mg_cell_doors _ _ _ Hmg a x1 dir1 d).
    - by apply (mg_cell_doors _ _ _ Hmg a x2 dir2 d). }
  split; [|by exists d, door].
  destruct (mg_door _ _ _ Hmg d Hds) as (door'&Hd'&H1&H2&_).
  rewrite Hd in Hd'. injection Hd' as <-.
  destruct Hends as [[_ <-]|[<- _]]; done.
Qed.

(** A walk over open doors that stays away from a cell does not go through
    a door of that cell. *)
Lemma path_avoids_door w cs ds d door a path s e :
  heap_wf w → maze_graph w cs ds →
  doorHeap w !! d = Some door → Door.cell1 door = a ∨ Door.cell2 door = a →
  s ∈ cs → head path = Some s → last path = Some e → a ∉ path →
  (∀ i x y, path !! i = Some x → path !! S i = Some y → open_between w x y) →
  rtc (link w (filter (λ d', d' ≠ d) ds)) s e.
Proof.
  intros Hwf Hmg Hd Hend. revert s.
  induction path as [|x path IH]; intros s Hs Hhead Hlast Ha Hsteps; [done|].
  injection Hhead as ->. destruct path as [|y path].
  - injection Hlast as ->. done.
  - destruct (open_between_link w cs ds s y Hwf Hmg Hs (Hsteps 0 s y eq_refl eq_refl))
      as (Hy&d'&door'&Hd'in&Hd'&Hopen'&Hj).
    apply rtc_l with y.
    + exists d', door'. split_and!; [|done..].
      apply list_elem_of_filter. split; [|done]. intros ->.
      rewrite Hd in Hd'. injection Hd' as <-. apply Ha.
      destruct Hj as [[? ?]|[? ?]], Hend; subst; set_solver.
    + apply IH; [done|done|done| |].
      * intros Hin. apply Ha. by right.
      * intros i. apply (Hsteps (S i)).
Qed.

(** In a forest, two walks over open doors between the same two cells that
    visit no cell twice are the same walk. *)
Lemma forest_unique_path w cs ds :
  heap_wf w → maze_graph w cs ds → forest w ds →
  ∀ p q a b, a ∈ cs → simple_path w a b p → simple_path w a b q → p = q.
Proof.
  intros Hwf Hmg Hforest p.
  induction p as [|a0 p IH]; intros q a b Ha (Hhp&Hlp&Hnp&Hsp) (Hhq&Hlq&Hnq&Hsq); [done|].
  injection Hhp as ->. destruct q as [|a' q]; [done|]. injection Hhq as ->.
  apply NoDup_cons in Hnp as [Hap Hnp]. apply NoDup_cons in Hnq as [Haq Hnq].
  f_equal.
  destruct p as [|x p], q as [|y q].
  - done.
  - exfalso. injection Hlp as <-. rewrite last_cons_cons in Hlq.
    by apply last_Some_elem_of in Hlq.
  - exfalso. injection Hlq as <-. rewrite last_cons_cons in Hlp.
    by apply last_Some_elem_of in Hlp.
  - rewrite last_cons_cons in Hlp, Hlq.
    destruct (open_between_link w cs ds a x Hwf Hmg Ha (Hsp 0 a x eq_refl eq_refl))
      as (Hx&d&door&Hdin&Hd&Hopen&Hj).
    destruct (open_between_link w cs ds a y Hwf Hmg Ha (Hsq 0 a y eq_refl eq_refl))
      as (Hy&d2&door2&Hd2in&Hd2&Hopen2&Hj2).
    destruct (decide (x = y)) as [->|Hne].
    + apply (IH (y :: q) y b); [done| |].
      * split_and!; [done|done|done|]. intros i. apply (Hsp (S i)).
      * split_and!; [done|done|done|]. intros i. apply (Hsq (S i)).
    + exfalso.
      assert (Door.cell1 door = a ∨ Door.cell2 door = a) as Hend.
      { destruct Hj as [[? ?]|[? ?]]; auto. }
      assert (rtc (link w (filter (λ d', d' ≠ d) ds)) x a) as Hwalk.
      { etrans.
        { apply (path_avoids_door w cs ds d door a (x :: p) x b); try done.
          intros i. apply (Hsp (S i)). }
        etrans.
        { apply rtc_sym; [by apply link_sym|].
          apply (path_avoids_door w cs ds d door a (y :: q) y b); try done.
          intros i. apply (Hsq (S i)). }
        apply rtc_once. apply link_sym. exists d2, door2. split_and!; [|done..].
        apply list_elem_of_filter. split; [|done]. intros ->.
        rewrite Hd in Hd2. injection Hd2 as <-.
        assert (a ≠ x) by (intros ->; apply Hap; left).
        assert (a ≠ y) by (intros ->; apply Haq; left).
        destruct Hj as [[? ?]|[? ?]], Hj2 as [[? ?]|[? ?]]; congruence. }
      apply (Hforest d door Hdin Hd Hopen).
      destruct Hj as [[H1 H2]|[H1 H2]]; rewrite H1, H2; [|done].
      apply rtc_sym; [by apply link_sym | done].
Qed.

(** X20: a maze generated with Prim's or Kruskal's algorithm is perfect.
    Between any two of its cells there is exactly one walk over open doors
    that visits no cell twice, and [solve] returns that walk whatever
    [Math.random()] answers during the search. *)
Theorem prim_and_kruskal_mazes_are_perfect (entropy : nat → Draw) (fuel : nat)
    (config : Config) (w0 : World) :
  heap_wf w0 →
  config_algo config = "prim" ∨ config_algo config = "kruskal" →
  4 * (config_rows config * config_cols config) + 2 ≤ fuel →
  ∃ this w m,
    constructor entropy fuel config w0 = Ok this w
    ∧ mazeHeap w !! this = Some m
    ∧ ∀ a b, a ∈ concat (MazeGenerator.cells m) → b ∈ concat (MazeGenerator.cells m) →
        ∃ path,
          simple_path w a b path
          ∧ (∀ p, simple_path w a b p → p = path)
          ∧ ∀ entropy' fuel', 2 * length (cellHeap w) + 2 ≤ fuel' →
              ∃ w', solve entropy' fuel' this a b w = Ok path w'.
Proof.
  intros Hwf Halgo Hfuel.
  destruct (constructor_parts entropy fuel config w0) as (Hrun&Hm1&Hcells&Hmg&Hclosed).
  set (w1 := grid_state _ _ _ _ _) in *.
  set (ds := seq (door_base w0) _) in *.
  set (m1 := MazeGenerator.mk _ _ _ _ _) in *.
  assert (heap_wf w1) as Hwf1.
  { apply final_wf; [apply config_cols_pos | apply config_rows_pos | done]. }
  assert (maze_graph w1 (concat (MazeGenerator.cells m1)) ds) as Hmg'.
  { simpl. by rewrite Hcells. }
  assert (length (concat (MazeGenerator.cells m1))
          = config_rows config * config_cols config) as Hn.
  { simpl. by rewrite Hcells, length_seq. }
  assert (∃ w, randomizeMaze entropy fuel (this_maze w0) w1 = Ok () w ∧ generates w1 w
               ∧ spanning_tree w (concat (MazeGenerator.cells m1)) ds)
    as (w&Hrand&Hgen&Htree).
  { unfold randomizeMaze. rewrite (bind_ok _ _ _ _ _ (getMaze_ok _ _ _ Hm1)).
    case_decide as Hprim; [|case_decide as Hkruskal].
    - destruct (createRandomMazePrim_tree entropy fuel (this_maze w0) m1 w1 ds)
        as (w&?&?&Htree&_); [done..|lia|].
      by exists w.
    - destruct (createRandomMazeKruskal_tree entropy fuel (this_maze w0) m1 w1
                  (concat (MazeGenerator.cells m1)) ds) as (w&?&?&Htree&_);
        [done|done|done|done|lia|].
      by exists w.
    - simpl in Hprim, Hkruskal. by destruct Halgo. }
  rewrite Hrand in Hrun.
  destruct (generated_maze w1 w _ _ ds Hgen Hm1 eq_refl) as (m&ds'&Hm&Hc&_).
  assert (heap_wf w) as Hwfw by (by eapply heap_wf_generates).
  assert (maze_graph w (concat (MazeGenerator.cells m1)) ds) as Hmgw
    by (by eapply maze_graph_generates).
  exists (this_maze w0), w, m. rewrite Hc. split_and!; [done|done|].
  intros a b Ha Hb.
  assert (a < length (cellHeap w)) as Hvalid by (by eapply mg_cells_valid).
  assert (reachable w a b) as Hreach.
  { eapply link_reachable. by apply (spanning_tree_connected _ _ _ Htree). }
  destruct (solve_finds entropy w (this_maze w0) a b _ Hwfw Hvalid Hreach (Nat.le_refl _))
    as (path&_&_&Hpath).
  assert (∀ p, simple_path w a b p → p = path) as Hunique.
  { intros p Hp.
    apply (forest_unique_path w _ ds Hwfw Hmgw (proj2 (proj2 Htree)) p path a b);
      done. }
  exists path. split_and!; [done|done|].
  intros entropy' fuel' Hfuel'.
  destruct (solve_finds entropy' w (this_maze w0) a b fuel' Hwfw Hvalid Hreach Hfuel')
    as (path'&w'&Hsolve&Hpath').
  exists w'. by rewrite <-(Hunique path' Hpath').
Qed.

Lemma prim_and_kruskal_mazes_are_perfect_witness :
  ∃ this w m,
    constructor zero_draws 18 (Options (Some 2) (Some 2) (Some "prim")) empty_world
    = Ok this w
    ∧ mazeHeap w !! this = Some m
    ∧ ∀ a b, a ∈ concat (MazeGenerator.cells m) → b ∈ concat (MazeGenerator.cells m) →
        ∃ path,
          simple_path w a b path
          ∧ (∀ p, simple_path w a b p → p = path)
          ∧ ∀ entropy' fuel', 2 * length (cellHeap w) + 2 ≤ fuel' →
              ∃ w', solve entropy' fuel' this a b w = Ok path w'.
Proof.
  apply (prim_and_kruskal_mazes_are_perfect zero_draws 18
           (Options (Some 2) (Some 2) (Some "prim")) empty_world).
  - apply heap_wf_empty.
  - left. reflexivity.
  - vm_compute. lia.
Defined.

(** ** The four sides of a cell *)

(** The coordinates one step from [(x, y)] in direction [dir]. *)
Definition toward (dir : Dir) (x y : nat) : nat * nat :=
  match dir with
  | Up => (x - 1, y)
  | Down => (x + 1, y)
  | Left => (x, y - 1)
  | Right => (x, y + 1)
  end.

(** The grid goes on in direction [dir] from [(x, y)]. *)
Definition has_side (rows cols : nat) (dir : Dir) (x y : nat) : Prop :=
  match dir with
  | Up => 1 ≤ x
  | Down => x + 1 < rows
  | Left => 1 ≤ y
  | Right => y + 1 < cols
  end.

(** The position of the cell one step from position [i] in direction
    [dir]. *)
Definition slot_far (cols i : nat) (dir : Dir) : nat :=
  match dir with
  | Up => i - cols
  | Down => i + cols
  | Left => i - 1
  | Right => i + 1
  end.

(** Position [i] of a grid of [T] cells has a cell on its [dir] side. *)
Definition slot_side (cols T i : nat) (dir : Dir) : Prop :=
  match dir with
  | Up => 1 ≤ i `div` cols
  | Down => i + cols < T
  | Left => 1 ≤ i `mod` cols
  | Right => 1 ≤ (i + 1) `mod` cols ∧ i + 1 < T
  end.

Section GridSides.
Variable w0 : World.
Variables rows cols : nat.
Variable algo : string.
Hypothesis cols_pos : 0 < cols.
Hypothesis rows_pos : 0 < rows.

Abbreviation final := (grid_state w0 rows cols algo (rows * cols)).

(** An entry of a [doors] map names the door to the cell on that side. *)
Lemma grid_slots_dir T i dir d :
  (i, dir, d) ∈ grid_slots w0 cols T →
  i < T ∧ slot_side cols T i dir
  ∧ ∃ k door, d = door_base w0 + k ∧ grid_doors w0 cols T !! k = Some door
      ∧ joins door (cell_base w0 + i) (cell_base w0 + slot_far cols i dir).
Proof.
  induction T as [|T IH]; simpl; [by intros ?%elem_of_nil|].
  rewrite elem_of_app. intros [Hin|Hin].
  { destruct (IH Hin) as (Hi&Hside&k&door&->&Hk&Hends). split; [lia|]. split.
    - destruct dir; simpl in *; lia.
    - exists k, door. split_and!; [done| |done]. by apply lookup_app_l_Some. }
  clear IH. unfold step_slots in Hin. unfold step_doors.
  apply elem_of_app in Hin as [Hin|Hin].
  - case_decide as Hx; [|by apply elem_of_nil in Hin].
    pose proof (div_ge_1 _ cols_pos _ Hx).
    apply elem_of_cons in Hin as [Hin|Hin%list_elem_of_singleton]; simplify_eq.
    + split; [lia|]. split; [done|].
      eexists (length (grid_doors w0 cols T)), _. split_and!; [done| |].
      * rewrite lookup_app_r, Nat.sub_diag by done. done.
      * right. done.
    + split; [lia|]. split; [simpl; lia|].
      eexists (length (grid_doors w0 cols T)), _. split_and!; [done| |].
      * rewrite lookup_app_r, Nat.sub_diag by done. done.
      * left. simpl. split; [done|]. f_equal. lia.
  - case_decide as Hy; [|by apply elem_of_nil in Hin].
    assert (1 ≤ T) by (by apply (mod_ge_1 cols)).
    apply elem_of_cons in Hin as [Hin|Hin%list_elem_of_singleton]; simplify_eq.
    + split; [lia|]. split; [done|]. case_decide.
      * eexists (S (length (grid_doors w0 cols T))), _. split_and!; [lia| |].
        -- rewrite lookup_app_r by lia.
           replace (S (length (grid_doors w0 cols T)) - length (grid_doors w0 cols T))
             with 1 by lia.
           done.
        -- right. done.
      * eexists (length (grid_doors w0 cols T)), _. split_and!; [done| |].
        -- rewrite lookup_app_r, Nat.sub_diag by done. done.
        -- right. done.
    + split; [lia|]. split.
      { simpl. replace (T - 1 + 1) with T by lia. lia. }
      case_decide.
      * eexists (S (length (grid_doors w0 cols T))), _. split_and!; [lia| |].
        -- rewrite lookup_app_r by lia.
           replace (S (length (grid_doors w0 cols T)) - length (grid_doors w0 cols T))
             with 1 by lia.
           done.
        -- left. simpl. split; [done|]. f_equal. lia.
      * eexists (length (grid_doors w0 cols T)), _. split_and!; [done| |].
        -- rewrite lookup_app_r, Nat.sub_diag by done. done.
        -- left. simpl. split; [done|]. f_equal. lia.
Qed.

(** A cell with a cell on its [dir] side has an entry for [dir]. *)
Lemma grid_slots_has T i dir :
  i < T → slot_side cols T i dir → ∃ d, (i, dir, d) ∈ grid_slots w0 cols T.
Proof.
  intros Hi Hside.
  assert (∀ t s, t < T → s ∈ step_slots w0 cols t → s ∈ grid_slots w0 cols T) as Hstep.
  { intros t s Ht Hs. apply (grid_slots_mono w0 cols (S t) T); [lia|].
    simpl. apply elem_of_app. by right. }
  destruct dir; simpl in Hside.
  - eexists. apply (Hstep i); [done|]. unfold step_slots.
    apply elem_of_app. left. rewrite decide_True by done. left.
  - assert (1 ≤ (i + cols) `div` cols) as Hx.
    { replace (i + cols) with (i + 1 * cols) by lia. rewrite Nat.div_add by lia. lia. }
    eexists. apply (Hstep (i + cols)); [done|]. unfold step_slots.
    apply elem_of_app. left. rewrite decide_True by done.
    replace (i + cols - cols) with i by lia. right. left.
  - eexists. apply (Hstep i); [done|]. unfold step_slots.
    apply elem_of_app. right. rewrite decide_True by done. left.
  - destruct Hside as [Hy Hlt].
    eexists. apply (Hstep (i + 1)); [done|]. unfold step_slots.
    apply elem_of_app. right. rewrite decide_True by done.
    replace (i + 1 - 1) with i by lia. right. left.
Qed.

Lemma slot_side_has_side x y dir :
  x < rows → y < cols →
  slot_side cols (rows * cols) (x * cols + y) dir ↔ has_side rows cols dir x y.
Proof.
  intros Hx Hy. destruct (div_mod_flat x y cols Hy) as [Hdiv Hmod].
  destruct dir; simpl; rewrite ?Hdiv, ?Hmod; [done|nia|done|].
  destruct (decide (y + 1 < cols)) as [Hlt|Hge].
  - replace (x * cols + y + 1) with (x * cols + (y + 1)) by lia.
    destruct (div_mod_flat x (y + 1) cols Hlt) as [_ ->]. split; [done|]. nia.
  - replace (x * cols + y + 1) with (0 + (x + 1) * cols) by lia.
    rewrite Nat.Div0.mod_add, Nat.Div0.mod_0_l. lia.
Qed.

Lemma slot_far_toward x y dir :
  x < rows → y < cols → has_side rows cols dir x y →
  slot_far cols (x * cols + y) dir < rows * cols
  ∧ (slot_far cols (x * cols + y) dir `div` cols,
     slot_far cols (x * cols + y) dir `mod` cols) = toward dir x y.
Proof.
  intros Hx Hy Hside. destruct dir; simpl in *.
  - replace (x * cols + y - cols) with ((x - 1) * cols + y) by nia.
    destruct (div_mod_flat (x - 1) y cols Hy) as [-> ->].
    split; [|done]. nia.
  - replace (x * cols + y + cols) with ((x + 1) * cols + y) by nia.
    destruct (div_mod_flat (x + 1) y cols Hy) as [-> ->].
    split; [|done]. nia.
  - replace (x * cols + y - 1) with (x * cols + (y - 1)) by lia.
    destruct (div_mod_flat x (y - 1) cols ltac:(lia)) as [-> ->].
    split; [|done]. nia.
  - replace (x * cols + y + 1) with (x * cols + (y + 1)) by lia.
    destruct (div_mod_flat x (y + 1) cols Hside) as [-> ->].
    split; [|done]. nia.
Qed.
End GridSides.

(** X21: in a maze made by [new MazeGenerator(config)], the [doors] map of
    [cells[x][y]] has an entry for a direction exactly when the grid goes on
    in that direction: ['up'] when [x >= 1], ['down'] when [x + 1 < rows],
    ['left'] when [y >= 1], ['right'] when [y + 1 < cols]. The door under
    that entry joins the cell to the cell of the same maze one step in that
    direction: [cells[x - 1][y]], [cells[x + 1][y]], [cells[x][y - 1]] or
    [cells[x][y + 1]], whose [row] and [col] are those coordinates. *)
Theorem doors_lead_to_the_four_sides (entropy : nat → Draw) (fuel : nat)
    (config : Config) (w0 w : World) (this : maze_ref) :
  constructor entropy fuel config w0 = Ok this w →
  ∃ m,
    mazeHeap w !! this = Some m
    ∧ ∀ x y, x < config_rows config → y < config_cols config →
        ∃ row c cell,
          MazeGenerator.cells m !! x = Some row ∧ row !! y = Some c
          ∧ cellHeap w !! c = Some cell
          ∧ ∀ dir,
              match obj_get dir (Cell.doors cell) with
              | Some d =>
                  has_side (config_rows config) (config_cols config) dir x y
                  ∧ ∃ door row' c' cell',
                      doorHeap w !! d = Some door ∧ joins door c c'
                      ∧ MazeGenerator.cells m !! (toward dir x y).1 = Some row'
                      ∧ row' !! (toward dir x y).2 = Some c'
                      ∧ cellHeap w !! c' = Some cell'
                      ∧ (Cell.row cell', Cell.col cell') = toward dir x y
              | None => ¬ has_side (config_rows config) (config_cols config) dir x y
              end.
Proof.
  intros Hcon.
  pose proof (config_rows_pos config) as Hrows.
  pose proof (config_cols_pos config) as Hcols.
  destruct (constructor_parts entropy fuel config w0) as (Hrun&Hm1&Hcells&_&_).
  set (rows := config_rows config) in *. set (cols := config_cols config) in *.
  set (w1 := grid_state _ _ _ _ _) in *.
  set (ds := seq (door_base w0) _) in *.
  rewrite Hcon in Hrun.
  destruct (randomizeMaze entropy fuel (this_maze w0) w1) as [[] w2| | |] eqn:Hrand;
    [|done..].
  injection Hrun as -> ->.
  pose proof (posts_ok _ _ _ _ _ (randomizeMaze_generates entropy fuel _) Hrand) as Hgen.
  destruct (generated_maze w1 w2 _ _ ds Hgen Hm1 eq_refl) as (m&ds'&Hm&Hc&_).
  simpl in Hc. exists m. split; [done|]. intros x y Hx Hy.
  assert (x * cols + y < rows * cols) as Hk by nia.
  assert (∀ i, i < rows * cols →
            cellHeap w2 !! (cell_base w0 + i)
            = Some (Cell.mk (i `div` cols) (i `mod` cols)
                      (doors_of (grid_slots w0 cols (rows * cols)) i))) as Hcell.
  { intros i Hi. rewrite (generates_cells _ _ Hgen). unfold w1, grid_state.
    by apply grid_cell_lookup. }
  exists (seq (cell_base w0 + x * cols) cols), (cell_base w0 + (x * cols + y)).
  eexists. split_and!.
  - rewrite Hc. unfold grid_cell_refs. by rewrite list_lookup_fmap, lookup_seq_lt.
  - rewrite lookup_seq_lt by done. f_equal. lia.
  - by apply Hcell.
  - intros dir. simpl.
    destruct (obj_get dir (doors_of (grid_slots w0 cols (rows * cols)) (x * cols + y)))
      as [d|] eqn:Hget.
    + apply obj_get_Some_elem, elem_of_doors_of in Hget.
      apply (grid_slots_dir w0 rows cols Hcols Hrows) in Hget as (_&Hside&k&door&->&Hkd&Hj).
      apply (slot_side_has_side rows cols Hcols Hrows) in Hside; [|done..].
      split; [done|].
      destruct (slot_far_toward rows cols Hcols Hrows x y dir Hx Hy Hside) as [Hfar Hto].
      assert (doorHeap w1 !! (door_base w0 + k) = Some door) as Hdoor
        by (by apply final_door_new).
      destruct Hgen as (_&Hdo&_).
      destruct (Forall2_lookup_l _ _ _ _ _ Hdo Hdoor) as (door'&Hdoor'&(He1&He2&_)).
      set (far := slot_far cols (x * cols + y) dir) in *.
      destruct (flat_div_mod far cols Hcols) as [Hflat Hmod].
      assert (far `div` cols < rows) as Hdiv.
      { apply Nat.Div0.div_lt_upper_bound. lia. }
      exists door', (seq (cell_base w0 + far `div` cols * cols) cols),
             (cell_base w0 + far).
      eexists. rewrite <-Hto. simpl.
      split_and!; [done| | | |by apply Hcell|done].
      * unfold joins. by rewrite He1, He2.
      * rewrite Hc. unfold grid_cell_refs. by rewrite list_lookup_fmap, lookup_seq_lt.
      * rewrite lookup_seq_lt by done. f_equal. lia.
    + intros Hside.
      apply (slot_side_has_side rows cols Hcols Hrows) in Hside; [|done..].
      destruct (grid_slots_has w0 rows cols Hcols Hrows (rows * cols) (x * cols + y) dir
                  Hk Hside)
        as [d Hd].
      apply elem_of_doors_of in Hd.
      apply (obj_get_elem _ dir d) in Hd; [congruence|].
      by apply grid_slots_keys_NoDup.
Qed.

Lemma doors_lead_to_the_four_sides_witness :
  ∃ m,
    mazeHeap (world2x2 (false, false, true, false) "recursive" [0; 1; 2; 3] 6) !! 0
    = Some m
    ∧ ∀ x y, x < config_rows (Number 2) → y < config_cols (Number 2) →
        ∃ row c cell,
          MazeGenerator.cells m !! x = Some row ∧ row !! y = Some c
          ∧ cellHeap (world2x2 (false, false, true, false) "recursive" [0; 1; 2; 3] 6) !! c
            = Some cell
          ∧ ∀ dir,
              match obj_get dir (Cell.doors cell) with
              | Some d =>
                  has_side (config_rows (Number 2)) (config_cols (Number 2)) dir x y
                  ∧ ∃ door row' c' cell',
                      doorHeap (world2x2 (false, false, true, false) "recursive"
                                  [0; 1; 2; 3] 6) !! d = Some door
                      ∧ joins door c c'
                      ∧ MazeGenerator.cells m !! (toward dir x y).1 = Some row'
                      ∧ row' !! (toward dir x y).2 = Some c'
                      ∧ cellHeap (world2x2 (false, false, true, false) "recursive"
                                    [0; 1; 2; 3] 6) !! c' = Some cell'
                      ∧ (Cell.row cell', Cell.col cell') = toward dir x y
              | None =>
                  ¬ has_side (config_rows (Number 2)) (config_cols (Number 2)) dir x y
              end.
Proof.
  apply (doors_lead_to_the_four_sides zero_draws 18 (Number 2) empty_world).
  vm_compute. reflexivity.
Defined.
